(** * A cycle-level memory-hierarchy simulator: model and verified properties

    The development embeds [mem_sim.py]: tree pseudo-LRU replacement, N-way
    set-associative cache levels with asynchronous fill continuations, an
    interconnect with bounded bandwidth, a DDR memory controller that reorders
    requests, and the per-bank DDR state machine.

    Python integers are [Z]; Python lists are [list], indexed the way Python
    indexes them (negative indices count from the end, anything else out of
    range raises); a raised exception is [None]. *)

From Stdlib Require Import ZArith Lia ZifyNat.
From stdpp Require Import base option list gmap strings.

Local Open Scope Z_scope.

(** ** Python primitives *)

(** [int.bit_length()]. *)
Definition bit_length (n : Z) : Z :=
  if n =? 0 then 0 else Z.log2 (Z.abs n) + 1.

(** [a // b] and [a % b]: floor division and its remainder; both raise
    [ZeroDivisionError] on a zero divisor. *)
Definition py_floordiv (a b : Z) : option Z :=
  if b =? 0 then None else Some (a / b).

Definition py_mod (a b : Z) : option Z :=
  if b =? 0 then None else Some (a mod b).

(** Position denoted by the subscript [i] in a list of length [len]. *)
Definition py_pos (len : nat) (i : Z) : option nat :=
  if (0 <=? i) && (i <? Z.of_nat len) then Some (Z.to_nat i)
  else if (- Z.of_nat len <=? i) && (i <? 0) then Some (Z.to_nat (Z.of_nat len + i))
  else None.

(** [l[i]]. *)
Definition py_getitem {A} (l : list A) (i : Z) : option A :=
  p ← py_pos (length l) i; l !! p.

(** [l[i] = x]. *)
Definition py_setitem {A} (l : list A) (i : Z) (x : A) : option (list A) :=
  p ← py_pos (length l) i; Some (<[p := x]> l).

(** [[x] * n]. *)
Definition py_repeat {A} (x : A) (n : Z) : list A := replicate (Z.to_nat n) x.

(** ** PLRU *)

Module PLRU.

Record t := mk { bits : list Z; ways : Z }.

Definition init (ways : Z) : t :=
  {| bits := py_repeat 0 (ways - 1); ways := ways |}.

(** Body of the loop of [update_on_access], run for the [n] levels that
    start at [level]. *)
Fixpoint update_loop (n : nat) (num_levels way level : Z)
    (bits : list Z) (idx : Z) : option (list Z) :=
  match n with
  | O => Some bits
  | S n' =>
      let direction := Z.land (Z.shiftr way (num_levels - 1 - level)) 1 in
      bits' ← py_setitem bits idx (1 - direction);
      update_loop n' num_levels way (level + 1) bits'
                  (Z.shiftl idx 1 + 1 + direction)
  end.

Definition update_on_access (p : t) (way : Z) : option t :=
  let num_levels := bit_length (ways p) - 1 in
  bits' ← update_loop (Z.to_nat num_levels) num_levels way 0 (bits p) 0;
  Some {| bits := bits'; ways := ways p |}.

(** Body of the loop of [get_victim], run for [n] levels.  Next to the way
    it also returns the subscripts at which [bits] was read, first read
    first. *)
Fixpoint victim_loop (n : nat) (bits : list Z) (way idx : Z)
    : option (Z * list Z) :=
  match n with
  | O => Some (way, [])
  | S n' =>
      direction ← py_getitem bits idx;
      '(w, reads) ← victim_loop n' bits (Z.lor (Z.shiftl way 1) direction)
                                 (Z.shiftl idx 1 + 1 + direction);
      Some (w, idx :: reads)
  end.

Definition get_victim_reads (p : t) : option (Z * list Z) :=
  victim_loop (Z.to_nat (bit_length (ways p) - 1)) (bits p) 0 0.

Definition get_victim (p : t) : option Z := fst <$> get_victim_reads p.

End PLRU.

(** ** heapq

    The binary heap of Python's standard library, on a list used as an array.
    [lt] is the [<] of the elements.  Each loop runs for at most a given
    number of rounds; the number handed to it is never exhausted before the
    loop ends (lemmas [_siftdown_loop_fuel] and [_siftup_loop_fuel]).  The
    private functions are called on positions inside the list only; on other
    positions they leave the list as it is. *)

Module heapq.
Section heapq.
Context {A : Type} (lt : A -> A -> bool).

(** The [while pos > startpos] loop of [_siftdown], followed by
    [heap[pos] = newitem]. *)
Fixpoint _siftdown_loop (n : nat) (heap : list A) (startpos pos : nat)
    (newitem : A) : list A :=
  match n with
  | O => <[pos := newitem]> heap
  | S n' =>
      if decide (startpos < pos)%nat then
        let parentpos := ((pos - 1) / 2)%nat in
        match heap !! parentpos with
        | Some parent =>
            if lt newitem parent
            then _siftdown_loop n' (<[pos := parent]> heap) startpos parentpos newitem
            else <[pos := newitem]> heap
        | None => <[pos := newitem]> heap
        end
      else <[pos := newitem]> heap
  end.

Definition _siftdown (heap : list A) (startpos pos : nat) : list A :=
  match heap !! pos with
  | Some newitem => _siftdown_loop pos heap startpos pos newitem
  | None => heap
  end.

(** The [while childpos < endpos] loop of [_siftup]: the smaller child is
    moved up until a leaf is reached; returns the heap and the leaf. *)
Fixpoint _siftup_loop (n : nat) (heap : list A) (endpos pos : nat)
    : list A * nat :=
  match n with
  | O => (heap, pos)
  | S n' =>
      let childpos := (2 * pos + 1)%nat in
      if decide (childpos < endpos)%nat then
        let rightpos := (childpos + 1)%nat in
        let childpos :=
          if decide (rightpos < endpos)%nat then
            match heap !! childpos, heap !! rightpos with
            | Some l, Some r => if lt l r then childpos else rightpos
            | _, _ => childpos
            end
          else childpos in
        match heap !! childpos with
        | Some child => _siftup_loop n' (<[pos := child]> heap) endpos childpos
        | None => (heap, pos)
        end
      else (heap, pos)
  end.

Definition _siftup (heap : list A) (pos : nat) : list A :=
  match heap !! pos with
  | Some newitem =>
      let '(heap', leaf) := _siftup_loop (length heap) heap (length heap) pos in
      _siftdown (<[leaf := newitem]> heap') pos leaf
  | None => heap
  end.

Definition heappush (heap : list A) (item : A) : list A :=
  let heap := heap ++ [item] in
  _siftdown heap 0 (length heap - 1).

(** [heappop] raises [IndexError] on an empty heap. *)
Definition heappop (heap : list A) : option (A * list A) :=
  match reverse heap with
  | [] => None
  | lastelt :: rest =>
      let heap := reverse rest in
      match heap with
      | [] => Some (lastelt, [])
      | returnitem :: _ => Some (returnitem, _siftup (<[0%nat := lastelt]> heap) 0)
      end
  end.

(** [for i in reversed(range(n // 2)): _siftup(x, i)], for the [n]
    positions below [n]. *)
Fixpoint heapify_loop (n : nat) (x : list A) : list A :=
  match n with
  | O => x
  | S i => heapify_loop i (_siftup x i)
  end.

Definition heapify (x : list A) : list A :=
  heapify_loop (length x / 2)%nat x.

End heapq.
End heapq.

(** ** Cache lines, requests and continuations *)

Module CacheLine.
Record t := mk { valid : bool; tag : option Z; dirty : bool }.
Definition init : t := {| valid := false; tag := None; dirty := false |}.
End CacheLine.

(** [req_type]: the strings ['read'] and ['write']. *)
Inductive ReqType := read | write.

(** [core_id]: an integer for the cores, a name for the shared cache. *)
Inductive CoreId := CoreInt (n : Z) | CoreStr (s : string).

(** The callables that the simulator passes around.  The two closures that the
    source builds are kept as data together with what they capture:
    - [CbDequeue core addr] is Core.tick's
      [lambda addr=addr: self.dequeue_access('read', addr)];
    - [CbFill level index victim_idx tag callback] is the [lower_cb] that
      CacheLevel.read builds on a miss.  It captures [self], [index], [tag],
      [victim_idx], [callback] and the objects [victim_line] and [plru]; the
      lists [self.sets], [self.sets[index]] and [self.plru_trees] are never
      rebound or resized, so the two objects are the ones found again at
      [index] and [victim_idx];
    - [CbExternal n] is a callable of the caller's own, known by the number
      [n]; running it is recorded in the world. *)
Inductive Callback :=
  | CbExternal (n : nat)
  | CbDequeue (core : nat) (addr : Z)
  | CbFill (level : nat) (index victim_idx tag : Z) (callback : Callback).

Module MemoryRequest.
Record t := mk {
  core_id : CoreId;
  time : Z;
  req_type : ReqType;
  addr : Z;
  callback : option Callback;
  completion_time : Z
}.

Definition init (core_id : CoreId) (time : Z) (req_type : ReqType) (addr : Z)
    (callback : option Callback) : t :=
  {| core_id := core_id; time := time; req_type := req_type; addr := addr;
     callback := callback; completion_time := -1 |}.

(** [__lt__]. *)
Definition lt (self other : t) : bool := time self <? time other.

(** [self.time = time; self.completion_time = completion_time]. *)
Definition set_times (self : t) (time completion_time : Z) : t :=
  {| core_id := core_id self; time := time; req_type := req_type self;
     addr := addr self; callback := callback self;
     completion_time := completion_time |}.
End MemoryRequest.

#[global] Instance ReqType_eq_dec : EqDecision ReqType.
Proof. solve_decision. Defined.
#[global] Instance CoreId_eq_dec : EqDecision CoreId.
Proof. solve_decision. Defined.
#[global] Instance Callback_eq_dec : EqDecision Callback.
Proof. solve_decision. Defined.
#[global] Instance MemoryRequest_eq_dec : EqDecision MemoryRequest.t.
Proof. solve_decision. Defined.

(** [<] on the pairs [(key, req)] that the queues hold.  Python compares the
    first components and, when they are equal, the requests: the same object
    is equal to itself, two objects are compared by [__lt__].  A request is
    never below itself, so the requests' identity needs no model. *)
Definition entry_lt (a b : Z * MemoryRequest.t) : bool :=
  if a.1 =? b.1 then MemoryRequest.lt a.2 b.2 else a.1 <? b.1.

(** ** Interconnect *)

Module Interconnect.
Record t := mk {
  queue : list (Z * MemoryRequest.t);
  delay : Z;
  bandwidth : Z;
  cycle : Z
}.

Definition init (delay bandwidth : Z) : t :=
  {| queue := []; delay := delay; bandwidth := bandwidth; cycle := 0 |}.

(** [request], given the value [jitter] that [random.randint(0, 2)]
    returns. *)
Definition request (self : t) (req : MemoryRequest.t) (jitter : Z) : t :=
  let ready_time := cycle self + delay self + jitter in
  {| queue := heapq.heappush entry_lt (queue self) (ready_time, req);
     delay := delay self; bandwidth := bandwidth self; cycle := cycle self |}.

(** The [while] loop of [tick]: returns the popped pairs, first popped
    first, and the queue that is left.  [requests_to_forward] is the list of
    their second components.  Each round pops one pair, so [n] rounds are
    enough for a queue of length [n] (lemma [select_loop_fuel]). *)
Fixpoint select_loop (n : nat) (queue : list (Z * MemoryRequest.t))
    (cycle bandwidth processed : Z) (popped : list (Z * MemoryRequest.t))
    : list (Z * MemoryRequest.t) * list (Z * MemoryRequest.t) :=
  match n with
  | O => (popped, queue)
  | S n' =>
      match queue with
      | (ready_time, _) :: _ =>
          if (ready_time <=? cycle) && (processed <? bandwidth) then
            match heapq.heappop entry_lt queue with
            | Some (entry, queue') =>
                select_loop n' queue' cycle bandwidth (processed + 1)
                            (popped ++ [entry])
            | None => (popped, queue)
            end
          else (popped, queue)
      | [] => (popped, queue)
      end
  end.

Definition select (self : t)
    : list (Z * MemoryRequest.t) * list (Z * MemoryRequest.t) :=
  select_loop (length (queue self)) (queue self) (cycle self)
              (bandwidth self) 0 [].
End Interconnect.

(** ** DDR memory *)

Inductive DDRState := IDLE | ACTIVATE_BANK_ROW | WRITING | READING | PRECHARGING.

#[global] Instance DDRState_eq_dec : EqDecision DDRState.
Proof. solve_decision. Defined.

Module DDRMemory.
Record t := mk {
  num_banks : Z;
  memory : gmap Z Z;
  cycle : Z;
  base_latency : Z;
  row_hit_latency : Z;
  bank_states : list DDRState;
  bank_timers : list Z;
  bank_open_row : list (option Z);
  bank_active_requests : list (option MemoryRequest.t);
  scheduled_completions : list (Z * MemoryRequest.t)
}.

(** [__init__]: nothing in it can raise. *)
Definition init (num_banks : Z) : t :=
  {| num_banks := num_banks; memory := ∅; cycle := 0;
     base_latency := 0; row_hit_latency := 0;
     bank_states := py_repeat IDLE num_banks;
     bank_timers := py_repeat 0 num_banks;
     bank_open_row := py_repeat None num_banks;
     bank_active_requests := py_repeat None num_banks;
     scheduled_completions := [] |}.

Definition _get_bank (self : t) (addr : Z) : option Z :=
  py_mod addr (num_banks self).

Definition _get_row (self : t) (addr : Z) : Z := addr / 16.

Definition set_bank (self : t) (states : list DDRState) (timers : list Z)
    (open_row : list (option Z)) : t :=
  {| num_banks := num_banks self; memory := memory self; cycle := cycle self;
     base_latency := base_latency self; row_hit_latency := row_hit_latency self;
     bank_states := states; bank_timers := timers; bank_open_row := open_row;
     bank_active_requests := bank_active_requests self;
     scheduled_completions := scheduled_completions self |}.

Definition set_scheduled_completions (self : t)
    (q : list (Z * MemoryRequest.t)) : t :=
  {| num_banks := num_banks self; memory := memory self; cycle := cycle self;
     base_latency := base_latency self; row_hit_latency := row_hit_latency self;
     bank_states := bank_states self; bank_timers := bank_timers self;
     bank_open_row := bank_open_row self;
     bank_active_requests := bank_active_requests self;
     scheduled_completions := q |}.

Definition set_cycle (self : t) (c : Z) : t :=
  {| num_banks := num_banks self; memory := memory self; cycle := c;
     base_latency := base_latency self; row_hit_latency := row_hit_latency self;
     bank_states := bank_states self; bank_timers := bank_timers self;
     bank_open_row := bank_open_row self;
     bank_active_requests := bank_active_requests self;
     scheduled_completions := scheduled_completions self |}.

(** The branches of [request], which are the same for the two kinds of
    request but for the state [busy] that the bank takes: [READING] for a
    read, [WRITING] for a write.  In the last branch the error is printed and
    the bank is left as it is. *)
Definition command (self : t) (busy : DDRState) (bank row : Z)
    (current_state : DDRState) (completion_time : Z) : option t :=
  row_differs ←
    (if decide (current_state = IDLE) then Some true
     else open ← py_getitem (bank_open_row self) bank;
          Some (bool_decide (open ≠ Some row)));
  if row_differs : bool then
    states ← py_setitem (bank_states self) bank busy;
    timers ← py_setitem (bank_timers self) bank completion_time;
    open_row ← py_setitem (bank_open_row self) bank (Some row);
    Some (set_bank self states timers open_row)
  else if bool_decide (current_state = ACTIVATE_BANK_ROW)
          || bool_decide (current_state = busy) then
    states ← py_setitem (bank_states self) bank busy;
    timers ← py_setitem (bank_timers self) bank completion_time;
    Some (set_bank self states timers (bank_open_row self))
  else Some self.

Definition request (self : t) (req : MemoryRequest.t) : option t :=
  bank ← _get_bank self (MemoryRequest.addr req);
  let row := _get_row self (MemoryRequest.addr req) in
  current_state ← py_getitem (bank_states self) bank;
  self ←
    match MemoryRequest.req_type req with
    | read => command self READING bank row current_state
                      (MemoryRequest.completion_time req)
    | write => command self WRITING bank row current_state
                       (MemoryRequest.completion_time req)
    end;
  Some (set_scheduled_completions self
          (heapq.heappush entry_lt (scheduled_completions self)
                          (MemoryRequest.completion_time req, req))).

(** The [while] loop of [tick] over the completions that are due. *)
Fixpoint drain_loop (n : nat) (self : t) : option t :=
  match n with
  | O => Some self
  | S n' =>
      match scheduled_completions self with
      | (completion_time, _) :: _ =>
          if completion_time <=? cycle self then
            '(entry, q) ← heapq.heappop entry_lt (scheduled_completions self);
            let self := set_scheduled_completions self q in
            bank ← _get_bank self (MemoryRequest.addr entry.2);
            st ← py_getitem (bank_states self) bank;
            self ←
              (if bool_decide (st = READING) || bool_decide (st = WRITING) then
                 states ← py_setitem (bank_states self) bank ACTIVATE_BANK_ROW;
                 timers ← py_setitem (bank_timers self) bank 0;
                 Some (set_bank self states timers (bank_open_row self))
               else Some self);
            drain_loop n' self
          else Some self
      | [] => Some self
      end
  end.

(** The [for i in range(self.num_banks)] loop of [tick], for the [n] banks
    from [i] on. *)
Fixpoint timers_loop (n : nat) (i : Z) (self : t) : option t :=
  match n with
  | O => Some self
  | S n' =>
      timer ← py_getitem (bank_timers self) i;
      self ←
        (if timer >? cycle self then Some self
         else
           st ← py_getitem (bank_states self) i;
           if bool_decide (st = ACTIVATE_BANK_ROW) then Some self
           else if bool_decide (st = PRECHARGING) && (timer <=? cycle self) then
             states ← py_setitem (bank_states self) i IDLE;
             open_row ← py_setitem (bank_open_row self) i None;
             Some (set_bank self states (bank_timers self) open_row)
           else Some self);
      timers_loop n' (i + 1) self
  end.

Definition tick (self : t) : option t :=
  self ← drain_loop (length (scheduled_completions self)) self;
  self ← timers_loop (Z.to_nat (num_banks self)) 0 self;
  Some (set_cycle self (cycle self + 1)).
End DDRMemory.

(** ** DDR memory controller *)

Inductive RowStatus := ROW_HIT | ROW_MISS.

#[global] Instance RowStatus_eq_dec : EqDecision RowStatus.
Proof. solve_decision. Defined.

(** The dictionaries kept in [scheduled_ddr_requests]. *)
Record ReqInfo := mkReqInfo {
  info_request : MemoryRequest.t;
  info_bank : Z;
  info_row : Z;
  info_status : RowStatus
}.

#[global] Instance ReqInfo_eq_dec : EqDecision ReqInfo.
Proof. solve_decision. Defined.

(** [l.remove(x)] for an element that is present: the first occurrence
    goes. *)
Fixpoint list_remove_first {A} `{EqDecision A} (x : A) (l : list A) : list A :=
  match l with
  | [] => []
  | y :: l' => if decide (y = x) then l' else y :: list_remove_first x l'
  end.

(** The sort key of the arbitration and its order, the order of Python
    tuples of integers. *)
Definition key_lt (a b : Z * Z * Z) : bool :=
  let '(a1, a2, a3) := a in
  let '(b1, b2, b3) := b in
  if a1 =? b1 then (if a2 =? b2 then a3 <? b3 else a2 <? b2) else a1 <? b1.

(** [list.sort(key=...)] is stable: an element goes before the first element
    of the sorted rest whose key is not below its own. *)
Fixpoint insert_by_key {A} (x : (Z * Z * Z) * A) (l : list ((Z * Z * Z) * A))
    : list ((Z * Z * Z) * A) :=
  match l with
  | [] => [x]
  | y :: l' => if key_lt y.1 x.1 then y :: insert_by_key x l' else x :: y :: l'
  end.

Definition sort_by_key {A} (l : list ((Z * Z * Z) * A)) : list ((Z * Z * Z) * A) :=
  foldr insert_by_key [] l.

Module DDRMemoryController.
Record t := mk {
  queue : list (Z * MemoryRequest.t);
  scheduled_ddr_requests : list ReqInfo;
  cycle : Z;
  tRCD : Z; tRP : Z; tCAS : Z; tRC : Z; tWR : Z; tRTP : Z; tCCD : Z;
  last_command_time : gmap Z Z;
  bank_open_row : list (option Z);
  bank_precharge_complete_time : list Z;
  last_access_command : gmap Z ReqType;
  last_access_addr : gmap Z Z
}.

(** [__init__], for a DDR with [num_banks] banks. *)
Definition init (num_banks tRCD tRP tCAS tRC tWR tRTP tCCD : Z) : t :=
  {| queue := []; scheduled_ddr_requests := []; cycle := 0;
     tRCD := tRCD; tRP := tRP; tCAS := tCAS; tRC := tRC; tWR := tWR;
     tRTP := tRTP; tCCD := tCCD;
     last_command_time := ∅;
     bank_open_row := py_repeat None num_banks;
     bank_precharge_complete_time := py_repeat 0 num_banks;
     last_access_command := ∅;
     last_access_addr := ∅ |}.

Definition set_queue (self : t) (q : list (Z * MemoryRequest.t)) : t :=
  {| queue := q; scheduled_ddr_requests := scheduled_ddr_requests self;
     cycle := cycle self;
     tRCD := tRCD self; tRP := tRP self; tCAS := tCAS self; tRC := tRC self;
     tWR := tWR self; tRTP := tRTP self; tCCD := tCCD self;
     last_command_time := last_command_time self;
     bank_open_row := bank_open_row self;
     bank_precharge_complete_time := bank_precharge_complete_time self;
     last_access_command := last_access_command self;
     last_access_addr := last_access_addr self |}.

Definition set_scheduled_ddr_requests (self : t) (l : list ReqInfo) : t :=
  {| queue := queue self; scheduled_ddr_requests := l; cycle := cycle self;
     tRCD := tRCD self; tRP := tRP self; tCAS := tCAS self; tRC := tRC self;
     tWR := tWR self; tRTP := tRTP self; tCCD := tCCD self;
     last_command_time := last_command_time self;
     bank_open_row := bank_open_row self;
     bank_precharge_complete_time := bank_precharge_complete_time self;
     last_access_command := last_access_command self;
     last_access_addr := last_access_addr self |}.

Definition set_cycle (self : t) (c : Z) : t :=
  {| queue := queue self; scheduled_ddr_requests := scheduled_ddr_requests self;
     cycle := c;
     tRCD := tRCD self; tRP := tRP self; tCAS := tCAS self; tRC := tRC self;
     tWR := tWR self; tRTP := tRTP self; tCCD := tCCD self;
     last_command_time := last_command_time self;
     bank_open_row := bank_open_row self;
     bank_precharge_complete_time := bank_precharge_complete_time self;
     last_access_command := last_access_command self;
     last_access_addr := last_access_addr self |}.

(** [request]. *)
Definition request (self : t) (req : MemoryRequest.t) : t :=
  set_queue self
    (heapq.heappush entry_lt (queue self) (MemoryRequest.time req, req)).

(** [self.last_command_time.get(bank, -self.tRC)]. *)
Definition last_cmd_time (self : t) (bank : Z) : Z :=
  default (- tRC self) (last_command_time self !! bank).

(** The loop of [_schedule_next_request] that collects the candidates. *)
Fixpoint candidates_loop (self : t) (ddr : DDRMemory.t)
    (queue : list (Z * MemoryRequest.t)) (candidates : list MemoryRequest.t)
    : option (list MemoryRequest.t) :=
  match queue with
  | [] => Some candidates
  | (_, req) :: rest =>
      bank ← DDRMemory._get_bank ddr (MemoryRequest.addr req);
      precharge ← py_getitem (bank_precharge_complete_time self) bank;
      if precharge >? cycle self then candidates_loop self ddr rest candidates
      else if cycle self <? last_cmd_time self bank + tCCD self
      then candidates_loop self ddr rest candidates
      else candidates_loop self ddr rest (candidates ++ [req])
  end.

(** The [key] of [candidates.sort]. *)
Definition sort_key (self : t) (ddr : DDRMemory.t) (req : MemoryRequest.t)
    : option (Z * Z * Z) :=
  bank ← DDRMemory._get_bank ddr (MemoryRequest.addr req);
  open ← py_getitem (bank_open_row self) bank;
  Some (if decide (open = Some (DDRMemory._get_row ddr (MemoryRequest.addr req)))
        then 0 else 1,
        match MemoryRequest.req_type req with read => 0 | write => 1 end,
        MemoryRequest.time req).

(** The candidates in the order in which [candidates.sort] leaves them. *)
Definition sorted_candidates (self : t) (ddr : DDRMemory.t)
    : option (list MemoryRequest.t) :=
  candidates ← candidates_loop self ddr (queue self) [];
  keyed ← mapM (λ req, key ← sort_key self ddr req; Some (key, req)) candidates;
  Some ((sort_by_key keyed).*2).

(** The transition penalty added to the delay of [req_type] on [bank]. *)
Definition transition_penalty (self : t) (bank : Z) (req_type : ReqType) : Z :=
  match last_access_command self !! bank with
  | Some last_cmd_type =>
      match last_cmd_type, req_type with
      | write, read => tWR self
      | read, write => tWR self + 2
      | _, _ => 0
      end
  | None => 0
  end.

(** What [_schedule_next_request] does with [best_req = candidates[0]].
    The loop that takes [best_req] out of the queue compares objects; here
    the first pair whose request equals [best_req] goes.  That is the same
    pair: the sort is stable, so [best_req] is the first of the candidates
    with its key, and an equal request further up in the queue would be a
    candidate with that key.  Requests are not shared between pairs: every
    request that the caches create is a new object. *)
Definition schedule (self : t) (ddr : DDRMemory.t) (best_req : MemoryRequest.t)
    : option (t * DDRMemory.t) :=
  bank ← DDRMemory._get_bank ddr (MemoryRequest.addr best_req);
  let row := DDRMemory._get_row ddr (MemoryRequest.addr best_req) in
  open ← py_getitem (bank_open_row self) bank;
  '(delay, row_status, precharge, open_row) ←
    (if decide (open = Some row) then
       Some (DDRMemory.row_hit_latency ddr, ROW_HIT,
             bank_precharge_complete_time self, bank_open_row self)
     else
       precharge ← py_setitem (bank_precharge_complete_time self) bank
                              (cycle self + tRP self);
       open_row ← py_setitem (bank_open_row self) bank (Some row);
       Some (tRP self + tRCD self + tCAS self, ROW_MISS, precharge, open_row));
  let delay := delay + transition_penalty self bank (MemoryRequest.req_type best_req) in
  let completion_time := cycle self + delay in
  let queue := heapq.heapify entry_lt
                 (match list_find (λ e, e.2 = best_req) (queue self) with
                  | Some (i, _) => delete i (queue self)
                  | None => queue self
                  end) in
  let best_req := MemoryRequest.set_times best_req (cycle self) completion_time in
  ddr ← DDRMemory.request ddr best_req;
  Some ({| queue := queue;
           scheduled_ddr_requests :=
             scheduled_ddr_requests self ++ [mkReqInfo best_req bank row row_status];
           cycle := cycle self;
           tRCD := tRCD self; tRP := tRP self; tCAS := tCAS self;
           tRC := tRC self; tWR := tWR self; tRTP := tRTP self;
           tCCD := tCCD self;
           last_command_time := <[bank := cycle self]> (last_command_time self);
           bank_open_row := open_row;
           bank_precharge_complete_time := precharge;
           last_access_command :=
             <[bank := MemoryRequest.req_type best_req]> (last_access_command self);
           last_access_addr :=
             <[bank := MemoryRequest.addr best_req]> (last_access_addr self) |},
        ddr).

Definition _schedule_next_request (self : t) (ddr : DDRMemory.t)
    : option (t * DDRMemory.t) :=
  match queue self with
  | [] => Some (self, ddr)
  | _ :: _ =>
      candidates ← sorted_candidates self ddr;
      match candidates with
      | [] => Some (self, ddr)
      | best_req :: _ => schedule self ddr best_req
      end
  end.
End DDRMemoryController.

(** ** Cache levels and cores: the objects *)

Module CacheLevel.
(** [lower] names a cache level of the world by its position among the
    world's cache levels; [memory] tells whether the level is linked to the
    world's interconnect. *)
Record t := mk {
  level : string;
  core_id : CoreId;
  line_size : Z;
  assoc : Z;
  num_sets : Z;
  sets : list (list CacheLine.t);
  plru_trees : list PLRU.t;
  memory : bool;
  lower : option nat;
  write_back : bool;
  write_allocate : bool;
  hits : Z;
  misses : Z
}.

(** [__init__]: the two floor divisions are all that can raise. *)
Definition init (level_name : string) (core_id : CoreId)
    (size line_size assoc : Z) (memory write_back write_allocate : bool)
    : option t :=
  lines ← py_floordiv size line_size;
  num_sets ← py_floordiv lines assoc;
  Some {| level := level_name; core_id := core_id; line_size := line_size;
          assoc := assoc; num_sets := num_sets;
          sets := py_repeat (py_repeat CacheLine.init assoc) num_sets;
          plru_trees := py_repeat (PLRU.init assoc) num_sets;
          memory := memory; lower := None;
          write_back := write_back; write_allocate := write_allocate;
          hits := 0; misses := 0 |}.

Definition _index (self : t) (addr : Z) : option Z :=
  q ← py_floordiv addr (line_size self); py_mod q (num_sets self).

Definition _tag (self : t) (addr : Z) : option Z :=
  py_floordiv addr (line_size self * num_sets self).

Definition update (self : t) (sets : list (list CacheLine.t))
    (plru_trees : list PLRU.t) (hits misses : Z) : t :=
  {| level := level self; core_id := core_id self;
     line_size := line_size self; assoc := assoc self;
     num_sets := num_sets self; sets := sets; plru_trees := plru_trees;
     memory := memory self; lower := lower self;
     write_back := write_back self; write_allocate := write_allocate self;
     hits := hits; misses := misses |}.

Definition set_lower (self : t) (lower : option nat) : t :=
  {| level := level self; core_id := core_id self;
     line_size := line_size self; assoc := assoc self;
     num_sets := num_sets self; sets := sets self;
     plru_trees := plru_trees self;
     memory := memory self; lower := lower;
     write_back := write_back self; write_allocate := write_allocate self;
     hits := hits self; misses := misses self |}.

(** The scan [for i, line in enumerate(cache_set)]: the first way that
    holds [tag], counted from way [i]. *)
Fixpoint find_hit (cache_set : list CacheLine.t) (tag : Z) (i : Z) : option Z :=
  match cache_set with
  | [] => None
  | line :: rest =>
      if CacheLine.valid line && bool_decide (CacheLine.tag line = Some tag)
      then Some i else find_hit rest tag (i + 1)
  end.
End CacheLevel.

Module MultiLevelCache.
(** [l1] names the private level among the world's cache levels. *)
Record t := mk { core_id : CoreId; l1 : nat }.
End MultiLevelCache.

Module Core.
Record t := mk {
  core_id : CoreId;
  cache : MultiLevelCache.t;
  pending_accesses : list (ReqType * Z);
  stall_op : option (ReqType * Z);
  inst : gmap Z (ReqType * Z)
}.

(** [__init__], which also overwrites the [core_id] of [cache]. *)
Definition init (core_id : CoreId) (cache : MultiLevelCache.t) : t :=
  {| core_id := core_id;
     cache := {| MultiLevelCache.core_id := core_id;
                 MultiLevelCache.l1 := MultiLevelCache.l1 cache |};
     pending_accesses := []; stall_op := None; inst := ∅ |}.

Definition load_instr (self : t) (inst : gmap Z (ReqType * Z)) : t :=
  {| core_id := core_id self; cache := cache self;
     pending_accesses := pending_accesses self; stall_op := stall_op self;
     inst := inst |}.

Definition set_pending_accesses (self : t) (l : list (ReqType * Z)) : t :=
  {| core_id := core_id self; cache := cache self;
     pending_accesses := l; stall_op := stall_op self; inst := inst self |}.

Definition set_stall_op (self : t) (op : option (ReqType * Z)) : t :=
  {| core_id := core_id self; cache := cache self;
     pending_accesses := pending_accesses self; stall_op := op;
     inst := inst self |}.

Definition enqueue_access (self : t) (op : ReqType) (addr : Z) : t :=
  set_pending_accesses self (pending_accesses self ++ [(op, addr)]).

(** The loop of [dequeue_access]: the oldest matching entry goes. *)
Fixpoint dequeue_loop (op : ReqType) (addr : Z) (l : list (ReqType * Z))
    : list (ReqType * Z) :=
  match l with
  | [] => []
  | (o, a) :: rest =>
      if bool_decide (o = op) && (a =? addr) then rest
      else (o, a) :: dequeue_loop op addr rest
  end.

Definition dequeue_access (self : t) (op : ReqType) (addr : Z) : t :=
  set_pending_accesses self (dequeue_loop op addr (pending_accesses self)).

(** The loop of [dependency]. *)
Fixpoint dependency_loop (op : ReqType) (addr : Z) (l : list (ReqType * Z))
    : bool :=
  match l with
  | [] => false
  | (o, a) :: rest =>
      if bool_decide (op ≠ o) && (a =? addr) then true
      else dependency_loop op addr rest
  end.

Definition dependency (self : t) (op : ReqType) (addr : Z) : bool :=
  dependency_loop op addr (pending_accesses self).
End Core.

(** ** The world

    One interconnect, one controller and one DDR memory, as an [Experiment]
    builds them, with any number of cache levels and cores.  [random] is the
    state of Python's [random] module: the values that the generator will
    return, and how many of them have been drawn.  [invoked] lists the
    callables of the caller's own that have been run, oldest first. *)
Record World := mkWorld {
  global_cycle : Z;
  random : nat -> Z;
  random_drawn : nat;
  caches : list CacheLevel.t;
  cores : list Core.t;
  interconnect : Interconnect.t;
  ddr_controller : DDRMemoryController.t;
  ddr_memory_physical : DDRMemory.t;
  invoked : list nat
}.

Definition set_caches (w : World) (l : list CacheLevel.t) : World :=
  {| global_cycle := global_cycle w; random := random w;
     random_drawn := random_drawn w; caches := l; cores := cores w;
     interconnect := interconnect w; ddr_controller := ddr_controller w;
     ddr_memory_physical := ddr_memory_physical w; invoked := invoked w |}.

Definition set_cores (w : World) (l : list Core.t) : World :=
  {| global_cycle := global_cycle w; random := random w;
     random_drawn := random_drawn w; caches := caches w; cores := l;
     interconnect := interconnect w; ddr_controller := ddr_controller w;
     ddr_memory_physical := ddr_memory_physical w; invoked := invoked w |}.

Definition set_interconnect (w : World) (ic : Interconnect.t) : World :=
  {| global_cycle := global_cycle w; random := random w;
     random_drawn := random_drawn w; caches := caches w; cores := cores w;
     interconnect := ic; ddr_controller := ddr_controller w;
     ddr_memory_physical := ddr_memory_physical w; invoked := invoked w |}.

Definition set_ddr (w : World) (c : DDRMemoryController.t) (d : DDRMemory.t)
    : World :=
  {| global_cycle := global_cycle w; random := random w;
     random_drawn := random_drawn w; caches := caches w; cores := cores w;
     interconnect := interconnect w; ddr_controller := c;
     ddr_memory_physical := d; invoked := invoked w |}.

Definition set_invoked (w : World) (l : list nat) : World :=
  {| global_cycle := global_cycle w; random := random w;
     random_drawn := random_drawn w; caches := caches w; cores := cores w;
     interconnect := interconnect w; ddr_controller := ddr_controller w;
     ddr_memory_physical := ddr_memory_physical w; invoked := l |}.

Definition set_global_cycle (w : World) (c : Z) : World :=
  {| global_cycle := c; random := random w;
     random_drawn := random_drawn w; caches := caches w; cores := cores w;
     interconnect := interconnect w; ddr_controller := ddr_controller w;
     ddr_memory_physical := ddr_memory_physical w; invoked := invoked w |}.

(** [random.randint(a, b)]: the next value of the generator, brought into
    the range from [a] to [b]. *)
Definition randint (a b : Z) (w : World) : Z * World :=
  (a + random w (random_drawn w) mod (b - a + 1),
   {| global_cycle := global_cycle w; random := random w;
      random_drawn := S (random_drawn w); caches := caches w; cores := cores w;
      interconnect := interconnect w; ddr_controller := ddr_controller w;
      ddr_memory_physical := ddr_memory_physical w; invoked := invoked w |}).

(** ** The simulator

    A method that can call into the lower cache levels takes the number
    [depth] of nested calls it may still make; [None] at depth [0] is
    Python's [RecursionError]. *)

(** Interconnect.request. *)
Definition Interconnect_request (req : MemoryRequest.t) (w : World) : World :=
  let '(jitter, w) := randint 0 2 w in
  set_interconnect w (Interconnect.request (interconnect w) req jitter).

(** Assignments to the attributes of the objects of cache level [l]. *)
Definition set_line (l : nat) (index way : Z) (line : CacheLine.t) (w : World)
    : option World :=
  self ← caches w !! l;
  cache_set ← py_getitem (CacheLevel.sets self) index;
  cache_set ← py_setitem cache_set way line;
  sets ← py_setitem (CacheLevel.sets self) index cache_set;
  Some (set_caches w
          (<[l := CacheLevel.update self sets (CacheLevel.plru_trees self)
                    (CacheLevel.hits self) (CacheLevel.misses self)]> (caches w))).

(** [plru.update_on_access(way)] for the tree of set [index]. *)
Definition plru_access (l : nat) (index way : Z) (w : World) : option World :=
  self ← caches w !! l;
  plru ← py_getitem (CacheLevel.plru_trees self) index;
  plru ← PLRU.update_on_access plru way;
  trees ← py_setitem (CacheLevel.plru_trees self) index plru;
  Some (set_caches w
          (<[l := CacheLevel.update self (CacheLevel.sets self) trees
                    (CacheLevel.hits self) (CacheLevel.misses self)]> (caches w))).

Definition count_hit (l : nat) (w : World) : option World :=
  self ← caches w !! l;
  Some (set_caches w
          (<[l := CacheLevel.update self (CacheLevel.sets self)
                    (CacheLevel.plru_trees self)
                    (CacheLevel.hits self + 1) (CacheLevel.misses self)]> (caches w))).

Definition count_miss (l : nat) (w : World) : option World :=
  self ← caches w !! l;
  Some (set_caches w
          (<[l := CacheLevel.update self (CacheLevel.sets self)
                    (CacheLevel.plru_trees self)
                    (CacheLevel.hits self) (CacheLevel.misses self + 1)]> (caches w))).

(** [if self.lower: self.lower.write(addr)
     elif self.memory: self.memory.request(MemoryRequest(self.core_id,
                                   self.memory.cycle, 'write', addr))]:
    the write carries no callback. *)
Definition propagate_write (lower_write : nat -> Z -> World -> option World)
    (self : CacheLevel.t) (addr : Z) (w : World) : option World :=
  match CacheLevel.lower self with
  | Some lower => lower_write lower addr w
  | None =>
      if CacheLevel.memory self then
        Some (Interconnect_request
                (MemoryRequest.init (CacheLevel.core_id self)
                   (Interconnect.cycle (interconnect w)) write addr None) w)
      else Some w
  end.

(** The address rebuilt from the line's tag; a line without a tag makes the
    product raise. *)
Definition reconstructed_addr (self : CacheLevel.t) (victim_line : CacheLine.t)
    (index : Z) : option Z :=
  tag ← CacheLine.tag victim_line;
  Some ((tag * CacheLevel.num_sets self + index) * CacheLevel.line_size self).

(** CacheLevel.write, for the cache level at position [l]. *)
Fixpoint CacheLevel_write (depth : nat) (l : nat) (addr : Z) (w : World)
    : option World :=
  match depth with
  | O => None
  | S depth =>
      self ← caches w !! l;
      index ← CacheLevel._index self addr;
      tag ← CacheLevel._tag self addr;
      cache_set ← py_getitem (CacheLevel.sets self) index;
      plru ← py_getitem (CacheLevel.plru_trees self) index;
      match CacheLevel.find_hit cache_set tag 0 with
      | Some i =>
          w ← count_hit l w;
          line ← py_getitem cache_set i;
          w ← set_line l index i
                {| CacheLine.valid := CacheLine.valid line;
                   CacheLine.tag := CacheLine.tag line;
                   CacheLine.dirty := CacheLevel.write_back self |} w;
          w ← plru_access l index i w;
          if CacheLevel.write_back self then Some w
          else propagate_write (CacheLevel_write depth) self addr w
      | None =>
          w ← count_miss l w;
          if CacheLevel.write_allocate self then
            victim_idx ← PLRU.get_victim plru;
            victim_line ← py_getitem cache_set victim_idx;
            w ← (if CacheLine.valid victim_line && CacheLine.dirty victim_line
                    && CacheLevel.write_back self then
                   victim_addr ← reconstructed_addr self victim_line index;
                   propagate_write (CacheLevel_write depth) self victim_addr w
                 else Some w);
            w ← set_line l index victim_idx
                  {| CacheLine.valid := true; CacheLine.tag := Some tag;
                     CacheLine.dirty := CacheLevel.write_back self |} w;
            plru_access l index victim_idx w
          else propagate_write (CacheLevel_write depth) self addr w
      end
  end.

(** The body of [lower_cb], the fill continuation of a read miss of level
    [l]; [invoke] runs the caller's [callback]. *)
Definition lower_cb (depth : nat) (invoke : Callback -> World -> option World)
    (l : nat) (index victim_idx tag : Z) (callback : Callback) (w : World)
    : option World :=
  self ← caches w !! l;
  cache_set ← py_getitem (CacheLevel.sets self) index;
  victim_line ← py_getitem cache_set victim_idx;
  w ← (if CacheLine.valid victim_line && CacheLine.dirty victim_line
          && CacheLevel.write_back self then
         victim_addr ← reconstructed_addr self victim_line index;
         propagate_write (CacheLevel_write depth) self victim_addr w
       else Some w);
  w ← set_line l index victim_idx
        {| CacheLine.valid := true; CacheLine.tag := Some tag;
           CacheLine.dirty := false |} w;
  w ← plru_access l index victim_idx w;
  invoke callback w.

(** Calling a callable. *)
Fixpoint run_callback (depth : nat) (cb : Callback) (w : World) : option World :=
  match cb with
  | CbExternal n => Some (set_invoked w (invoked w ++ [n]))
  | CbDequeue core addr =>
      self ← cores w !! core;
      Some (set_cores w (<[core := Core.dequeue_access self read addr]> (cores w)))
  | CbFill l index victim_idx tag callback =>
      lower_cb depth (run_callback depth) l index victim_idx tag callback w
  end.

(** CacheLevel.read, for the cache level at position [l]. *)
Fixpoint CacheLevel_read (depth : nat) (l : nat) (addr : Z) (callback : Callback)
    (w : World) : option World :=
  match depth with
  | O => None
  | S depth =>
      self ← caches w !! l;
      index ← CacheLevel._index self addr;
      tag ← CacheLevel._tag self addr;
      cache_set ← py_getitem (CacheLevel.sets self) index;
      plru ← py_getitem (CacheLevel.plru_trees self) index;
      match CacheLevel.find_hit cache_set tag 0 with
      | Some i =>
          w ← count_hit l w;
          w ← plru_access l index i w;
          run_callback depth callback w
      | None =>
          w ← count_miss l w;
          victim_idx ← PLRU.get_victim plru;
          victim_line ← py_getitem cache_set victim_idx;
          let lower_cb := CbFill l index victim_idx tag callback in
          match CacheLevel.lower self with
          | Some lower => CacheLevel_read depth lower addr lower_cb w
          | None =>
              if CacheLevel.memory self then
                Some (Interconnect_request
                        (MemoryRequest.init (CacheLevel.core_id self)
                           (Interconnect.cycle (interconnect w)) read addr
                           (Some lower_cb)) w)
              else Some w
          end
      end
  end.

(** Core.read and Core.write go through MultiLevelCache to the private
    level. *)
Definition Core_read (depth : nat) (self : Core.t) (addr : Z)
    (callback : Callback) (w : World) : option World :=
  CacheLevel_read depth (MultiLevelCache.l1 (Core.cache self)) addr callback w.

Definition Core_write (depth : nat) (self : Core.t) (addr : Z) (w : World)
    : option World :=
  CacheLevel_write depth (MultiLevelCache.l1 (Core.cache self)) addr w.

(** [self.enqueue_access('read', addr)] followed by
    [self.read(addr, lambda addr=addr: self.dequeue_access('read', addr))],
    for the core at position [core]. *)
Definition Core_issue_read (depth : nat) (core : nat) (addr : Z) (w : World)
    : option World :=
  self ← cores w !! core;
  let w := set_cores w (<[core := Core.enqueue_access self read addr]> (cores w)) in
  Core_read depth self addr (CbDequeue core addr) w.

Definition Core_set_stall_op (core : nat) (op : option (ReqType * Z)) (w : World)
    : option World :=
  self ← cores w !! core;
  Some (set_cores w (<[core := Core.set_stall_op self op]> (cores w))).

(** Core.tick, for the core at position [core]. *)
Definition Core_tick (depth : nat) (core : nat) (w : World) : option World :=
  self ← cores w !! core;
  match Core.stall_op self with
  | Some (op, addr) =>
      if negb (Core.dependency self op addr) then
        match op with
        | write =>
            w ← Core_write depth self addr w;
            Core_set_stall_op core None w
        | read =>
            w ← Core_issue_read depth core addr w;
            Core_set_stall_op core None w
        end
      else Some w
  | None =>
      match Core.inst self !! global_cycle w with
      | Some (write, addr) =>
          if Core.dependency self write addr
          then Core_set_stall_op core (Some (write, addr)) w
          else Core_write depth self addr w
      | Some (read, addr) =>
          if Core.dependency self read addr
          then Core_set_stall_op core (Some (read, addr)) w
          else Core_issue_read depth core addr w
      | None => Some w
      end
  end.

(** Interconnect.tick. *)
Definition Interconnect_tick (w : World) : World :=
  let self := interconnect w in
  let '(popped, queue) := Interconnect.select self in
  let controller := foldl DDRMemoryController.request (ddr_controller w) popped.*2 in
  set_interconnect (set_ddr w controller (ddr_memory_physical w))
    {| Interconnect.queue := queue;
       Interconnect.delay := Interconnect.delay self;
       Interconnect.bandwidth := Interconnect.bandwidth self;
       Interconnect.cycle := Interconnect.cycle self + 1 |}.

(** The first loop of DDRMemoryController._complete_ddr_requests, over the
    requests [infos] that are still to be looked at. *)
Fixpoint complete_loop (depth : nat) (infos : list ReqInfo) (w : World)
    (completed : list ReqInfo) : option (World * list ReqInfo) :=
  match infos with
  | [] => Some (w, completed)
  | req_info :: rest =>
      let req := info_request req_info in
      if MemoryRequest.completion_time req <=? DDRMemoryController.cycle (ddr_controller w)
      then
        w ← match MemoryRequest.req_type req, MemoryRequest.callback req with
            | read, Some callback => run_callback depth callback w
            | _, _ => Some w
            end;
        complete_loop depth rest w (completed ++ [req_info])
      else complete_loop depth rest w completed
  end.

Definition DDRMemoryController_complete_ddr_requests (depth : nat) (w : World)
    : option World :=
  '(w, completed) ←
    complete_loop depth
      (DDRMemoryController.scheduled_ddr_requests (ddr_controller w)) w [];
  let self := ddr_controller w in
  Some (set_ddr w
          (DDRMemoryController.set_scheduled_ddr_requests self
             (foldl (λ l req_info, list_remove_first req_info l)
                    (DDRMemoryController.scheduled_ddr_requests self) completed))
          (ddr_memory_physical w)).

(** DDRMemoryController.tick. *)
Definition DDRMemoryController_tick (depth : nat) (w : World) : option World :=
  w ← DDRMemoryController_complete_ddr_requests depth w;
  '(self, ddr) ←
    DDRMemoryController._schedule_next_request (ddr_controller w)
                                                (ddr_memory_physical w);
  Some (set_ddr w
          (DDRMemoryController.set_cycle self (DDRMemoryController.cycle self + 1))
          ddr).

(** One round of the loop of Experiment.simulate, for all the cores of the
    world in their order. *)
Definition simulate_cycle (depth : nat) (w : World) : option World :=
  w ← foldl (λ w core, w ← w; Core_tick depth core w) (Some w)
            (seq 0 (length (cores w)));
  let w := Interconnect_tick w in
  w ← DDRMemoryController_tick depth w;
  ddr ← DDRMemory.tick (ddr_memory_physical w);
  let w := set_ddr w (ddr_controller w) ddr in
  Some (set_global_cycle w (global_cycle w + 1)).

(** The loop [for cycle in range(cycles)] of Experiment.simulate. *)
Fixpoint simulate_loop (depth : nat) (cycles : nat) (w : World) : option World :=
  match cycles with
  | O => Some w
  | S cycles => w ← simulate_cycle depth w; simulate_loop depth cycles w
  end.

(** Experiment.simulate, up to the statistics that it prints at the end: the
    global cycle is set to 0, then the loop runs. *)
Definition simulate (depth : nat) (cycles : nat) (w : World) : option World :=
  simulate_loop depth cycles (set_global_cycle w 0).

(** The world that [Experiment] builds: the shared L2 at position 0, the
    private L1 of core 0 at position 1 and that of core 1 at position 2. *)
Definition Experiment (random : nat -> Z) (inst0 inst1 : gmap Z (ReqType * Z))
    : option World :=
  let ddr := DDRMemory.init 4 in
  let controller := DDRMemoryController.init (DDRMemory.num_banks ddr)
                      15 15 15 30 15 8 4 in
  shared_l2 ← CacheLevel.init "L2" (CoreStr "anycore") 1024 4 16 true true true;
  l1_0 ← CacheLevel.init "L1" (CoreInt 0) 32 4 2 false true true;
  l1_1 ← CacheLevel.init "L1" (CoreInt 1) 32 4 2 false true true;
  Some {| global_cycle := 0; random := random; random_drawn := 0;
          caches := [shared_l2; CacheLevel.set_lower l1_0 (Some 0%nat);
                     CacheLevel.set_lower l1_1 (Some 0%nat)];
          cores := [Core.load_instr
                      (Core.init (CoreInt 0) (MultiLevelCache.mk (CoreInt 0) 1)) inst0;
                    Core.load_instr
                      (Core.init (CoreInt 1) (MultiLevelCache.mk (CoreInt 1) 2)) inst1];
          interconnect := Interconnect.init 5 4;
          ddr_controller := controller;
          ddr_memory_physical := ddr;
          invoked := [] |}.

(** ** Vocabulary of the properties *)

Definition is_bit (b : Z) : Prop := b = 0 \/ b = 1.

Definition is_power_of_two (n : Z) : Prop := exists k, 0 <= k /\ n = 2 ^ k.

(** What the spec calls a valid configuration of a cache level. *)
Definition valid_cache_config (size line_size assoc : Z) : Prop :=
  is_power_of_two assoc /\ 0 < line_size /\ 0 <= size /\
  (line_size * assoc | size).

(** The heap invariant of [heapq]: no element is below its parent. *)
Definition heap_ok {A} (lt : A -> A -> bool) (heap : list A) : Prop :=
  forall (i : nat) (x y : A),
    (0 < i)%nat -> heap !! i = Some x -> heap !! ((i - 1) / 2)%nat = Some y ->
    lt x y = false.

(** The controller and the DDR memory agree on the banks: there is at least
    one, and every per-bank list has one entry for each. *)
Definition banks_ok (self : DDRMemoryController.t) (ddr : DDRMemory.t) : Prop :=
  0 < DDRMemory.num_banks ddr /\
  Z.of_nat (length (DDRMemoryController.bank_open_row self)) = DDRMemory.num_banks ddr /\
  Z.of_nat (length (DDRMemoryController.bank_precharge_complete_time self))
    = DDRMemory.num_banks ddr /\
  Z.of_nat (length (DDRMemory.bank_states ddr)) = DDRMemory.num_banks ddr /\
  Z.of_nat (length (DDRMemory.bank_timers ddr)) = DDRMemory.num_banks ddr /\
  Z.of_nat (length (DDRMemory.bank_open_row ddr)) = DDRMemory.num_banks ddr.

(** The candidates of the arbitration, in the words of the spec: the target
    bank is out of precharge and its last command is at least [tCCD] cycles
    old. *)
Definition is_candidate (self : DDRMemoryController.t) (ddr : DDRMemory.t)
    (req : MemoryRequest.t) : Prop :=
  exists bank precharge_complete_time,
    DDRMemory._get_bank ddr (MemoryRequest.addr req) = Some bank /\
    py_getitem (DDRMemoryController.bank_precharge_complete_time self) bank
      = Some precharge_complete_time /\
    precharge_complete_time <= DDRMemoryController.cycle self /\
    DDRMemoryController.cycle self
      >= DDRMemoryController.last_cmd_time self bank + DDRMemoryController.tCCD self.

(** What lies beyond the cache levels and the interconnect. *)
Definition beyond_caches (w : World) :=
  (global_cycle w, random w, cores w, ddr_controller w, ddr_memory_physical w,
   invoked w).

(** The line of way [way] of set [index] of cache level [l]. *)
Definition line_at (w : World) (l : nat) (index way : Z) : option CacheLine.t :=
  self ← caches w !! l;
  cache_set ← py_getitem (CacheLevel.sets self) index;
  py_getitem cache_set way.

(** The PLRU tree of set [index] of cache level [l]. *)
Definition plru_at (w : World) (l : nat) (index : Z) : option PLRU.t :=
  self ← caches w !! l;
  py_getitem (CacheLevel.plru_trees self) index.

(** The state of a bank and a command that [DDRMemory.request] answers with
    its error message: the row of the command is the open row of the bank,
    and the bank is neither idle, nor active, nor busy with a command of the
    same kind. *)
Definition rejected (req_type : ReqType) (state : DDRState) (open : option Z)
    (row : Z) : Prop :=
  open = Some row /\
  match req_type with
  | read => state = WRITING \/ state = PRECHARGING
  | write => state = READING \/ state = PRECHARGING
  end.

(** The callables of the caller's own that a completion drain at [cycle] has
    to run for the requests [infos], in their order. *)
Definition due_callbacks (cycle : Z) (infos : list ReqInfo) : list nat :=
  omap (fun info =>
          let req := info_request info in
          if MemoryRequest.completion_time req <=? cycle then
            match MemoryRequest.req_type req, MemoryRequest.callback req with
            | read, Some (CbExternal n) => Some n
            | _, _ => None
            end
          else None) infos.

(** The callbacks that a completion drain at [cycle] has to run for the
    requests [infos]: those of the reads whose completion time has come, in
    the order of [infos]. *)
Definition due_reads (cycle : Z) (infos : list ReqInfo) : list Callback :=
  omap (fun info =>
          let req := info_request info in
          if MemoryRequest.completion_time req <=? cycle then
            match MemoryRequest.req_type req, MemoryRequest.callback req with
            | read, Some callback => Some callback
            | _, _ => None
            end
          else None) infos.

(** Calling callables one after the other. *)
Fixpoint run_callbacks (depth : nat) (callbacks : list Callback) (w : World)
    : option World :=
  match callbacks with
  | [] => Some w
  | callback :: callbacks =>
      w ← run_callback depth callback w; run_callbacks depth callbacks w
  end.

(** No read among [infos] carries a closure of the simulator. *)
Definition plain_callbacks (infos : list ReqInfo) : Prop :=
  Forall (fun info =>
            match MemoryRequest.req_type (info_request info),
                  MemoryRequest.callback (info_request info) with
            | read, Some (CbDequeue _ _) | read, Some (CbFill _ _ _ _ _) => False
            | _, _ => True
            end) infos.

(** ** Worlds used in the examples *)

(** A world without caches and cores: the interconnect, the controller and
    the DDR memory of [Experiment] before anything is requested, with a
    generator that returns 0 for ever. *)
Definition idle_world : World :=
  {| global_cycle := 0; random := fun _ => 0; random_drawn := 0;
     caches := []; cores := [];
     interconnect := Interconnect.init 5 4;
     ddr_controller := DDRMemoryController.init 4 15 15 15 30 15 8 4;
     ddr_memory_physical := DDRMemory.init 4;
     invoked := [] |}.

(** Four writes issued in the same cycle, enqueued in the order of their
    addresses 0, 64, 128, 192; each draws the jitter 0, so each is ready at
    cycle 5. *)
Definition tie_request (addr : Z) : MemoryRequest.t :=
  MemoryRequest.init (CoreStr "anycore") 0 write addr None.

Definition tie_world : World :=
  foldl (fun w addr => Interconnect_request (tie_request addr) w) idle_world
        [0; 64; 128; 192].

(** The interconnect of [tie_world] five ticks later. *)
Definition tie_interconnect : Interconnect.t :=
  {| Interconnect.queue := [(5, tie_request 0); (5, tie_request 64);
                            (5, tie_request 128); (5, tie_request 192)];
     Interconnect.delay := 5; Interconnect.bandwidth := 4;
     Interconnect.cycle := 5 |}.

(** A controller at cycle 50 that has written row 0 of bank 0 at cycle 0, and
    now holds a read of address 2000 (bank 0, row 125) and a write of address
    17 (bank 1, row 1); the DDR memory that goes with it. *)
Definition turnaround_read : MemoryRequest.t :=
  MemoryRequest.init (CoreStr "anycore") 48 read 2000 (Some (CbExternal 1)).

Definition turnaround_write : MemoryRequest.t :=
  MemoryRequest.init (CoreStr "anycore") 47 write 17 None.

Definition turnaround_controller : DDRMemoryController.t :=
  {| DDRMemoryController.queue := [(47, turnaround_write); (48, turnaround_read)];
     DDRMemoryController.scheduled_ddr_requests := [];
     DDRMemoryController.cycle := 50;
     DDRMemoryController.tRCD := 15; DDRMemoryController.tRP := 15;
     DDRMemoryController.tCAS := 15; DDRMemoryController.tRC := 30;
     DDRMemoryController.tWR := 15; DDRMemoryController.tRTP := 8;
     DDRMemoryController.tCCD := 4;
     DDRMemoryController.last_command_time := {[0 := 0]};
     DDRMemoryController.bank_open_row := [Some 0; None; None; None];
     DDRMemoryController.bank_precharge_complete_time := [15; 0; 0; 0];
     DDRMemoryController.last_access_command := {[0 := write]};
     DDRMemoryController.last_access_addr := {[0 := 0]} |}.

Definition turnaround_ddr : DDRMemory.t :=
  {| DDRMemory.num_banks := 4; DDRMemory.memory := ∅; DDRMemory.cycle := 50;
     DDRMemory.base_latency := 0; DDRMemory.row_hit_latency := 0;
     DDRMemory.bank_states := [ACTIVATE_BANK_ROW; IDLE; IDLE; IDLE];
     DDRMemory.bank_timers := [0; 0; 0; 0];
     DDRMemory.bank_open_row := [Some 0; None; None; None];
     DDRMemory.bank_active_requests := [None; None; None; None];
     DDRMemory.scheduled_completions := [] |}.

(** A world with one write-back cache level linked to the interconnect: one
    set of two ways, whose way 0 holds the dirty line of tag 2 and whose tree
    points at way 0. *)
Definition dirty_level : CacheLevel.t :=
  {| CacheLevel.level := "L2"; CacheLevel.core_id := CoreStr "anycore";
     CacheLevel.line_size := 4; CacheLevel.assoc := 2; CacheLevel.num_sets := 1;
     CacheLevel.sets :=
       [[ {| CacheLine.valid := true; CacheLine.tag := Some 2;
             CacheLine.dirty := true |};
          {| CacheLine.valid := true; CacheLine.tag := Some 7;
             CacheLine.dirty := false |} ]];
     CacheLevel.plru_trees := [ {| PLRU.bits := [0]; PLRU.ways := 2 |} ];
     CacheLevel.memory := true; CacheLevel.lower := None;
     CacheLevel.write_back := true; CacheLevel.write_allocate := true;
     CacheLevel.hits := 0; CacheLevel.misses := 3 |}.

Definition dirty_world : World := set_caches idle_world [dirty_level].

(** The write-back of address 0 reaches the interconnect at cycle 0, a read of
    address 0 with the callable 7 one cycle later. *)
Definition early_write : MemoryRequest.t :=
  MemoryRequest.init (CoreStr "anycore") 0 write 0 None.

Definition late_read : MemoryRequest.t :=
  MemoryRequest.init (CoreStr "anycore") 1 read 0 (Some (CbExternal 7)).

Definition write_then_read (cycles : nat) : option World :=
  w ← simulate_cycle 1 (Interconnect_request early_write idle_world);
  simulate_loop 1 cycles (Interconnect_request late_read w).

(** A DDR memory whose bank 0 is writing row 0, and a controller that waits
    for the read of address 0 it has handed to that memory. *)
Definition writing_ddr : DDRMemory.t :=
  {| DDRMemory.num_banks := 4; DDRMemory.memory := ∅; DDRMemory.cycle := 20;
     DDRMemory.base_latency := 0; DDRMemory.row_hit_latency := 0;
     DDRMemory.bank_states := [WRITING; IDLE; IDLE; IDLE];
     DDRMemory.bank_timers := [50; 0; 0; 0];
     DDRMemory.bank_open_row := [Some 0; None; None; None];
     DDRMemory.bank_active_requests := [None; None; None; None];
     DDRMemory.scheduled_completions := [(50, MemoryRequest.set_times early_write 5 50)] |}.

Definition waiting_world : World :=
  set_ddr idle_world
    (DDRMemoryController.set_cycle
       (DDRMemoryController.set_scheduled_ddr_requests
          (DDRMemoryController.init 4 15 15 15 30 15 8 4)
          [mkReqInfo (MemoryRequest.set_times early_write 5 50) 0 0 ROW_MISS;
           mkReqInfo (MemoryRequest.set_times late_read 20 35) 0 0 ROW_HIT])
       35)
    writing_ddr.

(** The experiment in which core 0 reads address 0 at cycle 0 and writes it
    at cycle 1, after its first cycle. *)
Definition hazard_world : option World :=
  w ← Experiment (fun _ => 0) {[0 := (read, 0); 1 := (write, 0)]} ∅;
  simulate_cycle 2 w.

(** ** Vocabulary of the invariants *)

(** A line of a level with the write policy [write_back]: only a valid line is
    dirty, a valid line has a tag, and a write-through level has no dirty
    line. *)
Definition line_sound (write_back : bool) (line : CacheLine.t) : Prop :=
  (CacheLine.dirty line = true -> CacheLine.valid line = true) /\
  (CacheLine.valid line = true -> is_Some (CacheLine.tag line)) /\
  (write_back = false -> CacheLine.dirty line = false).

Definition level_sound (self : CacheLevel.t) : Prop :=
  Forall (Forall (line_sound (CacheLevel.write_back self))) (CacheLevel.sets self).

(** A tree over [assoc] ways as [PLRU.__init__] shapes it. *)
Definition tree_ok (assoc : Z) (p : PLRU.t) : Prop :=
  PLRU.ways p = assoc /\ Z.of_nat (length (PLRU.bits p)) = assoc - 1 /\
  Forall is_bit (PLRU.bits p).

(** A level as [CacheLevel.__init__] shapes it, for a positive line size, at
    least one set and at least one way. *)
Definition level_shape (self : CacheLevel.t) : Prop :=
  0 < CacheLevel.line_size self /\ 0 < CacheLevel.num_sets self /\
  1 <= CacheLevel.assoc self /\
  Z.of_nat (length (CacheLevel.sets self)) = CacheLevel.num_sets self /\
  Forall (fun s => Z.of_nat (length s) = CacheLevel.assoc self)
         (CacheLevel.sets self) /\
  Z.of_nat (length (CacheLevel.plru_trees self)) = CacheLevel.num_sets self /\
  Forall (tree_ok (CacheLevel.assoc self)) (CacheLevel.plru_trees self).

(** The attributes of a level that are set at construction. *)
Definition config (self : CacheLevel.t) :=
  (CacheLevel.level self, CacheLevel.core_id self, CacheLevel.line_size self,
   CacheLevel.assoc self, CacheLevel.num_sets self, CacheLevel.memory self,
   CacheLevel.lower self, CacheLevel.write_back self,
   CacheLevel.write_allocate self).

Definition same_length {A} (s s' : list A) : Prop := length s' = length s.

Definition tree_rel (p p' : PLRU.t) : Prop :=
  PLRU.ways p' = PLRU.ways p /\
  length (PLRU.bits p') = length (PLRU.bits p) /\
  (Forall is_bit (PLRU.bits p) -> Forall is_bit (PLRU.bits p')).

(** What an access may do to a level: the configuration and the shape stay,
    sound lines stay sound, and the counters do not decrease. *)
Definition level_rel (self self' : CacheLevel.t) : Prop :=
  config self' = config self /\
  Forall2 same_length (CacheLevel.sets self) (CacheLevel.sets self') /\
  Forall2 tree_rel (CacheLevel.plru_trees self) (CacheLevel.plru_trees self') /\
  (level_sound self -> level_sound self') /\
  CacheLevel.hits self <= CacheLevel.hits self' /\
  CacheLevel.misses self <= CacheLevel.misses self'.

(** What a cache access or a callback may do to a core: accesses leave its
    queue. *)
Definition core_rel (c c' : Core.t) : Prop :=
  Core.core_id c' = Core.core_id c /\ Core.cache c' = Core.cache c /\
  Core.stall_op c' = Core.stall_op c /\ Core.inst c' = Core.inst c /\
  Core.pending_accesses c' `sublist_of` Core.pending_accesses c.

(** What a cache access or a callback may do to the interconnect: requests
    issued at the current cycle enter its queue. *)
Definition interconnect_rel (P : MemoryRequest.t -> Prop)
    (i i' : Interconnect.t) : Prop :=
  Interconnect.cycle i' = Interconnect.cycle i /\
  Interconnect.delay i' = Interconnect.delay i /\
  Interconnect.bandwidth i' = Interconnect.bandwidth i /\
  (heap_ok entry_lt (Interconnect.queue i) ->
   heap_ok entry_lt (Interconnect.queue i')) /\
  exists new,
    Interconnect.queue i' ≡ₚ new ++ Interconnect.queue i /\
    Forall (fun e : Z * MemoryRequest.t =>
              Interconnect.cycle i + Interconnect.delay i <= e.1
                <= Interconnect.cycle i + Interconnect.delay i + 2 /\
              MemoryRequest.time e.2 = Interconnect.cycle i /\ P e.2) new.

(** What a cache access or a callback may do to the world, when the requests
    that it sends to the interconnect satisfy [P]. *)
Definition cache_step (P : MemoryRequest.t -> Prop) (w w' : World) : Prop :=
  global_cycle w' = global_cycle w /\ random w' = random w /\
  (random_drawn w <= random_drawn w')%nat /\
  Forall2 level_rel (caches w) (caches w') /\
  Forall2 core_rel (cores w) (cores w') /\
  interconnect_rel P (interconnect w) (interconnect w') /\
  ddr_controller w' = ddr_controller w /\
  ddr_memory_physical w' = ddr_memory_physical w /\
  invoked w `prefix_of` invoked w'.

Definition no_callback (req : MemoryRequest.t) : Prop :=
  MemoryRequest.callback req = None.

Definition any_request (req : MemoryRequest.t) : Prop := True.

(** A core whose queue holds reads only and that is not stalled on a read. *)
Definition reads_only (c : Core.t) : Prop :=
  Forall (fun e : ReqType * Z => e.1 = read) (Core.pending_accesses c) /\
  forall a, Core.stall_op c <> Some (read, a).

(** What a tick may do to a core. *)
Definition core_sim (c c' : Core.t) : Prop :=
  Core.core_id c' = Core.core_id c /\ Core.cache c' = Core.cache c /\
  Core.inst c' = Core.inst c /\ (reads_only c -> reads_only c').

(** What the tick of a core may do to the world. *)
Definition tick_step (w w' : World) : Prop :=
  global_cycle w' = global_cycle w /\
  Forall2 level_rel (caches w) (caches w') /\
  Forall2 core_sim (cores w) (cores w') /\
  interconnect_rel any_request (interconnect w) (interconnect w') /\
  ddr_controller w' = ddr_controller w /\
  ddr_memory_physical w' = ddr_memory_physical w.

(** The four clocks of the simulation. *)
Definition clocks (w : World) : Z * Z * Z * Z :=
  (global_cycle w, Interconnect.cycle (interconnect w),
   DDRMemoryController.cycle (ddr_controller w),
   DDRMemory.cycle (ddr_memory_physical w)).

(** A DDR memory with at least one bank, one entry for each bank in its
    per-bank lists, and no bank that is precharging. *)
Definition ddr_ok (ddr : DDRMemory.t) : Prop :=
  0 < DDRMemory.num_banks ddr /\
  Z.of_nat (length (DDRMemory.bank_states ddr)) = DDRMemory.num_banks ddr /\
  Z.of_nat (length (DDRMemory.bank_timers ddr)) = DDRMemory.num_banks ddr /\
  Z.of_nat (length (DDRMemory.bank_open_row ddr)) = DDRMemory.num_banks ddr /\
  Forall (fun st => st <> PRECHARGING) (DDRMemory.bank_states ddr).

(** The state that a bank takes for a command. *)
Definition busy_state (req_type : ReqType) : DDRState :=
  match req_type with read => READING | write => WRITING end.

(** What the completion of commands may do to the state of a bank. *)
Definition bank_rel (st st' : DDRState) : Prop :=
  st' = st \/ (st' = ACTIVATE_BANK_ROW /\ (st = READING \/ st = WRITING)).

(** The controller and the DDR memory of a world agree on the banks and on
    the row that is open in each, and no bank is precharging. *)
Definition memory_ok (w : World) : Prop :=
  banks_ok (ddr_controller w) (ddr_memory_physical w) /\
  ddr_ok (ddr_memory_physical w) /\
  DDRMemoryController.bank_open_row (ddr_controller w)
    = DDRMemory.bank_open_row (ddr_memory_physical w).

(** An interconnect at cycle 5 with one request that is ready and one that is
    not. *)
Definition partly_due_interconnect : Interconnect.t :=
  {| Interconnect.queue := [(5, tie_request 0); (7, tie_request 64)];
     Interconnect.delay := 5; Interconnect.bandwidth := 4;
     Interconnect.cycle := 5 |}.

(** A level that is shaped as its constructor shapes it and whose lines are
    sound. *)
Definition level_wf (self : CacheLevel.t) : Prop :=
  level_shape self /\ level_sound self.

(** The levels from level [l] down are well formed, and there are at most
    [height] of them. *)
Fixpoint hierarchy_ok (height : nat) (w : World) (l : nat) : Prop :=
  match height with
  | O => False
  | S height =>
      exists self,
        caches w !! l = Some self /\ level_wf self /\
        match CacheLevel.lower self with
        | Some lower => hierarchy_ok height w lower
        | None => True
        end
  end.

(** A callable that can be called where [depth] nested calls are left: a
    core's own names a core of the world; a fill continuation names a well
    formed level, a set and a way of it, there are at most [depth] levels
    below that level, and the callable that it calls last is of that kind
    too. *)
Fixpoint callback_ok (depth : nat) (w : World) (cb : Callback) : Prop :=
  match cb with
  | CbExternal _ => True
  | CbDequeue core _ => is_Some (cores w !! core)
  | CbFill l index victim_idx _ callback =>
      (exists self,
         caches w !! l = Some self /\ level_wf self /\
         0 <= index < CacheLevel.num_sets self /\
         0 <= victim_idx < CacheLevel.assoc self /\
         match CacheLevel.lower self with
         | Some lower => hierarchy_ok depth w lower
         | None => True
         end) /\
      callback_ok depth w callback
  end.

Definition request_ok (depth : nat) (w : World) (req : MemoryRequest.t) : Prop :=
  match MemoryRequest.callback req with
  | Some callback => callback_ok depth w callback
  | None => True
  end.

(** The requests that wait in the interconnect, in the controller's queue and
    for their completion by the DDR memory. *)
Definition stored (w : World) : list MemoryRequest.t :=
  (Interconnect.queue (interconnect w)).*2
  ++ (DDRMemoryController.queue (ddr_controller w)).*2
  ++ (info_request <$> DDRMemoryController.scheduled_ddr_requests (ddr_controller w)).

(** A world in which a simulation does not raise: below the private level of
    each core there are at most [height] levels, all well formed; the
    controller and the DDR memory agree; and the callable of every stored
    request can be called where [depth] nested calls are left. *)
Definition world_wf (height depth : nat) (w : World) : Prop :=
  Forall (fun c => hierarchy_ok height w (MultiLevelCache.l1 (Core.cache c)))
         (cores w) /\
  memory_ok w /\
  Forall (request_ok depth w) (stored w).

(** A small world of the shape that [Experiment] builds: a shared level of two
    sets of two ways at position 0, linked to the interconnect, and above it
    the private level of core 0, one set of two ways, at position 1.  Core 0
    reads address 0 at cycle 0, writes address 4 at cycle 1 and reads address
    64 at cycle 2. *)
Definition small_l2 : CacheLevel.t :=
  {| CacheLevel.level := "L2"; CacheLevel.core_id := CoreStr "anycore";
     CacheLevel.line_size := 4; CacheLevel.assoc := 2; CacheLevel.num_sets := 2;
     CacheLevel.sets := [[CacheLine.init; CacheLine.init];
                         [CacheLine.init; CacheLine.init]];
     CacheLevel.plru_trees := [PLRU.mk [0] 2; PLRU.mk [0] 2];
     CacheLevel.memory := true; CacheLevel.lower := None;
     CacheLevel.write_back := true; CacheLevel.write_allocate := true;
     CacheLevel.hits := 0; CacheLevel.misses := 0 |}.

Definition small_l1 : CacheLevel.t :=
  {| CacheLevel.level := "L1"; CacheLevel.core_id := CoreInt 0;
     CacheLevel.line_size := 4; CacheLevel.assoc := 2; CacheLevel.num_sets := 1;
     CacheLevel.sets := [[CacheLine.init; CacheLine.init]];
     CacheLevel.plru_trees := [PLRU.mk [0] 2];
     CacheLevel.memory := false; CacheLevel.lower := Some 0%nat;
     CacheLevel.write_back := true; CacheLevel.write_allocate := true;
     CacheLevel.hits := 0; CacheLevel.misses := 0 |}.

Definition small_core : Core.t :=
  {| Core.core_id := CoreInt 0;
     Core.cache := MultiLevelCache.mk (CoreInt 0) 1;
     Core.pending_accesses := []; Core.stall_op := None;
     Core.inst := {[0 := (read, 0); 1 := (write, 4); 2 := (read, 64)]} |}.

Definition small_world : World :=
  {| global_cycle := 0; random := fun _ => 0; random_drawn := 0;
     caches := [small_l2; small_l1]; cores := [small_core];
     interconnect := Interconnect.init 5 4;
     ddr_controller := DDRMemoryController.init 4 15 15 15 30 15 8 4;
     ddr_memory_physical := DDRMemory.init 4;
     invoked := [] |}.

(** The levels that an access to level [l] can reach in [n] nested calls:
    [l], the level below it, and so on. *)
Fixpoint chain (n : nat) (w : World) (l : nat) : list nat :=
  match n with
  | O => []
  | S n =>
      l :: match caches w !! l ≫= CacheLevel.lower with
           | Some lower => chain n w lower
           | None => []
           end
  end.

(** The sets of level [l]. *)
Definition sets_at (w : World) (l : nat) : option (list (list CacheLine.t)) :=
  CacheLevel.sets <$> caches w !! l.

(** [small_world] with a write-through private level. *)
Definition through_l1 : CacheLevel.t :=
  {| CacheLevel.level := "L1"; CacheLevel.core_id := CoreInt 0;
     CacheLevel.line_size := 4; CacheLevel.assoc := 2; CacheLevel.num_sets := 1;
     CacheLevel.sets := [[CacheLine.init; CacheLine.init]];
     CacheLevel.plru_trees := [PLRU.mk [0] 2];
     CacheLevel.memory := false; CacheLevel.lower := Some 0%nat;
     CacheLevel.write_back := false; CacheLevel.write_allocate := true;
     CacheLevel.hits := 0; CacheLevel.misses := 0 |}.

Definition through_world : World := set_caches small_world [small_l2; through_l1].

(** The address of a line that a write-back level writes back when it evicts
    it: the line is valid and dirty, and the address is rebuilt from its tag
    and its set. *)
Definition victim_address (w : World) (a : Z) : Prop :=
  exists l self index cache_set line tag,
    caches w !! l = Some self /\ CacheLevel.write_back self = true /\
    py_getitem (CacheLevel.sets self) index = Some cache_set /\
    line ∈ cache_set /\
    CacheLine.valid line = true /\ CacheLine.dirty line = true /\
    CacheLine.tag line = Some tag /\
    a = (tag * CacheLevel.num_sets self + index) * CacheLevel.line_size self.

(** The requests that a write of [addr] in the world [w] may send to the
    interconnect: writes without a callable and without a completion time, of
    [addr] itself or of a victim, in the name of a level that is linked to the
    interconnect. *)
Definition write_request_of (w : World) (addr : Z) (req : MemoryRequest.t)
    : Prop :=
  MemoryRequest.req_type req = write /\
  MemoryRequest.callback req = None /\
  MemoryRequest.completion_time req = -1 /\
  (MemoryRequest.addr req = addr \/ victim_address w (MemoryRequest.addr req)) /\
  exists l self,
    caches w !! l = Some self /\ CacheLevel.memory self = true /\
    CacheLevel.lower self = None /\
    MemoryRequest.core_id req = CacheLevel.core_id self.

(** The world [w1] has the levels of [w], with their configuration, and the
    lines of the write-back levels are those of [w]. *)
Definition same_dirty (w w1 : World) : Prop :=
  forall l self1,
    caches w1 !! l = Some self1 ->
    exists self,
      caches w !! l = Some self /\ config self1 = config self /\
      (CacheLevel.write_back self = true ->
       CacheLevel.sets self1 = CacheLevel.sets self).

(** * Properties *)

(** ** The model computes *)

Example plru4 :
  (p ← PLRU.update_on_access (PLRU.init 4) 3; PLRU.get_victim p) = Some 0.
Proof. reflexivity. Qed.

(** The first scenario of the source: core 0 reads address 0 at cycle 0 and
    address 2, in the same line, at cycle 60.  After 100 cycles its L1 has one
    hit and one miss, and the shared L2 one miss. *)
Example same_line_reuse :
  (w ← Experiment (fun _ => 0) {[0 := (read, 0); 60 := (read, 2)]} ∅;
   w ← simulate 3 100 w;
   Some ((fun c => (CacheLevel.hits c, CacheLevel.misses c)) <$> caches w,
         Core.pending_accesses <$> cores w))
  = Some ([(0, 1); (1, 1); (0, 0)], [[]; []]).
Proof. vm_compute. reflexivity. Qed.

Example heap4 :
  let h := foldl (heapq.heappush Z.ltb) [] [5; 3; 8; 1; 9; 2] in
  h = [1; 3; 2; 5; 9; 8] /\
  heapq.heappop Z.ltb h = Some (1, [2; 3; 8; 5; 9]) /\
  heapq.heapify Z.ltb [9; 8; 7; 6; 5; 4; 3; 2; 1] = [1; 2; 3; 6; 5; 4; 7; 8; 9].
Proof. vm_compute. repeat split; reflexivity. Qed.

(** ** Python primitives *)

Lemma py_pos_nonneg (len : nat) (i : Z) :
  0 <= i < Z.of_nat len -> py_pos len i = Some (Z.to_nat i).
Proof.
  intros H. unfold py_pos.
  destruct (Z.leb_spec 0 i); [|lia]. destruct (Z.ltb_spec i (Z.of_nat len)); [|lia].
  reflexivity.
Qed.

Lemma py_getitem_nonneg {A} (l : list A) (i : Z) :
  0 <= i < Z.of_nat (length l) -> py_getitem l i = l !! Z.to_nat i.
Proof. intros H. unfold py_getitem. rewrite py_pos_nonneg by done. reflexivity. Qed.

Lemma py_getitem_is_Some {A} (l : list A) (i : Z) :
  0 <= i < Z.of_nat (length l) -> is_Some (py_getitem l i).
Proof.
  intros H. rewrite py_getitem_nonneg by done.
  apply lookup_lt_is_Some. lia.
Qed.

Lemma py_setitem_nonneg {A} (l : list A) (i : Z) (x : A) :
  0 <= i < Z.of_nat (length l) -> py_setitem l i x = Some (<[Z.to_nat i := x]> l).
Proof. intros H. unfold py_setitem. rewrite py_pos_nonneg by done. reflexivity. Qed.

Lemma bit_length_pow2 (k : Z) : 0 <= k -> bit_length (2 ^ k) = k + 1.
Proof.
  intros Hk. unfold bit_length.
  assert (0 < 2 ^ k) by (apply Z.pow_pos_nonneg; lia).
  destruct (Z.eqb_spec (2 ^ k) 0); [lia|].
  rewrite Z.abs_eq by lia. rewrite Z.log2_pow2 by done. reflexivity.
Qed.

Lemma lor_shiftl_bit (a d : Z) :
  d = 0 \/ d = 1 -> Z.lor (Z.shiftl a 1) d = 2 * a + d.
Proof.
  intros Hd. rewrite Z.shiftl_mul_pow2 by lia. change (2 ^ 1) with 2.
  destruct Hd as [-> | ->].
  - rewrite Z.lor_0_r. lia.
  - apply Z.bits_inj'. intros n Hn. rewrite Z.lor_spec.
    replace (a * 2) with (2 * a) by lia.
    destruct (Z.eq_dec n 0) as [-> | Hne].
    + rewrite Z.testbit_odd_0, Z.testbit_even_0. reflexivity.
    + replace n with (Z.succ (n - 1)) by lia.
      rewrite Z.testbit_odd_succ, Z.testbit_even_succ by lia.
      replace (Z.testbit 1 (Z.succ (n - 1))) with false; [apply orb_false_r|].
      symmetry. change 1 with (2 * 0 + 1). rewrite Z.testbit_odd_succ by lia.
      apply Z.testbit_0_l.
Qed.

Lemma land_1_bit (x : Z) : Z.land x 1 = 0 \/ Z.land x 1 = 1.
Proof.
  pose proof (Z.land_ones x 1) as H. change (Z.ones 1) with 1 in H.
  change (2 ^ 1) with 2 in H. rewrite H by lia.
  pose proof (Z.mod_pos_bound x 2). lia.
Qed.

(** ** PLRU *)

Lemma pow2_succ_nat (j : Z) (n : nat) :
  0 <= j -> 2 ^ (j + Z.of_nat (S n)) = 2 * 2 ^ (j + Z.of_nat n).
Proof.
  intros Hj. replace (j + Z.of_nat (S n)) with (Z.succ (j + Z.of_nat n)) by lia.
  rewrite Z.pow_succ_r by lia. reflexivity.
Qed.

(** The walk of [get_victim] from a node of depth [j] that is [way] nodes
    from the left: it reads inside the tree and ends in a leaf below that
    node. *)
Lemma victim_loop_spec (n : nat) :
  forall (bits : list Z) (way idx j : Z),
    0 <= j -> 0 <= way < 2 ^ j -> idx = 2 ^ j - 1 + way ->
    Z.of_nat (length bits) = 2 ^ (j + Z.of_nat n) - 1 ->
    Forall is_bit bits ->
    exists v reads,
      PLRU.victim_loop n bits way idx = Some (v, reads) /\
      way * 2 ^ Z.of_nat n <= v < (way + 1) * 2 ^ Z.of_nat n /\
      Forall (fun i => 0 <= i < Z.of_nat (length bits)) reads.
Proof.
  induction n as [|n IH]; intros bits way idx j Hj Hway Hidx Hlen Hbits.
  - exists way, []. simpl. split; [reflexivity|]. split; [lia|constructor].
  - assert (Hpj : 0 < 2 ^ j) by (apply Z.pow_pos_nonneg; lia).
    assert (Hpn : 2 ^ j <= 2 ^ (j + Z.of_nat n))
      by (apply Z.pow_le_mono_r; lia).
    rewrite pow2_succ_nat in Hlen by done.
    assert (Hin : 0 <= idx < Z.of_nat (length bits)) by lia.
    destruct (py_getitem_is_Some bits idx Hin) as [d Hd].
    assert (Hdb : is_bit d).
    { rewrite py_getitem_nonneg in Hd by done.
      eapply Forall_lookup_1 in Hbits; eauto. }
    simpl. rewrite Hd. simpl.
    rewrite lor_shiftl_bit by done.
    rewrite Z.shiftl_mul_pow2 by lia. change (2 ^ 1) with 2.
    destruct (IH bits (2 * way + d) (idx * 2 + 1 + d) (j + 1)) as (v & reads & Hv & Hr & Hreads).
    + lia.
    + rewrite Z.pow_add_r by lia. change (2 ^ 1) with 2. destruct Hdb; lia.
    + rewrite Z.pow_add_r by lia. change (2 ^ 1) with 2. lia.
    + replace (j + 1 + Z.of_nat n) with (Z.succ (j + Z.of_nat n)) by lia.
      rewrite Z.pow_succ_r by lia. lia.
    + done.
    + exists v, (idx :: reads). rewrite Hv. simpl. split; [reflexivity|].
      split; [|constructor; done].
      replace (Z.of_nat (S n)) with (Z.succ (Z.of_nat n)) by lia.
      rewrite Z.pow_succ_r by lia.
      assert (0 < 2 ^ Z.of_nat n) by (apply Z.pow_pos_nonneg; lia).
      destruct Hdb as [-> | ->]; nia.
Qed.




Lemma power_of_two_exponent (n : Z) :
  is_power_of_two n -> 2 <= n -> exists k, 1 <= k /\ n = 2 ^ k.
Proof.
  intros (k & Hk & ->) Hn. exists k. split; [|reflexivity].
  destruct (Z.eq_dec k 0) as [-> | ?]; [|lia]. change (2 ^ 0) with 1 in Hn. lia.
Qed.

(** C10: for a tree over [assoc] ways, [assoc] a power of two and at least 2,
    whose [assoc - 1] bits are each 0 or 1, [get_victim] returns (it raises
    nothing), every subscript at which it reads [bits] lies within the
    [assoc - 1] bits, and the way [v] it returns satisfies [0 <= v < assoc]:
    subscripting a cache set of [assoc] lines with it is in bounds. *)
Theorem get_victim_in_bounds (p : PLRU.t) :
  is_power_of_two (PLRU.ways p) -> 2 <= PLRU.ways p ->
  Z.of_nat (length (PLRU.bits p)) = PLRU.ways p - 1 ->
  Forall is_bit (PLRU.bits p) ->
  exists v reads,
    PLRU.get_victim_reads p = Some (v, reads) /\
    PLRU.get_victim p = Some v /\
    0 <= v < PLRU.ways p /\
    Forall (fun i => 0 <= i < Z.of_nat (length (PLRU.bits p))) reads /\
    forall cache_set : list CacheLine.t,
      Z.of_nat (length cache_set) = PLRU.ways p ->
      exists victim_line,
        py_getitem cache_set v = Some victim_line /\
        cache_set !! Z.to_nat v = Some victim_line.
Proof.
  intros Hpow Hge Hlen Hbits.
  destruct (power_of_two_exponent _ Hpow Hge) as (k & Hk & Hways).
  destruct (victim_loop_spec (Z.to_nat k) (PLRU.bits p) 0 0 0)
    as (v & reads & Hrun & Hv & Hreads).
  - lia.
  - change (2 ^ 0) with 1. lia.
  - reflexivity.
  - rewrite Hlen, Hways. f_equal. f_equal. lia.
  - done.
  - exists v, reads. unfold PLRU.get_victim, PLRU.get_victim_reads.
    rewrite Hways, bit_length_pow2 by lia.
    replace (k + 1 - 1) with k by lia. rewrite Hrun.
    rewrite Z2Nat.id in Hv by lia.
    split; [reflexivity|]. split; [reflexivity|]. split; [lia|].
    split; [done|].
    intros cache_set Hset.
    destruct (py_getitem_is_Some cache_set v) as [line Hline]; [lia|].
    exists line. split; [done|]. rewrite py_getitem_nonneg in Hline by lia. done.
Qed.

Lemma get_victim_in_bounds_witness :
  exists v reads,
    PLRU.get_victim_reads (PLRU.mk [1; 0; 1] 4) = Some (v, reads) /\
    PLRU.get_victim (PLRU.mk [1; 0; 1] 4) = Some v /\
    0 <= v < 4 /\
    Forall (fun i => 0 <= i < 3) reads /\
    forall cache_set : list CacheLine.t,
      Z.of_nat (length cache_set) = 4 ->
      exists victim_line,
        py_getitem cache_set v = Some victim_line /\
        cache_set !! Z.to_nat v = Some victim_line.
Proof.
  apply (get_victim_in_bounds (PLRU.mk [1; 0; 1] 4)).
  - exists 2. split; [lia | reflexivity].
  - simpl. lia.
  - reflexivity.
  - simpl. repeat constructor; unfold is_bit; lia.
Defined.



(** ** Construction *)

Lemma three_not_power_of_two : ~ is_power_of_two 3.
Proof.
  intros (k & Hk & H).
  destruct (Z.eq_dec k 0) as [-> | ?]; [discriminate|].
  destruct (Z.eq_dec k 1) as [-> | ?]; [discriminate|].
  replace k with (Z.succ (Z.succ (k - 2))) in H by lia.
  rewrite !Z.pow_succ_r in H by lia. lia.
Qed.

(** C8, as the spec states it, fails: a cache level with an associativity of 3
    and a size that is no multiple of [line_size * assoc] is constructed, and
    so is a DDR memory without banks. *)
Lemma construction_accepts_invalid_configuration :
  (~ is_power_of_two 3 /\ ~ (4 * 3 | 32) /\
   is_Some (CacheLevel.init "L1" (CoreInt 0) 32 4 3 false true true)) /\
  (~ 0 < 0 /\ DDRMemory.bank_states (DDRMemory.init 0) = []).
Proof.
  split; [split; [|split]|split].
  - exact three_not_power_of_two.
  - intros [q Hq]. lia.
  - eexists. reflexivity.
  - lia.
  - reflexivity.
Qed.

(** C8, amended: construction checks nothing.  Constructing a cache level
    raises exactly when [line_size] or [assoc] is 0 (the divisor of one of
    its two floor divisions), whatever else the configuration is; constructing
    a DDR memory never raises and gives [max(num_banks, 0)] banks.  With a
    valid configuration the cache level is constructed, and has
    [size / (line_size * assoc)] sets of [assoc] lines. *)
Theorem construction_checks_nothing
    (level_name : string) (core_id : CoreId) (size line_size assoc : Z)
    (memory write_back write_allocate : bool) (num_banks : Z) :
  (CacheLevel.init level_name core_id size line_size assoc
                   memory write_back write_allocate = None
   <-> line_size = 0 \/ assoc = 0) /\
  (valid_cache_config size line_size assoc ->
   exists c,
     CacheLevel.init level_name core_id size line_size assoc
                     memory write_back write_allocate = Some c /\
     CacheLevel.num_sets c * (line_size * assoc) = size /\
     Z.of_nat (length (CacheLevel.sets c)) = CacheLevel.num_sets c /\
     Forall (fun s => Z.of_nat (length s) = assoc) (CacheLevel.sets c)) /\
  length (DDRMemory.bank_states (DDRMemory.init num_banks)) = Z.to_nat num_banks.
Proof.
  split; [|split].
  - unfold CacheLevel.init, py_floordiv.
    destruct (Z.eqb_spec line_size 0) as [-> | Hl]; simpl.
    + split; auto.
    + destruct (Z.eqb_spec assoc 0) as [-> | Ha]; simpl.
      * split; auto.
      * split; [discriminate|]. intros [? | ?]; contradiction.
  - intros ((k & Hk & ->) & Hl & Hsize & (q & Hq)).
    assert (Hp : 0 < 2 ^ k) by (apply Z.pow_pos_nonneg; lia).
    unfold CacheLevel.init, py_floordiv.
    destruct (Z.eqb_spec line_size 0); [lia|]. simpl.
    destruct (Z.eqb_spec (2 ^ k) 0); [lia|]. simpl.
    eexists. split; [reflexivity|]. simpl.
    assert (Hns : size / line_size / 2 ^ k = q).
    { rewrite Z.div_div by lia. subst size. apply Z.div_mul. lia. }
    rewrite Hns.
    assert (Hq0 : 0 <= q) by nia.
    split; [lia|]. unfold py_repeat. rewrite length_replicate.
    split; [lia|].
    apply Forall_replicate. rewrite length_replicate. lia.
  - apply length_replicate.
Qed.

Lemma construction_checks_nothing_witness :
  exists c,
    CacheLevel.init "L2" (CoreStr "anycore") 1024 4 16 true true true = Some c /\
    CacheLevel.num_sets c * (4 * 16) = 1024 /\
    Z.of_nat (length (CacheLevel.sets c)) = CacheLevel.num_sets c /\
    Forall (fun s => Z.of_nat (length s) = 16) (CacheLevel.sets c).
Proof.
  apply (construction_checks_nothing "L2" (CoreStr "anycore") 1024 4 16
           true true true 4).
  split; [exists 4; split; [lia | reflexivity]|].
  split; [lia|]. split; [lia|]. exists 16. reflexivity.
Defined.

(** ** Core: hazards *)

Lemma dependency_loop_true (op : ReqType) (addr : Z) (l : list (ReqType * Z)) :
  Core.dependency_loop op addr l = true <->
  exists o a, (o, a) ∈ l /\ a = addr /\ o <> op.
Proof.
  induction l as [|[o a] l IH]; simpl.
  - split; [discriminate|]. intros (o & a & Hin & _). inversion Hin.
  - destruct (bool_decide (op ≠ o) && (a =? addr)) eqn:Hc.
    + apply andb_true_iff in Hc as [Ho Ha].
      apply bool_decide_eq_true in Ho. apply Z.eqb_eq in Ha.
      split; [|done]. intros _. exists o, a.
      split; [left|]. split; [done|congruence].
    + rewrite IH. split.
      * intros (o' & a' & Hin & Ha & Ho). exists o', a'. split; [by right|done].
      * intros (o' & a' & Hin & Ha & Ho). exists o', a'.
        apply elem_of_cons in Hin as [Heq | Hin]; [|done].
        exfalso. inversion Heq; subst o' a'.
        apply andb_false_iff in Hc as [Hc | Hc].
        -- apply bool_decide_eq_false in Hc. apply Hc. congruence.
        -- apply Z.eqb_neq in Hc. done.
Qed.

(** C7: an operation [(k, a)] is judged hazardous exactly when some pending
    access has the same address and another kind, so a read does not stall on
    pending reads of its address; and a core that is not stalled and finds a
    hazardous operation in its trace at the current cycle stores it in
    [stall_op] and does nothing else: its queue, its cache and its trace are
    as before, and so are the other cores, the caches, the interconnect, the
    controller, the DDR memory, the random generator and the global cycle.  An
    operation that is not hazardous is issued.  A stalled operation that is
    still hazardous stays in [stall_op], and the tick changes nothing. *)
Theorem hazard_rule (depth core : nat) (w : World) (self : Core.t)
    (k : ReqType) (a : Z) :
  (Core.dependency self k a = true <->
   exists k' a', (k', a') ∈ Core.pending_accesses self /\ a' = a /\ k' <> k) /\
  ((forall k', (k', a) ∈ Core.pending_accesses self -> k' = read) ->
   Core.dependency self read a = false) /\
  (cores w !! core = Some self ->
   Core.stall_op self = None ->
   Core.inst self !! global_cycle w = Some (k, a) ->
   (Core.dependency self k a = true ->
    exists w' self',
      Core_tick depth core w = Some w' /\
      cores w' = <[core := self']> (cores w) /\
      Core.stall_op self' = Some (k, a) /\
      Core.pending_accesses self' = Core.pending_accesses self /\
      Core.core_id self' = Core.core_id self /\
      Core.cache self' = Core.cache self /\
      Core.inst self' = Core.inst self /\
      caches w' = caches w /\ interconnect w' = interconnect w /\
      ddr_controller w' = ddr_controller w /\
      ddr_memory_physical w' = ddr_memory_physical w /\
      global_cycle w' = global_cycle w /\ random w' = random w /\
      random_drawn w' = random_drawn w /\ invoked w' = invoked w) /\
   (Core.dependency self k a = false ->
    Core_tick depth core w =
      match k with
      | write => Core_write depth self a w
      | read => Core_issue_read depth core a w
      end)) /\
  (cores w !! core = Some self ->
   Core.stall_op self = Some (k, a) ->
   Core.dependency self k a = true ->
   Core_tick depth core w = Some w).
Proof.
  split; [apply dependency_loop_true|]. split; [|split].
  - intros Hreads. destruct (Core.dependency self read a) eqn:Hd; [|done].
    apply dependency_loop_true in Hd as (k' & a' & Hin & -> & Hne).
    apply Hreads in Hin. contradiction.
  - intros Hself Hstall Hinst. unfold Core_tick, Core_set_stall_op.
    rewrite Hself. simpl. rewrite Hstall, Hinst. split; intros Hdep.
    + eexists _, _.
      split; [destruct k; rewrite Hdep; reflexivity|].
      simpl. repeat split; reflexivity.
    + destruct k; rewrite Hdep; reflexivity.
  - intros Hself Hstall Hdep. unfold Core_tick.
    rewrite Hself. simpl. by rewrite Hstall, Hdep.
Qed.

Lemma hazard_rule_witness :
  exists w self,
    hazard_world = Some w /\
    cores w !! 0%nat = Some self /\
    Core.pending_accesses self = [(read, 0)] /\
    Core.dependency self write 0 = true /\
    Core.dependency self read 0 = false /\
    exists w' self',
      Core_tick 2 0 w = Some w' /\
      cores w' = <[0%nat := self']> (cores w) /\
      Core.stall_op self' = Some (write, 0) /\
      Core.pending_accesses self' = [(read, 0)] /\
      caches w' = caches w /\ interconnect w' = interconnect w.
Proof.
  eexists _, _.
  split; [vm_compute; reflexivity|].
  split; [vm_compute; reflexivity|].
  split; [vm_compute; reflexivity|]. split; [vm_compute; reflexivity|].
  match goal with
  | |- Core.dependency ?self read 0 = false /\ exists w' self', Core_tick _ _ ?w = _ /\ _ =>
      pose proof (hazard_rule 2 0 w self write 0) as (_ & _ & Htick & _);
      pose proof (hazard_rule 2 0 w self read 0) as (_ & Hread & _);
      assert (Hself : cores w !! 0%nat = Some self) by (vm_compute; reflexivity);
      assert (Hstall : Core.stall_op self = None) by (vm_compute; reflexivity);
      assert (Hinst : Core.inst self !! global_cycle w = Some (write, 0))
        by (vm_compute; reflexivity);
      assert (Hdep : Core.dependency self write 0 = true) by (vm_compute; reflexivity)
  end.
  split.
  - apply Hread. intros k' Hk'. apply list_elem_of_singleton in Hk'.
    by inversion Hk'.
  - pose proof (Htick Hself Hstall Hinst) as [Hstored _].
    pose proof (Hstored Hdep) as (w' & self' & Hrun & Hcores & Hst & Hp & _ & _ & _
                         & Hcaches & Hic & _).
    exists w', self'.
    split; [exact Hrun|]. split; [exact Hcores|]. split; [exact Hst|].
    split; [exact Hp|]. split; [exact Hcaches|exact Hic].
Defined.

(** ** heapq: the heap holds the same elements *)

Section list_moves.
Context {A : Type}.
Implicit Types l : list A.

Lemma insert_swap_cons l (i : nat) (x y : A) :
  (i < length l)%nat -> x :: <[i := y]> l ≡ₚ y :: <[i := x]> l.
Proof.
  revert i. induction l as [|a l IH]; intros i Hi; simpl in Hi; [lia|].
  destruct i as [|i]; simpl.
  - apply perm_swap.
  - rewrite (perm_swap a x), (perm_swap a y).
    apply perm_skip, IH. lia.
Qed.

Lemma insert_cons_lookup l (i : nat) (x y : A) :
  l !! i = Some y -> y :: <[i := x]> l ≡ₚ x :: l.
Proof.
  intros Hy. rewrite <- (list_insert_id l i y Hy) at 2.
  apply insert_swap_cons. by eapply lookup_lt_Some.
Qed.

(** Moving the element at [j] into the hole at [i], the hole going to
    [j]. *)
Lemma insert_move l (i j : nat) (x y : A) :
  i <> j -> (i < length l)%nat -> l !! j = Some y ->
  <[j := x]> (<[i := y]> l) ≡ₚ <[i := x]> l.
Proof.
  revert i j. induction l as [|a l IH]; intros i j Hne Hi Hj; [done|].
  destruct i as [|i], j as [|j]; simpl in *; try done.
  - by apply insert_cons_lookup.
  - inversion Hj; subst a. apply insert_swap_cons. lia.
  - apply perm_skip, IH; [lia|lia|done].
Qed.
End list_moves.

Section heapq_perm.
Context {A : Type} (lt : A -> A -> bool).
Implicit Types heap : list A.

(** The counts that bound the two loops are enough: any count that covers
    the way to the root, or to the end of the list, gives the same result. *)
Lemma _siftdown_loop_fuel n m heap startpos pos newitem :
  (pos <= n)%nat -> (pos <= m)%nat ->
  heapq._siftdown_loop lt n heap startpos pos newitem
    = heapq._siftdown_loop lt m heap startpos pos newitem.
Proof.
  revert m heap pos.
  induction n as [|n IH]; intros [|m] heap pos Hn Hm;
    cbn [heapq._siftdown_loop]; try done.
  - assert (pos = 0)%nat as -> by lia. by rewrite decide_False by lia.
  - assert (pos = 0)%nat as -> by lia. by rewrite decide_False by lia.
  - destruct (decide (startpos < pos)%nat); [|done].
    destruct (heap !! ((pos - 1) / 2)%nat); [|done].
    destruct (lt newitem a); [|done]. apply IH; lia.
Qed.

Lemma _siftup_loop_fuel n m heap endpos pos :
  (endpos <= n + pos)%nat -> (endpos <= m + pos)%nat ->
  heapq._siftup_loop lt n heap endpos pos = heapq._siftup_loop lt m heap endpos pos.
Proof.
  revert m heap pos.
  induction n as [|n IH]; intros [|m] heap pos Hn Hm;
    cbn [heapq._siftup_loop]; try done.
  - by rewrite decide_False by lia.
  - by rewrite decide_False by lia.
  - destruct (decide (2 * pos + 1 < endpos)%nat); [|done].
    match goal with |- context [heap !! ?c] =>
      match c with
      | (if _ then _ else _) => set (childpos := c)
      end end.
    assert (Hchild : (pos < childpos)%nat).
    { subst childpos. repeat case_match; lia. }
    destruct (heap !! childpos); [|done]. apply IH; lia.
Qed.

Lemma _siftdown_loop_perm n heap startpos pos newitem :
  (pos < length heap)%nat ->
  heapq._siftdown_loop lt n heap startpos pos newitem ≡ₚ <[pos := newitem]> heap.
Proof.
  revert heap pos.
  induction n as [|n IH]; intros heap pos Hpos; cbn [heapq._siftdown_loop];
    [done|].
  destruct (decide (startpos < pos)%nat) as [Hlt|]; [|done].
  destruct (heap !! ((pos - 1) / 2)%nat) as [parent|] eqn:Hparent; [|done].
  destruct (lt newitem parent); [|done].
  assert ((pos - 1) / 2 < pos)%nat by lia.
  rewrite IH by (rewrite length_insert; lia).
  apply insert_move; [lia|done|done].
Qed.

Lemma _siftdown_perm heap startpos pos :
  heapq._siftdown lt heap startpos pos ≡ₚ heap.
Proof.
  unfold heapq._siftdown. destruct (heap !! pos) as [newitem|] eqn:Hpos; [|done].
  rewrite _siftdown_loop_perm by (by eapply lookup_lt_Some).
  by rewrite list_insert_id.
Qed.

Lemma _siftup_loop_child n heap endpos pos :
  (pos < length heap)%nat ->
  let '(heap', leaf) := heapq._siftup_loop lt n heap endpos pos in
  length heap' = length heap /\ (pos <= leaf < length heap)%nat /\
  forall x, <[leaf := x]> heap' ≡ₚ <[pos := x]> heap.
Proof.
  revert heap pos.
  induction n as [|n IH]; intros heap pos Hpos; cbn [heapq._siftup_loop].
  { split; [done|]. split; [lia|done]. }
  destruct (decide (2 * pos + 1 < endpos)%nat); [|split; [done|split; [lia|done]]].
  match goal with |- context [heap !! ?c] =>
    match c with
    | (if _ then _ else _) => set (childpos := c)
    end end.
  assert (Hchild : (pos < childpos)%nat).
  { subst childpos. repeat case_match; lia. }
  destruct (heap !! childpos) as [child|] eqn:Hc;
    [|split; [done|split; [lia|done]]].
  specialize (IH (<[pos := child]> heap) childpos).
  rewrite length_insert in IH.
  assert (Hcl : (childpos < length heap)%nat) by (by eapply lookup_lt_Some).
  specialize (IH Hcl).
  destruct (heapq._siftup_loop lt n (<[pos := child]> heap) endpos childpos)
    as [heap' leaf].
  destruct IH as (Hlen & Hleaf & Hperm).
  split; [done|]. split; [lia|].
  intros x. rewrite Hperm. apply insert_move; [lia|done|done].
Qed.

Lemma _siftup_perm heap pos : heapq._siftup lt heap pos ≡ₚ heap.
Proof.
  unfold heapq._siftup. destruct (heap !! pos) as [newitem|] eqn:Hpos; [|done].
  pose proof (_siftup_loop_child (length heap) heap (length heap) pos) as H.
  destruct (heapq._siftup_loop lt (length heap) heap (length heap) pos)
    as [heap' leaf].
  destruct H as (_ & _ & Hperm); [by eapply lookup_lt_Some|].
  rewrite _siftdown_perm, Hperm. by rewrite list_insert_id.
Qed.

Lemma heappush_perm heap item : heapq.heappush lt heap item ≡ₚ item :: heap.
Proof.
  unfold heapq.heappush. rewrite _siftdown_perm.
  symmetry. apply Permutation_cons_append.
Qed.

Lemma heappop_cases heap returnitem heap' :
  heapq.heappop lt heap = Some (returnitem, heap') ->
  (heap = [returnitem] /\ heap' = []) \/
  exists rest lastelt,
    heap = returnitem :: rest ++ [lastelt] /\
    heap' = heapq._siftup lt (lastelt :: rest) 0.
Proof.
  unfold heapq.heappop. intros H.
  destruct (reverse heap) as [|lastelt rest] eqn:Hrev; [done|].
  assert (Hheap : heap = reverse rest ++ [lastelt]).
  { rewrite <- (reverse_involutive heap), Hrev. apply reverse_cons. }
  destruct (reverse rest) as [|first rest'] eqn:Hrest.
  - inversion H; subst. by left.
  - inversion H; subst. right. by exists rest', lastelt.
Qed.

Lemma heappop_head heap returnitem heap' :
  heapq.heappop lt heap = Some (returnitem, heap') -> heap !! 0%nat = Some returnitem.
Proof.
  intros H. apply heappop_cases in H as [[-> _] | (rest & lastelt & -> & _)]; done.
Qed.

Lemma heappop_perm heap returnitem heap' :
  heapq.heappop lt heap = Some (returnitem, heap') -> heap ≡ₚ returnitem :: heap'.
Proof.
  intros H. apply heappop_cases in H as [[-> ->] | (rest & lastelt & -> & ->)]; [done|].
  rewrite _siftup_perm. apply perm_skip. symmetry. apply Permutation_cons_append.
Qed.

Lemma heappop_is_Some heap :
  heap <> [] -> is_Some (heapq.heappop lt heap).
Proof.
  intros Hne. unfold heapq.heappop.
  destruct (reverse heap) as [|lastelt rest] eqn:Hrev.
  - apply (f_equal reverse) in Hrev. rewrite reverse_involutive in Hrev. done.
  - destruct (reverse rest); eauto.
Qed.

Lemma heapify_loop_perm n heap : heapq.heapify_loop lt n heap ≡ₚ heap.
Proof.
  revert heap. induction n as [|n IH]; intros heap; simpl; [done|].
  by rewrite IH, _siftup_perm.
Qed.

Lemma heapify_perm heap : heapq.heapify lt heap ≡ₚ heap.
Proof. apply heapify_loop_perm. Qed.
End heapq_perm.

(** ** heapq: the heap stays ordered

    [lt] is asymmetric and its complement is transitive, as [<] is on the
    pairs that the queues hold. *)

Section heapq_order.
Context {A : Type} (lt : A -> A -> bool).
Hypothesis lt_asym : forall x y, lt x y = true -> lt y x = false.
Hypothesis le_trans :
  forall x y z, lt y x = false -> lt z y = false -> lt z x = false.
Implicit Types heap : list A.

Lemma lt_irrefl x : lt x x = false.
Proof. destruct (lt x x) eqn:H; [|done]. by rewrite (lt_asym _ _ H) in H. Qed.

Lemma heap_ok_nil : heap_ok lt [].
Proof. intros i x y _ H. done. Qed.

Lemma heap_ok_prefix heap z : heap_ok lt (heap ++ [z]) -> heap_ok lt heap.
Proof.
  intros Hok i x y Hi Hx Hy.
  apply (Hok i x y Hi); by apply lookup_app_l_Some.
Qed.

(** The root of a heap is a least element. *)
Lemma heap_ok_root heap r :
  heap_ok lt heap -> heap !! 0%nat = Some r ->
  forall x, x ∈ heap -> lt x r = false.
Proof.
  intros Hok Hr x Hin. apply list_elem_of_lookup in Hin as [i Hi].
  revert x Hi. induction (lt_wf i) as [i _ IH]. intros x Hi.
  destruct (decide (i = 0)%nat) as [-> | Hne].
  - rewrite Hr in Hi. inversion Hi; subst. apply lt_irrefl.
  - assert (Hp : ((i - 1) / 2 < i)%nat) by lia.
    destruct (lookup_lt_is_Some_2 heap ((i - 1) / 2)%nat) as [y Hy].
    { apply lookup_lt_Some in Hi. lia. }
    eapply le_trans; [apply (IH _ Hp y Hy)|].
    apply (Hok i x y); [lia|done|done].
Qed.

(** [_siftdown] towards the root, with [newitem] to be put in the hole at
    [pos]: everything is in order except around the hole, the children of
    the hole are not below [newitem] nor below the parent of the hole. *)
Lemma _siftdown_loop_heap_ok n :
  forall heap pos newitem,
    (pos <= n)%nat -> (pos < length heap)%nat ->
    (forall i x y, (0 < i)%nat -> i <> pos -> heap !! i = Some x ->
                   heap !! ((i - 1) / 2)%nat = Some y -> lt x y = false) ->
    (forall c x, (0 < c)%nat -> ((c - 1) / 2)%nat = pos ->
                 heap !! c = Some x -> lt x newitem = false) ->
    (forall c x y, (0 < c)%nat -> (0 < pos)%nat -> ((c - 1) / 2)%nat = pos ->
                   heap !! c = Some x -> heap !! ((pos - 1) / 2)%nat = Some y ->
                   lt x y = false) ->
    heap_ok lt (heapq._siftdown_loop lt n heap 0 pos newitem).
Proof.
  assert (Hplace : forall heap pos newitem,
    (pos < length heap)%nat ->
    (forall i x y, (0 < i)%nat -> i <> pos -> heap !! i = Some x ->
                   heap !! ((i - 1) / 2)%nat = Some y -> lt x y = false) ->
    (forall c x, (0 < c)%nat -> ((c - 1) / 2)%nat = pos ->
                 heap !! c = Some x -> lt x newitem = false) ->
    (forall y, (0 < pos)%nat -> heap !! ((pos - 1) / 2)%nat = Some y ->
               lt newitem y = false) ->
    heap_ok lt (<[pos := newitem]> heap)).
  { intros heap pos newitem Hpos J1 J2 Hup i x y Hi Hx Hy.
    destruct (decide (i = pos)) as [-> | Hne].
    - rewrite list_lookup_insert_eq in Hx by done. inversion Hx; subst x.
      rewrite list_lookup_insert_ne in Hy by lia. by apply Hup.
    - rewrite list_lookup_insert_ne in Hx by done.
      destruct (decide ((i - 1) / 2 = pos)%nat) as [Hp | Hp].
      + rewrite Hp, list_lookup_insert_eq in Hy by done. inversion Hy; subst y.
        by apply (J2 i).
      + rewrite list_lookup_insert_ne in Hy by done. by apply (J1 i). }
  induction n as [|n IH]; intros heap pos newitem Hn Hpos J1 J2 J3;
    cbn [heapq._siftdown_loop].
  { apply Hplace; [done|done|done|]. intros y Hy. lia. }
  destruct (decide (0 < pos)%nat) as [Hlt|];
    [|apply Hplace; [done|done|done|intros; lia]].
  assert (Hpp : ((pos - 1) / 2 < pos)%nat) by lia.
  destruct (lookup_lt_is_Some_2 heap ((pos - 1) / 2)%nat) as [parent Hparent];
    [lia|].
  rewrite Hparent.
  destruct (lt newitem parent) eqn:Hcmp.
  - apply IH.
    + lia.
    + rewrite length_insert. lia.
    + intros i x y Hi Hne Hx Hy.
      destruct (decide (i = pos)) as [-> | Hipos].
      * rewrite list_lookup_insert_eq in Hx by done. inversion Hx; subst x.
        rewrite list_lookup_insert_ne in Hy by lia.
        rewrite Hparent in Hy. inversion Hy; subst y. apply lt_irrefl.
      * rewrite list_lookup_insert_ne in Hx by done.
        destruct (decide ((i - 1) / 2 = pos)%nat) as [Hp | Hp].
        -- rewrite Hp, list_lookup_insert_eq in Hy by done.
           inversion Hy; subst y. by apply (J3 i x parent).
        -- rewrite list_lookup_insert_ne in Hy by done. by apply (J1 i).
    + intros c x Hc Hcp Hx.
      destruct (decide (c = pos)) as [-> | Hcpos].
      * rewrite list_lookup_insert_eq in Hx by done. inversion Hx; subst x.
        by apply lt_asym.
      * rewrite list_lookup_insert_ne in Hx by done.
        apply (le_trans newitem parent x); [by apply lt_asym|].
        apply (J1 c x parent); [done|done|done|by rewrite Hcp].
    + intros c x y Hc Hpos' Hcp Hx Hy.
      rewrite list_lookup_insert_ne in Hy by lia.
      assert (Hpy : lt parent y = false).
      { apply (J1 ((pos - 1) / 2)%nat parent y); [done|lia|done|done]. }
      destruct (decide (c = pos)) as [-> | Hcpos].
      * rewrite list_lookup_insert_eq in Hx by done. by inversion Hx; subst x.
      * rewrite list_lookup_insert_ne in Hx by done.
        apply (le_trans y parent x); [done|].
        apply (J1 c x parent); [done|done|done|by rewrite Hcp].
  - apply Hplace; [done|done|done|].
    intros y _ Hy. rewrite Hparent in Hy. by inversion Hy; subst y.
Qed.

Lemma heappush_heap_ok heap item :
  heap_ok lt heap -> heap_ok lt (heapq.heappush lt heap item).
Proof.
  intros Hok. unfold heapq.heappush, heapq._siftdown.
  rewrite length_app. simpl.
  replace (length heap + 1 - 1)%nat with (length heap) by lia.
  rewrite lookup_app_r by lia. rewrite Nat.sub_diag. simpl.
  apply _siftdown_loop_heap_ok.
  - lia.
  - rewrite length_app. simpl. lia.
  - intros i x y Hi Hne Hx Hy.
    assert (i < length heap)%nat.
    { apply lookup_lt_Some in Hx. rewrite length_app in Hx. simpl in Hx. lia. }
    rewrite lookup_app_l in Hx by done.
    rewrite lookup_app_l in Hy by lia.
    by apply (Hok i).
  - intros c x Hc Hcp Hx. apply lookup_lt_Some in Hx.
    rewrite length_app in Hx. simpl in Hx. lia.
  - intros c x y Hc _ Hcp Hx. apply lookup_lt_Some in Hx.
    rewrite length_app in Hx. simpl in Hx. lia.
Qed.

(** The first loop of [_siftup], with the hole at [pos]: everything is in
    order except around the hole, and the children of the hole are not
    below its parent.  The hole ends in a leaf. *)
Lemma _siftup_loop_heap_ok n :
  forall heap pos,
    (length heap <= n + pos)%nat -> (pos < length heap)%nat ->
    (forall i x y, (0 < i)%nat -> i <> pos -> ((i - 1) / 2)%nat <> pos ->
                   heap !! i = Some x -> heap !! ((i - 1) / 2)%nat = Some y ->
                   lt x y = false) ->
    (forall c x y, (0 < c)%nat -> (0 < pos)%nat -> ((c - 1) / 2)%nat = pos ->
                   heap !! c = Some x -> heap !! ((pos - 1) / 2)%nat = Some y ->
                   lt x y = false) ->
    let '(heap', leaf) := heapq._siftup_loop lt n heap (length heap) pos in
    length heap' = length heap /\ (leaf < length heap)%nat /\
    (length heap <= 2 * leaf + 1)%nat /\
    (forall i x y, (0 < i)%nat -> i <> leaf -> heap' !! i = Some x ->
                   heap' !! ((i - 1) / 2)%nat = Some y -> lt x y = false).
Proof.
  induction n as [|n IH]; intros heap pos Hn Hpos K1 K2;
    cbn [heapq._siftup_loop]; [lia|].
  destruct (decide (2 * pos + 1 < length heap)%nat) as [Hchild|Hleaf].
  2:{ split; [done|]. split; [done|]. split; [lia|].
      intros i x y Hi Hne Hx Hy. apply (K1 i); try done.
      apply lookup_lt_Some in Hx. lia. }
  destruct (lookup_lt_is_Some_2 heap (2 * pos + 1)%nat) as [l Hl]; [done|].
  rewrite Hl.
  (* the smaller child [child] at [childpos], its sibling not below it *)
  assert (exists childpos child,
    (if decide (2 * pos + 1 + 1 < length heap)%nat
     then match heap !! (2 * pos + 1 + 1)%nat with
          | Some r => if lt l r then (2 * pos + 1)%nat else (2 * pos + 1 + 1)%nat
          | None => (2 * pos + 1)%nat
          end
     else (2 * pos + 1)%nat) = childpos /\
    heap !! childpos = Some child /\
    ((childpos - 1) / 2)%nat = pos /\ (pos < childpos)%nat /\
    forall i x, (0 < i)%nat -> i <> childpos -> ((i - 1) / 2)%nat = pos ->
                heap !! i = Some x -> lt x child = false)
    as (childpos & child & -> & Hc & Hcp & Hlt & Hsib).
  { destruct (decide (2 * pos + 1 + 1 < length heap)%nat) as [Hr|Hr].
    - destruct (lookup_lt_is_Some_2 heap (2 * pos + 1 + 1)%nat) as [r Hrv];
        [done|].
      rewrite Hrv. destruct (lt l r) eqn:Hcmp.
      + exists (2 * pos + 1)%nat, l. repeat split; [done|lia|lia|].
        intros i x Hi Hne Hp Hx.
        assert (i = 2 * pos + 1 + 1)%nat as -> by lia.
        rewrite Hrv in Hx. inversion Hx; subst x. by apply lt_asym.
      + exists (2 * pos + 1 + 1)%nat, r. repeat split; [done|lia|lia|].
        intros i x Hi Hne Hp Hx.
        assert (i = 2 * pos + 1)%nat as -> by lia.
        rewrite Hl in Hx. by inversion Hx; subst x.
    - exists (2 * pos + 1)%nat, l. repeat split; [done|lia|lia|].
      intros i x Hi Hne Hp Hx. apply lookup_lt_Some in Hx. lia. }
  rewrite Hc.
  assert (Hcl : (childpos < length heap)%nat) by (by eapply lookup_lt_Some).
  specialize (IH (<[pos := child]> heap) childpos).
  rewrite length_insert in IH.
  destruct (heapq._siftup_loop lt n (<[pos := child]> heap) (length heap) childpos)
    as [heap' leaf].
  apply IH; [lia|done| |].
  - intros i x y Hi Hne Hpne Hx Hy.
    destruct (decide (i = pos)) as [-> | Hipos].
    + rewrite list_lookup_insert_eq in Hx by done. inversion Hx; subst x.
      rewrite list_lookup_insert_ne in Hy by lia.
      apply (K2 childpos child y); [lia|done|done|done|done].
    + rewrite list_lookup_insert_ne in Hx by done.
      destruct (decide ((i - 1) / 2 = pos)%nat) as [Hp | Hp].
      * rewrite Hp, list_lookup_insert_eq in Hy by done.
        inversion Hy; subst y. by apply (Hsib i).
      * rewrite list_lookup_insert_ne in Hy by done. by apply (K1 i).
  - intros c x y Hcpos _ Hcc Hx Hy.
    rewrite Hcp, list_lookup_insert_eq in Hy by done. inversion Hy; subst y.
    rewrite list_lookup_insert_ne in Hx by lia.
    apply (K1 c x child); [done|lia|lia|done|by rewrite Hcc].
Qed.

Lemma heappop_heap_ok heap returnitem heap' :
  heap_ok lt heap -> heapq.heappop lt heap = Some (returnitem, heap') ->
  heap_ok lt heap'.
Proof.
  intros Hok Hpop.
  apply heappop_cases in Hpop as [[-> ->] | (rest & lastelt & -> & ->)];
    [apply heap_ok_nil|].
  change (returnitem :: rest ++ [lastelt])
    with ((returnitem :: rest) ++ [lastelt]) in Hok.
  apply heap_ok_prefix in Hok.
  unfold heapq._siftup. cbn [lookup list_lookup].
  pose proof (_siftup_loop_heap_ok (length (lastelt :: rest)) (lastelt :: rest) 0)
    as Hloop.
  destruct (heapq._siftup_loop lt (length (lastelt :: rest)) (lastelt :: rest)
              (length (lastelt :: rest)) 0) as [h leaf].
  destruct Hloop as (Hlen & Hleaf & Hnochild & Hord).
  - lia.
  - simpl. lia.
  - intros i x y Hi _ Hp Hx Hy. apply (Hok i x y Hi).
    + by destruct i.
    + by destruct ((i - 1) / 2)%nat.
  - intros; lia.
  - unfold heapq._siftdown.
    rewrite list_lookup_insert_eq by lia.
    apply _siftdown_loop_heap_ok.
    + lia.
    + rewrite length_insert. lia.
    + intros i x y Hi Hne Hx Hy.
      rewrite list_lookup_insert_ne in Hx by done.
      assert (i < length h)%nat by (by eapply lookup_lt_Some).
      rewrite list_lookup_insert_ne in Hy by lia.
      by apply (Hord i).
    + intros c x Hc Hcp Hx. apply lookup_lt_Some in Hx.
      rewrite length_insert in Hx. lia.
    + intros c x y Hc _ Hcp Hx. apply lookup_lt_Some in Hx.
      rewrite length_insert in Hx. lia.
Qed.

(** What is popped is a least element of the heap. *)
Lemma heappop_least heap returnitem heap' :
  heap_ok lt heap -> heapq.heappop lt heap = Some (returnitem, heap') ->
  forall x, x ∈ heap -> lt x returnitem = false.
Proof.
  intros Hok Hpop. apply heap_ok_root; [done|]. by eapply heappop_head.
Qed.
End heapq_order.

(** ** Interconnect *)

Lemma entry_lt_asym (x y : Z * MemoryRequest.t) :
  entry_lt x y = true -> entry_lt y x = false.
Proof.
  unfold entry_lt, MemoryRequest.lt.
  destruct (Z.eqb_spec x.1 y.1), (Z.eqb_spec y.1 x.1); try lia.
Qed.

Lemma entry_lt_le_trans (x y z : Z * MemoryRequest.t) :
  entry_lt y x = false -> entry_lt z y = false -> entry_lt z x = false.
Proof.
  unfold entry_lt, MemoryRequest.lt.
  destruct (Z.eqb_spec y.1 x.1), (Z.eqb_spec z.1 y.1), (Z.eqb_spec z.1 x.1); lia.
Qed.

(** As many rounds as the queue has pairs are enough for the loop of
    Interconnect.tick. *)
Lemma select_loop_fuel (cycle bandwidth : Z) (n : nat) :
  forall (m : nat) (queue : list (Z * MemoryRequest.t)) (processed : Z)
         (popped : list (Z * MemoryRequest.t)),
    (length queue <= n)%nat -> (length queue <= m)%nat ->
    Interconnect.select_loop n queue cycle bandwidth processed popped
      = Interconnect.select_loop m queue cycle bandwidth processed popped.
Proof.
  induction n as [|n IH]; intros [|m] queue processed popped Hn Hm; simpl;
    try done.
  - destruct queue; [done|simpl in Hn; lia].
  - destruct queue; [done|simpl in Hm; lia].
  - destruct queue as [|[ready_time req] rest]; [done|].
    destruct ((ready_time <=? cycle) && (processed <? bandwidth)); [|done].
    destruct (heapq.heappop entry_lt ((ready_time, req) :: rest))
      as [[entry queue']|] eqn:Hpop; [|done].
    apply heappop_perm, Permutation_length in Hpop. simpl in *.
    apply IH; lia.
Qed.

(** The loop of Interconnect.tick: what it pops, and what it leaves. *)
Lemma select_loop_spec (cycle bandwidth : Z) (n : nat) :
  forall (queue : list (Z * MemoryRequest.t)) (processed : Z)
         (popped : list (Z * MemoryRequest.t)),
  exists new queue',
    Interconnect.select_loop n queue cycle bandwidth processed popped
      = (popped ++ new, queue') /\
    queue ≡ₚ new ++ queue' /\
    Forall (fun e => e.1 <= cycle) new /\
    Z.of_nat (length new) <= Z.max 0 (bandwidth - processed) /\
    (heap_ok entry_lt queue ->
     heap_ok entry_lt queue' /\
     forall (i : nat) e e',
       new !! i = Some e -> e' ∈ drop (S i) new ++ queue' ->
       entry_lt e' e = false).
Proof.
  induction n as [|n IH]; intros queue processed popped; simpl.
  { exists [], queue. rewrite app_nil_r. repeat split; try done; simpl; lia. }
  destruct queue as [|[ready_time req] rest].
  { exists [], []. rewrite app_nil_r. repeat split; try done; simpl; lia. }
  set (queue := (ready_time, req) :: rest).
  destruct ((ready_time <=? cycle) && (processed <? bandwidth)) eqn:Hcond.
  2:{ exists [], queue. rewrite app_nil_r. repeat split; try done; simpl; lia. }
  apply andb_true_iff in Hcond as [Hready Hbw].
  apply Z.leb_le in Hready. apply Z.ltb_lt in Hbw.
  destruct (heappop_is_Some entry_lt queue) as [[entry queue1] Hpop]; [done|].
  rewrite Hpop.
  pose proof (heappop_head _ _ _ _ Hpop) as Hhead.
  pose proof (heappop_perm _ _ _ _ Hpop) as Hperm.
  simpl in Hhead. inversion Hhead; subst entry.
  destruct (IH queue1 (processed + 1) (popped ++ [(ready_time, req)]))
    as (new & queue' & Hrun & Hperm' & Hall & Hlen & Hord).
  exists ((ready_time, req) :: new), queue'.
  rewrite Hrun, <- app_assoc. simpl.
  split; [done|]. split; [by rewrite Hperm, Hperm'|].
  split; [by constructor|]. split; [lia|].
  intros Hok.
  destruct (Hord (heappop_heap_ok _ entry_lt_asym entry_lt_le_trans _ _ _ Hok Hpop))
    as [Hok' Hin_order].
  split; [done|].
  intros [|i] e e' He He'; simpl in He, He'.
  - inversion He; subst e. rewrite drop_0 in He'.
    apply (heappop_least _ entry_lt_asym entry_lt_le_trans _ _ _ Hok Hpop).
    rewrite Hperm, Hperm'. by right.
  - by apply (Hin_order i).
Qed.

Lemma controller_request_all (c : DDRMemoryController.t)
    (reqs : list MemoryRequest.t) :
  let c' := foldl DDRMemoryController.request c reqs in
  DDRMemoryController.queue c' ≡ₚ
    DDRMemoryController.queue c ++ ((fun r => (MemoryRequest.time r, r)) <$> reqs) /\
  DDRMemoryController.scheduled_ddr_requests c'
    = DDRMemoryController.scheduled_ddr_requests c /\
  DDRMemoryController.cycle c' = DDRMemoryController.cycle c.
Proof.
  revert c. induction reqs as [|r reqs IH]; intros c; simpl.
  - by rewrite app_nil_r.
  - destruct (IH (DDRMemoryController.request c r)) as (Hq & Hs & Hc).
    split; [|split; [by rewrite Hs|by rewrite Hc]].
    rewrite Hq. simpl. rewrite heappush_perm. simpl.
    apply Permutation_middle.
Qed.

(** C6: in a tick of the interconnect the requests forwarded to the
    controller are those of the pairs [popped]: there are at most [bandwidth]
    of them, each has [ready_time <= cycle], every other pair stays in the
    queue (so does every pair that is not ready), and the controller's queue
    receives exactly the forwarded requests, each under its issue time. *)
Theorem tick_forwards_within_bandwidth (w : World) :
  let self := interconnect w in
  let w' := Interconnect_tick w in
  exists popped,
    Interconnect.select self = (popped, Interconnect.queue (interconnect w')) /\
    (length popped <= Z.to_nat (Interconnect.bandwidth self))%nat /\
    Forall (fun e => e.1 <= Interconnect.cycle self) popped /\
    Interconnect.queue self ≡ₚ popped ++ Interconnect.queue (interconnect w') /\
    (forall e, e ∈ Interconnect.queue self -> Interconnect.cycle self < e.1 ->
               e ∈ Interconnect.queue (interconnect w')) /\
    DDRMemoryController.queue (ddr_controller w') ≡ₚ
      DDRMemoryController.queue (ddr_controller w)
        ++ ((fun e => (MemoryRequest.time e.2, e.2)) <$> popped) /\
    Interconnect.cycle (interconnect w') = Interconnect.cycle self + 1.
Proof.
  intros self w'. subst w'. unfold Interconnect_tick. fold self.
  unfold Interconnect.select.
  destruct (select_loop_spec (Interconnect.cycle self) (Interconnect.bandwidth self)
              (length (Interconnect.queue self)) (Interconnect.queue self) 0 [])
    as (popped & queue' & Hrun & Hperm & Hall & Hlen & _).
  rewrite Hrun. simpl. exists popped.
  split; [done|]. split; [lia|]. split; [done|]. split; [done|].
  split; [|split; [|done]].
  - intros e He Hlate. rewrite Hperm in He.
    apply elem_of_app in He as [He | He]; [|done].
    rewrite Forall_forall in Hall. apply Hall in He. lia.
  - destruct (controller_request_all (ddr_controller w) popped.*2) as (Hq & _).
    rewrite Hq. by rewrite <- list_fmap_compose.
Qed.

(** C9, as the spec states it, fails.  Four requests are enqueued in the
    order of their addresses 0, 64, 128, 192, all with [ready_time] 5 and the
    same issue time; in the tick of cycle 5 the one for 128 is forwarded
    before the one for 64. *)
Lemma equal_ready_time_not_in_insertion_order :
  let w := Nat.iter 5 Interconnect_tick tie_world in
  (Interconnect.queue (interconnect tie_world)).*1 = [5; 5; 5; 5] /\
  interconnect w = tie_interconnect /\
  (Interconnect.select (interconnect w)).1.*2 =
    [tie_request 0; tie_request 128; tie_request 64; tie_request 192].
Proof. vm_compute. repeat split; reflexivity. Qed.

(** C9, amended: among the requests in the queue with equal [ready_time] the
    interconnect forwards a request with a smaller issue time ([req.time])
    first; requests that are equal in both are forwarded in the order in
    which the heap happens to hold them.  Stated for a tick: of two pairs
    with equal [ready_time], one forwarded and the other forwarded after it
    or left in the queue, the first does not have the later issue time.  The
    queue is a heap whenever the tick starts, because [request] and the tick
    keep it one. *)
Theorem forwarding_order_by_issue_time (self : Interconnect.t)
    (popped queue' : list (Z * MemoryRequest.t)) :
  heap_ok entry_lt (Interconnect.queue self) ->
  Interconnect.select self = (popped, queue') ->
  (forall (i j : nat) ei ej,
     (i < j)%nat -> popped !! i = Some ei -> (popped ++ queue') !! j = Some ej ->
     ei.1 <= ej.1 /\
     (ei.1 = ej.1 -> MemoryRequest.time ei.2 <= MemoryRequest.time ej.2)) /\
  heap_ok entry_lt queue' /\
  (forall req jitter,
     heap_ok entry_lt (Interconnect.queue (Interconnect.request self req jitter))).
Proof.
  intros Hok Hsel. unfold Interconnect.select in Hsel.
  destruct (select_loop_spec (Interconnect.cycle self) (Interconnect.bandwidth self)
              (length (Interconnect.queue self)) (Interconnect.queue self) 0 [])
    as (new & q & Hrun & _ & _ & _ & Hord).
  rewrite Hrun in Hsel. simpl in Hsel. inversion Hsel; subst new q.
  destruct (Hord Hok) as [Hok' Hin_order].
  split; [|split; [done|]].
  - intros i j ei ej Hij Hi Hj.
    assert (Hlt : entry_lt ej ei = false).
    { apply (Hin_order i); [done|].
      apply list_elem_of_lookup. exists (j - S i)%nat.
      assert (Hlen : length (take (S i) popped) = S i).
      { rewrite length_take. apply lookup_lt_Some in Hi. lia. }
      rewrite <- (take_drop (S i) popped), <- app_assoc in Hj.
      rewrite lookup_app_r in Hj by lia. by rewrite Hlen in Hj. }
    unfold entry_lt, MemoryRequest.lt in Hlt.
    destruct (Z.eqb_spec ej.1 ei.1); lia.
  - intros req jitter. simpl.
    by apply heappush_heap_ok;
      [apply entry_lt_asym|apply entry_lt_le_trans|].
Qed.

Lemma forwarding_order_by_issue_time_witness :
  let popped := [(5, tie_request 0); (5, tie_request 128);
                 (5, tie_request 64); (5, tie_request 192)] in
  (forall (i j : nat) ei ej,
     (i < j)%nat -> popped !! i = Some ei -> (popped ++ []) !! j = Some ej ->
     ei.1 <= ej.1 /\
     (ei.1 = ej.1 -> MemoryRequest.time ei.2 <= MemoryRequest.time ej.2)) /\
  heap_ok entry_lt [] /\
  (forall req jitter,
     heap_ok entry_lt
       (Interconnect.queue (Interconnect.request tie_interconnect req jitter))).
Proof.
  apply (forwarding_order_by_issue_time tie_interconnect
           [(5, tie_request 0); (5, tie_request 128);
            (5, tie_request 64); (5, tie_request 192)] []).
  - intros i x y Hi Hx Hy.
    do 4 (destruct i as [|i]; [vm_compute in Hx, Hy; try lia;
                               inversion Hx; inversion Hy; reflexivity|]).
    inversion Hx.
  - vm_compute. reflexivity.
Defined.

(** ** DDR memory *)

Lemma get_bank_ok (ddr : DDRMemory.t) (addr : Z) :
  0 < DDRMemory.num_banks ddr ->
  exists bank, DDRMemory._get_bank ddr addr = Some bank /\
               0 <= bank < DDRMemory.num_banks ddr.
Proof.
  intros Hn. exists (addr mod DDRMemory.num_banks ddr).
  unfold DDRMemory._get_bank, py_mod.
  destruct (Z.eqb_spec (DDRMemory.num_banks ddr) 0); [lia|].
  split; [reflexivity|]. apply Z.mod_pos_bound. lia.
Qed.

(** [request] pushes the request on [scheduled_completions] in every branch,
    the one that prints the error included. *)
Lemma DDRMemory_request_pushes (ddr ddr' : DDRMemory.t) (req : MemoryRequest.t) :
  DDRMemory.request ddr req = Some ddr' ->
  DDRMemory.scheduled_completions ddr' =
    heapq.heappush entry_lt (DDRMemory.scheduled_completions ddr)
                   (MemoryRequest.completion_time req, req) /\
  DDRMemory.num_banks ddr' = DDRMemory.num_banks ddr /\
  length (DDRMemory.bank_states ddr') = length (DDRMemory.bank_states ddr) /\
  length (DDRMemory.bank_timers ddr') = length (DDRMemory.bank_timers ddr) /\
  length (DDRMemory.bank_open_row ddr') = length (DDRMemory.bank_open_row ddr).
Proof.
  unfold DDRMemory.request. intros H.
  destruct (DDRMemory._get_bank ddr (MemoryRequest.addr req)) as [bank|];
    [simpl in H|done].
  destruct (py_getitem (DDRMemory.bank_states ddr) bank) as [st|];
    [simpl in H|done].
  assert (Hcmd : forall busy d,
    DDRMemory.command ddr busy bank (DDRMemory._get_row ddr (MemoryRequest.addr req))
                      st (MemoryRequest.completion_time req) = Some d ->
    DDRMemory.scheduled_completions d = DDRMemory.scheduled_completions ddr /\
    DDRMemory.num_banks d = DDRMemory.num_banks ddr /\
    length (DDRMemory.bank_states d) = length (DDRMemory.bank_states ddr) /\
    length (DDRMemory.bank_timers d) = length (DDRMemory.bank_timers ddr) /\
    length (DDRMemory.bank_open_row d) = length (DDRMemory.bank_open_row ddr)).
  { intros busy d Hd. unfold DDRMemory.command, py_setitem in Hd.
    repeat (simplify_option_eq || case_match);
      simpl; rewrite ?length_insert; done. }
  destruct (MemoryRequest.req_type req);
    match type of H with
    | context [DDRMemory.command ?a ?b ?c ?d ?e ?f] =>
        destruct (DDRMemory.command a b c d e f) as [d'|] eqn:Hd; [|done]
    end;
    simpl in H; inversion H; subst ddr'; simpl;
    destruct (Hcmd _ _ Hd) as (-> & ? & ? & ? & ?); done.
Qed.

Lemma DDRMemory_request_ok (ddr : DDRMemory.t) (req : MemoryRequest.t) :
  0 < DDRMemory.num_banks ddr ->
  Z.of_nat (length (DDRMemory.bank_states ddr)) = DDRMemory.num_banks ddr ->
  Z.of_nat (length (DDRMemory.bank_timers ddr)) = DDRMemory.num_banks ddr ->
  Z.of_nat (length (DDRMemory.bank_open_row ddr)) = DDRMemory.num_banks ddr ->
  is_Some (DDRMemory.request ddr req).
Proof.
  intros Hn Hs Ht Ho. unfold DDRMemory.request.
  destruct (get_bank_ok ddr (MemoryRequest.addr req) Hn) as (bank & -> & Hb).
  simpl.
  destruct (py_getitem_is_Some (DDRMemory.bank_states ddr) bank) as [st ->];
    [lia|]. simpl.
  assert (Hcmd : forall busy,
    is_Some (DDRMemory.command ddr busy bank
               (DDRMemory._get_row ddr (MemoryRequest.addr req)) st
               (MemoryRequest.completion_time req))).
  { intros busy. unfold DDRMemory.command.
    destruct (py_getitem_is_Some (DDRMemory.bank_open_row ddr) bank) as [o Hopen];
      [lia|].
    rewrite Hopen, !py_setitem_nonneg by lia. simpl.
    repeat first [case_match | progress simpl]; eauto. }
  destruct (MemoryRequest.req_type req);
    match goal with
    | |- context [DDRMemory.command ?a ?b ?c ?d ?e ?f] =>
        destruct (Hcmd b) as [d' ->]
    end; simpl; eauto.
Qed.

(** ** DDR memory controller: arbitration *)

Lemma key_lt_asym (a b : Z * Z * Z) : key_lt a b = true -> key_lt b a = false.
Proof.
  destruct a as [[a1 a2] a3], b as [[b1 b2] b3]. unfold key_lt.
  destruct (Z.eqb_spec a1 b1), (Z.eqb_spec b1 a1),
           (Z.eqb_spec a2 b2), (Z.eqb_spec b2 a2); lia.
Qed.

Lemma key_lt_le_trans (a b c : Z * Z * Z) :
  key_lt b a = false -> key_lt c b = false -> key_lt c a = false.
Proof.
  destruct a as [[a1 a2] a3], b as [[b1 b2] b3], c as [[c1 c2] c3].
  unfold key_lt.
  destruct (Z.eqb_spec b1 a1), (Z.eqb_spec c1 b1), (Z.eqb_spec c1 a1),
           (Z.eqb_spec b2 a2), (Z.eqb_spec c2 b2), (Z.eqb_spec c2 a2); lia.
Qed.

Lemma key_lt_irrefl (a : Z * Z * Z) : key_lt a a = false.
Proof.
  destruct (key_lt a a) eqn:H; [|done]. by rewrite (key_lt_asym _ _ H) in H.
Qed.

Section sort_by_key.
Context {A : Type}.
Implicit Types l : list ((Z * Z * Z) * A).

Lemma insert_by_key_perm x l : insert_by_key x l ≡ₚ x :: l.
Proof.
  induction l as [|y l IH]; simpl; [done|].
  destruct (key_lt y.1 x.1); [|done].
  rewrite IH. apply perm_swap.
Qed.

Lemma sort_by_key_perm l : sort_by_key l ≡ₚ l.
Proof.
  induction l as [|x l IH]; simpl; [done|].
  by rewrite insert_by_key_perm, IH.
Qed.

(** The first element after the sort has a least key. *)
Lemma sort_by_key_head l x rest :
  sort_by_key l = x :: rest -> forall y, y ∈ l -> key_lt y.1 x.1 = false.
Proof.
  revert x rest. induction l as [|a l IH]; intros x rest Hsort y Hy.
  { inversion Hy. }
  simpl in Hsort. destruct (sort_by_key l) as [|b l'] eqn:Hl.
  - simpl in Hsort. inversion Hsort; subst x rest.
    assert (l = []) as ->.
    { apply Permutation_nil_r. by rewrite <- Hl, sort_by_key_perm. }
    apply list_elem_of_singleton in Hy as ->. apply key_lt_irrefl.
  - simpl in Hsort. specialize (IH b l' eq_refl).
    destruct (key_lt b.1 a.1) eqn:Hba; inversion Hsort; subst x rest.
    + apply elem_of_cons in Hy as [-> | Hy]; [by apply key_lt_asym|by apply IH].
    + apply elem_of_cons in Hy as [-> | Hy]; [apply key_lt_irrefl|].
      eapply key_lt_le_trans; [exact Hba|by apply IH].
Qed.
End sort_by_key.

Section arbitration.
Context (self : DDRMemoryController.t) (ddr : DDRMemory.t).
Hypothesis Hbanks : banks_ok self ddr.

Lemma candidates_loop_spec (queue : list (Z * MemoryRequest.t)) :
  forall acc,
  exists candidates,
    DDRMemoryController.candidates_loop self ddr queue acc
      = Some (acc ++ candidates) /\
    candidates `sublist_of` queue.*2 /\
    forall req, req ∈ candidates <-> req ∈ queue.*2 /\ is_candidate self ddr req.
Proof.
  destruct Hbanks as (Hn & _ & Hpre & _).
  induction queue as [|[t req] queue IH]; intros acc; simpl.
  { exists []. rewrite app_nil_r. split; [done|]. split; [done|].
    intros req. split; [inversion 1|intros [H _]; inversion H]. }
  destruct (get_bank_ok ddr (MemoryRequest.addr req) Hn) as (bank & Hbank & Hb).
  rewrite Hbank. simpl.
  destruct (py_getitem_is_Some
              (DDRMemoryController.bank_precharge_complete_time self) bank)
    as [precharge Hprecharge]; [lia|].
  rewrite Hprecharge. simpl.
  assert (Hcand : is_candidate self ddr req <->
    precharge <= DDRMemoryController.cycle self /\
    DDRMemoryController.cycle self
      >= DDRMemoryController.last_cmd_time self bank + DDRMemoryController.tCCD self).
  { split.
    - intros (bank' & precharge' & Hb' & Hp' & H1 & H2).
      rewrite Hbank in Hb'. inversion Hb'; subst bank'.
      rewrite Hprecharge in Hp'. by inversion Hp'; subst precharge'.
    - intros [H1 H2]. by exists bank, precharge. }
  set (skip := exists candidates,
    DDRMemoryController.candidates_loop self ddr queue acc
      = Some (acc ++ candidates) /\
    candidates `sublist_of` req :: queue.*2 /\
    forall r, r ∈ candidates <-> r ∈ req :: queue.*2 /\ is_candidate self ddr r).
  assert (Hskip : ~ is_candidate self ddr req -> skip).
  { intros Hno. destruct (IH acc) as (candidates & Hrun & Hsub & Hiff).
    exists candidates. split; [done|]. split; [by apply sublist_cons|].
    intros r. rewrite Hiff. split; [intros [? ?]; split; [by right|done]|].
    intros [Hin Hc]. split; [|done].
    apply elem_of_cons in Hin as [-> | Hin]; [contradiction|done]. }
  destruct (Z.gtb_spec precharge (DDRMemoryController.cycle self));
    [apply Hskip; rewrite Hcand; lia|].
  destruct (Z.ltb_spec (DDRMemoryController.cycle self)
              (DDRMemoryController.last_cmd_time self bank
               + DDRMemoryController.tCCD self));
    [apply Hskip; rewrite Hcand; lia|].
  destruct (IH (acc ++ [req])) as (candidates & Hrun & Hsub & Hiff).
  exists (req :: candidates). rewrite Hrun, <- app_assoc. simpl.
  split; [done|]. split; [by apply sublist_skip|].
  intros r. rewrite !elem_of_cons, Hiff. split.
  - intros [-> | [Hin Hc]]; [split; [by left|rewrite Hcand; lia]|].
    split; [by right|done].
  - intros [[-> | Hin] Hc]; [by left|by right].
Qed.

Lemma sort_key_ok (req : MemoryRequest.t) :
  is_Some (DDRMemoryController.sort_key self ddr req).
Proof.
  destruct Hbanks as (Hn & Hopen & _).
  unfold DDRMemoryController.sort_key.
  destruct (get_bank_ok ddr (MemoryRequest.addr req) Hn) as (bank & -> & Hb).
  simpl.
  destruct (py_getitem_is_Some (DDRMemoryController.bank_open_row self) bank)
    as [open ->]; [lia|].
  simpl. eauto.
Qed.

(** The order in which the sort leaves the candidates: the same requests,
    one with a least key first. *)
Lemma sorted_candidates_spec (candidates : list MemoryRequest.t) :
  DDRMemoryController.candidates_loop self ddr
    (DDRMemoryController.queue self) [] = Some candidates ->
  exists sorted,
    DDRMemoryController.sorted_candidates self ddr = Some sorted /\
    sorted ≡ₚ candidates /\
    forall best rest, sorted = best :: rest ->
      exists key,
        DDRMemoryController.sort_key self ddr best = Some key /\
        forall r k, r ∈ candidates ->
          DDRMemoryController.sort_key self ddr r = Some k ->
          key_lt k key = false.
Proof.
  intros Hcands. unfold DDRMemoryController.sorted_candidates.
  rewrite Hcands. simpl.
  set (f := fun req => key ← DDRMemoryController.sort_key self ddr req;
                       Some (key, req)).
  destruct (mapM f candidates) as [keyed|] eqn:Hkeyed.
  2:{ exfalso. assert (is_Some (mapM f candidates)) as [? ?]; [|congruence].
      apply mapM_is_Some. apply Forall_forall. intros r _.
      unfold f. simpl. destruct (sort_key_ok r) as [k ->]. simpl. eauto. }
  simpl. eexists. split; [reflexivity|].
  apply mapM_Some in Hkeyed.
  assert (Hsnd : keyed.*2 = candidates).
  { clear Hcands. induction Hkeyed as [|r kr l l' Hr _ IH]; [done|].
    rewrite fmap_cons, IH. f_equal. unfold f in Hr.
    destruct (DDRMemoryController.sort_key self ddr r); simpl in Hr; [|done].
    by inversion Hr. }
  assert (Hkeys : forall kr, kr ∈ keyed ->
            DDRMemoryController.sort_key self ddr kr.2 = Some kr.1).
  { intros kr Hin. apply list_elem_of_lookup in Hin as [i Hi].
    destruct (Forall2_lookup_r _ _ _ _ _ Hkeyed Hi) as (r & _ & Hr).
    unfold f in Hr.
    destruct (DDRMemoryController.sort_key self ddr r) eqn:Hkey;
      simpl in Hr; [|done].
    by inversion Hr; subst kr. }
  split; [by rewrite sort_by_key_perm, Hsnd|].
  intros best rest Hsorted.
  destruct (sort_by_key keyed) as [|[kbest b] srest] eqn:Hsort; [done|].
  simpl in Hsorted. inversion Hsorted; subst b rest.
  exists kbest. split.
  - apply (Hkeys (kbest, best)).
    rewrite <- (sort_by_key_perm keyed), Hsort. by left.
  - intros r k Hr Hk. rewrite <- Hsnd in Hr.
    apply list_elem_of_fmap in Hr as (kr & -> & Hin).
    rewrite (Hkeys kr Hin) in Hk. inversion Hk; subst k.
    by apply (sort_by_key_head keyed (kbest, best) srest Hsort kr).
Qed.
End arbitration.

(** ** DDR memory controller: scheduling *)

(** The delay that the controller computes for [req] on [bank], whose open
    row is [open]. *)
Lemma schedule_spec (self : DDRMemoryController.t) (ddr : DDRMemory.t)
    (best_req : MemoryRequest.t) :
  banks_ok self ddr ->
  best_req ∈ (DDRMemoryController.queue self).*2 ->
  exists bank open self' ddr',
    let row := DDRMemory._get_row ddr (MemoryRequest.addr best_req) in
    let delay :=
      (if decide (open = Some row) then DDRMemory.row_hit_latency ddr
       else DDRMemoryController.tRP self + DDRMemoryController.tRCD self
            + DDRMemoryController.tCAS self)
      + DDRMemoryController.transition_penalty self bank
          (MemoryRequest.req_type best_req) in
    let issued :=
      MemoryRequest.set_times best_req (DDRMemoryController.cycle self)
                              (DDRMemoryController.cycle self + delay) in
    DDRMemory._get_bank ddr (MemoryRequest.addr best_req) = Some bank /\
    0 <= bank < DDRMemory.num_banks ddr /\
    py_getitem (DDRMemoryController.bank_open_row self) bank = Some open /\
    DDRMemoryController.schedule self ddr best_req = Some (self', ddr') /\
    DDRMemory.request ddr issued = Some ddr' /\
    DDRMemoryController.scheduled_ddr_requests self' =
      DDRMemoryController.scheduled_ddr_requests self
        ++ [mkReqInfo issued bank row
              (if decide (open = Some row) then ROW_HIT else ROW_MISS)] /\
    (exists t, DDRMemoryController.queue self
                 ≡ₚ (t, best_req) :: DDRMemoryController.queue self') /\
    (open <> Some row ->
     py_getitem (DDRMemoryController.bank_precharge_complete_time self') bank
       = Some (DDRMemoryController.cycle self + DDRMemoryController.tRP self) /\
     py_getitem (DDRMemoryController.bank_open_row self') bank = Some (Some row)) /\
    DDRMemoryController.cycle self' = DDRMemoryController.cycle self.
Proof.
  intros Hbanks Hin.
  destruct Hbanks as (Hn & Hopen & Hpre & Hst & Htm & Hor).
  destruct (get_bank_ok ddr (MemoryRequest.addr best_req) Hn) as (bank & Hbank & Hb).
  destruct (py_getitem_is_Some (DDRMemoryController.bank_open_row self) bank)
    as [open Hopenrow]; [lia|].
  (* the entry that the removal loop finds *)
  assert (Hfind : exists i e,
            list_find (fun e => e.2 = best_req) (DDRMemoryController.queue self)
              = Some (i, e) /\ e.2 = best_req).
  { apply list_elem_of_fmap in Hin as (e & He & Hein).
    destruct (list_find_elem_of (fun e => e.2 = best_req)
                (DDRMemoryController.queue self) e Hein (eq_sym He)) as [[i e'] Hf].
    exists i, e'. split; [done|]. by apply list_find_Some in Hf as (_ & ? & _). }
  destruct Hfind as (i & e & Hfind & He).
  assert (Hperm : DDRMemoryController.queue self
                    ≡ₚ (e.1, best_req) :: delete i (DDRMemoryController.queue self)).
  { apply list_find_Some in Hfind as (Hi & _ & _).
    rewrite <- He. rewrite <- surjective_pairing. by apply delete_Permutation. }
  unfold DDRMemoryController.schedule.
  rewrite Hbank. simpl. rewrite Hopenrow. simpl. rewrite Hfind.
  set (row := DDRMemory._get_row ddr (MemoryRequest.addr best_req)).
  destruct (decide (open = Some row)) as [Hhit | Hmiss]; simpl.
  - destruct (DDRMemory_request_ok ddr
                (MemoryRequest.set_times best_req (DDRMemoryController.cycle self)
                   (DDRMemoryController.cycle self
                    + (DDRMemory.row_hit_latency ddr
                       + DDRMemoryController.transition_penalty self bank
                           (MemoryRequest.req_type best_req)))))
      as [ddr' Hreq]; [done..|].
    rewrite Hreq. simpl. eexists bank, open, _, ddr'. cbv zeta.
    rewrite !(decide_True (P := open = Some row)) by done.
    split; [done|]. split; [lia|]. split; [done|]. split; [reflexivity|].
    split; [done|]. split; [reflexivity|].
    split; [exists e.1; simpl; by rewrite heapify_perm|].
    split; [done|reflexivity].
  - rewrite !py_setitem_nonneg by lia. simpl.
    destruct (DDRMemory_request_ok ddr
                (MemoryRequest.set_times best_req (DDRMemoryController.cycle self)
                   (DDRMemoryController.cycle self
                    + (DDRMemoryController.tRP self + DDRMemoryController.tRCD self
                       + DDRMemoryController.tCAS self
                       + DDRMemoryController.transition_penalty self bank
                           (MemoryRequest.req_type best_req)))))
      as [ddr' Hreq]; [done..|].
    rewrite Hreq. simpl. eexists bank, open, _, ddr'. cbv zeta.
    rewrite !(decide_False (P := open = Some row)) by done.
    split; [done|]. split; [lia|]. split; [done|]. split; [reflexivity|].
    split; [done|]. split; [reflexivity|].
    split; [exists e.1; simpl; by rewrite heapify_perm|].
    split; [|reflexivity].
    intros _. simpl.
    rewrite !py_getitem_nonneg by (rewrite length_insert; lia).
    split; apply list_lookup_insert_eq; lia.
Qed.

(** The bank of an address, the candidates and the key of the arbitration,
    written out. *)
Lemma get_bank_eq (ddr : DDRMemory.t) (addr : Z) :
  0 < DDRMemory.num_banks ddr ->
  DDRMemory._get_bank ddr addr = Some (addr mod DDRMemory.num_banks ddr).
Proof.
  intros Hn. unfold DDRMemory._get_bank, py_mod.
  by destruct (Z.eqb_spec (DDRMemory.num_banks ddr) 0); [lia|].
Qed.

Lemma is_candidate_eq (self : DDRMemoryController.t) (ddr : DDRMemory.t)
    (req : MemoryRequest.t) :
  banks_ok self ddr ->
  let bank := MemoryRequest.addr req mod DDRMemory.num_banks ddr in
  is_candidate self ddr req <->
  exists precharge_complete_time,
    DDRMemoryController.bank_precharge_complete_time self !! Z.to_nat bank
      = Some precharge_complete_time /\
    precharge_complete_time <= DDRMemoryController.cycle self /\
    DDRMemoryController.cycle self
      >= default (- DDRMemoryController.tRC self)
                 (DDRMemoryController.last_command_time self !! bank)
         + DDRMemoryController.tCCD self.
Proof.
  intros (Hn & _ & Hpre & _). cbv zeta.
  assert (Hb : 0 <= MemoryRequest.addr req mod DDRMemory.num_banks ddr
               < DDRMemory.num_banks ddr) by (apply Z.mod_pos_bound; lia).
  unfold is_candidate. rewrite get_bank_eq by done. split.
  - intros (bank & p & Hbank & Hp & Hle & Hge). inversion Hbank; subst bank.
    rewrite py_getitem_nonneg in Hp by lia. by exists p.
  - intros (p & Hp & Hle & Hge). eexists _, p. split; [reflexivity|].
    rewrite py_getitem_nonneg by lia. done.
Qed.

Lemma sort_key_eq (self : DDRMemoryController.t) (ddr : DDRMemory.t)
    (req : MemoryRequest.t) :
  banks_ok self ddr ->
  DDRMemoryController.sort_key self ddr req =
    Some (if bool_decide
               (DDRMemoryController.bank_open_row self
                  !! Z.to_nat (MemoryRequest.addr req mod DDRMemory.num_banks ddr)
                = Some (Some (MemoryRequest.addr req / 16)))
          then 0 else 1,
          match MemoryRequest.req_type req with read => 0 | write => 1 end,
          MemoryRequest.time req).
Proof.
  intros (Hn & Hopen & _).
  assert (Hb : 0 <= MemoryRequest.addr req mod DDRMemory.num_banks ddr
               < DDRMemory.num_banks ddr) by (apply Z.mod_pos_bound; lia).
  unfold DDRMemoryController.sort_key. rewrite get_bank_eq by done. simpl.
  rewrite py_getitem_nonneg by lia.
  destruct (lookup_lt_is_Some_2 (DDRMemoryController.bank_open_row self)
              (Z.to_nat (MemoryRequest.addr req mod DDRMemory.num_banks ddr)))
    as [open Ho]; [lia|].
  rewrite Ho. simpl. unfold DDRMemory._get_row.
  destruct (decide (open = Some (MemoryRequest.addr req / 16))) as [-> | Hne].
  - by rewrite bool_decide_eq_true_2.
  - rewrite bool_decide_eq_false_2; [done|]. intros Heq. by inversion Heq.
Qed.

Lemma key_lt_lex (a1 a2 a3 b1 b2 b3 : Z) :
  key_lt (a1, a2, a3) (b1, b2, b3) = true <->
  a1 < b1 \/ (a1 = b1 /\ (a2 < b2 \/ (a2 = b2 /\ a3 < b3))).
Proof.
  unfold key_lt.
  destruct (Z.eqb_spec a1 b1); [destruct (Z.eqb_spec a2 b2)|];
    rewrite Z.ltb_lt; lia.
Qed.

(** C3: in a tick with a non-empty queue the candidates are exactly the queued
    requests whose bank ([addr mod num_banks]) is out of precharge
    ([precharge_complete_time <= cycle]) and was last commanded at least
    [tCCD] cycles ago ([cycle >= last_command_time + tCCD], the time of a bank
    that was never commanded being [-tRC]).  Without candidates nothing
    changes.  Otherwise exactly one request is scheduled: a candidate that no
    candidate goes before, where a request goes before another when it hits
    the open row of its bank and the other does not, or both do or both do
    not and it is a read and the other a write, or they are of one kind and it
    arrived earlier.  That request is handed to the DDR with the current cycle
    as its time, appended to [scheduled_ddr_requests], and one pair holding
    it leaves the queue. *)
Theorem schedule_arbitration (self : DDRMemoryController.t) (ddr : DDRMemory.t) :
  banks_ok self ddr ->
  DDRMemoryController.queue self <> [] ->
  let cycle := DDRMemoryController.cycle self in
  let bank_of := fun req => MemoryRequest.addr req mod DDRMemory.num_banks ddr in
  let candidate := fun req =>
    exists precharge_complete_time,
      DDRMemoryController.bank_precharge_complete_time self
        !! Z.to_nat (bank_of req) = Some precharge_complete_time /\
      precharge_complete_time <= cycle /\
      cycle >= default (- DDRMemoryController.tRC self)
                       (DDRMemoryController.last_command_time self !! bank_of req)
               + DDRMemoryController.tCCD self in
  let row_hit := fun req =>
    DDRMemoryController.bank_open_row self !! Z.to_nat (bank_of req)
      = Some (Some (MemoryRequest.addr req / 16)) in
  let before := fun r1 r2 =>
    (row_hit r1 /\ ~ row_hit r2) \/
    ((row_hit r1 <-> row_hit r2) /\
     ((MemoryRequest.req_type r1 = read /\ MemoryRequest.req_type r2 = write) \/
      (MemoryRequest.req_type r1 = MemoryRequest.req_type r2 /\
       MemoryRequest.time r1 < MemoryRequest.time r2))) in
  exists candidates,
    DDRMemoryController.candidates_loop self ddr (DDRMemoryController.queue self) []
      = Some candidates /\
    candidates `sublist_of` (DDRMemoryController.queue self).*2 /\
    (forall req, req ∈ candidates <->
       req ∈ (DDRMemoryController.queue self).*2 /\ candidate req) /\
    (candidates = [] ->
     DDRMemoryController._schedule_next_request self ddr = Some (self, ddr)) /\
    (candidates <> [] ->
     exists best_req self' ddr' info,
       best_req ∈ candidates /\
       (forall r, r ∈ candidates -> ~ before r best_req) /\
       DDRMemoryController._schedule_next_request self ddr = Some (self', ddr') /\
       DDRMemoryController.scheduled_ddr_requests self' =
         DDRMemoryController.scheduled_ddr_requests self ++ [info] /\
       DDRMemory.request ddr (info_request info) = Some ddr' /\
       MemoryRequest.core_id (info_request info) = MemoryRequest.core_id best_req /\
       MemoryRequest.req_type (info_request info) = MemoryRequest.req_type best_req /\
       MemoryRequest.addr (info_request info) = MemoryRequest.addr best_req /\
       MemoryRequest.callback (info_request info) = MemoryRequest.callback best_req /\
       MemoryRequest.time (info_request info) = cycle /\
       info_bank info = bank_of best_req /\
       info_row info = MemoryRequest.addr best_req / 16 /\
       exists t, DDRMemoryController.queue self
                   ≡ₚ (t, best_req) :: DDRMemoryController.queue self').
Proof.
  intros Hbanks Hqueue. cbv zeta.
  destruct (candidates_loop_spec self ddr Hbanks (DDRMemoryController.queue self) [])
    as (candidates & Hloop & Hsub & Hiff).
  simpl in Hloop. exists candidates.
  split; [done|]. split; [done|].
  split.
  { intros req. rewrite Hiff.
    pose proof (is_candidate_eq self ddr req Hbanks) as Heq. cbv zeta in Heq.
    by rewrite Heq. }
  destruct (sorted_candidates_spec self ddr Hbanks candidates Hloop)
    as (sorted & Hsorted & Hperm & Hhead).
  unfold DDRMemoryController._schedule_next_request.
  destruct (DDRMemoryController.queue self) as [|entry queue] eqn:Hq; [done|].
  rewrite Hsorted. simpl. split.
  - intros ->. apply Permutation_nil_r in Hperm. by subst sorted.
  - intros Hne. destruct sorted as [|best_req rest].
    { symmetry in Hperm. by apply Permutation_nil_r in Hperm. }
    destruct (Hhead best_req rest eq_refl) as (key & Hkey & Hleast).
    assert (Hbest : best_req ∈ candidates) by (rewrite <- Hperm; by left).
    assert (Hin : best_req ∈ (DDRMemoryController.queue self).*2).
    { rewrite Hq. by apply Hiff. }
    destruct (schedule_spec self ddr best_req Hbanks Hin)
      as (bank & open & self' & ddr' & H).
    cbv zeta in H.
    destruct H as (Hbank & _ & _ & Hrun & Hreq & Hsched & Hleft & _).
    rewrite Hq in Hleft.
    rewrite get_bank_eq in Hbank by apply Hbanks. inversion Hbank as [Hb].
    eexists best_req, self', ddr', _.
    split; [done|]. split.
    { intros r Hr Hbefore.
      rewrite sort_key_eq in Hkey by done. inversion Hkey as [Hk]. clear Hkey.
      specialize (Hleast r _ Hr (sort_key_eq self ddr r Hbanks)).
      rewrite <- Hk in Hleast.
      apply not_true_iff_false in Hleast. apply Hleast. apply key_lt_lex.
      destruct Hbefore as [[Hh Hn] | [Hsame Hrest]].
      - left. rewrite bool_decide_eq_true_2, bool_decide_eq_false_2 by done. lia.
      - right. split.
        + destruct (decide (DDRMemoryController.bank_open_row self
                              !! Z.to_nat (MemoryRequest.addr best_req
                                             mod DDRMemory.num_banks ddr)
                            = Some (Some (MemoryRequest.addr best_req / 16))))
            as [Hy | Hn].
          * rewrite !bool_decide_eq_true_2 by tauto. done.
          * rewrite !bool_decide_eq_false_2 by tauto. done.
        + destruct Hrest as [[-> ->] | [-> Hlt]]; [left; lia|right; done]. }
    split; [done|]. split; [exact Hsched|]. split; [exact Hreq|].
    simpl. rewrite Hb. done.
Qed.

Lemma schedule_arbitration_witness :
  exists candidates,
    DDRMemoryController.candidates_loop turnaround_controller turnaround_ddr
      (DDRMemoryController.queue turnaround_controller) [] = Some candidates /\
    candidates `sublist_of` (DDRMemoryController.queue turnaround_controller).*2 /\
    (forall req, req ∈ candidates <->
       req ∈ (DDRMemoryController.queue turnaround_controller).*2 /\
       exists precharge_complete_time,
         [15; 0; 0; 0] !! Z.to_nat (MemoryRequest.addr req mod 4)
           = Some precharge_complete_time /\
         precharge_complete_time <= 50 /\
         50 >= default (- 30)
                  (DDRMemoryController.last_command_time turnaround_controller
                     !! (MemoryRequest.addr req mod 4)) + 4) /\
    (candidates = [] ->
     DDRMemoryController._schedule_next_request turnaround_controller turnaround_ddr
       = Some (turnaround_controller, turnaround_ddr)) /\
    (candidates <> [] ->
     exists best_req self' ddr' info,
       best_req ∈ candidates /\
       (forall r, r ∈ candidates ->
          ~ (([Some 0; None; None; None] !! Z.to_nat (MemoryRequest.addr r mod 4)
                = Some (Some (MemoryRequest.addr r / 16)) /\
              ~ [Some 0; None; None; None]
                  !! Z.to_nat (MemoryRequest.addr best_req mod 4)
                = Some (Some (MemoryRequest.addr best_req / 16))) \/
             (([Some 0; None; None; None] !! Z.to_nat (MemoryRequest.addr r mod 4)
                 = Some (Some (MemoryRequest.addr r / 16)) <->
               [Some 0; None; None; None]
                 !! Z.to_nat (MemoryRequest.addr best_req mod 4)
                 = Some (Some (MemoryRequest.addr best_req / 16))) /\
              ((MemoryRequest.req_type r = read /\
                MemoryRequest.req_type best_req = write) \/
               (MemoryRequest.req_type r = MemoryRequest.req_type best_req /\
                MemoryRequest.time r < MemoryRequest.time best_req))))) /\
       DDRMemoryController._schedule_next_request turnaround_controller
         turnaround_ddr = Some (self', ddr') /\
       DDRMemoryController.scheduled_ddr_requests self' =
         DDRMemoryController.scheduled_ddr_requests turnaround_controller
           ++ [info] /\
       DDRMemory.request turnaround_ddr (info_request info) = Some ddr' /\
       MemoryRequest.core_id (info_request info) = MemoryRequest.core_id best_req /\
       MemoryRequest.req_type (info_request info) = MemoryRequest.req_type best_req /\
       MemoryRequest.addr (info_request info) = MemoryRequest.addr best_req /\
       MemoryRequest.callback (info_request info) = MemoryRequest.callback best_req /\
       MemoryRequest.time (info_request info) = 50 /\
       info_bank info = MemoryRequest.addr best_req mod 4 /\
       info_row info = MemoryRequest.addr best_req / 16 /\
       exists t, DDRMemoryController.queue turnaround_controller
                   ≡ₚ (t, best_req) :: DDRMemoryController.queue self').
Proof.
  apply (schedule_arbitration turnaround_controller turnaround_ddr).
  - unfold banks_ok. simpl. lia.
  - discriminate.
Defined.

(** C4: when the request that the controller chooses misses the open row of
    its bank (another row is open, or none), the controller records a row
    miss and sets the request's [time] to the current cycle and its
    [completion_time] to the current cycle plus [tRP + tRCD + tCAS], plus
    [tWR] when the bank's last access was a write and the request is a read,
    plus [tWR + 2] when the last access was a read and the request is a write;
    the request, otherwise unchanged, is handed to the DDR with these times
    and appended to [scheduled_ddr_requests].  The controller sets
    [precharge_complete_time[bank]] to the current cycle plus [tRP] and
    [open_row[bank]] to the row of the request. *)
Theorem row_miss_completion (self : DDRMemoryController.t) (ddr : DDRMemory.t)
    (best_req : MemoryRequest.t) (rest : list MemoryRequest.t)
    (bank : Z) (open : option Z) :
  banks_ok self ddr ->
  DDRMemoryController.queue self <> [] ->
  DDRMemoryController.sorted_candidates self ddr = Some (best_req :: rest) ->
  bank = MemoryRequest.addr best_req mod DDRMemory.num_banks ddr ->
  py_getitem (DDRMemoryController.bank_open_row self) bank = Some open ->
  open <> Some (MemoryRequest.addr best_req / 16) ->
  exists self' ddr' info,
    DDRMemoryController._schedule_next_request self ddr = Some (self', ddr') /\
    DDRMemoryController.scheduled_ddr_requests self' =
      DDRMemoryController.scheduled_ddr_requests self ++ [info] /\
    DDRMemory.request ddr (info_request info) = Some ddr' /\
    info_bank info = bank /\
    info_row info = MemoryRequest.addr best_req / 16 /\
    info_status info = ROW_MISS /\
    MemoryRequest.core_id (info_request info) = MemoryRequest.core_id best_req /\
    MemoryRequest.req_type (info_request info) = MemoryRequest.req_type best_req /\
    MemoryRequest.addr (info_request info) = MemoryRequest.addr best_req /\
    MemoryRequest.callback (info_request info) = MemoryRequest.callback best_req /\
    MemoryRequest.time (info_request info) = DDRMemoryController.cycle self /\
    MemoryRequest.completion_time (info_request info)
      - DDRMemoryController.cycle self =
      DDRMemoryController.tRP self + DDRMemoryController.tRCD self
      + DDRMemoryController.tCAS self
      + match DDRMemoryController.last_access_command self !! bank,
              MemoryRequest.req_type best_req with
        | Some write, read => DDRMemoryController.tWR self
        | Some read, write => DDRMemoryController.tWR self + 2
        | _, _ => 0
        end /\
    (MemoryRequest.completion_time (info_request info), info_request info)
      ∈ DDRMemory.scheduled_completions ddr' /\
    py_getitem (DDRMemoryController.bank_precharge_complete_time self') bank
      = Some (DDRMemoryController.cycle self + DDRMemoryController.tRP self) /\
    py_getitem (DDRMemoryController.bank_open_row self') bank
      = Some (Some (MemoryRequest.addr best_req / 16)).
Proof.
  intros Hbanks Hqueue Hsorted Hb Hopen Hmiss.
  assert (Hbank : DDRMemory._get_bank ddr (MemoryRequest.addr best_req) = Some bank).
  { rewrite Hb. apply get_bank_eq, Hbanks. }
  change (MemoryRequest.addr best_req / 16)
    with (DDRMemory._get_row ddr (MemoryRequest.addr best_req)) in Hmiss.
  destruct (candidates_loop_spec self ddr Hbanks (DDRMemoryController.queue self) [])
    as (candidates & Hloop & Hsub & Hiff).
  simpl in Hloop.
  destruct (sorted_candidates_spec self ddr Hbanks candidates Hloop)
    as (sorted & Hsorted' & Hperm & _).
  rewrite Hsorted in Hsorted'. inversion Hsorted'; subst sorted.
  assert (Hin : best_req ∈ (DDRMemoryController.queue self).*2).
  { apply Hiff. rewrite <- Hperm. by left. }
  destruct (schedule_spec self ddr best_req Hbanks Hin)
    as (bank' & open' & self' & ddr' & H).
  cbv zeta in H.
  destruct H as (Hbank' & _ & Hopen' & Hrun & Hreq & Hsched & _ & Hset & _).
  rewrite Hbank in Hbank'. inversion Hbank'; subst bank'.
  rewrite Hopen in Hopen'. inversion Hopen'; subst open'.
  rewrite !(decide_False (P := open = Some _)) in Hsched by done.
  rewrite !(decide_False (P := open = Some _)) in Hreq by done.
  destruct (Hset Hmiss) as [Hpre Hrow].
  unfold DDRMemoryController._schedule_next_request.
  destruct (DDRMemoryController.queue self) as [|entry queue] eqn:Hq; [done|].
  rewrite Hsorted. simpl.
  eexists self', ddr', _.
  split; [exact Hrun|]. split; [exact Hsched|]. split; [exact Hreq|].
  split; [reflexivity|]. split; [reflexivity|]. split; [reflexivity|].
  split; [reflexivity|]. split; [reflexivity|]. split; [reflexivity|].
  split; [reflexivity|]. split; [reflexivity|].
  split; [|split; [|done]].
  - simpl. unfold DDRMemoryController.transition_penalty.
    destruct (DDRMemoryController.last_access_command self !! bank) as [[]|];
      destruct (MemoryRequest.req_type best_req); lia.
  - apply DDRMemory_request_pushes in Hreq as (Hpush & _).
    rewrite Hpush. simpl.
    eapply elem_of_Permutation_proper; [apply heappush_perm|]. by left.
Qed.

Lemma row_miss_completion_witness :
  exists self' ddr' info,
    DDRMemoryController._schedule_next_request turnaround_controller turnaround_ddr
      = Some (self', ddr') /\
    DDRMemoryController.scheduled_ddr_requests self' =
      DDRMemoryController.scheduled_ddr_requests turnaround_controller ++ [info] /\
    DDRMemory.request turnaround_ddr (info_request info) = Some ddr' /\
    info_bank info = 0 /\
    info_row info = MemoryRequest.addr turnaround_read / 16 /\
    info_status info = ROW_MISS /\
    MemoryRequest.core_id (info_request info)
      = MemoryRequest.core_id turnaround_read /\
    MemoryRequest.req_type (info_request info)
      = MemoryRequest.req_type turnaround_read /\
    MemoryRequest.addr (info_request info) = MemoryRequest.addr turnaround_read /\
    MemoryRequest.callback (info_request info)
      = MemoryRequest.callback turnaround_read /\
    MemoryRequest.time (info_request info) = 50 /\
    MemoryRequest.completion_time (info_request info) - 50 =
      15 + 15 + 15
      + match DDRMemoryController.last_access_command turnaround_controller !! 0,
              MemoryRequest.req_type turnaround_read with
        | Some write, read => 15
        | Some read, write => 15 + 2
        | _, _ => 0
        end /\
    (MemoryRequest.completion_time (info_request info), info_request info)
      ∈ DDRMemory.scheduled_completions ddr' /\
    py_getitem (DDRMemoryController.bank_precharge_complete_time self') 0
      = Some (50 + 15) /\
    py_getitem (DDRMemoryController.bank_open_row self') 0
      = Some (Some (MemoryRequest.addr turnaround_read / 16)).
Proof.
  apply (row_miss_completion turnaround_controller turnaround_ddr
           turnaround_read [turnaround_write] 0 (Some 0)).
  - unfold banks_ok. simpl. lia.
  - discriminate.
  - vm_compute. reflexivity.
  - reflexivity.
  - reflexivity.
  - vm_compute. discriminate.
Defined.

Example turnaround_delay :
  (DDRMemoryController.scheduled_ddr_requests
     <$> (fst <$> DDRMemoryController._schedule_next_request
                    turnaround_controller turnaround_ddr))
  = Some [mkReqInfo (MemoryRequest.set_times turnaround_read 50 110) 0 125 ROW_MISS].
Proof. vm_compute. reflexivity. Qed.

(** ** Cache levels: the fill continuation *)

Lemma py_setitem_getitem {A} (l l' : list A) (i : Z) (x : A) :
  py_setitem l i x = Some l' -> py_getitem l' i = Some x /\ length l' = length l.
Proof.
  unfold py_setitem, py_getitem. intros H.
  destruct (py_pos (length l) i) as [p|] eqn:Hp; [|done].
  simpl in H. inversion H; subst l'. rewrite length_insert, Hp. simpl.
  split; [|done]. apply list_lookup_insert_eq.
  unfold py_pos in Hp. repeat case_match; inversion Hp; lia.
Qed.

Lemma py_getitem_setitem {A} (l : list A) (i : Z) (x y : A) :
  py_getitem l i = Some y -> is_Some (py_setitem l i x).
Proof.
  unfold py_setitem, py_getitem. intros H.
  destruct (py_pos (length l) i); [simpl; eauto|done].
Qed.

Lemma set_line_spec (l : nat) (index way : Z) (line : CacheLine.t) (w w' : World) :
  set_line l index way line w = Some w' ->
  line_at w' l index way = Some line /\
  plru_at w' l index = plru_at w l index /\
  beyond_caches w' = beyond_caches w /\ interconnect w' = interconnect w.
Proof.
  unfold set_line, line_at, plru_at. intros H.
  destruct (caches w !! l) as [self|] eqn:Hself; [simpl in H|done].
  destruct (py_getitem (CacheLevel.sets self) index) as [cache_set|];
    [simpl in H|done].
  destruct (py_setitem cache_set way line) as [cache_set'|] eqn:Hset;
    [simpl in H|done].
  destruct (py_setitem (CacheLevel.sets self) index cache_set') as [sets'|] eqn:Hsets;
    [simpl in H|done].
  inversion H; subst w'. simpl.
  rewrite list_lookup_insert_eq by (by eapply lookup_lt_Some). simpl.
  apply py_setitem_getitem in Hset as [Hset _].
  apply py_setitem_getitem in Hsets as [Hsets _].
  rewrite Hsets. simpl. by rewrite Hset.
Qed.


Lemma plru_access_spec (l : nat) (index way : Z) (w w' : World) :
  plru_access l index way w = Some w' ->
  line_at w' l index way = line_at w l index way /\
  plru_at w' l index = (plru ← plru_at w l index; PLRU.update_on_access plru way) /\
  beyond_caches w' = beyond_caches w /\ interconnect w' = interconnect w.
Proof.
  unfold plru_access, line_at, plru_at. intros H.
  destruct (caches w !! l) as [self|] eqn:Hself; [simpl in *|done].
  destruct (py_getitem (CacheLevel.plru_trees self) index) as [plru|];
    [simpl in *|done].
  destruct (PLRU.update_on_access plru way) as [plru'|]; [simpl in *|done].
  destruct (py_setitem (CacheLevel.plru_trees self) index plru') as [trees|] eqn:Ht;
    [simpl in H|done].
  inversion H; subst w'. simpl.
  rewrite list_lookup_insert_eq by (by eapply lookup_lt_Some). simpl.
  apply py_setitem_getitem in Ht as [Ht _]. by rewrite Ht.
Qed.


Lemma count_beyond (l : nat) (w w' : World) :
  count_hit l w = Some w' \/ count_miss l w = Some w' ->
  beyond_caches w' = beyond_caches w.
Proof.
  unfold count_hit, count_miss.
  intros [H | H]; destruct (caches w !! l); simpl in H; inversion H; done.
Qed.

(** A write touches the cache levels and the interconnect only; it never
    runs a callable. *)
Lemma CacheLevel_write_beyond (depth : nat) :
  forall (l : nat) (addr : Z) (w w' : World),
    CacheLevel_write depth l addr w = Some w' ->
    beyond_caches w' = beyond_caches w.
Proof.
  induction depth as [|depth IH]; intros l addr w w' H; [done|].
  assert (Hprop : forall self a w1 w2,
            propagate_write (CacheLevel_write depth) self a w1 = Some w2 ->
            beyond_caches w2 = beyond_caches w1).
  { intros self a w1 w2. unfold propagate_write.
    destruct (CacheLevel.lower self); [apply IH|].
    destruct (CacheLevel.memory self); intros Hp; by inversion Hp. }
  cbn [CacheLevel_write] in H.
  destruct (caches w !! l) as [self|]; [simpl in H|done].
  destruct (CacheLevel._index self addr) as [index|]; [simpl in H|done].
  destruct (CacheLevel._tag self addr) as [tag|]; [simpl in H|done].
  destruct (py_getitem (CacheLevel.sets self) index) as [cache_set|];
    [simpl in H|done].
  destruct (py_getitem (CacheLevel.plru_trees self) index) as [plru|];
    [simpl in H|done].
  destruct (CacheLevel.find_hit cache_set tag 0) as [i|].
  - destruct (count_hit l w) as [w1|] eqn:H1; [simpl in H|done].
    destruct (py_getitem cache_set i) as [line|]; [simpl in H|done].
    match type of H with
    | context [set_line ?a ?b ?c ?d ?e] =>
        destruct (set_line a b c d e) as [w2|] eqn:H2; [simpl in H|done]
    end.
    destruct (plru_access l index i w2) as [w3|] eqn:H3; [simpl in H|done].
    apply set_line_spec in H2 as (_ & _ & Hi2 & _).
    apply plru_access_spec in H3 as (_ & _ & Hi3 & _).
    assert (Hi : beyond_caches w3 = beyond_caches w)
      by (rewrite Hi3, Hi2; eapply count_beyond; eauto).
    destruct (CacheLevel.write_back self).
    + inversion H; by subst w'.
    + apply Hprop in H. congruence.
  - destruct (count_miss l w) as [w1|] eqn:H1; [simpl in H|done].
    assert (Hi1 : beyond_caches w1 = beyond_caches w)
      by (eapply count_beyond; eauto).
    destruct (CacheLevel.write_allocate self); [|apply Hprop in H; congruence].
    destruct (PLRU.get_victim plru) as [victim_idx|]; [simpl in H|done].
    destruct (py_getitem cache_set victim_idx) as [victim_line|];
      [simpl in H|done].
    match type of H with
    | (?e ≫= _) = _ => destruct e as [w2|] eqn:H2; [simpl in H|done]
    end.
    assert (Hi2 : beyond_caches w2 = beyond_caches w1).
    { destruct (_ && _) in H2; [|by inversion H2].
      destruct (reconstructed_addr self victim_line index); [simpl in H2|done].
      by apply Hprop in H2. }
    match type of H with
    | context [set_line ?a ?b ?c ?d ?e] =>
        destruct (set_line a b c d e) as [w3|] eqn:H3; [simpl in H|done]
    end.
    apply set_line_spec in H3 as (_ & _ & Hi3 & _).
    apply plru_access_spec in H as (_ & _ & Hi & _).
    congruence.
Qed.


(** ** DDR memory: commands in an incompatible state *)

(** A callback leaves the controller and the DDR memory alone. *)
Lemma run_callback_controller (depth : nat) (callback : Callback) :
  forall w w',
    run_callback depth callback w = Some w' ->
    ddr_controller w' = ddr_controller w /\
    ddr_memory_physical w' = ddr_memory_physical w.
Proof.
  induction callback as [n|core addr|l index victim_idx tag callback IH];
    intros w w' H; cbn [run_callback] in H.
  - by inversion H.
  - destruct (cores w !! core); simpl in H; by inversion H.
  - unfold lower_cb in H.
    destruct (caches w !! l) as [self|]; [simpl in H|done].
    destruct (py_getitem (CacheLevel.sets self) index) as [cache_set|];
      [simpl in H|done].
    destruct (py_getitem cache_set victim_idx) as [victim_line|];
      [simpl in H|done].
    match type of H with
    | (?e ≫= _) = _ => destruct e as [w1|] eqn:H1; [simpl in H|done]
    end.
    assert (Hb1 : beyond_caches w1 = beyond_caches w).
    { destruct (_ && _) in H1; [|by inversion H1].
      destruct (reconstructed_addr self victim_line index); [simpl in H1|done].
      unfold propagate_write in H1.
      destruct (CacheLevel.lower self); [by eapply CacheLevel_write_beyond|].
      destruct (CacheLevel.memory self); by inversion H1. }
    match type of H with
    | context [set_line ?a ?b ?c ?d ?e] =>
        destruct (set_line a b c d e) as [w2|] eqn:H2; [simpl in H|done]
    end.
    destruct (plru_access l index victim_idx w2) as [w3|] eqn:H3;
      [simpl in H|done].
    apply set_line_spec in H2 as (_ & _ & Hb2 & _).
    apply plru_access_spec in H3 as (_ & _ & Hb3 & _).
    apply IH in H as [-> ->].
    assert (Hb : beyond_caches w3 = beyond_caches w) by congruence.
    by inversion Hb.
Qed.

(** The first loop of the completion drain runs the callbacks of the due
    reads, and collects the due requests. *)
Lemma complete_loop_runs (depth : nat) (infos : list ReqInfo) :
  forall (w : World) (completed : list ReqInfo),
    complete_loop depth infos w completed =
      (w' ← run_callbacks depth
              (due_reads (DDRMemoryController.cycle (ddr_controller w)) infos) w;
       Some (w', completed
                 ++ filter (fun info =>
                              MemoryRequest.completion_time (info_request info)
                              <= DDRMemoryController.cycle (ddr_controller w))
                           infos)).
Proof.
  induction infos as [|info infos IH]; intros w completed; simpl.
  { by rewrite app_nil_r. }
  rewrite filter_cons. unfold due_reads. simpl.
  destruct (Z.leb_spec (MemoryRequest.completion_time (info_request info))
              (DDRMemoryController.cycle (ddr_controller w))) as [Hdue | Hlate].
  2:{ rewrite decide_False by lia. apply IH. }
  rewrite decide_True by lia.
  destruct (MemoryRequest.req_type (info_request info)).
  - destruct (MemoryRequest.callback (info_request info)) as [callback|]; simpl.
    + destruct (run_callback depth callback w) as [w1|] eqn:Hrun; [simpl|done].
      apply run_callback_controller in Hrun as [Hc _].
      rewrite IH, Hc, <- app_assoc. reflexivity.
    + rewrite IH, <- app_assoc. reflexivity.
  - simpl. rewrite IH, <- app_assoc. reflexivity.
Qed.

Lemma run_callbacks_controller (depth : nat) (callbacks : list Callback) :
  forall w w',
    run_callbacks depth callbacks w = Some w' ->
    ddr_controller w' = ddr_controller w /\
    ddr_memory_physical w' = ddr_memory_physical w.
Proof.
  induction callbacks as [|callback callbacks IH]; intros w w' H; simpl in H.
  - by inversion H.
  - destruct (run_callback depth callback w) as [w1|] eqn:H1; [simpl in H|done].
    apply run_callback_controller in H1 as [<- <-]. by apply IH.
Qed.

(** The completion drain with callables of the caller's own only. *)
Lemma complete_loop_plain (depth : nat) (infos : list ReqInfo) :
  forall (w : World) (completed : list ReqInfo),
    plain_callbacks infos ->
    exists w',
      complete_loop depth infos w completed
        = Some (w', completed
                    ++ filter (fun info =>
                                 MemoryRequest.completion_time (info_request info)
                                 <= DDRMemoryController.cycle (ddr_controller w))
                              infos) /\
      invoked w' =
        invoked w ++ due_callbacks (DDRMemoryController.cycle (ddr_controller w)) infos /\
      ddr_controller w' = ddr_controller w /\
      ddr_memory_physical w' = ddr_memory_physical w /\
      interconnect w' = interconnect w /\
      caches w' = caches w /\ cores w' = cores w.
Proof.
  induction infos as [|info infos IH]; intros w completed Hplain; simpl.
  { exists w. by rewrite !app_nil_r. }
  apply Forall_cons in Hplain as [Hinfo Hplain]. unfold due_callbacks. simpl.
  rewrite filter_cons.
  destruct (Z.leb_spec (MemoryRequest.completion_time (info_request info))
              (DDRMemoryController.cycle (ddr_controller w))) as [Hdue | Hlate].
  2:{ rewrite decide_False by lia. apply IH. done. }
  rewrite decide_True by lia.
  assert (Hstep : exists w1,
    match MemoryRequest.req_type (info_request info),
          MemoryRequest.callback (info_request info) with
    | read, Some callback => run_callback depth callback w
    | _, _ => Some w
    end = Some w1 /\
    invoked w1 = invoked w ++
      match match MemoryRequest.req_type (info_request info),
                  MemoryRequest.callback (info_request info) with
            | read, Some (CbExternal n) => Some n
            | _, _ => None
            end with
      | Some n => [n]
      | None => []
      end /\
    ddr_controller w1 = ddr_controller w /\
    ddr_memory_physical w1 = ddr_memory_physical w /\
    interconnect w1 = interconnect w /\
    caches w1 = caches w /\ cores w1 = cores w).
  { destruct (MemoryRequest.req_type (info_request info));
      [|exists w; by rewrite app_nil_r].
    destruct (MemoryRequest.callback (info_request info)) as [[n| |]|];
      try done; [|exists w; by rewrite app_nil_r].
    eexists. simpl. split; [reflexivity|done]. }
  destruct Hstep as (w1 & -> & Hi1 & Hc1 & Hd1 & Hic1 & Hca1 & Hco1). simpl.
  destruct (IH w1 (completed ++ [info]) Hplain)
    as (w' & Hrun & Hi & Hc & Hd & Hic & Hca & Hco).
  exists w'. rewrite Hrun, Hc1, <- app_assoc. simpl.
  split; [done|]. rewrite Hi, Hi1, Hc1, <- app_assoc.
  split; [|by rewrite Hc, Hd, Hic, Hca, Hco].
  f_equal. unfold due_callbacks.
  by destruct (match MemoryRequest.req_type (info_request info) with
               | read => _ | write => _ end).
Qed.

Section remove_completed.
Context {A : Type} `{EqDecision A} (P : A -> Prop) `{forall x, Decision (P x)}.

Lemma list_remove_first_skip (x : A) (pre l : list A) :
  Forall (fun y => y <> x) pre ->
  list_remove_first x (pre ++ x :: l) = pre ++ l.
Proof.
  induction 1 as [|y pre Hy _ IH]; simpl.
  - by rewrite decide_True.
  - by rewrite decide_False, IH.
Qed.

(** Removing the completed entries one by one leaves the others, in their
    order. *)
Lemma remove_completed (pre l : list A) :
  Forall (fun y => ~ P y) pre ->
  foldl (fun l x => list_remove_first x l) (pre ++ l) (filter P l)
    = pre ++ filter (fun y => ~ P y) l.
Proof.
  revert pre. induction l as [|a l IH]; intros pre Hpre; [done|].
  rewrite !filter_cons. destruct (decide (P a)) as [Ha | Ha].
  - rewrite decide_False by tauto. simpl.
    rewrite list_remove_first_skip; [by apply IH|].
    eapply Forall_impl; [exact Hpre|]. intros y Hy ->. contradiction.
  - rewrite decide_True by done.
    rewrite (cons_middle a pre l), app_assoc, IH.
    + by rewrite <- app_assoc.
    + apply Forall_app. split; [done|]. by constructor.
Qed.
End remove_completed.

(** C2: the code completes a request that it reports as an error.  The
    write-back of address 0 is issued to the DDR at cycle 5 and keeps bank 0 in
    [WRITING] until cycle 50; the read of the same row, with the callable 7,
    is issued at cycle 20, in that state.  The DDR takes the branch that
    prints the error and leaves the bank as it is, but the read, with time 20
    and completion time 35, is in its completion queue and in the
    controller's list, and at cycle 35 the drain runs its callback. *)
Lemma rejected_read_is_completed :
  exists w20 w21 w36 issued,
    write_then_read 19 = Some w20 /\
    DDRMemoryController.queue (ddr_controller w20) = [(1, late_read)] /\
    DDRMemory.bank_states (ddr_memory_physical w20) !! 0%nat = Some WRITING /\
    DDRMemory.bank_open_row (ddr_memory_physical w20) !! 0%nat
      = Some (Some (MemoryRequest.addr late_read / 16)) /\
    rejected read WRITING (Some (MemoryRequest.addr late_read / 16))
             (MemoryRequest.addr late_read / 16) /\
    write_then_read 20 = Some w21 /\
    issued = {| MemoryRequest.core_id := CoreStr "anycore";
                MemoryRequest.time := 20; MemoryRequest.req_type := read;
                MemoryRequest.addr := 0;
                MemoryRequest.callback := Some (CbExternal 7);
                MemoryRequest.completion_time := 35 |} /\
    DDRMemory.bank_states (ddr_memory_physical w21)
      = DDRMemory.bank_states (ddr_memory_physical w20) /\
    DDRMemory.bank_timers (ddr_memory_physical w21)
      = DDRMemory.bank_timers (ddr_memory_physical w20) /\
    (35, issued) ∈ DDRMemory.scheduled_completions (ddr_memory_physical w21) /\
    mkReqInfo issued 0 0 ROW_HIT
      ∈ DDRMemoryController.scheduled_ddr_requests (ddr_controller w21) /\
    invoked w21 = [] /\
    write_then_read 35 = Some w36 /\
    invoked w36 = [7%nat].
Proof.
  eexists _, _, _, _.
  split; [vm_compute; reflexivity|].
  split; [reflexivity|]. split; [reflexivity|]. split; [reflexivity|].
  split; [split; [reflexivity|by left]|].
  split; [vm_compute; reflexivity|].
  split; [reflexivity|]. split; [reflexivity|]. split; [reflexivity|].
  split; [by left|]. split; [right; by left|]. split; [reflexivity|].
  split; [vm_compute; reflexivity|reflexivity].
Qed.

(** What the code does with such a request, in general: a request whose kind
    is incompatible with the state of its bank is not dropped.  In the branch of [DDRMemory.request] that reports
    the error the bank keeps its state, timer and open row, and the request is
    pushed on the completion queue, as it is in every branch.  The
    completion drain of the controller does not look at the DDR: it runs the
    callback of every read in [scheduled_ddr_requests] whose completion time
    has come, in the order of that list, and takes the completed requests off
    the list; when these callbacks are callables of the caller's own, each of
    them is recorded as run. *)
Theorem rejected_request_still_completes
    (ddr : DDRMemory.t) (req : MemoryRequest.t) (bank : Z) (state : DDRState)
    (open : option Z) (depth : nat) (w : World) :
  (DDRMemory._get_bank ddr (MemoryRequest.addr req) = Some bank ->
   py_getitem (DDRMemory.bank_states ddr) bank = Some state ->
   py_getitem (DDRMemory.bank_open_row ddr) bank = Some open ->
   rejected (MemoryRequest.req_type req) state open
            (DDRMemory._get_row ddr (MemoryRequest.addr req)) ->
   exists ddr',
     DDRMemory.request ddr req = Some ddr' /\
     DDRMemory.bank_states ddr' = DDRMemory.bank_states ddr /\
     DDRMemory.bank_timers ddr' = DDRMemory.bank_timers ddr /\
     DDRMemory.bank_open_row ddr' = DDRMemory.bank_open_row ddr /\
     DDRMemory.scheduled_completions ddr' =
       heapq.heappush entry_lt (DDRMemory.scheduled_completions ddr)
                      (MemoryRequest.completion_time req, req) /\
     (MemoryRequest.completion_time req, req)
       ∈ DDRMemory.scheduled_completions ddr') /\
  (forall ddr',
     DDRMemory.request ddr req = Some ddr' ->
     DDRMemory.scheduled_completions ddr' =
       heapq.heappush entry_lt (DDRMemory.scheduled_completions ddr)
                      (MemoryRequest.completion_time req, req)) /\
  (let self := ddr_controller w in
   let due info := MemoryRequest.completion_time (info_request info)
                   <= DDRMemoryController.cycle self in
   DDRMemoryController_complete_ddr_requests depth w =
     (w' ← run_callbacks depth
             (due_reads (DDRMemoryController.cycle self)
                        (DDRMemoryController.scheduled_ddr_requests self)) w;
      Some (set_ddr w'
              (DDRMemoryController.set_scheduled_ddr_requests self
                 (filter (fun info => ~ due info)
                         (DDRMemoryController.scheduled_ddr_requests self)))
              (ddr_memory_physical w)))) /\
  (let self := ddr_controller w in
   let due info := MemoryRequest.completion_time (info_request info)
                   <= DDRMemoryController.cycle self in
   plain_callbacks (DDRMemoryController.scheduled_ddr_requests self) ->
   exists w',
     DDRMemoryController_complete_ddr_requests depth w = Some w' /\
     invoked w' =
       invoked w ++ due_callbacks (DDRMemoryController.cycle self)
                      (DDRMemoryController.scheduled_ddr_requests self) /\
     DDRMemoryController.scheduled_ddr_requests (ddr_controller w') =
       filter (fun info => ~ due info)
              (DDRMemoryController.scheduled_ddr_requests self) /\
     forall info n,
       info ∈ DDRMemoryController.scheduled_ddr_requests self ->
       MemoryRequest.req_type (info_request info) = read ->
       MemoryRequest.callback (info_request info) = Some (CbExternal n) ->
       due info ->
       n ∈ invoked w').
Proof.
  split; [|split; [|split]].
  2:{ intros ddr' Hreq. by apply DDRMemory_request_pushes in Hreq as [? _]. }
  - intros Hbank Hstate Hopen [Hrow Hbusy].
    unfold DDRMemory.request. rewrite Hbank. simpl. rewrite Hstate. simpl.
    assert (Hcmd : forall busy,
      match MemoryRequest.req_type req with read => READING | write => WRITING end
        = busy ->
      DDRMemory.command ddr busy bank
        (DDRMemory._get_row ddr (MemoryRequest.addr req)) state
        (MemoryRequest.completion_time req) = Some ddr).
    { intros busy Hb. unfold DDRMemory.command.
      rewrite decide_False
        by (destruct (MemoryRequest.req_type req), Hbusy; congruence).
      rewrite Hopen. simpl.
      rewrite bool_decide_eq_false_2 by (intros Hne; by apply Hne).
      rewrite bool_decide_eq_false_2
        by (destruct (MemoryRequest.req_type req), Hbusy; congruence).
      rewrite bool_decide_eq_false_2
        by (destruct (MemoryRequest.req_type req), Hbusy; congruence).
      reflexivity. }
    exists (DDRMemory.set_scheduled_completions ddr
              (heapq.heappush entry_lt (DDRMemory.scheduled_completions ddr)
                 (MemoryRequest.completion_time req, req))).
    split.
    + destruct (MemoryRequest.req_type req); by rewrite Hcmd.
    + simpl. repeat split. rewrite heappush_perm. by left.
  - intros self due. unfold DDRMemoryController_complete_ddr_requests.
    fold self. rewrite complete_loop_runs. fold self.
    destruct (run_callbacks depth _ w) as [w1|] eqn:Hrun; [simpl|done].
    apply run_callbacks_controller in Hrun as [-> ->]. fold self.
    f_equal. f_equal. f_equal.
    apply (remove_completed due [] (DDRMemoryController.scheduled_ddr_requests self)).
    constructor.
  - intros self due Hplain. unfold DDRMemoryController_complete_ddr_requests.
    fold self.
    destruct (complete_loop_plain depth
                (DDRMemoryController.scheduled_ddr_requests self) w [] Hplain)
      as (w1 & Hrun & Hi & Hc & Hd & _).
    rewrite Hrun. simpl. rewrite Hc. fold self. eexists. split; [reflexivity|].
    simpl. split; [exact Hi|]. split.
    + apply (remove_completed due [] (DDRMemoryController.scheduled_ddr_requests self)).
      constructor.
    + intros info n Hin Hread Hcb Hdue. rewrite Hi.
      apply elem_of_app. right. unfold due_callbacks.
      apply list_elem_of_omap. exists info. split; [done|]. simpl.
      rewrite Hread, Hcb.
      destruct (Z.leb_spec (MemoryRequest.completion_time (info_request info))
                  (DDRMemoryController.cycle (ddr_controller w))); [done|].
      unfold due, self in Hdue. lia.
Qed.

Lemma rejected_request_still_completes_witness :
  (exists ddr',
     DDRMemory.request writing_ddr (MemoryRequest.set_times late_read 20 35)
       = Some ddr' /\
     DDRMemory.bank_states ddr' = DDRMemory.bank_states writing_ddr /\
     DDRMemory.bank_timers ddr' = DDRMemory.bank_timers writing_ddr /\
     DDRMemory.bank_open_row ddr' = DDRMemory.bank_open_row writing_ddr /\
     DDRMemory.scheduled_completions ddr' =
       heapq.heappush entry_lt (DDRMemory.scheduled_completions writing_ddr)
         (35, MemoryRequest.set_times late_read 20 35) /\
     (35, MemoryRequest.set_times late_read 20 35)
       ∈ DDRMemory.scheduled_completions ddr') /\
  (exists w',
     DDRMemoryController_complete_ddr_requests 1 waiting_world = Some w' /\
     invoked w' = [7%nat] /\
     DDRMemoryController.scheduled_ddr_requests (ddr_controller w') =
       [mkReqInfo (MemoryRequest.set_times early_write 5 50) 0 0 ROW_MISS]).
Proof.
  pose proof (rejected_request_still_completes writing_ddr
                (MemoryRequest.set_times late_read 20 35) 0 WRITING (Some 0)
                1 waiting_world) as (Hrequest & _ & _ & Hdrain).
  split.
  - apply Hrequest; [reflexivity|reflexivity|reflexivity|].
    split; [reflexivity|by left].
  - destruct Hdrain as (w' & Hrun & Hinvoked & Hleft & _).
    { repeat constructor. }
    exists w'. split; [exact Hrun|]. split; [exact Hinvoked|].
    rewrite Hleft. vm_compute. reflexivity.
Defined.


(** * Further properties *)

(** ** PLRU trees over any number of ways *)

Lemma bit_length_between (n k : Z) :
  0 <= k -> 2 ^ k <= n < 2 ^ (k + 1) -> bit_length n = k + 1.
Proof.
  intros Hk Hn. unfold bit_length.
  assert (0 < 2 ^ k) by (apply Z.pow_pos_nonneg; lia).
  destruct (Z.eqb_spec n 0); [lia|].
  rewrite Z.abs_eq by lia.
  rewrite (Z.log2_unique n k); [reflexivity|lia|].
  replace (Z.succ k) with (k + 1) by lia. done.
Qed.

(** The walk of [update_on_access] in a list that is long enough for it,
    whatever the way: it writes bits inside the list, at the node it starts
    from and below it, and a second walk for the same way changes nothing. *)
Lemma update_loop_total (n : nat) :
  forall (num_levels way level : Z) (bits : list Z) (idx p : Z),
    0 <= level -> 0 <= p < 2 ^ level -> idx = 2 ^ level - 1 + p ->
    2 ^ (level + Z.of_nat n) - 1 <= Z.of_nat (length bits) ->
    exists bits',
      PLRU.update_loop n num_levels way level bits idx = Some bits' /\
      length bits' = length bits /\
      (Forall is_bit bits -> Forall is_bit bits') /\
      (forall i : nat, Z.of_nat i < idx -> bits' !! i = bits !! i) /\
      PLRU.update_loop n num_levels way level bits' idx = Some bits'.
Proof.
  induction n as [|n IH]; intros L way level bits idx p Hl Hp Hidx Hlen.
  - exists bits. simpl. auto.
  - assert (Hpj : 0 < 2 ^ level) by (apply Z.pow_pos_nonneg; lia).
    assert (Hpn : 2 ^ level <= 2 ^ (level + Z.of_nat n))
      by (apply Z.pow_le_mono_r; lia).
    rewrite pow2_succ_nat in Hlen by done.
    assert (Hin : 0 <= idx < Z.of_nat (length bits)) by lia.
    cbn [PLRU.update_loop]. set (d := Z.land (Z.shiftr way (L - 1 - level)) 1).
    assert (Hd : is_bit d) by apply land_1_bit.
    rewrite py_setitem_nonneg by done. simpl.
    rewrite Z.shiftl_mul_pow2 by lia. change (2 ^ 1) with 2.
    destruct (IH L way (level + 1) (<[Z.to_nat idx := 1 - d]> bits)
                 (idx * 2 + 1 + d) (2 * p + d))
      as (bits' & Hrun & Hlen' & Hbits' & Hkeep & Hagain).
    + lia.
    + rewrite Z.pow_add_r by lia. change (2 ^ 1) with 2. destruct Hd; lia.
    + rewrite Z.pow_add_r by lia. change (2 ^ 1) with 2. lia.
    + rewrite length_insert.
      replace (level + 1 + Z.of_nat n) with (Z.succ (level + Z.of_nat n)) by lia.
      rewrite Z.pow_succ_r by lia. lia.
    + rewrite length_insert in Hlen'.
      assert (Hat : bits' !! Z.to_nat idx = Some (1 - d)).
      { rewrite Hkeep by (destruct Hd; lia).
        apply list_lookup_insert_eq. lia. }
      exists bits'. split; [done|]. split; [done|]. split; [|split].
      * intros Hbits. apply Hbits'. apply Forall_insert; [done|].
        destruct Hd as [-> | ->]; [right|left]; lia.
      * intros i Hi. rewrite Hkeep by (destruct Hd; lia).
        apply list_lookup_insert_ne. lia.
      * rewrite py_setitem_nonneg by lia. simpl.
        rewrite list_insert_id by done. done.
Qed.

(** The walk of [get_victim] in a list that is long enough for it. *)
Lemma victim_loop_total (n : nat) :
  forall (bits : list Z) (way idx j : Z),
    0 <= j -> 0 <= way < 2 ^ j -> idx = 2 ^ j - 1 + way ->
    2 ^ (j + Z.of_nat n) - 1 <= Z.of_nat (length bits) ->
    Forall is_bit bits ->
    exists v reads,
      PLRU.victim_loop n bits way idx = Some (v, reads) /\
      way * 2 ^ Z.of_nat n <= v < (way + 1) * 2 ^ Z.of_nat n.
Proof.
  induction n as [|n IH]; intros bits way idx j Hj Hway Hidx Hlen Hbits.
  - exists way, []. simpl. split; [reflexivity|lia].
  - assert (Hpj : 0 < 2 ^ j) by (apply Z.pow_pos_nonneg; lia).
    assert (Hpn : 2 ^ j <= 2 ^ (j + Z.of_nat n))
      by (apply Z.pow_le_mono_r; lia).
    rewrite pow2_succ_nat in Hlen by done.
    assert (Hin : 0 <= idx < Z.of_nat (length bits)) by lia.
    destruct (py_getitem_is_Some bits idx Hin) as [d Hd].
    assert (Hdb : is_bit d).
    { rewrite py_getitem_nonneg in Hd by done.
      eapply Forall_lookup_1 in Hbits; eauto. }
    cbn [PLRU.victim_loop]. rewrite Hd. simpl.
    rewrite lor_shiftl_bit by done.
    rewrite Z.shiftl_mul_pow2 by lia. change (2 ^ 1) with 2.
    destruct (IH bits (2 * way + d) (idx * 2 + 1 + d) (j + 1))
      as (v & reads & Hv & Hr).
    + lia.
    + rewrite Z.pow_add_r by lia. change (2 ^ 1) with 2. destruct Hdb; lia.
    + rewrite Z.pow_add_r by lia. change (2 ^ 1) with 2. lia.
    + replace (j + 1 + Z.of_nat n) with (Z.succ (j + Z.of_nat n)) by lia.
      rewrite Z.pow_succ_r by lia. lia.
    + done.
    + exists v, (idx :: reads). rewrite Hv. simpl. split; [reflexivity|].
      replace (Z.of_nat (S n)) with (Z.succ (Z.of_nat n)) by lia.
      rewrite Z.pow_succ_r by lia.
      assert (0 < 2 ^ Z.of_nat n) by (apply Z.pow_pos_nonneg; lia).
      destruct Hdb as [-> | ->]; nia.
Qed.

Lemma update_on_access_total (p : PLRU.t) (way k : Z) :
  0 <= k -> 2 ^ k <= PLRU.ways p < 2 ^ (k + 1) ->
  Z.of_nat (length (PLRU.bits p)) = PLRU.ways p - 1 ->
  exists bits',
    PLRU.update_on_access p way = Some (PLRU.mk bits' (PLRU.ways p)) /\
    length bits' = length (PLRU.bits p) /\
    (Forall is_bit (PLRU.bits p) -> Forall is_bit bits') /\
    PLRU.update_on_access (PLRU.mk bits' (PLRU.ways p)) way
      = Some (PLRU.mk bits' (PLRU.ways p)).
Proof.
  intros Hk Hways Hlen. unfold PLRU.update_on_access.
  rewrite (bit_length_between _ k) by done.
  replace (k + 1 - 1) with k by lia.
  destruct (update_loop_total (Z.to_nat k) k way 0 (PLRU.bits p) 0 0)
    as (bits' & Hrun & Hlen' & Hbits' & _ & Hagain).
  - lia.
  - change (2 ^ 0) with 1. lia.
  - reflexivity.
  - rewrite Z2Nat.id by lia. replace (0 + k) with k by lia. lia.
  - exists bits'. rewrite Hrun. simpl. split; [done|]. split; [done|].
    split; [done|]. rewrite (bit_length_between _ k) by done.
    replace (k + 1 - 1) with k by lia. rewrite Hagain. done.
Qed.

(** X1: for a tree over [ways] ways, [ways] at least 1 and a power of two or not,
    with [ways - 1] bits, [update_on_access(way)] returns for every integer
    [way], in range or not (it raises nothing), and leaves a tree over the same
    ways with as many bits; if every bit was 0 or 1, every bit still is. *)
Theorem update_on_access_keeps_tree (p : PLRU.t) (way k : Z) :
  0 <= k -> 2 ^ k <= PLRU.ways p < 2 ^ (k + 1) ->
  Z.of_nat (length (PLRU.bits p)) = PLRU.ways p - 1 ->
  Forall is_bit (PLRU.bits p) ->
  exists p',
    PLRU.update_on_access p way = Some p' /\
    PLRU.ways p' = PLRU.ways p /\
    length (PLRU.bits p') = length (PLRU.bits p) /\
    Forall is_bit (PLRU.bits p').
Proof.
  intros Hk Hways Hlen Hbits.
  destruct (update_on_access_total p way k Hk Hways Hlen)
    as (bits' & Hrun & Hlen' & Hbits' & _).
  eexists. split; [exact Hrun|]. simpl. auto.
Qed.

Lemma update_on_access_keeps_tree_witness :
  exists p',
    PLRU.update_on_access (PLRU.mk [1; 0] 3) (-5) = Some p' /\
    PLRU.ways p' = 3 /\
    length (PLRU.bits p') = 2%nat /\
    Forall is_bit (PLRU.bits p').
Proof.
  apply (update_on_access_keeps_tree (PLRU.mk [1; 0] 3) (-5) 1).
  - lia.
  - simpl. lia.
  - reflexivity.
  - simpl. repeat constructor; unfold is_bit; lia.
Defined.

(** X2: on such a tree, [update_on_access(way)] twice in a row is
    [update_on_access(way)] once: the second call changes no bit. *)
Theorem update_on_access_idempotent (p p' : PLRU.t) (way k : Z) :
  0 <= k -> 2 ^ k <= PLRU.ways p < 2 ^ (k + 1) ->
  Z.of_nat (length (PLRU.bits p)) = PLRU.ways p - 1 ->
  PLRU.update_on_access p way = Some p' ->
  PLRU.update_on_access p' way = Some p'.
Proof.
  intros Hk Hways Hlen Hrun.
  destruct (update_on_access_total p way k Hk Hways Hlen)
    as (bits' & Hrun' & _ & _ & Hagain).
  rewrite Hrun in Hrun'. inversion Hrun'; subst p'. exact Hagain.
Qed.

Lemma update_on_access_idempotent_witness :
  PLRU.update_on_access (PLRU.mk [0; 1; 1] 4) 2 = Some (PLRU.mk [0; 1; 1] 4).
Proof.
  apply (update_on_access_idempotent (PLRU.mk [1; 1; 0] 4) _ 2 2).
  - lia.
  - simpl. lia.
  - reflexivity.
  - reflexivity.
Defined.

(** X3: for a tree over [ways] ways with [2 ^ k <= ways < 2 ^ (k + 1)],
    [get_victim] returns a way below [2 ^ k]: the way is in bounds for every
    associativity, and when [ways] is no power of two the ways from [2 ^ k] on
    are never chosen. *)
Theorem get_victim_below_power_of_two (p : PLRU.t) (k : Z) :
  0 <= k -> 2 ^ k <= PLRU.ways p < 2 ^ (k + 1) ->
  Z.of_nat (length (PLRU.bits p)) = PLRU.ways p - 1 ->
  Forall is_bit (PLRU.bits p) ->
  exists v, PLRU.get_victim p = Some v /\ 0 <= v < 2 ^ k.
Proof.
  intros Hk Hways Hlen Hbits.
  unfold PLRU.get_victim, PLRU.get_victim_reads.
  rewrite (bit_length_between _ k) by done.
  replace (k + 1 - 1) with k by lia.
  destruct (victim_loop_total (Z.to_nat k) (PLRU.bits p) 0 0 0)
    as (v & reads & Hrun & Hv).
  - lia.
  - change (2 ^ 0) with 1. lia.
  - reflexivity.
  - rewrite Z2Nat.id by lia. replace (0 + k) with k by lia. lia.
  - done.
  - exists v. rewrite Hrun. simpl. split; [done|].
    rewrite Z2Nat.id in Hv by lia. lia.
Qed.

Lemma get_victim_below_power_of_two_witness :
  exists v, PLRU.get_victim (PLRU.mk [1; 1] 3) = Some v /\ 0 <= v < 2 ^ 1.
Proof.
  apply (get_victim_below_power_of_two (PLRU.mk [1; 1] 3) 1).
  - lia.
  - simpl. lia.
  - reflexivity.
  - simpl. repeat constructor; unfold is_bit; lia.
Defined.

(** ** Cache levels: addresses *)

Lemma index_tag_spec (self : CacheLevel.t) (addr : Z) :
  0 < CacheLevel.line_size self -> 0 < CacheLevel.num_sets self ->
  CacheLevel._index self addr
    = Some ((addr / CacheLevel.line_size self) mod CacheLevel.num_sets self) /\
  CacheLevel._tag self addr
    = Some (addr / CacheLevel.line_size self / CacheLevel.num_sets self).
Proof.
  intros Hl Hn. unfold CacheLevel._index, CacheLevel._tag, py_floordiv, py_mod.
  destruct (Z.eqb_spec (CacheLevel.line_size self) 0); [lia|]. simpl.
  destruct (Z.eqb_spec (CacheLevel.num_sets self) 0); [lia|].
  destruct (Z.eqb_spec (CacheLevel.line_size self * CacheLevel.num_sets self) 0);
    [nia|].
  split; [reflexivity|]. f_equal. symmetry. apply Z.div_div; lia.
Qed.

(** X4: in a level with a positive line size and at least one set, [_index]
    and [_tag] return, the index is within the sets, and the address that
    [read] and [write] rebuild for a victim line with that tag in that set,
    [(tag * num_sets + index) * line_size], is [addr] rounded down to the start
    of its line; it has the index and the tag of [addr] again. *)
Theorem victim_address_round_trip (self : CacheLevel.t) (addr : Z) :
  0 < CacheLevel.line_size self -> 0 < CacheLevel.num_sets self ->
  exists index tag,
    CacheLevel._index self addr = Some index /\
    CacheLevel._tag self addr = Some tag /\
    0 <= index < CacheLevel.num_sets self /\
    forall line, CacheLine.tag line = Some tag ->
      let a := addr - addr mod CacheLevel.line_size self in
      reconstructed_addr self line index = Some a /\
      CacheLevel._index self a = Some index /\
      CacheLevel._tag self a = Some tag.
Proof.
  intros Hl Hn.
  destruct (index_tag_spec self addr Hl Hn) as [Hi Ht].
  set (ls := CacheLevel.line_size self) in *.
  set (ns := CacheLevel.num_sets self) in *.
  set (q := addr / ls) in *.
  exists (q mod ns), (q / ns).
  split; [done|]. split; [done|].
  split; [apply Z.mod_pos_bound; lia|].
  intros line Hline. cbv zeta.
  assert (Ha : addr - addr mod ls = q * ls).
  { pose proof (Z.div_mod addr ls). subst q. lia. }
  assert (Hq : (q * ls) / ls = q) by (apply Z.div_mul; lia).
  destruct (index_tag_spec self (q * ls) Hl Hn) as [Hi' Ht'].
  fold ls ns in Hi', Ht'. rewrite Hq in Hi', Ht'.
  rewrite Ha. split; [|done].
  unfold reconstructed_addr. rewrite Hline. simpl. fold ls ns.
  f_equal. f_equal. pose proof (Z.div_mod q ns). lia.
Qed.

Lemma victim_address_round_trip_witness :
  exists index tag,
    CacheLevel._index dirty_level 11 = Some index /\
    CacheLevel._tag dirty_level 11 = Some tag /\
    0 <= index < 1 /\
    forall line, CacheLine.tag line = Some tag ->
      let a := 11 - 11 mod 4 in
      reconstructed_addr dirty_level line index = Some a /\
      CacheLevel._index dirty_level a = Some index /\
      CacheLevel._tag dirty_level a = Some tag.
Proof.
  apply (victim_address_round_trip dirty_level 11); simpl; lia.
Defined.

(** ** Cores: the queue of pending accesses *)

Lemma dequeue_loop_spec (op : ReqType) (addr : Z) (l : list (ReqType * Z)) :
  (((op, addr) ∉ l) /\ Core.dequeue_loop op addr l = l) \/
  (exists pre post,
     l = pre ++ (op, addr) :: post /\ ((op, addr) ∉ pre) /\
     Core.dequeue_loop op addr l = pre ++ post).
Proof.
  induction l as [|[o a] l IH]; simpl.
  - left. split; [|done]. inversion 1.
  - destruct (bool_decide (o = op) && (a =? addr)) eqn:Hc.
    + apply andb_true_iff in Hc as [Ho Ha].
      apply bool_decide_eq_true in Ho. apply Z.eqb_eq in Ha. subst o a.
      right. exists [], l. split; [done|]. split; [inversion 1|done].
    + assert (Hne : (o, a) <> (op, addr)).
      { intros Heq. inversion Heq; subst o a.
        rewrite bool_decide_eq_true_2, Z.eqb_refl in Hc by done. done. }
      destruct IH as [[Hnot ->] | (pre & post & -> & Hnot & ->)].
      * left. split; [|done]. rewrite not_elem_of_cons. done.
      * right. exists ((o, a) :: pre), post.
        split; [done|]. split; [|done]. rewrite not_elem_of_cons. done.
Qed.

(** X5: [dequeue_access(op, addr)] removes the oldest pending access equal to
    [(op, addr)] and keeps the others in their order; without such an access
    the queue is unchanged.  [stall_op] and the trace are never changed. *)
Theorem dequeue_access_removes_oldest (self : Core.t) (op : ReqType) (addr : Z) :
  let l := Core.pending_accesses self in
  let l' := Core.pending_accesses (Core.dequeue_access self op addr) in
  Core.stall_op (Core.dequeue_access self op addr) = Core.stall_op self /\
  Core.inst (Core.dequeue_access self op addr) = Core.inst self /\
  ((((op, addr) ∉ l) /\ l' = l) \/
   (exists pre post,
      l = pre ++ (op, addr) :: post /\ ((op, addr) ∉ pre) /\ l' = pre ++ post)).
Proof.
  cbv zeta. split; [done|]. split; [done|]. apply dequeue_loop_spec.
Qed.

(** X6: [enqueue_access(op, addr)] followed by [dequeue_access(op, addr)] gives
    the queue back when [(op, addr)] was not pending; when it was, the older
    entry goes and the new one stays at the end. *)
Theorem enqueue_then_dequeue (self : Core.t) (op : ReqType) (addr : Z) :
  let l := Core.pending_accesses self in
  Core.pending_accesses
    (Core.dequeue_access (Core.enqueue_access self op addr) op addr)
  = if decide ((op, addr) ∈ l) then Core.dequeue_loop op addr l ++ [(op, addr)]
    else l.
Proof.
  cbv zeta. unfold Core.dequeue_access, Core.enqueue_access. simpl.
  generalize (Core.pending_accesses self). intros l.
  induction l as [|[o a] l IH]; simpl.
  - rewrite bool_decide_eq_true_2, Z.eqb_refl by done. simpl.
    destruct (decide ((op, addr) ∈ [])) as [Hin|]; [inversion Hin|done].
  - destruct (bool_decide (o = op) && (a =? addr)) eqn:Hc.
    + apply andb_true_iff in Hc as [Ho Ha].
      apply bool_decide_eq_true in Ho. apply Z.eqb_eq in Ha. subst o a.
      destruct (decide ((op, addr) ∈ (op, addr) :: l)) as [|Hnot]; [done|].
      exfalso. apply Hnot. left.
    + assert (Hne : (o, a) <> (op, addr)).
      { intros Heq. inversion Heq; subst o a.
        rewrite bool_decide_eq_true_2, Z.eqb_refl in Hc by done. done. }
      rewrite IH. destruct (decide ((op, addr) ∈ l)) as [Hin | Hnot].
      * destruct (decide ((op, addr) ∈ (o, a) :: l)) as [|Hnot]; [done|].
        exfalso. apply Hnot. by right.
      * destruct (decide ((op, addr) ∈ (o, a) :: l)) as [Hin|]; [|done].
        apply elem_of_cons in Hin as [Heq | Hin]; [by symmetry in Heq|done].
Qed.

(** X7: an operation that [dependency] judges hazardous after a
    [dequeue_access] was hazardous before it: completing an access never
    stalls anything. *)
Theorem dequeue_creates_no_hazard (self : Core.t) (op o : ReqType) (addr a : Z) :
  Core.dependency (Core.dequeue_access self op addr) o a = true ->
  Core.dependency self o a = true.
Proof.
  unfold Core.dependency. rewrite !dependency_loop_true.
  intros (o' & a' & Hin & Ha & Ho). exists o', a'. split; [|done].
  simpl in Hin.
  destruct (dequeue_loop_spec op addr (Core.pending_accesses self))
    as [[_ Heq] | (pre & post & Hl & _ & Heq)]; rewrite Heq in Hin.
  - done.
  - rewrite Hl. rewrite elem_of_app in *. destruct Hin; [by left|].
    right. by right.
Qed.

Tactic Notation "bind_some" hyp(H) "as" simple_intropattern(x) ident(Hx) :=
  lazymatch type of H with
  | (?e ≫= _) = Some _ => destruct e as [x|] eqn:Hx; [simpl in H|discriminate H]
  end.

Tactic Notation "bind_pat" hyp(H) "as" simple_intropattern(pat) ident(Hx) :=
  lazymatch type of H with
  | (?e ≫= _) = Some _ => destruct e as pat eqn:Hx; [simpl in H|discriminate H]
  end.

(** ** Python subscripts *)

Lemma py_pos_lt (len : nat) (i : Z) (p : nat) :
  py_pos len i = Some p -> (p < len)%nat.
Proof.
  unfold py_pos. intros H. repeat case_match; inversion H; lia.
Qed.

Lemma py_getitem_lookup {A} (l : list A) (i : Z) (x : A) :
  py_getitem l i = Some x ->
  exists p, py_pos (length l) i = Some p /\ l !! p = Some x.
Proof.
  unfold py_getitem. intros H.
  destruct (py_pos (length l) i) as [p|]; [|done]. by exists p.
Qed.

Lemma py_setitem_insert {A} (l l' : list A) (i : Z) (x : A) :
  py_setitem l i x = Some l' ->
  exists p, py_pos (length l) i = Some p /\ l' = <[p := x]> l.
Proof.
  unfold py_setitem. intros H.
  destruct (py_pos (length l) i) as [p|]; [|done].
  simpl in H. inversion H. by exists p.
Qed.

(** ** The relations are preorders *)

#[global] Instance same_length_refl {A} : Reflexive (@same_length A).
Proof. intros s. reflexivity. Qed.

#[global] Instance same_length_trans {A} : Transitive (@same_length A).
Proof. intros s1 s2 s3. unfold same_length. congruence. Qed.

#[global] Instance tree_rel_refl : Reflexive tree_rel.
Proof. intros p. unfold tree_rel. auto. Qed.

#[global] Instance tree_rel_trans : Transitive tree_rel.
Proof.
  intros p1 p2 p3 (? & ? & ?) (? & ? & ?). unfold tree_rel.
  split; [congruence|]. split; [congruence|auto].
Qed.

#[global] Instance level_rel_refl : Reflexive level_rel.
Proof.
  intros self. unfold level_rel. split; [done|].
  split; [reflexivity|].
  split; [reflexivity|]. split; [done|lia].
Qed.

#[global] Instance level_rel_trans : Transitive level_rel.
Proof.
  intros s1 s2 s3 (Hc1 & Hs1 & Ht1 & Hl1 & ? & ?) (Hc2 & Hs2 & Ht2 & Hl2 & ? & ?).
  unfold level_rel. split; [congruence|].
  split; [by etrans|]. split; [by etrans|]. split; [auto|lia].
Qed.

#[global] Instance core_rel_refl : Reflexive core_rel.
Proof. intros c. unfold core_rel. auto 10. Qed.

#[global] Instance core_rel_trans : Transitive core_rel.
Proof.
  intros c1 c2 c3 (? & ? & ? & ? & ?) (? & ? & ? & ? & ?). unfold core_rel.
  repeat split; try congruence. by etrans.
Qed.

#[global] Instance interconnect_rel_refl P : Reflexive (interconnect_rel P).
Proof.
  intros i. unfold interconnect_rel. repeat split; try done.
  exists []. split; [done|constructor].
Qed.

#[global] Instance interconnect_rel_trans P : Transitive (interconnect_rel P).
Proof.
  intros i1 i2 i3 (Hc1 & Hd1 & Hb1 & Hh1 & new1 & Hq1 & Hn1)
                  (Hc2 & Hd2 & Hb2 & Hh2 & new2 & Hq2 & Hn2).
  unfold interconnect_rel.
  split; [congruence|]. split; [congruence|]. split; [congruence|].
  split; [auto|]. exists (new2 ++ new1).
  split; [by rewrite Hq2, Hq1, app_assoc|].
  apply Forall_app. split; [|done].
  rewrite Hc1, Hd1 in Hn2. done.
Qed.

#[global] Instance cache_step_refl P : Reflexive (cache_step P).
Proof.
  intros w. unfold cache_step.
  split; [done|]. split; [done|]. split; [done|]. split; [reflexivity|].
  split; [reflexivity|]. split; [reflexivity|]. split; [done|]. split; [done|].
  reflexivity.
Qed.

#[global] Instance cache_step_trans P : Transitive (cache_step P).
Proof.
  intros w1 w2 w3 (? & ? & ? & ? & ? & ? & ? & ? & ?)
                  (? & ? & ? & ? & ? & ? & ? & ? & ?).
  unfold cache_step.
  split; [congruence|]. split; [congruence|]. split; [lia|].
  split; [by etrans|]. split; [by etrans|]. split; [by etrans|].
  split; [congruence|]. split; [congruence|by etrans].
Qed.

Lemma cache_step_weaken (P Q : MemoryRequest.t -> Prop) (w w' : World) :
  (forall req, P req -> Q req) -> cache_step P w w' -> cache_step Q w w'.
Proof.
  intros HPQ (? & ? & ? & ? & ? & Hi & ? & ? & ?). unfold cache_step.
  repeat (split; [done|]). split; [|done].
  destruct Hi as (? & ? & ? & ? & new & ? & Hnew). unfold interconnect_rel.
  repeat (split; [done|]). exists new. split; [done|].
  eapply Forall_impl; [exact Hnew|]. simpl. intros e (? & ? & ?). auto.
Qed.

Lemma cache_step_lookup {P} (w w' : World) (l : nat) (self : CacheLevel.t) :
  cache_step P w w' -> caches w !! l = Some self ->
  exists self', caches w' !! l = Some self' /\ level_rel self self'.
Proof.
  intros (_ & _ & _ & H & _) Hl. by eapply Forall2_lookup_l.
Qed.

Lemma cache_step_lookup_r {P} (w w' : World) (l : nat) (self' : CacheLevel.t) :
  cache_step P w w' -> caches w' !! l = Some self' ->
  exists self, caches w !! l = Some self /\ level_rel self self'.
Proof.
  intros (_ & _ & _ & H & _) Hl. by eapply Forall2_lookup_r.
Qed.

(** ** The assignments to a level *)

Lemma caches_update_step {P} (w : World) (l : nat) (self self' : CacheLevel.t) :
  caches w !! l = Some self -> level_rel self self' ->
  cache_step P w (set_caches w (<[l := self']> (caches w))).
Proof.
  intros Hl Hrel. unfold cache_step. simpl.
  split; [done|]. split; [done|]. split; [done|].
  split; [|split; [reflexivity|split; [reflexivity|done]]].
  rewrite <- (list_insert_id (caches w) l self) at 1 by done.
  apply Forall2_insert; [reflexivity|done].
Qed.

Lemma update_loop_shape (n : nat) :
  forall (num_levels way level : Z) (bits bits' : list Z) (idx : Z),
    PLRU.update_loop n num_levels way level bits idx = Some bits' ->
    length bits' = length bits /\ (Forall is_bit bits -> Forall is_bit bits').
Proof.
  induction n as [|n IH]; intros L way level bits bits' idx H; simpl in H.
  - inversion H. auto.
  - bind_some H as bits1 H1.
    apply py_setitem_insert in H1 as (p & _ & ->).
    apply IH in H as [Hlen Hbits]. rewrite length_insert in Hlen.
    split; [done|]. intros Hall. apply Hbits.
    apply Forall_insert; [done|].
    destruct (land_1_bit (Z.shiftr way (L - 1 - level))) as [-> | ->];
      [right|left]; lia.
Qed.

Lemma update_on_access_rel (p p' : PLRU.t) (way : Z) :
  PLRU.update_on_access p way = Some p' -> tree_rel p p'.
Proof.
  unfold PLRU.update_on_access. intros H. bind_some H as bits' H1.
  inversion H. apply update_loop_shape in H1 as [? ?]. by unfold tree_rel.
Qed.

Lemma set_line_step {P} (l : nat) (index way : Z) (line : CacheLine.t)
    (w w' : World) :
  set_line l index way line w = Some w' ->
  (forall self, caches w !! l = Some self ->
                line_sound (CacheLevel.write_back self) line) ->
  cache_step P w w'.
Proof.
  unfold set_line. intros H Hline.
  bind_some H as self Hself. bind_some H as cache_set Hset.
  bind_some H as cache_set' Hset'. bind_some H as sets' Hsets'.
  inversion H; subst w'. apply (caches_update_step w l self); [done|].
  apply py_getitem_lookup in Hset as (p & Hp & Hset).
  apply py_setitem_insert in Hset' as (q & _ & ->).
  apply py_setitem_insert in Hsets' as (p' & Hp' & ->).
  rewrite Hp in Hp'. inversion Hp'; subst p'.
  unfold level_rel. simpl. split; [done|].
  split; [|split; [reflexivity|split; [|lia]]].
  - rewrite <- (list_insert_id (CacheLevel.sets self) p cache_set) at 1 by done.
    apply Forall2_insert; [reflexivity|].
    unfold same_length. by rewrite length_insert.
  - unfold level_sound. simpl. intros Hsound.
    apply Forall_insert; [done|]. apply Forall_insert; [|by apply Hline].
    by eapply Forall_lookup_1 in Hsound.
Qed.

Lemma plru_access_step {P} (l : nat) (index way : Z) (w w' : World) :
  plru_access l index way w = Some w' -> cache_step P w w'.
Proof.
  unfold plru_access. intros H.
  bind_some H as self Hself. bind_some H as plru Hplru.
  bind_some H as plru' Hplru'. bind_some H as trees Htrees.
  inversion H; subst w'. apply (caches_update_step w l self); [done|].
  apply py_getitem_lookup in Hplru as (p & Hp & Hplru).
  apply py_setitem_insert in Htrees as (p' & Hp' & ->).
  rewrite Hp in Hp'. inversion Hp'; subst p'.
  unfold level_rel. simpl. split; [done|].
  split; [reflexivity|].
  split; [|split; [done|lia]].
  rewrite <- (list_insert_id (CacheLevel.plru_trees self) p plru) at 1 by done.
  apply Forall2_insert; [reflexivity|]. by eapply update_on_access_rel.
Qed.

Lemma count_step {P} (l : nat) (w w' : World) :
  count_hit l w = Some w' \/ count_miss l w = Some w' -> cache_step P w w'.
Proof.
  unfold count_hit, count_miss.
  intros [H | H]; bind_some H as self Hself; inversion H; subst w';
    apply (caches_update_step w l self); try done;
    unfold level_rel; simpl;
    (split; [done|]); (split; [reflexivity|]);
    (split; [reflexivity|]); (split; [done|lia]).
Qed.

Lemma Interconnect_request_step {P} (core_id : CoreId) (req_type : ReqType)
    (addr : Z) (callback : option Callback) (w : World) :
  P (MemoryRequest.init core_id (Interconnect.cycle (interconnect w))
                        req_type addr callback) ->
  cache_step P w
    (Interconnect_request
       (MemoryRequest.init core_id (Interconnect.cycle (interconnect w))
                           req_type addr callback) w).
Proof.
  intros HP.
  unfold cache_step, Interconnect_request, randint. simpl.
  split; [done|]. split; [done|]. split; [lia|]. split; [reflexivity|].
  split; [reflexivity|]. split; [|done].
  unfold interconnect_rel. simpl.
  split; [done|]. split; [done|]. split; [done|].
  split; [apply (heappush_heap_ok _ entry_lt_asym entry_lt_le_trans)|].
  eexists [_]. split; [apply heappush_perm|].
  constructor; [|constructor]. simpl.
  pose proof (Z.mod_pos_bound (random w (random_drawn w)) 3).
  split; [lia|]. split; [done|]. exact HP.
Qed.

(** ** Cache levels: what an access may change *)

Lemma find_hit_spec (cache_set : list CacheLine.t) (tag : Z) :
  forall i0 i,
    CacheLevel.find_hit cache_set tag i0 = Some i ->
    i0 <= i < i0 + Z.of_nat (length cache_set) /\
    exists line,
      cache_set !! Z.to_nat (i - i0) = Some line /\
      CacheLine.valid line = true /\ CacheLine.tag line = Some tag.
Proof.
  induction cache_set as [|line rest IH]; intros i0 i H; simpl in H; [done|].
  destruct (CacheLine.valid line && bool_decide (CacheLine.tag line = Some tag))
    eqn:Hc.
  - inversion H; subst i. apply andb_true_iff in Hc as [Hv Ht].
    apply bool_decide_eq_true in Ht.
    split; [simpl; lia|]. exists line. replace (i0 - i0) with 0 by lia. done.
  - apply IH in H as [Hi (line' & Hl & Hv & Ht)].
    split; [simpl; lia|]. exists line'. split; [|done].
    replace (Z.to_nat (i - i0)) with (S (Z.to_nat (i - (i0 + 1)))) by lia. done.
Qed.

Lemma find_hit_line (cache_set : list CacheLine.t) (tag i : Z) (line : CacheLine.t) :
  CacheLevel.find_hit cache_set tag 0 = Some i ->
  py_getitem cache_set i = Some line ->
  0 <= i < Z.of_nat (length cache_set) /\
  CacheLine.valid line = true /\ CacheLine.tag line = Some tag.
Proof.
  intros Hfind Hget. apply find_hit_spec in Hfind as [Hi (line' & Hl & Hv & Ht)].
  rewrite py_getitem_nonneg in Hget by lia.
  replace (i - 0) with i in Hl by lia. rewrite Hl in Hget.
  inversion Hget; subst line'. split; [lia|done].
Qed.

Lemma level_rel_write_back (self self' : CacheLevel.t) :
  level_rel self self' -> CacheLevel.write_back self' = CacheLevel.write_back self.
Proof. intros [Hc _]. unfold config in Hc. by inversion Hc. Qed.

Lemma line_sound_at {P} (w w' : World) (l : nat) (self : CacheLevel.t)
    (line : CacheLine.t) :
  cache_step P w w' -> caches w !! l = Some self ->
  line_sound (CacheLevel.write_back self) line ->
  forall self', caches w' !! l = Some self' ->
                line_sound (CacheLevel.write_back self') line.
Proof.
  intros Hstep Hself Hline self' Hself'.
  destruct (cache_step_lookup w w' l self Hstep Hself) as (self2 & Hself2 & Hrel).
  rewrite Hself' in Hself2. inversion Hself2; subst self2.
  by rewrite (level_rel_write_back _ _ Hrel).
Qed.

Lemma propagate_write_step (lower_write : nat -> Z -> World -> option World)
    (self : CacheLevel.t) (addr : Z) (w w' : World) :
  (forall l a w1 w2, lower_write l a w1 = Some w2 -> cache_step no_callback w1 w2) ->
  propagate_write lower_write self addr w = Some w' -> cache_step no_callback w w'.
Proof.
  intros Hlower. unfold propagate_write.
  destruct (CacheLevel.lower self); [apply Hlower|].
  destruct (CacheLevel.memory self); intros H; inversion H.
  - by apply Interconnect_request_step.
  - reflexivity.
Qed.

(** The write-back of the victim, in a write and in a fill. *)
Lemma write_victim_step (lower_write : nat -> Z -> World -> option World)
    (self : CacheLevel.t) (victim_line : CacheLine.t) (index : Z) (w w' : World) :
  (forall l a w1 w2, lower_write l a w1 = Some w2 -> cache_step no_callback w1 w2) ->
  (if CacheLine.valid victim_line && CacheLine.dirty victim_line
      && CacheLevel.write_back self then
     victim_addr ← reconstructed_addr self victim_line index;
     propagate_write lower_write self victim_addr w
   else Some w) = Some w' ->
  cache_step no_callback w w'.
Proof.
  intros Hlower H. destruct (_ && _) in H; [|inversion H; reflexivity].
  bind_some H as victim_addr Ha. by eapply propagate_write_step.
Qed.

Lemma CacheLevel_write_step (depth : nat) :
  forall (l : nat) (addr : Z) (w w' : World),
    CacheLevel_write depth l addr w = Some w' -> cache_step no_callback w w'.
Proof.
  induction depth as [|depth IH]; intros l addr w w' H; [done|].
  cbn [CacheLevel_write] in H.
  bind_some H as self Hself. bind_some H as index Hindex.
  bind_some H as tag Htag. bind_some H as cache_set Hset.
  bind_some H as plru Hplru.
  destruct (CacheLevel.find_hit cache_set tag 0) as [i|] eqn:Hfind.
  - bind_some H as w1 H1. bind_some H as line Hline.
    bind_some H as w2 H2. bind_some H as w3 H3.
    assert (Hs1 : cache_step no_callback w w1) by (eapply count_step; eauto).
    assert (Hs2 : cache_step no_callback w1 w2).
    { eapply set_line_step; [exact H2|].
      apply (line_sound_at (P := no_callback) w w1 l self); [done..|].
      destruct (find_hit_line _ _ _ _ Hfind Hline) as (_ & Hv & Ht).
      unfold line_sound. simpl. rewrite Hv, Ht. split; [done|].
      split; [eauto|done]. }
    assert (Hs3 : cache_step no_callback w2 w3) by (by eapply plru_access_step).
    assert (Hs : cache_step no_callback w w3) by (etrans; [|done]; by etrans).
    destruct (CacheLevel.write_back self).
    + by inversion H; subst w'.
    + etrans; [exact Hs|]. by eapply propagate_write_step.
  - bind_some H as w1 H1.
    assert (Hs1 : cache_step no_callback w w1) by (eapply count_step; eauto).
    destruct (CacheLevel.write_allocate self).
    2:{ etrans; [exact Hs1|]. by eapply propagate_write_step. }
    bind_some H as victim_idx Hvictim. bind_some H as victim_line Hvline.
    bind_some H as w2 H2. bind_some H as w3 H3.
    assert (Hs2 : cache_step no_callback w1 w2) by (by eapply write_victim_step).
    assert (Hs12 : cache_step no_callback w w2) by (by etrans).
    assert (Hs3 : cache_step no_callback w2 w3).
    { eapply set_line_step; [exact H3|].
      apply (line_sound_at (P := no_callback) w w2 l self); [done..|].
      unfold line_sound. simpl. split; [done|]. split; [eauto|done]. }
    etrans; [exact Hs12|]. etrans; [exact Hs3|]. by eapply plru_access_step.
Qed.

Lemma dequeue_loop_sublist (op : ReqType) (addr : Z) (l : list (ReqType * Z)) :
  Core.dequeue_loop op addr l `sublist_of` l.
Proof.
  induction l as [|[o a] l IH]; simpl; [done|].
  destruct (bool_decide (o = op) && (a =? addr)).
  - by apply sublist_cons.
  - by apply sublist_skip.
Qed.

Lemma run_callback_step (depth : nat) (callback : Callback) :
  forall w w',
    run_callback depth callback w = Some w' -> cache_step no_callback w w'.
Proof.
  induction callback as [n|core addr|l index victim_idx tag callback IH];
    intros w w' H; cbn [run_callback] in H.
  - inversion H. unfold cache_step. simpl.
    split; [done|]. split; [done|]. split; [done|]. split; [reflexivity|].
    split; [reflexivity|]. split; [reflexivity|]. split; [done|].
    split; [done|]. by apply prefix_app_r.
  - bind_some H as self Hself. inversion H. unfold cache_step. simpl.
    split; [done|]. split; [done|]. split; [done|]. split; [reflexivity|].
    split; [|split; [reflexivity|done]].
    rewrite <- (list_insert_id (cores w) core self) at 1 by done.
    apply Forall2_insert; [reflexivity|].
    unfold core_rel. simpl. repeat split. apply dequeue_loop_sublist.
  - unfold lower_cb in H.
    bind_some H as self Hself. bind_some H as cache_set Hset.
    bind_some H as victim_line Hvline. bind_some H as w1 H1.
    bind_some H as w2 H2. bind_some H as w3 H3.
    assert (Hs1 : cache_step no_callback w w1).
    { eapply write_victim_step; [|exact H1]. apply CacheLevel_write_step. }
    assert (Hs2 : cache_step no_callback w1 w2).
    { eapply set_line_step; [exact H2|].
      apply (line_sound_at (P := no_callback) w w1 l self); [done..|].
      unfold line_sound. simpl. split; [done|]. split; [eauto|done]. }
    etrans; [exact Hs1|]. etrans; [exact Hs2|].
    etrans; [by eapply plru_access_step|]. by apply IH.
Qed.

Lemma CacheLevel_read_step (depth : nat) :
  forall (l : nat) (addr : Z) (callback : Callback) (w w' : World),
    CacheLevel_read depth l addr callback w = Some w' ->
    cache_step any_request w w'.
Proof.
  induction depth as [|depth IH]; intros l addr callback w w' H; [done|].
  cbn [CacheLevel_read] in H.
  bind_some H as self Hself. bind_some H as index Hindex.
  bind_some H as tag Htag. bind_some H as cache_set Hset.
  bind_some H as plru Hplru.
  destruct (CacheLevel.find_hit cache_set tag 0) as [i|] eqn:Hfind.
  - bind_some H as w1 H1. bind_some H as w2 H2.
    etrans; [eapply count_step; eauto|].
    etrans; [by eapply plru_access_step|].
    eapply cache_step_weaken; [|by eapply run_callback_step]. done.
  - bind_some H as w1 H1.
    bind_some H as victim_idx Hvictim. bind_some H as victim_line Hvline.
    etrans; [eapply count_step; eauto|].
    destruct (CacheLevel.lower self); [by eapply IH|].
    destruct (CacheLevel.memory self); inversion H.
    + by apply Interconnect_request_step.
    + reflexivity.
Qed.

(** ** The tick of a core *)

#[global] Instance core_sim_refl : Reflexive core_sim.
Proof. intros c. unfold core_sim. auto. Qed.

#[global] Instance core_sim_trans : Transitive core_sim.
Proof.
  intros c1 c2 c3 (? & ? & ? & ?) (? & ? & ? & ?). unfold core_sim.
  split; [congruence|]. split; [congruence|]. split; [congruence|auto].
Qed.

Lemma core_rel_sim (c c' : Core.t) : core_rel c c' -> core_sim c c'.
Proof.
  intros (? & ? & Hstall & ? & Hsub). unfold core_sim.
  split; [done|]. split; [done|]. split; [done|].
  intros [Hreads Hnot]. split; [|by rewrite Hstall].
  eapply Forall_forall. intros e He.
  eapply Forall_forall in Hreads; [done|]. by eapply elem_of_sublist.
Qed.

#[global] Instance tick_step_refl : Reflexive tick_step.
Proof.
  intros w. unfold tick_step. split; [done|]. split; [reflexivity|].
  split; [reflexivity|]. split; [reflexivity|done].
Qed.

#[global] Instance tick_step_trans : Transitive tick_step.
Proof.
  intros w1 w2 w3 (? & ? & ? & ? & ? & ?) (? & ? & ? & ? & ? & ?).
  unfold tick_step. split; [congruence|]. split; [by etrans|].
  split; [by etrans|]. split; [by etrans|]. split; congruence.
Qed.

Lemma cache_step_tick {P} (w w' : World) : cache_step P w w' -> tick_step w w'.
Proof.
  intros H. apply (cache_step_weaken P any_request) in H; [|done].
  destruct H as (? & _ & _ & ? & Hcores & ? & ? & ? & _). unfold tick_step.
  split; [done|]. split; [done|]. split; [|done].
  eapply Forall2_impl; [exact Hcores|]. apply core_rel_sim.
Qed.

Lemma cores_update_step (w : World) (core : nat) (self self' : Core.t) :
  cores w !! core = Some self -> core_sim self self' ->
  tick_step w (set_cores w (<[core := self']> (cores w))).
Proof.
  intros Hself Hsim. unfold tick_step. simpl.
  split; [done|]. split; [reflexivity|]. split; [|split; [reflexivity|done]].
  rewrite <- (list_insert_id (cores w) core self) at 1 by done.
  apply Forall2_insert; [reflexivity|done].
Qed.

Lemma reads_only_no_hazard (c : Core.t) (addr : Z) :
  reads_only c -> Core.dependency c read addr = false.
Proof.
  intros [Hreads _]. destruct (Core.dependency c read addr) eqn:Hd; [|done].
  apply dependency_loop_true in Hd as (o & a & Hin & _ & Ho).
  eapply Forall_forall in Hreads; [|exact Hin]. simpl in Hreads. done.
Qed.

Lemma Core_set_stall_op_step (core : nat) (op : option (ReqType * Z))
    (w w' : World) :
  Core_set_stall_op core op w = Some w' ->
  (forall self a, cores w !! core = Some self -> op = Some (read, a) ->
                  ~ reads_only self) ->
  tick_step w w'.
Proof.
  unfold Core_set_stall_op. intros H Hop. bind_some H as self Hself.
  inversion H. apply (cores_update_step w core self); [done|].
  unfold core_sim. simpl. split; [done|]. split; [done|]. split; [done|].
  intros Hreads. split; [apply Hreads|]. simpl.
  intros a Ha. by apply (Hop self a).
Qed.

Lemma Core_issue_read_step (depth core : nat) (addr : Z) (w w' : World) :
  Core_issue_read depth core addr w = Some w' -> tick_step w w'.
Proof.
  unfold Core_issue_read, Core_read. intros H. bind_some H as self Hself.
  etrans; [|eapply cache_step_tick; by eapply CacheLevel_read_step].
  apply (cores_update_step w core self); [done|].
  unfold core_sim. simpl. split; [done|]. split; [done|]. split; [done|].
  intros [Hreads Hstall]. split; [|done]. simpl.
  apply Forall_app. split; [done|]. by constructor.
Qed.

Lemma Core_tick_step (depth core : nat) (w w' : World) :
  Core_tick depth core w = Some w' -> tick_step w w'.
Proof.
  unfold Core_tick, Core_write. intros H. bind_some H as self Hself.
  destruct (Core.stall_op self) as [[op addr]|] eqn:Hstall.
  - destruct (Core.dependency self op addr); simpl in H;
      [inversion H; reflexivity|].
    destruct op.
    + bind_some H as w1 H1. etrans; [by eapply Core_issue_read_step|].
      eapply Core_set_stall_op_step; [exact H|done].
    + bind_some H as w1 H1.
      etrans; [eapply cache_step_tick; by eapply CacheLevel_write_step|].
      eapply Core_set_stall_op_step; [exact H|done].
  - destruct (Core.inst self !! global_cycle w) as [[[] addr]|];
      [| |inversion H; reflexivity].
    + destruct (Core.dependency self read addr) eqn:Hdep.
      * eapply Core_set_stall_op_step; [exact H|].
        intros self' a Hself' _ Hreads.
        rewrite Hself in Hself'. inversion Hself'; subst self'.
        by rewrite reads_only_no_hazard in Hdep.
      * by eapply Core_issue_read_step.
    + destruct (Core.dependency self write addr).
      * eapply Core_set_stall_op_step; [exact H|]. intros ? ? _ ?. done.
      * eapply cache_step_tick. by eapply CacheLevel_write_step.
Qed.

Lemma Core_ticks_step (depth : nat) (ids : list nat) :
  forall w w',
    foldl (fun w core => w ← w; Core_tick depth core w) (Some w) ids = Some w' ->
    tick_step w w'.
Proof.
  induction ids as [|core ids IH]; intros w w' H; simpl in H.
  - inversion H. reflexivity.
  - destruct (Core_tick depth core w) as [w1|] eqn:H1.
    + etrans; [by eapply Core_tick_step|]. by apply IH.
    + exfalso. clear -H. induction ids as [|c ids IH]; [done|]. by apply IH.
Qed.

(** ** The tick of the controller and of the DDR memory *)

Lemma complete_loop_step (depth : nat) (infos : list ReqInfo) :
  forall w completed w' completed',
    complete_loop depth infos w completed = Some (w', completed') ->
    cache_step no_callback w w'.
Proof.
  induction infos as [|info infos IH]; intros w completed w' completed' H;
    simpl in H.
  - inversion H. reflexivity.
  - destruct (_ <=? _); [|by eapply IH].
    bind_some H as w1 H1. etrans; [|by eapply IH].
    destruct (MemoryRequest.req_type (info_request info));
      [|inversion H1; reflexivity].
    destruct (MemoryRequest.callback (info_request info));
      [|inversion H1; reflexivity].
    by eapply run_callback_step.
Qed.

Lemma command_frame (ddr ddr' : DDRMemory.t) (busy : DDRState) (bank row : Z)
    (st : DDRState) (completion_time : Z) :
  DDRMemory.command ddr busy bank row st completion_time = Some ddr' ->
  DDRMemory.cycle ddr' = DDRMemory.cycle ddr /\
  DDRMemory.num_banks ddr' = DDRMemory.num_banks ddr /\
  DDRMemory.scheduled_completions ddr' = DDRMemory.scheduled_completions ddr.
Proof.
  unfold DDRMemory.command. intros H. bind_some H as row_differs Hd.
  destruct row_differs.
  - bind_some H as states Hs. bind_some H as timers Ht.
    bind_some H as open_row Ho. by inversion H.
  - destruct (_ || _); [|by inversion H].
    bind_some H as states Hs. bind_some H as timers Ht. by inversion H.
Qed.

Lemma DDRMemory_request_cycle (ddr ddr' : DDRMemory.t) (req : MemoryRequest.t) :
  DDRMemory.request ddr req = Some ddr' ->
  DDRMemory.cycle ddr' = DDRMemory.cycle ddr.
Proof.
  unfold DDRMemory.request. intros H.
  bind_some H as bank Hbank. bind_some H as st Hst. bind_some H as d Hd.
  inversion H. simpl.
  destruct (MemoryRequest.req_type req); by apply command_frame in Hd as [? _].
Qed.

Lemma schedule_next_cycle (self self' : DDRMemoryController.t)
    (ddr ddr' : DDRMemory.t) :
  DDRMemoryController._schedule_next_request self ddr = Some (self', ddr') ->
  DDRMemoryController.cycle self' = DDRMemoryController.cycle self /\
  DDRMemory.cycle ddr' = DDRMemory.cycle ddr.
Proof.
  unfold DDRMemoryController._schedule_next_request. intros H.
  destruct (DDRMemoryController.queue self); [by inversion H|].
  bind_some H as candidates Hc.
  destruct candidates as [|best_req rest]; [by inversion H|].
  unfold DDRMemoryController.schedule in H.
  bind_some H as bank Hbank. bind_some H as open Hopen.
  bind_pat H as [[[[delay row_status] precharge] open_row]|] Hd.
  bind_some H as d Hreq. inversion H. simpl.
  split; [done|]. subst ddr'. by eapply DDRMemory_request_cycle.
Qed.

Lemma drain_loop_cycle (n : nat) :
  forall ddr ddr',
    DDRMemory.drain_loop n ddr = Some ddr' ->
    DDRMemory.cycle ddr' = DDRMemory.cycle ddr /\
    DDRMemory.num_banks ddr' = DDRMemory.num_banks ddr.
Proof.
  induction n as [|n IH]; intros ddr ddr' H; simpl in H; [by inversion H|].
  destruct (DDRMemory.scheduled_completions ddr) as [|[t r] rest];
    [by inversion H|].
  destruct (t <=? DDRMemory.cycle ddr); [|by inversion H].
  bind_pat H as [[entry q]|] Hpop. bind_some H as bank Hbank.
  bind_some H as st Hst. bind_some H as d Hd.
  apply IH in H as [-> ->].
  destruct (_ || _); [|by inversion Hd].
  bind_some Hd as states Hs. bind_some Hd as timers Ht. by inversion Hd.
Qed.

Lemma timers_loop_cycle (n : nat) :
  forall i ddr ddr',
    DDRMemory.timers_loop n i ddr = Some ddr' ->
    DDRMemory.cycle ddr' = DDRMemory.cycle ddr /\
    DDRMemory.num_banks ddr' = DDRMemory.num_banks ddr.
Proof.
  induction n as [|n IH]; intros i ddr ddr' H; simpl in H; [by inversion H|].
  bind_some H as timer Htimer. bind_some H as d Hd.
  apply IH in H as [-> ->].
  destruct (timer >? DDRMemory.cycle ddr); [by inversion Hd|].
  bind_some Hd as st Hst.
  destruct (bool_decide (st = ACTIVATE_BANK_ROW)); [by inversion Hd|].
  destruct (_ && _); [|by inversion Hd].
  bind_some Hd as states Hs. bind_some Hd as open_row Ho. by inversion Hd.
Qed.

Lemma DDRMemory_tick_cycle (ddr ddr' : DDRMemory.t) :
  DDRMemory.tick ddr = Some ddr' ->
  DDRMemory.cycle ddr' = DDRMemory.cycle ddr + 1.
Proof.
  unfold DDRMemory.tick. intros H.
  bind_some H as d1 H1. bind_some H as d2 H2. inversion H. simpl.
  apply drain_loop_cycle in H1 as [<- _].
  by apply timers_loop_cycle in H2 as [-> _].
Qed.

(** One round of the simulation, component by component. *)
Lemma simulate_cycle_inv (depth : nat) (w w' : World) :
  simulate_cycle depth w = Some w' ->
  exists w1 w2 w3 controller ddr ddr',
    tick_step w w1 /\
    w2 = Interconnect_tick w1 /\
    cache_step no_callback w2 w3 /\
    DDRMemoryController._schedule_next_request
      (DDRMemoryController.set_scheduled_ddr_requests (ddr_controller w3)
         (filter (fun info =>
                    ~ MemoryRequest.completion_time (info_request info)
                      <= DDRMemoryController.cycle (ddr_controller w2))
                 (DDRMemoryController.scheduled_ddr_requests (ddr_controller w2))))
      (ddr_memory_physical w3) = Some (controller, ddr) /\
    DDRMemory.tick ddr = Some ddr' /\
    w' = set_global_cycle
           (set_ddr w3
              (DDRMemoryController.set_cycle controller
                 (DDRMemoryController.cycle controller + 1)) ddr')
           (global_cycle w3 + 1).
Proof.
  unfold simulate_cycle. intros H. bind_some H as w1 H1.
  bind_some H as w4 H4. bind_some H as ddr' Hddr'.
  unfold DDRMemoryController_tick in H4. bind_some H4 as w3' H3.
  bind_pat H4 as [[controller ddr]|] Hsched.
  unfold DDRMemoryController_complete_ddr_requests in H3.
  rewrite complete_loop_runs in H3.
  match type of H3 with
  | context [run_callbacks ?d ?c ?w0] =>
      destruct (run_callbacks d c w0) as [w3|] eqn:Hrun; [simpl in H3|done]
  end.
  assert (Hs : cache_step no_callback (Interconnect_tick w1) w3).
  { clear -Hrun. revert Hrun.
    generalize (due_reads
      (DDRMemoryController.cycle (ddr_controller (Interconnect_tick w1)))
      (DDRMemoryController.scheduled_ddr_requests
         (ddr_controller (Interconnect_tick w1)))).
    generalize (Interconnect_tick w1). intros w0 cbs. revert w0.
    induction cbs as [|cb cbs IH]; intros w0 H; simpl in H.
    - inversion H. reflexivity.
    - bind_some H as wa Ha. etrans; [by eapply run_callback_step|]. by apply IH. }
  pose proof Hs as (_ & _ & _ & _ & _ & _ & Hctrl & Hphys & _).
  inversion H3; subst w3'. clear H3. simpl in Hsched.
  rewrite Hctrl in Hsched at 2.
  pose proof (remove_completed
                (fun info => MemoryRequest.completion_time (info_request info)
                             <= DDRMemoryController.cycle
                                  (ddr_controller (Interconnect_tick w1))) []
                (DDRMemoryController.scheduled_ddr_requests
                   (ddr_controller (Interconnect_tick w1)))
                ltac:(constructor)) as Hrem.
  cbn [app] in Hrem. rewrite Hrem in Hsched. clear Hrem.
  exists w1, (Interconnect_tick w1), w3, controller, ddr, ddr'.
  split; [by eapply Core_ticks_step|]. split; [done|]. split; [done|].
  split; [exact Hsched|].
  inversion H4; subst w4. simpl in H, Hddr'. split; [done|]. by inversion H.
Qed.

(** ** A round of the simulation *)

Lemma tuple4_eq {A B C D} (a a' : A) (b b' : B) (c c' : C) (d d' : D) :
  a = a' -> b = b' -> c = c' -> d = d' -> (a, b, c, d) = (a', b', c', d').
Proof. by intros -> -> -> ->. Qed.

Lemma Interconnect_tick_clocks (w : World) :
  clocks (Interconnect_tick w)
  = (global_cycle w, Interconnect.cycle (interconnect w) + 1,
     DDRMemoryController.cycle (ddr_controller w),
     DDRMemory.cycle (ddr_memory_physical w)).
Proof.
  unfold Interconnect_tick, clocks.
  destruct (Interconnect.select (interconnect w)) as [popped queue]. simpl.
  by destruct (controller_request_all (ddr_controller w) popped.*2)
    as (_ & _ & ->).
Qed.

Lemma Interconnect_tick_caches (w : World) :
  caches (Interconnect_tick w) = caches w /\
  cores (Interconnect_tick w) = cores w.
Proof.
  unfold Interconnect_tick.
  by destruct (Interconnect.select (interconnect w)) as [popped queue].
Qed.

Lemma tick_step_clocks (w w' : World) : tick_step w w' -> clocks w' = clocks w.
Proof.
  intros (Hg & _ & _ & (Hc & _) & Hctrl & Hddr). unfold clocks.
  by rewrite Hg, Hc, Hctrl, Hddr.
Qed.

Lemma simulate_cycle_rel (depth : nat) (w w' : World) :
  simulate_cycle depth w = Some w' ->
  Forall2 level_rel (caches w) (caches w') /\
  Forall2 core_sim (cores w) (cores w') /\
  clocks w' = (global_cycle w + 1, Interconnect.cycle (interconnect w) + 1,
               DDRMemoryController.cycle (ddr_controller w) + 1,
               DDRMemory.cycle (ddr_memory_physical w) + 1).
Proof.
  intros H.
  apply simulate_cycle_inv in H
    as (w1 & w2 & w3 & controller & ddr & ddr' & H1 & -> & H3 & Hs & Ht & ->).
  pose proof (tick_step_clocks _ _ H1) as Hc1.
  pose proof (tick_step_clocks _ _ (cache_step_tick _ _ H3)) as Hc3.
  rewrite Interconnect_tick_clocks in Hc3.
  destruct H1 as (_ & Hl1 & Hco1 & _).
  destruct (cache_step_tick _ _ H3) as (_ & Hl3 & Hco3 & _).
  destruct (Interconnect_tick_caches w1) as [Hca Hcr].
  rewrite Hca in Hl3. rewrite Hcr in Hco3.
  split; [simpl; by etrans|]. split; [simpl; by etrans|].
  apply schedule_next_cycle in Hs as [Hsc Hsd]. simpl in Hsc.
  apply DDRMemory_tick_cycle in Ht.
  unfold clocks in *. simpl. inversion Hc1. inversion Hc3.
  apply tuple4_eq; lia.
Qed.

Lemma simulate_loop_rel (depth cycles : nat) :
  forall w w',
    simulate_loop depth cycles w = Some w' ->
    Forall2 level_rel (caches w) (caches w') /\
    Forall2 core_sim (cores w) (cores w') /\
    clocks w' = (global_cycle w + Z.of_nat cycles,
                 Interconnect.cycle (interconnect w) + Z.of_nat cycles,
                 DDRMemoryController.cycle (ddr_controller w) + Z.of_nat cycles,
                 DDRMemory.cycle (ddr_memory_physical w) + Z.of_nat cycles).
Proof.
  induction cycles as [|cycles IH]; intros w w' H; simpl in H.
  - inversion H. split; [reflexivity|]. split; [reflexivity|].
    unfold clocks. apply tuple4_eq; lia.
  - bind_some H as w1 H1. apply simulate_cycle_rel in H1 as (Hl1 & Hc1 & Hk1).
    apply IH in H as (Hl & Hc & Hk).
    split; [by etrans|]. split; [by etrans|].
    rewrite Hk. unfold clocks in Hk1. inversion Hk1.
    apply tuple4_eq; lia.
Qed.

(** [simulate] starts the global cycle at 0 again; the other three clocks go
    on from where they are. *)
Lemma simulate_rel (depth cycles : nat) (w w' : World) :
  simulate depth cycles w = Some w' ->
  Forall2 level_rel (caches w) (caches w') /\
  Forall2 core_sim (cores w) (cores w') /\
  clocks w' = (Z.of_nat cycles,
               Interconnect.cycle (interconnect w) + Z.of_nat cycles,
               DDRMemoryController.cycle (ddr_controller w) + Z.of_nat cycles,
               DDRMemory.cycle (ddr_memory_physical w) + Z.of_nat cycles).
Proof.
  unfold simulate. intros H. apply simulate_loop_rel in H as (Hl & Hc & Hk).
  by rewrite Hk.
Qed.

(** X8: when in every cache level only a valid line is dirty, every valid line
    has a tag and a write-through level has no dirty line, the same holds
    after any number of simulated cycles. *)
Theorem simulate_keeps_lines_sound (depth cycles : nat) (w w' : World) :
  Forall level_sound (caches w) ->
  simulate depth cycles w = Some w' ->
  Forall level_sound (caches w').
Proof.
  intros Hsound H. apply simulate_rel in H as (Hl & _).
  apply Forall_lookup. intros l self' Hself'.
  destruct (Forall2_lookup_r _ _ _ _ _ Hl Hself') as (self & Hself & Hrel).
  destruct Hrel as (_ & _ & _ & Hs & _). apply Hs.
  by eapply Forall_lookup_1 in Hsound.
Qed.

Lemma level_rel_shape (self self' : CacheLevel.t) :
  level_rel self self' -> level_shape self -> level_shape self'.
Proof.
  intros (Hc & Hsets & Htrees & _) (Hl & Hn & Ha & Hlen & Hways & Hlent & Hok).
  unfold config in Hc. inversion Hc as [[Hlv Hid Hls Has Hns Hm Hlo Hwb Hwa]].
  unfold level_shape. rewrite Hls, Has, Hns.
  split; [done|]. split; [done|]. split; [done|].
  split; [by rewrite <- (Forall2_length _ _ _ Hsets)|].
  split; [|split; [by rewrite <- (Forall2_length _ _ _ Htrees)|]].
  - apply Forall_lookup. intros i s' Hs'.
    destruct (Forall2_lookup_r _ _ _ _ _ Hsets Hs') as (s & Hs & Hss).
    unfold same_length in Hss. rewrite Hss.
    by eapply Forall_lookup_1 in Hways.
  - apply Forall_lookup. intros i p' Hp'.
    destruct (Forall2_lookup_r _ _ _ _ _ Htrees Hp') as (p & Hp & Hw & Hb & Hbits).
    eapply Forall_lookup_1 in Hok; [|exact Hp].
    destruct Hok as (Hw0 & Hb0 & Hbits0). unfold tree_ok.
    split; [congruence|]. split; [by rewrite Hb|auto].
Qed.

(** X9: a simulation keeps the number of cache levels, and for each level its
    name, owner, line size, associativity, number of sets, links and write
    policy, and the shape of its sets and trees; its hit and miss counters
    never decrease. *)
Theorem simulate_keeps_configuration (depth cycles : nat) (w w' : World) :
  simulate depth cycles w = Some w' ->
  length (caches w') = length (caches w) /\
  forall l self,
    caches w !! l = Some self ->
    exists self',
      caches w' !! l = Some self' /\
      config self' = config self /\
      (level_shape self -> level_shape self') /\
      CacheLevel.hits self <= CacheLevel.hits self' /\
      CacheLevel.misses self <= CacheLevel.misses self'.
Proof.
  intros H. apply simulate_rel in H as (Hl & _).
  split; [symmetry; by eapply Forall2_length|].
  intros l self Hself.
  destruct (Forall2_lookup_l _ _ _ _ _ Hl Hself) as (self' & Hself' & Hrel).
  exists self'. split; [done|]. split; [apply Hrel|].
  split; [by apply level_rel_shape|]. apply Hrel.
Qed.

(** X10: [simulate] sets the global cycle to 0 before its loop, so after
    [simulate(cycles)] the global cycle is [cycles], whatever it was before;
    the cycles of the interconnect, of the controller and of the DDR memory
    are not set back and have each advanced by [cycles]. *)
Theorem simulate_clocks_in_lockstep (depth cycles : nat) (w w' : World) :
  simulate depth cycles w = Some w' ->
  global_cycle w' = Z.of_nat cycles /\
  Interconnect.cycle (interconnect w')
    = Interconnect.cycle (interconnect w) + Z.of_nat cycles /\
  DDRMemoryController.cycle (ddr_controller w')
    = DDRMemoryController.cycle (ddr_controller w) + Z.of_nat cycles /\
  DDRMemory.cycle (ddr_memory_physical w')
    = DDRMemory.cycle (ddr_memory_physical w) + Z.of_nat cycles.
Proof.
  intros H. apply simulate_rel in H as (_ & _ & Hk).
  unfold clocks in Hk. by inversion Hk.
Qed.

(** X11: when the queue of every core holds reads only and no core is stalled
    on a read, as in a world that [Experiment] builds, this is still so after
    any number of simulated cycles, and [dependency('read', addr)] is false
    for every address: only writes are ever stalled. *)
Theorem reads_never_stall (depth cycles : nat) (w w' : World) :
  Forall reads_only (cores w) ->
  simulate depth cycles w = Some w' ->
  Forall (fun c => reads_only c /\
                   forall addr, Core.dependency c read addr = false) (cores w').
Proof.
  intros Hreads H. apply simulate_rel in H as (_ & Hc & _).
  apply Forall_lookup. intros i c' Hc'.
  destruct (Forall2_lookup_r _ _ _ _ _ Hc Hc') as (c & Hci & Hsim).
  destruct Hsim as (_ & _ & _ & Hr).
  eapply Forall_lookup_1 in Hreads; [|exact Hci].
  split; [auto|]. intros addr. apply reads_only_no_hazard. auto.
Qed.

(** ** DDR memory: commands *)

Lemma command_spec (ddr : DDRMemory.t) (busy : DDRState) (bank row : Z)
    (st : DDRState) (open : option Z) (completion_time : Z) :
  0 <= bank < Z.of_nat (length (DDRMemory.bank_states ddr)) ->
  0 <= bank < Z.of_nat (length (DDRMemory.bank_timers ddr)) ->
  0 <= bank < Z.of_nat (length (DDRMemory.bank_open_row ddr)) ->
  DDRMemory.bank_open_row ddr !! Z.to_nat bank = Some open ->
  DDRMemory.command ddr busy bank row st completion_time =
    Some (if decide (st = IDLE \/ open <> Some row) then
            DDRMemory.set_bank ddr
              (<[Z.to_nat bank := busy]> (DDRMemory.bank_states ddr))
              (<[Z.to_nat bank := completion_time]> (DDRMemory.bank_timers ddr))
              (<[Z.to_nat bank := Some row]> (DDRMemory.bank_open_row ddr))
          else if decide (st = ACTIVATE_BANK_ROW \/ st = busy) then
            DDRMemory.set_bank ddr
              (<[Z.to_nat bank := busy]> (DDRMemory.bank_states ddr))
              (<[Z.to_nat bank := completion_time]> (DDRMemory.bank_timers ddr))
              (DDRMemory.bank_open_row ddr)
          else ddr).
Proof.
  intros Hs Ht Ho Hopen. unfold DDRMemory.command.
  rewrite py_getitem_nonneg, Hopen, !py_setitem_nonneg by done. simpl.
  assert (Hrd : (if decide (st = IDLE) then Some true
                 else Some (bool_decide (open <> Some row)))
                = Some (bool_decide (st = IDLE \/ open <> Some row))).
  { destruct (decide (st = IDLE)) as [Hi | Hi].
    - by rewrite bool_decide_eq_true_2 by (by left).
    - f_equal. apply bool_decide_ext. tauto. }
  rewrite Hrd. simpl. rewrite <- bool_decide_or.
  destruct (decide (st = IDLE \/ open <> Some row)) as [Hd | Hd].
  { by rewrite bool_decide_eq_true_2 by done. }
  rewrite (bool_decide_eq_false_2 _ Hd).
  destruct (decide (st = ACTIVATE_BANK_ROW \/ st = busy)) as [Hb | Hb].
  - by rewrite bool_decide_eq_true_2 by done.
  - by rewrite bool_decide_eq_false_2 by done.
Qed.

Lemma request_spec (ddr : DDRMemory.t) (req : MemoryRequest.t) :
  0 < DDRMemory.num_banks ddr ->
  Z.of_nat (length (DDRMemory.bank_states ddr)) = DDRMemory.num_banks ddr ->
  Z.of_nat (length (DDRMemory.bank_timers ddr)) = DDRMemory.num_banks ddr ->
  Z.of_nat (length (DDRMemory.bank_open_row ddr)) = DDRMemory.num_banks ddr ->
  let bank := MemoryRequest.addr req mod DDRMemory.num_banks ddr in
  let row := DDRMemory._get_row ddr (MemoryRequest.addr req) in
  let busy := busy_state (MemoryRequest.req_type req) in
  exists st open,
    DDRMemory.bank_states ddr !! Z.to_nat bank = Some st /\
    DDRMemory.bank_open_row ddr !! Z.to_nat bank = Some open /\
    DDRMemory.request ddr req =
      Some (DDRMemory.set_scheduled_completions
              (if decide (st = IDLE \/ open <> Some row) then
                 DDRMemory.set_bank ddr
                   (<[Z.to_nat bank := busy]> (DDRMemory.bank_states ddr))
                   (<[Z.to_nat bank := MemoryRequest.completion_time req]>
                      (DDRMemory.bank_timers ddr))
                   (<[Z.to_nat bank := Some row]> (DDRMemory.bank_open_row ddr))
               else if decide (st = ACTIVATE_BANK_ROW \/ st = busy) then
                 DDRMemory.set_bank ddr
                   (<[Z.to_nat bank := busy]> (DDRMemory.bank_states ddr))
                   (<[Z.to_nat bank := MemoryRequest.completion_time req]>
                      (DDRMemory.bank_timers ddr))
                   (DDRMemory.bank_open_row ddr)
               else ddr)
              (heapq.heappush entry_lt (DDRMemory.scheduled_completions ddr)
                 (MemoryRequest.completion_time req, req))).
Proof.
  intros Hn Hs Ht Ho bank row busy.
  assert (Hb : 0 <= bank < DDRMemory.num_banks ddr)
    by (apply Z.mod_pos_bound; lia).
  destruct (lookup_lt_is_Some_2 (DDRMemory.bank_states ddr) (Z.to_nat bank))
    as [st Hst]; [lia|].
  destruct (lookup_lt_is_Some_2 (DDRMemory.bank_open_row ddr) (Z.to_nat bank))
    as [open Hopen]; [lia|].
  exists st, open. split; [done|]. split; [done|].
  unfold DDRMemory.request, DDRMemory._get_bank, py_mod.
  destruct (Z.eqb_spec (DDRMemory.num_banks ddr) 0); [lia|]. simpl.
  fold bank. rewrite py_getitem_nonneg, Hst by lia. simpl.
  assert (Hcmd := fun b => command_spec ddr b bank row st open
                             (MemoryRequest.completion_time req)
                             ltac:(lia) ltac:(lia) ltac:(lia) Hopen).
  subst busy. fold row.
  destruct (MemoryRequest.req_type req); rewrite Hcmd; simpl;
    repeat case_decide; done.
Qed.

(** ** DDR memory: the tick *)

#[global] Instance bank_rel_refl : Reflexive bank_rel.
Proof. intros st. by left. Qed.

#[global] Instance bank_rel_trans : Transitive bank_rel.
Proof.
  intros s1 s2 s3 [-> | [-> H1]] [-> | [-> H2]]; unfold bank_rel; auto.
Qed.

Lemma drain_loop_spec (n : nat) :
  forall ddr,
    0 < DDRMemory.num_banks ddr ->
    Z.of_nat (length (DDRMemory.bank_states ddr)) = DDRMemory.num_banks ddr ->
    Z.of_nat (length (DDRMemory.bank_timers ddr)) = DDRMemory.num_banks ddr ->
    (length (DDRMemory.scheduled_completions ddr) <= n)%nat ->
    exists ddr' popped,
      DDRMemory.drain_loop n ddr = Some ddr' /\
      DDRMemory.scheduled_completions ddr
        ≡ₚ popped ++ DDRMemory.scheduled_completions ddr' /\
      Forall (fun e => e.1 <= DDRMemory.cycle ddr) popped /\
      match DDRMemory.scheduled_completions ddr' with
      | [] => True
      | e :: _ => DDRMemory.cycle ddr < e.1
      end /\
      (heap_ok entry_lt (DDRMemory.scheduled_completions ddr) ->
       heap_ok entry_lt (DDRMemory.scheduled_completions ddr')) /\
      DDRMemory.cycle ddr' = DDRMemory.cycle ddr /\
      DDRMemory.num_banks ddr' = DDRMemory.num_banks ddr /\
      DDRMemory.bank_open_row ddr' = DDRMemory.bank_open_row ddr /\
      length (DDRMemory.bank_timers ddr') = length (DDRMemory.bank_timers ddr) /\
      Forall2 bank_rel (DDRMemory.bank_states ddr) (DDRMemory.bank_states ddr').
Proof.
  induction n as [|n IH]; intros ddr Hn Hs Ht Hlen.
  { exists ddr, []. simpl.
    destruct (DDRMemory.scheduled_completions ddr); [|simpl in Hlen; lia].
    repeat split; try done; reflexivity. }
  cbn [DDRMemory.drain_loop].
  destruct (DDRMemory.scheduled_completions ddr) as [|[t r] rest] eqn:Hq.
  { exists ddr, []. rewrite Hq. repeat split; try done; reflexivity. }
  destruct (Z.leb_spec t (DDRMemory.cycle ddr)) as [Hdue | Hlate].
  2:{ exists ddr, []. rewrite Hq. repeat split; try done; reflexivity. }
  destruct (heappop_is_Some entry_lt ((t, r) :: rest)) as [[entry q] Hpop];
    [done|].
  rewrite Hpop. cbn [mbind option_bind].
  pose proof (heappop_head _ _ _ _ Hpop) as Hhead. simpl in Hhead.
  inversion Hhead; subst entry.
  pose proof (heappop_perm _ _ _ _ Hpop) as Hperm.
  unfold DDRMemory._get_bank, py_mod. simpl.
  destruct (Z.eqb_spec (DDRMemory.num_banks ddr) 0); [lia|]. simpl.
  set (bank := MemoryRequest.addr r mod DDRMemory.num_banks ddr).
  assert (Hb : 0 <= bank < DDRMemory.num_banks ddr)
    by (apply Z.mod_pos_bound; lia).
  destruct (lookup_lt_is_Some_2 (DDRMemory.bank_states ddr) (Z.to_nat bank))
    as [st Hst]; [lia|].
  rewrite py_getitem_nonneg, Hst by lia. simpl.
  set (ddr1 := DDRMemory.set_scheduled_completions ddr q).
  set (ddr2 := if bool_decide (st = READING) || bool_decide (st = WRITING)
               then DDRMemory.set_bank ddr1
                      (<[Z.to_nat bank := ACTIVATE_BANK_ROW]>
                         (DDRMemory.bank_states ddr))
                      (<[Z.to_nat bank := 0]> (DDRMemory.bank_timers ddr))
                      (DDRMemory.bank_open_row ddr)
               else ddr1).
  assert (Hstep :
    (if bool_decide (st = READING) || bool_decide (st = WRITING) then
       states ← py_setitem (DDRMemory.bank_states ddr) bank ACTIVATE_BANK_ROW;
       timers ← py_setitem (DDRMemory.bank_timers ddr) bank 0;
       Some (DDRMemory.set_bank ddr1 states timers (DDRMemory.bank_open_row ddr))
     else Some ddr1) = Some ddr2).
  { subst ddr2. destruct (_ || _); [|done].
    rewrite !py_setitem_nonneg by lia. done. }
  rewrite Hstep. cbn [mbind option_bind].
  assert (Hrel : Forall2 bank_rel (DDRMemory.bank_states ddr)
                         (DDRMemory.bank_states ddr2)).
  { subst ddr2. destruct (_ || _) eqn:Hc; [|reflexivity]. simpl.
    rewrite <- (list_insert_id (DDRMemory.bank_states ddr) (Z.to_nat bank) st)
      at 1 by done.
    apply Forall2_insert; [reflexivity|]. right. split; [done|].
    apply orb_true_iff in Hc as [Hc | Hc]; apply bool_decide_eq_true in Hc; auto. }
  assert (Hframe : DDRMemory.scheduled_completions ddr2 = q /\
                   DDRMemory.cycle ddr2 = DDRMemory.cycle ddr /\
                   DDRMemory.num_banks ddr2 = DDRMemory.num_banks ddr /\
                   DDRMemory.bank_open_row ddr2 = DDRMemory.bank_open_row ddr /\
                   length (DDRMemory.bank_timers ddr2)
                     = length (DDRMemory.bank_timers ddr)).
  { subst ddr2. destruct (_ || _); simpl; rewrite ?length_insert; done. }
  destruct Hframe as (Hq2 & Hc2 & Hn2 & Ho2 & Ht2).
  destruct (IH ddr2) as (ddr' & popped & Hrun & Hperm' & Hall & Hexit & Hheap
                         & Hc' & Hn' & Ho' & Ht' & Hrel').
  - lia.
  - rewrite <- (Forall2_length _ _ _ Hrel). lia.
  - lia.
  - rewrite Hq2. apply Permutation_length in Hperm. simpl in *. lia.
  - exists ddr', ((t, r) :: popped). rewrite Hrun. split; [done|].
    rewrite Hq2 in Hperm', Hheap. rewrite Hc2 in Hall, Hexit.
    split; [by rewrite Hperm, Hperm'|]. split; [by constructor|].
    split; [done|]. split.
    { intros Hok. apply Hheap.
      by eapply (heappop_heap_ok _ entry_lt_asym entry_lt_le_trans). }
    split; [congruence|]. split; [congruence|]. split; [congruence|].
    split; [congruence|]. by etrans.
Qed.

(** No bank is precharging, so the loop over the banks changes nothing. *)
Lemma timers_loop_id (n : nat) :
  forall (i : Z) (ddr : DDRMemory.t),
    0 <= i -> i + Z.of_nat n <= Z.of_nat (length (DDRMemory.bank_states ddr)) ->
    length (DDRMemory.bank_timers ddr) = length (DDRMemory.bank_states ddr) ->
    Forall (fun st => st <> PRECHARGING) (DDRMemory.bank_states ddr) ->
    DDRMemory.timers_loop n i ddr = Some ddr.
Proof.
  induction n as [|n IH]; intros i ddr Hi Hn Hlen Hpre; [done|].
  cbn [DDRMemory.timers_loop].
  destruct (lookup_lt_is_Some_2 (DDRMemory.bank_timers ddr) (Z.to_nat i))
    as [timer Htimer]; [lia|].
  destruct (lookup_lt_is_Some_2 (DDRMemory.bank_states ddr) (Z.to_nat i))
    as [st Hst]; [lia|].
  rewrite (py_getitem_nonneg (DDRMemory.bank_timers ddr)), Htimer by lia. simpl.
  assert (Hstep :
    (if timer >? DDRMemory.cycle ddr then Some ddr
     else
       st ← py_getitem (DDRMemory.bank_states ddr) i;
       if bool_decide (st = ACTIVATE_BANK_ROW) then Some ddr
       else if bool_decide (st = PRECHARGING) && (timer <=? DDRMemory.cycle ddr)
       then
         states ← py_setitem (DDRMemory.bank_states ddr) i IDLE;
         open_row ← py_setitem (DDRMemory.bank_open_row ddr) i None;
         Some (DDRMemory.set_bank ddr states (DDRMemory.bank_timers ddr) open_row)
       else Some ddr) = Some ddr).
  { destruct (timer >? DDRMemory.cycle ddr); [done|].
    rewrite (py_getitem_nonneg (DDRMemory.bank_states ddr)), Hst by lia. simpl.
    destruct (bool_decide (st = ACTIVATE_BANK_ROW)); [done|].
    eapply Forall_lookup_1 in Hpre; [|exact Hst].
    by rewrite (bool_decide_eq_false_2 (st = PRECHARGING)) by done. }
  rewrite Hstep. simpl. apply IH; [lia|lia|done|done].
Qed.

Section filter_all_none.
Context {A : Type} (P : A -> Prop) `{forall x, Decision (P x)}.

Lemma filter_all (l : list A) : Forall P l -> filter P l = l.
Proof.
  induction 1 as [|x l Hx _ IH]; [done|].
  rewrite filter_cons, decide_True by done. by rewrite IH.
Qed.

Lemma filter_none (l : list A) : Forall (fun x => ~ P x) l -> filter P l = [].
Proof.
  induction 1 as [|x l Hx _ IH]; [done|].
  by rewrite filter_cons, decide_False by done.
Qed.
End filter_all_none.

(** In a heap whose root is not due, nothing is due. *)
Lemma heap_none_due (heap : list (Z * MemoryRequest.t)) (cycle : Z) :
  heap_ok entry_lt heap ->
  match heap with [] => True | e :: _ => cycle < e.1 end ->
  Forall (fun e => cycle < e.1) heap.
Proof.
  intros Hok Hroot. destruct heap as [|r heap]; [constructor|].
  apply Forall_forall. intros x Hx.
  pose proof (heap_ok_root _ entry_lt_asym entry_lt_le_trans _ r Hok eq_refl x Hx)
    as Hle.
  unfold entry_lt, MemoryRequest.lt in Hle.
  destruct (Z.eqb_spec x.1 r.1); lia.
Qed.

(** X12: a command that [DDRMemory.request] does not reject leaves the bank of
    its address reading (for a read) or writing (for a write), with the
    command's completion time as the bank's timer and the row of its address
    as the open row, and its completion is scheduled; the other banks are
    unchanged. *)
Theorem accepted_command_sets_bank (ddr : DDRMemory.t) (req : MemoryRequest.t)
    (st : DDRState) (open : option Z) :
  0 < DDRMemory.num_banks ddr ->
  Z.of_nat (length (DDRMemory.bank_states ddr)) = DDRMemory.num_banks ddr ->
  Z.of_nat (length (DDRMemory.bank_timers ddr)) = DDRMemory.num_banks ddr ->
  Z.of_nat (length (DDRMemory.bank_open_row ddr)) = DDRMemory.num_banks ddr ->
  let bank := Z.to_nat (MemoryRequest.addr req mod DDRMemory.num_banks ddr) in
  let row := DDRMemory._get_row ddr (MemoryRequest.addr req) in
  DDRMemory.bank_states ddr !! bank = Some st ->
  DDRMemory.bank_open_row ddr !! bank = Some open ->
  ~ rejected (MemoryRequest.req_type req) st open row ->
  exists ddr',
    DDRMemory.request ddr req = Some ddr' /\
    DDRMemory.bank_states ddr'
      = <[bank := busy_state (MemoryRequest.req_type req)]>
          (DDRMemory.bank_states ddr) /\
    DDRMemory.bank_timers ddr'
      = <[bank := MemoryRequest.completion_time req]> (DDRMemory.bank_timers ddr) /\
    DDRMemory.bank_open_row ddr'
      = <[bank := Some row]> (DDRMemory.bank_open_row ddr) /\
    DDRMemory.scheduled_completions ddr'
      ≡ₚ (MemoryRequest.completion_time req, req)
         :: DDRMemory.scheduled_completions ddr.
Proof.
  intros Hn Hs Ht Ho bank row Hst Hopen Hacc.
  destruct (request_spec ddr req Hn Hs Ht Ho) as (st' & open' & Hst' & Hopen' & Hreq).
  fold bank in Hst', Hopen'. rewrite Hst in Hst'. rewrite Hopen in Hopen'.
  inversion Hst'; subst st'. inversion Hopen'; subst open'.
  eexists. split; [exact Hreq|]. fold bank row.
  destruct (decide (st = IDLE \/ open <> Some row)) as [Hd | Hd]; simpl.
  { split; [done|]. split; [done|]. split; [done|]. apply heappush_perm. }
  assert (Hrow : open = Some row).
  { destruct (decide (open = Some row)); [done|]. exfalso. apply Hd. by right. }
  destruct (decide (st = ACTIVATE_BANK_ROW \/
                    st = busy_state (MemoryRequest.req_type req))) as [Hb | Hb].
  { simpl. split; [done|]. split; [done|].
    split; [|apply heappush_perm].
    symmetry. apply list_insert_id. by rewrite <- Hrow. }
  exfalso. apply Hacc. split; [done|].
  unfold busy_state in Hb.
  destruct (MemoryRequest.req_type req), st; tauto.
Qed.

Lemma accepted_command_sets_bank_witness :
  exists ddr',
    DDRMemory.request writing_ddr (MemoryRequest.set_times early_write 30 60)
      = Some ddr' /\
    DDRMemory.bank_states ddr' = [WRITING; IDLE; IDLE; IDLE] /\
    DDRMemory.bank_timers ddr' = [60; 0; 0; 0] /\
    DDRMemory.bank_open_row ddr' = [Some 0; None; None; None] /\
    DDRMemory.scheduled_completions ddr'
      ≡ₚ (60, MemoryRequest.set_times early_write 30 60)
         :: DDRMemory.scheduled_completions writing_ddr.
Proof.
  apply (accepted_command_sets_bank writing_ddr
           (MemoryRequest.set_times early_write 30 60) WRITING (Some 0)).
  - simpl. lia.
  - reflexivity.
  - reflexivity.
  - reflexivity.
  - reflexivity.
  - reflexivity.
  - unfold rejected. simpl. intros [_ [? | ?]]; discriminate.
Defined.

Lemma DDRMemory_init_ok (num_banks : Z) :
  0 < num_banks -> ddr_ok (DDRMemory.init num_banks).
Proof.
  intros Hn. unfold ddr_ok, DDRMemory.init, py_repeat. simpl.
  rewrite !length_replicate. repeat split; try lia.
  by apply Forall_replicate.
Qed.

Lemma DDRMemory_request_keeps_ok (ddr : DDRMemory.t) (req : MemoryRequest.t) :
  ddr_ok ddr ->
  exists ddr', DDRMemory.request ddr req = Some ddr' /\ ddr_ok ddr'.
Proof.
  intros (Hn & Hs & Ht & Ho & Hpre).
  destruct (request_spec ddr req Hn Hs Ht Ho) as (st & open & Hst & Hopen & Hreq).
  eexists. split; [exact Hreq|]. unfold ddr_ok.
  assert (Hbusy : busy_state (MemoryRequest.req_type req) <> PRECHARGING)
    by (by destruct (MemoryRequest.req_type req)).
  repeat case_decide; simpl; rewrite ?length_insert;
    repeat split; try done; by apply Forall_insert.
Qed.

Lemma DDRMemory_tick_spec (ddr : DDRMemory.t) :
  ddr_ok ddr ->
  exists ddr',
    DDRMemory.tick ddr = Some ddr' /\
    ddr_ok ddr' /\
    DDRMemory.cycle ddr' = DDRMemory.cycle ddr + 1 /\
    DDRMemory.bank_open_row ddr' = DDRMemory.bank_open_row ddr /\
    Forall2 bank_rel (DDRMemory.bank_states ddr) (DDRMemory.bank_states ddr') /\
    (heap_ok entry_lt (DDRMemory.scheduled_completions ddr) ->
     heap_ok entry_lt (DDRMemory.scheduled_completions ddr') /\
     DDRMemory.scheduled_completions ddr'
       ≡ₚ filter (fun e => DDRMemory.cycle ddr < e.1)
                 (DDRMemory.scheduled_completions ddr)).
Proof.
  intros (Hn & Hs & Ht & Ho & Hpre).
  destruct (drain_loop_spec (length (DDRMemory.scheduled_completions ddr)) ddr)
    as (ddr1 & popped & Hrun & Hperm & Hall & Hexit & Hheap & Hc1 & Hn1 & Ho1
        & Ht1 & Hrel); [done..|].
  assert (Hpre1 : Forall (fun st => st <> PRECHARGING) (DDRMemory.bank_states ddr1)).
  { apply Forall_lookup. intros i st' Hst'.
    destruct (Forall2_lookup_r _ _ _ _ _ Hrel Hst') as (st & Hst & Hr).
    eapply Forall_lookup_1 in Hpre; [|exact Hst].
    destruct Hr as [-> | [-> _]]; done. }
  pose proof (Forall2_length _ _ _ Hrel) as Hlen.
  unfold DDRMemory.tick. rewrite Hrun. simpl.
  rewrite timers_loop_id; [|lia|lia|lia|done]. simpl.
  eexists. split; [reflexivity|]. simpl.
  split; [unfold ddr_ok; simpl; rewrite Hn1, Ho1, Ht1, <- Hlen; done|].
  split; [lia|]. split; [done|]. split; [done|].
  intros Hok. split; [auto|].
  rewrite Hperm, filter_app.
  rewrite (filter_none _ popped), (filter_all _ (DDRMemory.scheduled_completions ddr1)).
  - done.
  - rewrite <- Hc1. apply heap_none_due; [auto|]. by rewrite Hc1.
  - eapply Forall_impl; [exact Hall|]. simpl. lia.
Qed.

(** X13: in a DDR memory with one entry for each bank in its per-bank lists and
    no precharging bank, [request] and [tick] return (they raise nothing) and
    leave such a memory: no bank ever enters [PRECHARGING].  [tick] keeps the
    open rows, and changes the state of a bank only from reading or writing
    to [ACTIVATE_BANK_ROW]. *)
Theorem ddr_never_precharges (ddr : DDRMemory.t) :
  ddr_ok ddr ->
  (forall req, exists ddr', DDRMemory.request ddr req = Some ddr' /\ ddr_ok ddr') /\
  (exists ddr',
     DDRMemory.tick ddr = Some ddr' /\ ddr_ok ddr' /\
     DDRMemory.bank_open_row ddr' = DDRMemory.bank_open_row ddr /\
     Forall2 bank_rel (DDRMemory.bank_states ddr) (DDRMemory.bank_states ddr')).
Proof.
  intros Hok. split; [intros req; by apply DDRMemory_request_keeps_ok|].
  destruct (DDRMemory_tick_spec ddr Hok) as (ddr' & Ht & Hok' & _ & Ho & Hrel & _).
  by exists ddr'.
Qed.

Lemma ddr_never_precharges_witness :
  (forall req, exists ddr',
     DDRMemory.request (DDRMemory.init 4) req = Some ddr' /\ ddr_ok ddr') /\
  (exists ddr',
     DDRMemory.tick (DDRMemory.init 4) = Some ddr' /\ ddr_ok ddr' /\
     DDRMemory.bank_open_row ddr' = DDRMemory.bank_open_row (DDRMemory.init 4) /\
     Forall2 bank_rel (DDRMemory.bank_states (DDRMemory.init 4))
             (DDRMemory.bank_states ddr')).
Proof.
  apply (ddr_never_precharges (DDRMemory.init 4)).
  unfold ddr_ok. simpl. repeat split; try lia.
  repeat constructor; discriminate.
Defined.

(** X14: [DDRMemory.tick] advances the cycle by one and removes from the
    scheduled completions exactly those whose completion time is at most the
    current cycle; the heap stays a heap. *)
Theorem ddr_tick_drains_due_completions (ddr : DDRMemory.t) :
  ddr_ok ddr ->
  heap_ok entry_lt (DDRMemory.scheduled_completions ddr) ->
  exists ddr',
    DDRMemory.tick ddr = Some ddr' /\
    DDRMemory.cycle ddr' = DDRMemory.cycle ddr + 1 /\
    heap_ok entry_lt (DDRMemory.scheduled_completions ddr') /\
    DDRMemory.scheduled_completions ddr'
      ≡ₚ filter (fun e => DDRMemory.cycle ddr < e.1)
                (DDRMemory.scheduled_completions ddr).
Proof.
  intros Hok Hheap.
  destruct (DDRMemory_tick_spec ddr Hok) as (ddr' & Ht & _ & Hc & _ & _ & Hd).
  destruct (Hd Hheap) as [Hheap' Hperm]. by exists ddr'.
Qed.

Lemma ddr_tick_drains_due_completions_witness :
  exists ddr',
    DDRMemory.tick (DDRMemory.set_cycle writing_ddr 50) = Some ddr' /\
    DDRMemory.cycle ddr' = 50 + 1 /\
    heap_ok entry_lt (DDRMemory.scheduled_completions ddr') /\
    DDRMemory.scheduled_completions ddr' ≡ₚ [].
Proof.
  apply (ddr_tick_drains_due_completions (DDRMemory.set_cycle writing_ddr 50)).
  - unfold ddr_ok. simpl. repeat split; try lia.
    repeat constructor; discriminate.
  - intros [|[|i]] x y Hi Hx Hy; simpl in *; [lia|done|done].
Defined.

(** ** Interconnect *)

(** X15: [Interconnect.request] adds exactly one pair [(ready_time, req)] to the
    queue, with [cycle + delay <= ready_time <= cycle + delay + 2]; the queue
    stays a heap, one random value is drawn, and the interconnect's cycle,
    delay and bandwidth, the caches, the cores, the controller and the DDR
    memory are unchanged. *)
Theorem request_ready_time_bounds (req : MemoryRequest.t) (w : World) :
  let self := interconnect w in
  let w' := Interconnect_request req w in
  let self' := interconnect w' in
  exists ready_time,
    Interconnect.cycle self + Interconnect.delay self <= ready_time
      <= Interconnect.cycle self + Interconnect.delay self + 2 /\
    Interconnect.queue self' ≡ₚ (ready_time, req) :: Interconnect.queue self /\
    (heap_ok entry_lt (Interconnect.queue self) ->
     heap_ok entry_lt (Interconnect.queue self')) /\
    (Interconnect.cycle self', Interconnect.delay self', Interconnect.bandwidth self')
      = (Interconnect.cycle self, Interconnect.delay self, Interconnect.bandwidth self) /\
    random_drawn w' = S (random_drawn w) /\
    caches w' = caches w /\ cores w' = cores w /\ beyond_caches w' = beyond_caches w.
Proof.
  cbv zeta. unfold Interconnect_request, randint. simpl.
  eexists. split; [|split; [apply heappush_perm|]].
  - pose proof (Z.mod_pos_bound (random w (random_drawn w)) 3). lia.
  - split; [apply (heappush_heap_ok _ entry_lt_asym entry_lt_le_trans)|done].
Qed.

(** The loop of Interconnect.tick ends on an empty queue, on a pair that is
    not ready, or when the bandwidth is used up. *)
Lemma select_loop_exit (cycle bandwidth : Z) (n : nat) :
  forall (queue : list (Z * MemoryRequest.t)) (processed : Z)
         (popped : list (Z * MemoryRequest.t)),
    (length queue <= n)%nat ->
    forall popped' queue',
      Interconnect.select_loop n queue cycle bandwidth processed popped
        = (popped', queue') ->
      match queue' with [] => True | e :: _ => cycle < e.1 end \/
      bandwidth <= processed + Z.of_nat (length popped') - Z.of_nat (length popped).
Proof.
  induction n as [|n IH]; intros queue processed popped Hlen popped' queue' H;
    simpl in H.
  { destruct queue; [|simpl in Hlen; lia]. inversion H; subst. by left. }
  destruct queue as [|[ready_time req] rest]; [inversion H; subst; by left|].
  destruct (Z.leb_spec ready_time cycle) as [Hready | Hlate]; simpl in H.
  2:{ inversion H; subst. left. simpl. lia. }
  destruct (Z.ltb_spec processed bandwidth) as [Hbw | Hfull].
  2:{ inversion H; subst. right. lia. }
  destruct (heapq.heappop entry_lt ((ready_time, req) :: rest))
    as [[entry queue1]|] eqn:Hpop.
  2:{ destruct (heappop_is_Some entry_lt ((ready_time, req) :: rest)) as [? Hs];
        [done|]. rewrite Hpop in Hs. done. }
  apply heappop_perm, Permutation_length in Hpop. simpl in Hpop.
  apply IH in H; [|simpl in Hlen; lia].
  rewrite length_app in H. simpl in H. destruct H; [by left|right; lia].
Qed.

(** X16: [Interconnect.tick] keeps the queue a heap, and when it forwards fewer
    requests than the bandwidth allows, no request that is left in the queue
    was ready. *)
Theorem tick_is_work_conserving (w : World) :
  let self := interconnect w in
  let self' := interconnect (Interconnect_tick w) in
  heap_ok entry_lt (Interconnect.queue self) ->
  heap_ok entry_lt (Interconnect.queue self') /\
  (Z.of_nat (length (Interconnect.queue self))
     - Z.of_nat (length (Interconnect.queue self')) < Interconnect.bandwidth self ->
   Forall (fun e => Interconnect.cycle self < e.1) (Interconnect.queue self')).
Proof.
  cbv zeta. intros Hok. unfold Interconnect_tick.
  destruct (Interconnect.select (interconnect w)) as [popped queue'] eqn:Hsel.
  simpl. unfold Interconnect.select in Hsel.
  destruct (select_loop_spec (Interconnect.cycle (interconnect w))
              (Interconnect.bandwidth (interconnect w))
              (length (Interconnect.queue (interconnect w)))
              (Interconnect.queue (interconnect w)) 0 [])
    as (new & queue1 & Hrun & Hperm & _ & _ & Hheap).
  rewrite Hsel in Hrun. simpl in Hrun. inversion Hrun; subst new queue1.
  destruct (Hheap Hok) as [Hok' _]. split; [done|].
  intros Hbw. apply heap_none_due; [done|].
  destruct (select_loop_exit _ _ _ _ _ _ (le_n _) _ _ Hsel) as [Hexit | Hfull];
    [done|].
  apply Permutation_length in Hperm. rewrite length_app in Hperm.
  simpl in Hfull. lia.
Qed.

Lemma tick_is_work_conserving_witness :
  Interconnect.queue
    (interconnect (Interconnect_tick (set_interconnect idle_world partly_due_interconnect)))
    = [(7, tie_request 64)] /\
  heap_ok entry_lt
    (Interconnect.queue
       (interconnect (Interconnect_tick (set_interconnect idle_world partly_due_interconnect)))) /\
  Forall (fun e => 5 < e.1)
    (Interconnect.queue
       (interconnect (Interconnect_tick (set_interconnect idle_world partly_due_interconnect)))).
Proof.
  destruct (tick_is_work_conserving (set_interconnect idle_world partly_due_interconnect))
    as [Hheap Hall].
  { intros [|[|i]] x y Hi Hx Hy; simpl in *; try lia;
      inversion Hx; inversion Hy; subst; reflexivity. }
  split; [vm_compute; reflexivity|]. split; [exact Hheap|].
  apply Hall. vm_compute. reflexivity.
Defined.

(** ** DDR memory controller: what scheduling changes *)

Lemma schedule_eq (self : DDRMemoryController.t) (ddr : DDRMemory.t)
    (best_req : MemoryRequest.t) :
  banks_ok self ddr ->
  let bank := MemoryRequest.addr best_req mod DDRMemory.num_banks ddr in
  let row := DDRMemory._get_row ddr (MemoryRequest.addr best_req) in
  exists open ddr',
    DDRMemoryController.bank_open_row self !! Z.to_nat bank = Some open /\
    let hit := bool_decide (open = Some row) in
    let delay :=
      (if hit then DDRMemory.row_hit_latency ddr
       else DDRMemoryController.tRP self + DDRMemoryController.tRCD self
            + DDRMemoryController.tCAS self)
      + DDRMemoryController.transition_penalty self bank
          (MemoryRequest.req_type best_req) in
    let issued :=
      MemoryRequest.set_times best_req (DDRMemoryController.cycle self)
                              (DDRMemoryController.cycle self + delay) in
    DDRMemory.request ddr issued = Some ddr' /\
    DDRMemoryController.schedule self ddr best_req =
      Some ({| DDRMemoryController.queue :=
                 heapq.heapify entry_lt
                   (match list_find (fun e => e.2 = best_req)
                                    (DDRMemoryController.queue self) with
                    | Some (i, _) => delete i (DDRMemoryController.queue self)
                    | None => DDRMemoryController.queue self
                    end);
               DDRMemoryController.scheduled_ddr_requests :=
                 DDRMemoryController.scheduled_ddr_requests self
                   ++ [mkReqInfo issued bank row (if hit then ROW_HIT else ROW_MISS)];
               DDRMemoryController.cycle := DDRMemoryController.cycle self;
               DDRMemoryController.tRCD := DDRMemoryController.tRCD self;
               DDRMemoryController.tRP := DDRMemoryController.tRP self;
               DDRMemoryController.tCAS := DDRMemoryController.tCAS self;
               DDRMemoryController.tRC := DDRMemoryController.tRC self;
               DDRMemoryController.tWR := DDRMemoryController.tWR self;
               DDRMemoryController.tRTP := DDRMemoryController.tRTP self;
               DDRMemoryController.tCCD := DDRMemoryController.tCCD self;
               DDRMemoryController.last_command_time :=
                 <[bank := DDRMemoryController.cycle self]>
                   (DDRMemoryController.last_command_time self);
               DDRMemoryController.bank_open_row :=
                 if hit then DDRMemoryController.bank_open_row self
                 else <[Z.to_nat bank := Some row]>
                        (DDRMemoryController.bank_open_row self);
               DDRMemoryController.bank_precharge_complete_time :=
                 if hit then DDRMemoryController.bank_precharge_complete_time self
                 else <[Z.to_nat bank := DDRMemoryController.cycle self
                                         + DDRMemoryController.tRP self]>
                        (DDRMemoryController.bank_precharge_complete_time self);
               DDRMemoryController.last_access_command :=
                 <[bank := MemoryRequest.req_type best_req]>
                   (DDRMemoryController.last_access_command self);
               DDRMemoryController.last_access_addr :=
                 <[bank := MemoryRequest.addr best_req]>
                   (DDRMemoryController.last_access_addr self) |},
            ddr').
Proof.
  intros (Hn & Hopen & Hpre & Hst & Htm & Hor) bank row.
  assert (Hb : 0 <= bank < DDRMemory.num_banks ddr)
    by (apply Z.mod_pos_bound; lia).
  destruct (lookup_lt_is_Some_2 (DDRMemoryController.bank_open_row self)
              (Z.to_nat bank)) as [open Ho]; [lia|].
  exists open. cbv zeta.
  unfold DDRMemoryController.schedule, DDRMemory._get_bank, py_mod.
  destruct (Z.eqb_spec (DDRMemory.num_banks ddr) 0); [lia|]. simpl.
  fold bank row. rewrite py_getitem_nonneg, Ho by lia. simpl.
  destruct (decide (open = Some row)) as [Hhit | Hmiss].
  - rewrite bool_decide_eq_true_2 by done. simpl.
    match goal with
    | |- context [DDRMemory.request ddr ?r] =>
        destruct (DDRMemory_request_ok ddr r) as [ddr' Hreq]; [done..|]
    end.
    exists ddr'. rewrite Hreq. simpl. done.
  - rewrite bool_decide_eq_false_2 by done.
    rewrite !py_setitem_nonneg by lia. simpl.
    match goal with
    | |- context [DDRMemory.request ddr ?r] =>
        destruct (DDRMemory_request_ok ddr r) as [ddr' Hreq]; [done..|]
    end.
    exists ddr'. rewrite Hreq. simpl. done.
Qed.

Lemma schedule_next_eq (self : DDRMemoryController.t) (ddr : DDRMemory.t)
    (best_req : MemoryRequest.t) (rest : list MemoryRequest.t) :
  DDRMemoryController.queue self <> [] ->
  DDRMemoryController.sorted_candidates self ddr = Some (best_req :: rest) ->
  DDRMemoryController._schedule_next_request self ddr
    = DDRMemoryController.schedule self ddr best_req.
Proof.
  intros Hq Hsorted. unfold DDRMemoryController._schedule_next_request.
  destruct (DDRMemoryController.queue self); [done|]. by rewrite Hsorted.
Qed.

(** X17: when the best candidate addresses the row that is open in its bank,
    the controller records a row hit and sets the request's [time] to the
    current cycle and its [completion_time] to the current cycle plus
    [row_hit_latency], plus [tWR] for a read after a write to the bank and
    [tWR + 2] for a write after a read; the request, otherwise unchanged, is
    handed to the DDR with these times and appended to
    [scheduled_ddr_requests].  The open rows and the precharge times are
    kept. *)
Theorem row_hit_completion (self : DDRMemoryController.t) (ddr : DDRMemory.t)
    (best_req : MemoryRequest.t) (rest : list MemoryRequest.t) (bank : Z) :
  banks_ok self ddr ->
  DDRMemoryController.queue self <> [] ->
  DDRMemoryController.sorted_candidates self ddr = Some (best_req :: rest) ->
  bank = MemoryRequest.addr best_req mod DDRMemory.num_banks ddr ->
  py_getitem (DDRMemoryController.bank_open_row self) bank
    = Some (Some (MemoryRequest.addr best_req / 16)) ->
  exists self' ddr' info,
    DDRMemoryController._schedule_next_request self ddr = Some (self', ddr') /\
    DDRMemoryController.scheduled_ddr_requests self' =
      DDRMemoryController.scheduled_ddr_requests self ++ [info] /\
    DDRMemory.request ddr (info_request info) = Some ddr' /\
    info_bank info = bank /\
    info_row info = MemoryRequest.addr best_req / 16 /\
    info_status info = ROW_HIT /\
    MemoryRequest.core_id (info_request info) = MemoryRequest.core_id best_req /\
    MemoryRequest.req_type (info_request info) = MemoryRequest.req_type best_req /\
    MemoryRequest.addr (info_request info) = MemoryRequest.addr best_req /\
    MemoryRequest.callback (info_request info) = MemoryRequest.callback best_req /\
    MemoryRequest.time (info_request info) = DDRMemoryController.cycle self /\
    MemoryRequest.completion_time (info_request info)
      - DDRMemoryController.cycle self =
      DDRMemory.row_hit_latency ddr
      + match DDRMemoryController.last_access_command self !! bank,
              MemoryRequest.req_type best_req with
        | Some write, read => DDRMemoryController.tWR self
        | Some read, write => DDRMemoryController.tWR self + 2
        | _, _ => 0
        end /\
    (MemoryRequest.completion_time (info_request info), info_request info)
      ∈ DDRMemory.scheduled_completions ddr' /\
    DDRMemoryController.bank_precharge_complete_time self'
      = DDRMemoryController.bank_precharge_complete_time self /\
    DDRMemoryController.bank_open_row self'
      = DDRMemoryController.bank_open_row self.
Proof.
  intros Hbanks Hq Hsorted Hb Hopen.
  change (MemoryRequest.addr best_req / 16)
    with (DDRMemory._get_row ddr (MemoryRequest.addr best_req)) in Hopen.
  rewrite (schedule_next_eq self ddr best_req rest Hq Hsorted).
  destruct (schedule_eq self ddr best_req Hbanks) as (open & ddr' & Ho & H).
  cbv zeta in H. destruct H as [Hreq Hrun].
  rewrite <- Hb in *.
  assert (0 <= bank < DDRMemory.num_banks ddr).
  { destruct Hbanks as (Hn & _). rewrite Hb. apply Z.mod_pos_bound. lia. }
  rewrite py_getitem_nonneg, Ho in Hopen by (destruct Hbanks as (? & ? & _); lia).
  inversion Hopen; subst open.
  rewrite !bool_decide_eq_true_2 in Hrun by done.
  rewrite !bool_decide_eq_true_2 in Hreq by done.
  eexists _, ddr', _. split; [exact Hrun|]. simpl.
  split; [reflexivity|]. split; [exact Hreq|].
  split; [reflexivity|]. split; [reflexivity|]. split; [reflexivity|].
  split; [reflexivity|]. split; [reflexivity|]. split; [reflexivity|].
  split; [reflexivity|]. split; [reflexivity|].
  split; [|split; [|done]].
  - simpl. unfold DDRMemoryController.transition_penalty.
    destruct (DDRMemoryController.last_access_command self !! bank) as [[]|];
      destruct (MemoryRequest.req_type best_req); lia.
  - apply DDRMemory_request_pushes in Hreq as (Hpush & _).
    rewrite Hpush. simpl.
    eapply elem_of_Permutation_proper; [apply heappush_perm|]. by left.
Qed.

Lemma row_hit_completion_witness :
  exists self' ddr' info,
    DDRMemoryController._schedule_next_request
      (DDRMemoryController.request
         (DDRMemoryController.set_queue turnaround_controller []) late_read)
      turnaround_ddr = Some (self', ddr') /\
    DDRMemoryController.scheduled_ddr_requests self' = [] ++ [info] /\
    DDRMemory.request turnaround_ddr (info_request info) = Some ddr' /\
    info_bank info = 0 /\
    info_row info = MemoryRequest.addr late_read / 16 /\
    info_status info = ROW_HIT /\
    MemoryRequest.core_id (info_request info) = MemoryRequest.core_id late_read /\
    MemoryRequest.req_type (info_request info) = MemoryRequest.req_type late_read /\
    MemoryRequest.addr (info_request info) = MemoryRequest.addr late_read /\
    MemoryRequest.callback (info_request info) = MemoryRequest.callback late_read /\
    MemoryRequest.time (info_request info) = 50 /\
    MemoryRequest.completion_time (info_request info) - 50 = 0 + 15 /\
    (MemoryRequest.completion_time (info_request info), info_request info)
      ∈ DDRMemory.scheduled_completions ddr' /\
    DDRMemoryController.bank_precharge_complete_time self' = [15; 0; 0; 0] /\
    DDRMemoryController.bank_open_row self' = [Some 0; None; None; None].
Proof.
  apply (row_hit_completion
           (DDRMemoryController.request
              (DDRMemoryController.set_queue turnaround_controller []) late_read)
           turnaround_ddr late_read [] 0).
  - unfold banks_ok. simpl. lia.
  - discriminate.
  - reflexivity.
  - reflexivity.
  - reflexivity.
Defined.

(** X18: scheduling a request records the current cycle and the kind of the
    request for its bank and for no other bank; afterwards no request to that
    bank is a candidate before [tCCD] cycles have passed, nor, when the
    request opened another row, before [tRP] cycles have passed. *)
Theorem bank_command_spacing (self : DDRMemoryController.t) (ddr : DDRMemory.t)
    (best_req : MemoryRequest.t) (rest : list MemoryRequest.t) :
  banks_ok self ddr ->
  DDRMemoryController.queue self <> [] ->
  DDRMemoryController.sorted_candidates self ddr = Some (best_req :: rest) ->
  exists self' ddr' bank open,
    DDRMemoryController._schedule_next_request self ddr = Some (self', ddr') /\
    DDRMemory._get_bank ddr (MemoryRequest.addr best_req) = Some bank /\
    py_getitem (DDRMemoryController.bank_open_row self) bank = Some open /\
    DDRMemoryController.last_command_time self' !! bank
      = Some (DDRMemoryController.cycle self) /\
    DDRMemoryController.last_access_command self' !! bank
      = Some (MemoryRequest.req_type best_req) /\
    (forall bank', bank' <> bank ->
       DDRMemoryController.last_command_time self' !! bank'
         = DDRMemoryController.last_command_time self !! bank' /\
       DDRMemoryController.last_access_command self' !! bank'
         = DDRMemoryController.last_access_command self !! bank') /\
    forall (cycle' : Z) (req : MemoryRequest.t),
      DDRMemory._get_bank ddr' (MemoryRequest.addr req) = Some bank ->
      cycle' < DDRMemoryController.cycle self + DDRMemoryController.tCCD self \/
      (open <> Some (DDRMemory._get_row ddr (MemoryRequest.addr best_req)) /\
       cycle' < DDRMemoryController.cycle self + DDRMemoryController.tRP self) ->
      ~ is_candidate (DDRMemoryController.set_cycle self' cycle') ddr' req.
Proof.
  intros Hbanks Hq Hsorted.
  rewrite (schedule_next_eq self ddr best_req rest Hq Hsorted).
  destruct (schedule_eq self ddr best_req Hbanks) as (open & ddr' & Ho & H).
  cbv zeta in H. destruct H as [Hreq Hrun].
  set (bank := MemoryRequest.addr best_req mod DDRMemory.num_banks ddr) in *.
  set (row := DDRMemory._get_row ddr (MemoryRequest.addr best_req)) in *.
  pose proof Hbanks as (Hn & Hlo & Hlp & _).
  assert (Hb : 0 <= bank < DDRMemory.num_banks ddr)
    by (apply Z.mod_pos_bound; lia).
  eexists _, ddr', bank, open. split; [exact Hrun|]. simpl.
  split; [unfold DDRMemory._get_bank, py_mod;
          destruct (Z.eqb_spec (DDRMemory.num_banks ddr) 0); [lia|done]|].
  split; [by rewrite py_getitem_nonneg by lia|].
  split; [apply lookup_insert_eq|]. split; [apply lookup_insert_eq|].
  split; [intros bank' Hne; by rewrite !lookup_insert_ne by done|].
  intros cycle' req Hbank' Hearly (bank' & precharge & Hbank'' & Hpre & Hready & Hspaced).
  rewrite Hbank' in Hbank''. inversion Hbank''; subst bank'.
  unfold DDRMemoryController.last_cmd_time in Hspaced. simpl in Hspaced, Hpre, Hready.
  rewrite lookup_insert_eq in Hspaced. simpl in Hspaced.
  destruct Hearly as [Hearly | [Hmiss Hearly]]; [lia|].
  rewrite bool_decide_eq_false_2 in Hpre by done.
  rewrite py_getitem_nonneg in Hpre by (rewrite length_insert; lia).
  rewrite list_lookup_insert_eq in Hpre by lia. inversion Hpre. lia.
Qed.

Lemma bank_command_spacing_witness :
  exists self' ddr' bank open,
    DDRMemoryController._schedule_next_request turnaround_controller turnaround_ddr
      = Some (self', ddr') /\
    DDRMemory._get_bank turnaround_ddr (MemoryRequest.addr turnaround_read)
      = Some bank /\
    py_getitem (DDRMemoryController.bank_open_row turnaround_controller) bank
      = Some open /\
    DDRMemoryController.last_command_time self' !! bank = Some 50 /\
    DDRMemoryController.last_access_command self' !! bank = Some read /\
    (forall bank', bank' <> bank ->
       DDRMemoryController.last_command_time self' !! bank'
         = DDRMemoryController.last_command_time turnaround_controller !! bank' /\
       DDRMemoryController.last_access_command self' !! bank'
         = DDRMemoryController.last_access_command turnaround_controller !! bank') /\
    forall (cycle' : Z) (req : MemoryRequest.t),
      DDRMemory._get_bank ddr' (MemoryRequest.addr req) = Some bank ->
      cycle' < 50 + 4 \/
      (open <> Some (DDRMemory._get_row turnaround_ddr
                       (MemoryRequest.addr turnaround_read)) /\
       cycle' < 50 + 15) ->
      ~ is_candidate (DDRMemoryController.set_cycle self' cycle') ddr' req.
Proof.
  apply (bank_command_spacing turnaround_controller turnaround_ddr
           turnaround_read [turnaround_write]).
  - unfold banks_ok. simpl. lia.
  - discriminate.
  - reflexivity.
Defined.

(** ** The controller and the DDR memory agree on the open rows *)

Lemma schedule_keeps_memory_ok (self self' : DDRMemoryController.t)
    (ddr ddr' : DDRMemory.t) (best_req : MemoryRequest.t) :
  banks_ok self ddr -> ddr_ok ddr ->
  DDRMemoryController.bank_open_row self = DDRMemory.bank_open_row ddr ->
  DDRMemoryController.schedule self ddr best_req = Some (self', ddr') ->
  banks_ok self' ddr' /\ ddr_ok ddr' /\
  DDRMemoryController.bank_open_row self' = DDRMemory.bank_open_row ddr'.
Proof.
  intros Hbanks Hok Hsync Hrun.
  destruct (schedule_eq self ddr best_req Hbanks) as (open & d & Ho & H).
  cbv zeta in H. destruct H as [Hreq Hrun'].
  rewrite Hrun in Hrun'. inversion Hrun' as [[Hself' Hd]]. subst d. clear Hrun'.
  set (bank := MemoryRequest.addr best_req mod DDRMemory.num_banks ddr) in *.
  set (row := DDRMemory._get_row ddr (MemoryRequest.addr best_req)) in *.
  pose proof Hok as (Hn & Hs & Ht & Hor & Hpre).
  match type of Hreq with
  | DDRMemory.request ddr ?r = _ =>
      destruct (DDRMemory_request_keeps_ok ddr r Hok) as (d & Hreq' & Hok');
      destruct (request_spec ddr r Hn Hs Ht Hor) as (st & open' & Hst & Hopen' & Hspec)
  end.
  rewrite Hreq in Hreq'. inversion Hreq'; subst d. clear Hreq'.
  rewrite Hreq in Hspec. simpl in Hst, Hopen', Hspec. fold bank row in Hst, Hopen', Hspec.
  rewrite <- Hsync, Ho in Hopen'. inversion Hopen'; subst open'.
  assert (Hopen_eq : (if bool_decide (open = Some row)
                      then DDRMemoryController.bank_open_row self
                      else <[Z.to_nat bank := Some row]>
                             (DDRMemoryController.bank_open_row self))
                     = DDRMemory.bank_open_row ddr').
  { inversion Hspec as [Hd]. clear Hspec.
    destruct (decide (open = Some row)) as [Hhit | Hmiss].
    - rewrite bool_decide_eq_true_2 by done.
      destruct (decide (st = IDLE \/ open <> Some row)) as [Hi | Hi]; simpl.
      + rewrite <- Hsync. symmetry. apply list_insert_id. by rewrite <- Hhit.
      + by destruct (decide (_ \/ _)).
    - rewrite bool_decide_eq_false_2 by done.
      rewrite decide_True by (by right). simpl. by rewrite Hsync. }
  split; [|split; [done|exact Hopen_eq]].
  destruct Hbanks as (_ & Hlo & Hlp & _).
  destruct Hok' as (Hn' & Hs' & Ht' & Hor' & _).
  apply DDRMemory_request_pushes in Hreq as (_ & Hnb & _).
  unfold banks_ok. simpl. rewrite Hopen_eq, Hnb in *.
  split; [done|]. split; [done|].
  split; [destruct (bool_decide _); rewrite ?length_insert; lia|done].
Qed.

Lemma schedule_next_keeps_memory_ok (self self' : DDRMemoryController.t)
    (ddr ddr' : DDRMemory.t) :
  banks_ok self ddr -> ddr_ok ddr ->
  DDRMemoryController.bank_open_row self = DDRMemory.bank_open_row ddr ->
  DDRMemoryController._schedule_next_request self ddr = Some (self', ddr') ->
  banks_ok self' ddr' /\ ddr_ok ddr' /\
  DDRMemoryController.bank_open_row self' = DDRMemory.bank_open_row ddr'.
Proof.
  intros Hbanks Hok Hsync H.
  unfold DDRMemoryController._schedule_next_request in H.
  destruct (DDRMemoryController.queue self); [by inversion H; subst|].
  bind_some H as candidates Hc.
  destruct candidates as [|best_req rest]; [by inversion H; subst|].
  by eapply schedule_keeps_memory_ok.
Qed.

Lemma controller_requests_frame (c : DDRMemoryController.t)
    (reqs : list MemoryRequest.t) :
  let c' := foldl DDRMemoryController.request c reqs in
  DDRMemoryController.bank_open_row c' = DDRMemoryController.bank_open_row c /\
  DDRMemoryController.bank_precharge_complete_time c'
    = DDRMemoryController.bank_precharge_complete_time c.
Proof.
  revert c. induction reqs as [|r reqs IH]; intros c; simpl; [done|].
  destruct (IH (DDRMemoryController.request c r)) as [-> ->]. done.
Qed.

Lemma simulate_cycle_keeps_memory_ok (depth : nat) (w w' : World) :
  memory_ok w -> simulate_cycle depth w = Some w' -> memory_ok w'.
Proof.
  intros (Hbanks & Hok & Hsync) H.
  apply simulate_cycle_inv in H
    as (w1 & w2 & w3 & controller & ddr & ddr' & H1 & -> & H3 & Hs & Ht & ->).
  destruct H1 as (_ & _ & _ & _ & Hc1 & Hd1).
  destruct H3 as (_ & _ & _ & _ & _ & _ & Hc3 & Hd3 & _).
  assert (Hc2 : DDRMemoryController.bank_open_row (ddr_controller (Interconnect_tick w1))
                  = DDRMemoryController.bank_open_row (ddr_controller w) /\
                DDRMemoryController.bank_precharge_complete_time
                  (ddr_controller (Interconnect_tick w1))
                  = DDRMemoryController.bank_precharge_complete_time (ddr_controller w) /\
                ddr_memory_physical (Interconnect_tick w1) = ddr_memory_physical w).
  { unfold Interconnect_tick.
    destruct (Interconnect.select (interconnect w1)) as [popped queue]. simpl.
    destruct (controller_requests_frame (ddr_controller w1) popped.*2) as [-> ->].
    by rewrite Hc1, Hd1. }
  destruct Hc2 as (Ho2 & Hp2 & Hd2).
  apply schedule_next_keeps_memory_ok in Hs as (Hbanks' & Hok' & Hsync').
  - destruct (DDRMemory_tick_spec ddr Hok') as (d & Ht' & Hok'' & _ & Ho'' & _).
    rewrite Ht in Ht'. inversion Ht'; subst d.
    unfold memory_ok. simpl. split; [|split; [done|congruence]].
    destruct Hbanks' as (_ & Hlo & Hlp & _).
    destruct Hok' as (_ & _ & _ & Hor' & _).
    destruct Hok'' as (Hn'' & Hs'' & Ht'' & Hor'' & _).
    unfold banks_ok. simpl. rewrite Ho'' in *.
    repeat split; try done; lia.
  - rewrite Hd3, Hd2. unfold banks_ok in *. simpl. rewrite Hc3, Ho2, Hp2. done.
  - by rewrite Hd3, Hd2.
  - simpl. by rewrite Hc3, Ho2, Hd3, Hd2.
Qed.

Lemma simulate_loop_keeps_memory_ok (depth cycles : nat) :
  forall w w',
    memory_ok w -> simulate_loop depth cycles w = Some w' -> memory_ok w'.
Proof.
  induction cycles as [|cycles IH]; intros w w' Hok H; simpl in H.
  - by inversion H; subst.
  - bind_some H as w1 H1. eapply IH; [|exact H].
    by eapply simulate_cycle_keeps_memory_ok.
Qed.

(** X19: when the controller and the DDR memory have one entry for each bank in
    their per-bank lists, agree on the open row of each bank and no bank is
    precharging, the same holds after any number of simulated cycles. *)
Theorem simulate_keeps_memory_ok (depth cycles : nat) (w w' : World) :
  memory_ok w -> simulate depth cycles w = Some w' -> memory_ok w'.
Proof.
  unfold simulate. intros Hok H.
  by eapply simulate_loop_keeps_memory_ok; [|exact H].
Qed.

(** ** Well-formed levels stay well formed *)

Lemma level_rel_config (self self' : CacheLevel.t) :
  level_rel self self' ->
  CacheLevel.line_size self' = CacheLevel.line_size self /\
  CacheLevel.assoc self' = CacheLevel.assoc self /\
  CacheLevel.num_sets self' = CacheLevel.num_sets self /\
  CacheLevel.memory self' = CacheLevel.memory self /\
  CacheLevel.lower self' = CacheLevel.lower self /\
  CacheLevel.write_back self' = CacheLevel.write_back self /\
  CacheLevel.write_allocate self' = CacheLevel.write_allocate self.
Proof. intros [Hc _]. unfold config in Hc. by inversion Hc. Qed.

Lemma level_rel_wf (self self' : CacheLevel.t) :
  level_rel self self' -> level_wf self -> level_wf self'.
Proof.
  intros Hrel [Hshape Hsound]. split; [by eapply level_rel_shape|].
  by apply Hrel.
Qed.

Lemma hierarchy_ok_step (height : nat) :
  forall (w w' : World) (l : nat),
    Forall2 level_rel (caches w) (caches w') ->
    hierarchy_ok height w l -> hierarchy_ok height w' l.
Proof.
  induction height as [|height IH]; intros w w' l Hrel H; [done|].
  destruct H as (self & Hself & Hwf & Hlower).
  destruct (Forall2_lookup_l _ _ _ _ _ Hrel Hself) as (self' & Hself' & Hr).
  exists self'. split; [done|]. split; [by eapply level_rel_wf|].
  destruct (level_rel_config _ _ Hr) as (_ & _ & _ & _ & -> & _).
  destruct (CacheLevel.lower self); [by eapply IH|done].
Qed.

Lemma hierarchy_ok_mono (height : nat) :
  forall (height' : nat) (w : World) (l : nat),
    (height <= height')%nat ->
    hierarchy_ok height w l -> hierarchy_ok height' w l.
Proof.
  induction height as [|height IH]; intros [|height'] w l Hle H; try done; [lia|].
  destruct H as (self & Hself & Hwf & Hlower).
  exists self. split; [done|]. split; [done|].
  destruct (CacheLevel.lower self); [apply (IH height'); [lia|done]|done].
Qed.

Lemma callback_ok_step (depth : nat) (cb : Callback) :
  forall (w w' : World),
    Forall2 level_rel (caches w) (caches w') ->
    length (cores w') = length (cores w) ->
    callback_ok depth w cb -> callback_ok depth w' cb.
Proof.
  induction cb as [n|core addr|l index victim_idx tag cb IH];
    intros w w' Hrel Hcores H; simpl in *.
  - done.
  - apply lookup_lt_is_Some. apply lookup_lt_is_Some in H. lia.
  - destruct H as [(self & Hself & Hwf & Hi & Hv & Hlower) Hcb].
    split; [|by eapply IH].
    destruct (Forall2_lookup_l _ _ _ _ _ Hrel Hself) as (self' & Hself' & Hr).
    destruct (level_rel_config _ _ Hr) as (_ & Ha & Hn & _ & Hl & _).
    exists self'. rewrite Ha, Hn, Hl. split; [done|].
    split; [by eapply level_rel_wf|]. split; [done|]. split; [done|].
    destruct (CacheLevel.lower self); [by eapply hierarchy_ok_step|done].
Qed.

Lemma callback_ok_mono (depth depth' : nat) (w : World) (cb : Callback) :
  (depth <= depth')%nat -> callback_ok depth w cb -> callback_ok depth' w cb.
Proof.
  intros Hle. induction cb as [n|core addr|l index victim_idx tag cb IH];
    simpl; [done|done|].
  intros [(self & Hself & Hwf & Hi & Hv & Hlower) Hcb]. split; [|auto].
  exists self. repeat (split; [done|]).
  destruct (CacheLevel.lower self); [by eapply hierarchy_ok_mono|done].
Qed.

Lemma cache_step_cores {P} (w w' : World) :
  cache_step P w w' -> length (cores w') = length (cores w).
Proof.
  intros (_ & _ & _ & _ & H & _). symmetry. by eapply Forall2_length.
Qed.

Lemma cache_step_caches {P} (w w' : World) :
  cache_step P w w' -> Forall2 level_rel (caches w) (caches w').
Proof. by intros (_ & _ & _ & H & _). Qed.

(** ** The steps of an access do not raise *)

Lemma pow2_bracket (n : Z) : 1 <= n -> exists k, 0 <= k /\ 2 ^ k <= n < 2 ^ (k + 1).
Proof.
  intros Hn. exists (Z.log2 n). split; [apply Z.log2_nonneg|].
  pose proof (Z.log2_spec n ltac:(lia)) as H.
  by replace (Z.succ (Z.log2 n)) with (Z.log2 n + 1) in H by lia.
Qed.

Lemma get_victim_total (p : PLRU.t) (assoc : Z) :
  tree_ok assoc p -> 1 <= assoc ->
  exists v, PLRU.get_victim p = Some v /\ 0 <= v < assoc.
Proof.
  intros (Hways & Hlen & Hbits) Ha.
  destruct (pow2_bracket assoc Ha) as (k & Hk & Hbr).
  unfold PLRU.get_victim, PLRU.get_victim_reads.
  rewrite Hways, (bit_length_between _ k) by done.
  replace (k + 1 - 1) with k by lia.
  destruct (victim_loop_total (Z.to_nat k) (PLRU.bits p) 0 0 0)
    as (v & reads & Hrun & Hv).
  - lia.
  - change (2 ^ 0) with 1. lia.
  - reflexivity.
  - rewrite Z2Nat.id by lia. replace (0 + k) with k by lia. lia.
  - done.
  - exists v. rewrite Hrun. simpl. split; [done|].
    rewrite Z2Nat.id in Hv by lia. lia.
Qed.

Lemma level_set_lookup (self : CacheLevel.t) (index : Z) :
  level_shape self -> 0 <= index < CacheLevel.num_sets self ->
  exists cache_set plru,
    py_getitem (CacheLevel.sets self) index = Some cache_set /\
    Z.of_nat (length cache_set) = CacheLevel.assoc self /\
    cache_set ∈ CacheLevel.sets self /\
    py_getitem (CacheLevel.plru_trees self) index = Some plru /\
    tree_ok (CacheLevel.assoc self) plru.
Proof.
  intros (_ & _ & _ & Hlen & Hways & Hlent & Htrees) Hi.
  destruct (lookup_lt_is_Some_2 (CacheLevel.sets self) (Z.to_nat index))
    as [cache_set Hset]; [lia|].
  destruct (lookup_lt_is_Some_2 (CacheLevel.plru_trees self) (Z.to_nat index))
    as [plru Hplru]; [lia|].
  exists cache_set, plru. rewrite !py_getitem_nonneg by lia.
  split; [done|]. split; [by eapply Forall_lookup_1 in Hways|].
  split; [by eapply list_elem_of_lookup_2|].
  split; [done|]. by eapply Forall_lookup_1 in Htrees.
Qed.

Lemma index_tag_total (self : CacheLevel.t) (addr : Z) :
  level_shape self ->
  exists index tag,
    CacheLevel._index self addr = Some index /\
    CacheLevel._tag self addr = Some tag /\
    0 <= index < CacheLevel.num_sets self.
Proof.
  intros (Hl & Hn & _).
  destruct (index_tag_spec self addr Hl Hn) as [-> ->].
  eexists _, _. split; [done|]. split; [done|]. apply Z.mod_pos_bound. lia.
Qed.

Lemma count_total (l : nat) (w : World) (self : CacheLevel.t) :
  caches w !! l = Some self ->
  is_Some (count_hit l w) /\ is_Some (count_miss l w).
Proof. intros H. unfold count_hit, count_miss. rewrite H. simpl. eauto. Qed.

Lemma set_line_total {P} (w0 w : World) (l : nat) (self : CacheLevel.t)
    (index way : Z) (line : CacheLine.t) :
  cache_step P w0 w -> caches w0 !! l = Some self -> level_shape self ->
  0 <= index < CacheLevel.num_sets self -> 0 <= way < CacheLevel.assoc self ->
  is_Some (set_line l index way line w).
Proof.
  intros Hstep Hself Hshape Hi Hw.
  destruct (cache_step_lookup _ _ _ _ Hstep Hself) as (self' & Hself' & Hrel).
  pose proof (level_rel_shape _ _ Hrel Hshape) as Hshape'.
  destruct (level_rel_config _ _ Hrel) as (_ & Ha & Hn & _).
  destruct (level_set_lookup self' index Hshape') as (cache_set & _ & Hset & Hlen & _);
    [lia|].
  unfold set_line. rewrite Hself'. simpl. rewrite Hset. simpl.
  rewrite py_setitem_nonneg by lia. simpl.
  destruct (py_getitem_setitem (CacheLevel.sets self') index
              (<[Z.to_nat way := line]> cache_set) cache_set Hset) as [sets' ->].
  simpl. eauto.
Qed.

Lemma plru_access_total {P} (w0 w : World) (l : nat) (self : CacheLevel.t)
    (index way : Z) :
  cache_step P w0 w -> caches w0 !! l = Some self -> level_shape self ->
  0 <= index < CacheLevel.num_sets self ->
  is_Some (plru_access l index way w).
Proof.
  intros Hstep Hself Hshape Hi.
  destruct (cache_step_lookup _ _ _ _ Hstep Hself) as (self' & Hself' & Hrel).
  pose proof (level_rel_shape _ _ Hrel Hshape) as Hshape'.
  destruct (level_rel_config _ _ Hrel) as (_ & Ha & Hn & _).
  destruct (level_set_lookup self' index Hshape')
    as (_ & plru & _ & _ & _ & Hplru & Hways & Hlen & Hbits); [lia|].
  destruct Hshape' as (_ & _ & Hassoc & _).
  destruct (pow2_bracket _ Hassoc) as (k & Hk & Hbr).
  destruct (update_on_access_total plru way k) as (bits' & Hrun & _);
    [done|by rewrite Hways|by rewrite Hways|].
  unfold plru_access. rewrite Hself'. simpl. rewrite Hplru. simpl.
  rewrite Hrun. simpl.
  destruct (py_getitem_setitem (CacheLevel.plru_trees self') index
              (PLRU.mk bits' (PLRU.ways plru)) plru Hplru) as [trees ->].
  simpl. eauto.
Qed.

Lemma reconstructed_addr_total (self : CacheLevel.t) (cache_set : list CacheLine.t)
    (victim_line : CacheLine.t) (index : Z) :
  level_sound self -> cache_set ∈ CacheLevel.sets self ->
  victim_line ∈ cache_set -> CacheLine.valid victim_line = true ->
  is_Some (reconstructed_addr self victim_line index).
Proof.
  intros Hsound Hset Hline Hvalid.
  eapply Forall_forall in Hsound; [|exact Hset].
  eapply Forall_forall in Hsound; [|exact Hline].
  destruct Hsound as (_ & Htag & _). destruct (Htag Hvalid) as [tag Ht].
  unfold reconstructed_addr. rewrite Ht. simpl. eauto.
Qed.

Section write_total.
Context (depth : nat).
Hypothesis IH : forall (l : nat) (addr : Z) (w : World),
  hierarchy_ok depth w l -> is_Some (CacheLevel_write depth l addr w).

Lemma propagate_write_total (self : CacheLevel.t) (addr : Z) (w : World) :
  match CacheLevel.lower self with
  | Some lower => hierarchy_ok depth w lower
  | None => True
  end ->
  is_Some (propagate_write (CacheLevel_write depth) self addr w).
Proof.
  unfold propagate_write. destruct (CacheLevel.lower self); [apply IH|].
  destruct (CacheLevel.memory self); eauto.
Qed.

Lemma write_victim_total (self : CacheLevel.t) (cache_set : list CacheLine.t)
    (victim_line : CacheLine.t) (index : Z) (w : World) :
  level_sound self -> cache_set ∈ CacheLevel.sets self ->
  victim_line ∈ cache_set ->
  match CacheLevel.lower self with
  | Some lower => hierarchy_ok depth w lower
  | None => True
  end ->
  is_Some (if CacheLine.valid victim_line && CacheLine.dirty victim_line
              && CacheLevel.write_back self then
             victim_addr ← reconstructed_addr self victim_line index;
             propagate_write (CacheLevel_write depth) self victim_addr w
           else Some w).
Proof.
  intros Hsound Hset Hline Hlower.
  destruct (CacheLine.valid victim_line) eqn:Hvalid; simpl; [|eauto].
  destruct (_ && _); [|eauto].
  destruct (reconstructed_addr_total self cache_set victim_line index)
    as [victim_addr ->]; [done..|].
  simpl. by apply propagate_write_total.
Qed.
End write_total.

Lemma lower_after {P} (height : nat) (w w' : World) (self : CacheLevel.t) :
  cache_step P w w' ->
  match CacheLevel.lower self with
  | Some lower => hierarchy_ok height w lower
  | None => True
  end ->
  match CacheLevel.lower self with
  | Some lower => hierarchy_ok height w' lower
  | None => True
  end.
Proof.
  intros Hstep. destruct (CacheLevel.lower self); [|done].
  apply hierarchy_ok_step. by eapply cache_step_caches.
Qed.

(** ** Writes do not raise *)

Lemma CacheLevel_write_total (depth : nat) :
  forall (l : nat) (addr : Z) (w : World),
    hierarchy_ok depth w l -> is_Some (CacheLevel_write depth l addr w).
Proof.
  induction depth as [|depth IH]; intros l addr w H; [done|].
  destruct H as (self & Hself & [Hshape Hsound] & Hlower).
  cbn [CacheLevel_write]. rewrite Hself. simpl.
  destruct (index_tag_total self addr Hshape) as (index & tag & -> & -> & Hi).
  simpl.
  destruct (level_set_lookup self index Hshape Hi)
    as (cache_set & plru & -> & Hlen & Hin & -> & Hplru).
  simpl. pose proof Hshape as (_ & _ & Hassoc & _).
  destruct (CacheLevel.find_hit cache_set tag 0) as [i|] eqn:Hfind.
  - destruct (count_total l w self Hself) as [[w1 H1] _]. rewrite H1. simpl.
    assert (Hs1 : cache_step no_callback w w1) by (eapply count_step; eauto).
    destruct (find_hit_spec _ _ _ _ Hfind) as [Hib (line & Hline & _)].
    rewrite py_getitem_nonneg by lia.
    replace (i - 0) with i in Hline by lia. rewrite Hline. simpl.
    match goal with
    | |- context [set_line l index i ?ln w1] =>
        destruct (set_line_total w w1 l self index i ln Hs1 Hself Hshape Hi)
          as [w2 H2]; [lia|]
    end.
    rewrite H2. simpl.
    assert (Hs2 : cache_step no_callback w w2).
    { etrans; [exact Hs1|]. eapply set_line_step; [exact H2|].
      apply (line_sound_at (P := no_callback) w w1 l self); [done..|].
      destruct (find_hit_line cache_set tag i line Hfind) as (_ & Hv & Ht).
      { by rewrite py_getitem_nonneg by lia. }
      unfold line_sound. simpl. rewrite Hv, Ht. split; [done|].
      split; [eauto|done]. }
    destruct (plru_access_total w w2 l self index i Hs2 Hself Hshape Hi)
      as [w3 H3].
    rewrite H3. simpl. destruct (CacheLevel.write_back self); [eauto|].
    apply (propagate_write_total depth IH).
    eapply lower_after; [|exact Hlower].
    etrans; [exact Hs2|]. by eapply (plru_access_step (P := no_callback)).
  - destruct (count_total l w self Hself) as [_ [w1 H1]]. rewrite H1. simpl.
    assert (Hs1 : cache_step no_callback w w1) by (eapply count_step; eauto).
    pose proof (lower_after depth w w1 self Hs1 Hlower) as Hlower1.
    destruct (CacheLevel.write_allocate self);
      [|by apply (propagate_write_total depth IH)].
    destruct (get_victim_total plru _ Hplru Hassoc) as (victim_idx & -> & Hv).
    simpl.
    destruct (lookup_lt_is_Some_2 cache_set (Z.to_nat victim_idx))
      as [victim_line Hvline]; [lia|].
    rewrite py_getitem_nonneg, Hvline by lia. simpl.
    destruct (write_victim_total depth IH self cache_set victim_line index w1)
      as [w2 H2]; [done|done|by eapply list_elem_of_lookup_2|done|].
    rewrite H2. simpl.
    assert (Hs2 : cache_step no_callback w w2).
    { etrans; [exact Hs1|]. eapply write_victim_step; [|exact H2].
      apply CacheLevel_write_step. }
    match goal with
    | |- context [set_line l index victim_idx ?ln w2] =>
        destruct (set_line_total w w2 l self index victim_idx ln Hs2 Hself Hshape Hi)
          as [w3 H3]; [lia|]
    end.
    rewrite H3. simpl.
    eapply (plru_access_total w w3 l self); [|done..].
    etrans; [exact Hs2|]. eapply set_line_step; [exact H3|].
    apply (line_sound_at (P := no_callback) w w2 l self); [done..|].
    unfold line_sound. simpl. split; [done|]. split; [eauto|done].
Qed.

(** ** Callables do not raise *)

Lemma run_callback_total (depth : nat) (cb : Callback) :
  forall w, callback_ok depth w cb -> is_Some (run_callback depth cb w).
Proof.
  induction cb as [n|core addr|l index victim_idx tag cb IH]; intros w H;
    cbn [run_callback]; simpl in H.
  - eauto.
  - destruct H as [self ->]. simpl. eauto.
  - destruct H as [(self & Hself & [Hshape Hsound] & Hi & Hv & Hlower) Hcb].
    unfold lower_cb. rewrite Hself. simpl.
    destruct (level_set_lookup self index Hshape Hi)
      as (cache_set & plru & -> & Hlen & Hin & _ & _).
    simpl.
    destruct (lookup_lt_is_Some_2 cache_set (Z.to_nat victim_idx))
      as [victim_line Hvline]; [lia|].
    rewrite py_getitem_nonneg, Hvline by lia. simpl.
    destruct (write_victim_total depth (CacheLevel_write_total depth)
                self cache_set victim_line index w)
      as [w1 H1]; [done|done|by eapply list_elem_of_lookup_2|done|].
    rewrite H1. simpl.
    assert (Hs1 : cache_step no_callback w w1).
    { eapply write_victim_step; [|exact H1]. apply CacheLevel_write_step. }
    match goal with
    | |- context [set_line l index victim_idx ?ln w1] =>
        destruct (set_line_total w w1 l self index victim_idx ln Hs1 Hself Hshape Hi)
          as [w2 H2]; [lia|]
    end.
    rewrite H2. simpl.
    assert (Hs2 : cache_step no_callback w w2).
    { etrans; [exact Hs1|]. eapply set_line_step; [exact H2|].
      apply (line_sound_at (P := no_callback) w w1 l self); [done..|].
      unfold line_sound. simpl. split; [done|]. split; [eauto|done]. }
    destruct (plru_access_total w w2 l self index victim_idx Hs2 Hself Hshape Hi)
      as [w3 H3].
    rewrite H3. simpl. apply IH.
    assert (Hs3 : cache_step no_callback w w3).
    { etrans; [exact Hs2|]. by eapply plru_access_step. }
    eapply callback_ok_step; [| |exact Hcb].
    + by eapply cache_step_caches.
    + by eapply cache_step_cores.
Qed.

(** ** Reads do not raise *)

Lemma request_ok_step (depth : nat) (w w' : World) (req : MemoryRequest.t) :
  Forall2 level_rel (caches w) (caches w') ->
  length (cores w') = length (cores w) ->
  request_ok depth w req -> request_ok depth w' req.
Proof.
  intros Hrel Hcores. unfold request_ok.
  destruct (MemoryRequest.callback req); [|done]. by apply callback_ok_step.
Qed.

Lemma cache_step_request_ok {P} (depth : nat) (w w1 w' : World) :
  cache_step P w w1 -> cache_step no_callback w1 w' ->
  (forall req, P req -> request_ok depth w1 req) ->
  cache_step (request_ok depth w') w w'.
Proof.
  intros H1 H2 HP. etrans.
  - eapply cache_step_weaken; [|exact H1]. intros req Hreq.
    eapply request_ok_step; [| |by apply HP].
    + by eapply cache_step_caches.
    + by eapply cache_step_cores.
  - eapply cache_step_weaken; [|exact H2]. intros req Hreq.
    unfold request_ok. by rewrite Hreq.
Qed.

Lemma CacheLevel_read_total (height : nat) :
  forall (depth k l : nat) (addr : Z) (cb : Callback) (w : World),
    hierarchy_ok height w l -> (height <= k + 1)%nat -> (height + k <= depth)%nat ->
    callback_ok k w cb ->
    exists w',
      CacheLevel_read depth l addr cb w = Some w' /\
      cache_step (request_ok k w') w w'.
Proof.
  induction height as [|height IH]; intros depth k l addr cb w H Hk Hdepth Hcb;
    [done|].
  destruct depth as [|depth]; [lia|].
  destruct H as (self & Hself & [Hshape Hsound] & Hlower).
  cbn [CacheLevel_read]. rewrite Hself. simpl.
  destruct (index_tag_total self addr Hshape) as (index & tag & -> & -> & Hi).
  simpl.
  destruct (level_set_lookup self index Hshape Hi)
    as (cache_set & plru & -> & Hlen & Hin & -> & Hplru).
  simpl. pose proof Hshape as (_ & _ & Hassoc & _).
  destruct (CacheLevel.find_hit cache_set tag 0) as [i|] eqn:Hfind.
  - destruct (count_total l w self Hself) as [[w1 H1] _]. rewrite H1. simpl.
    assert (Hs1 : cache_step no_callback w w1) by (eapply count_step; eauto).
    destruct (plru_access_total w w1 l self index i Hs1 Hself Hshape Hi)
      as [w2 H2].
    rewrite H2. simpl.
    assert (Hs2 : cache_step no_callback w w2).
    { etrans; [exact Hs1|]. by eapply plru_access_step. }
    destruct (run_callback_total depth cb w2) as [w' Hrun].
    { apply (callback_ok_mono k); [lia|].
      eapply callback_ok_step; [| |exact Hcb].
      - by eapply cache_step_caches.
      - by eapply cache_step_cores. }
    exists w'. split; [done|].
    eapply (cache_step_request_ok (P := no_callback) k w w w'); [reflexivity| |].
    + etrans; [exact Hs2|]. by eapply run_callback_step.
    + intros req Hreq. unfold request_ok. by rewrite Hreq.
  - destruct (count_total l w self Hself) as [_ [w1 H1]]. rewrite H1. simpl.
    assert (Hs1 : cache_step no_callback w w1) by (eapply count_step; eauto).
    destruct (get_victim_total plru _ Hplru Hassoc) as (victim_idx & -> & Hv).
    simpl.
    destruct (lookup_lt_is_Some_2 cache_set (Z.to_nat victim_idx))
      as [victim_line Hvline]; [lia|].
    rewrite py_getitem_nonneg, Hvline by lia. simpl.
    assert (Hfill : callback_ok k w1 (CbFill l index victim_idx tag cb)).
    { eapply callback_ok_step;
        [by eapply cache_step_caches|by eapply cache_step_cores|].
      simpl. split; [|done]. exists self. split; [done|].
      split; [done|]. split; [done|]. split; [done|].
      destruct (CacheLevel.lower self) as [lower|]; [|done].
      apply (hierarchy_ok_mono height); [lia|done]. }
    destruct (CacheLevel.lower self) as [lower|] eqn:Hlow.
    + destruct (IH depth k lower addr (CbFill l index victim_idx tag cb) w1)
        as (w' & Hrun & Hs'); [|lia|lia|done|].
      { eapply hierarchy_ok_step; [|exact Hlower]. by eapply cache_step_caches. }
      exists w'. split; [done|].
      etrans; [|exact Hs']. eapply cache_step_weaken; [|exact Hs1].
      intros req Hreq. unfold request_ok. by rewrite Hreq.
    + destruct (CacheLevel.memory self).
      * eexists. split; [reflexivity|].
        etrans.
        { eapply cache_step_weaken; [|exact Hs1].
          intros req Hreq. unfold request_ok. by rewrite Hreq. }
        apply Interconnect_request_step.
        unfold request_ok, MemoryRequest.init. cbn [MemoryRequest.callback].
        eapply callback_ok_step; [| |exact Hfill].
        -- unfold Interconnect_request, randint. simpl. reflexivity.
        -- unfold Interconnect_request, randint. simpl. reflexivity.
      * exists w1. split; [done|].
        eapply cache_step_weaken; [|exact Hs1].
        intros req Hreq. unfold request_ok. by rewrite Hreq.
Qed.

(** ** A simulation does not raise *)

Lemma cores_ok_step (height : nat) (w w' : World) :
  Forall2 level_rel (caches w) (caches w') ->
  Forall2 core_sim (cores w) (cores w') ->
  Forall (fun c => hierarchy_ok height w (MultiLevelCache.l1 (Core.cache c)))
         (cores w) ->
  Forall (fun c => hierarchy_ok height w' (MultiLevelCache.l1 (Core.cache c)))
         (cores w').
Proof.
  intros Hl Hc Hok. apply Forall_lookup. intros i c' Hc'.
  destruct (Forall2_lookup_r _ _ _ _ _ Hc Hc') as (c & Hci & (_ & Hcache & _)).
  rewrite Hcache. eapply hierarchy_ok_step; [exact Hl|].
  by eapply Forall_lookup_1 in Hok.
Qed.

Lemma stored_ok_step (depth : nat) (w w' : World) :
  Forall2 level_rel (caches w) (caches w') ->
  length (cores w') = length (cores w) ->
  (forall r, r ∈ stored w' ->
     r ∈ stored w \/ request_ok depth w' r \/
     exists r0 t c, r0 ∈ stored w /\ r = MemoryRequest.set_times r0 t c) ->
  Forall (request_ok depth w) (stored w) ->
  Forall (request_ok depth w') (stored w').
Proof.
  intros Hl Hc Hsub Hok. apply Forall_forall. intros r Hr.
  destruct (Hsub r Hr) as [Hin | [Hnew | (r0 & t & c & Hin & ->)]].
  - eapply request_ok_step; [done..|]. by eapply Forall_forall in Hok.
  - done.
  - change (request_ok depth w' r0).
    eapply request_ok_step; [done..|]. by eapply Forall_forall in Hok.
Qed.

Lemma tick_step_cores (w w' : World) :
  tick_step w w' -> length (cores w') = length (cores w).
Proof. intros (_ & _ & H & _). symmetry. by eapply Forall2_length. Qed.

Lemma stored_cache_step {P} (w w' : World) :
  cache_step P w w' -> forall r, r ∈ stored w' -> r ∈ stored w \/ P r.
Proof.
  intros (_ & _ & _ & _ & _ & (_ & _ & _ & _ & new & Hq & Hnew) & Hctrl & _) r Hr.
  unfold stored in *. rewrite Hctrl, Hq, fmap_app, <- app_assoc in Hr.
  apply elem_of_app in Hr as [Hr | Hr]; [|by left].
  right. apply list_elem_of_fmap in Hr as (e & -> & He).
  eapply Forall_forall in Hnew; [|exact He]. apply Hnew.
Qed.

Lemma stored_ext (w w' : World) :
  interconnect w' = interconnect w -> ddr_controller w' = ddr_controller w ->
  stored w' = stored w.
Proof. intros Hi Hc. unfold stored. by rewrite Hi, Hc. Qed.

Lemma Core_set_stall_op_total (core : nat) (op : option (ReqType * Z)) (w : World) :
  (core < length (cores w))%nat ->
  exists w',
    Core_set_stall_op core op w = Some w' /\
    caches w' = caches w /\ length (cores w') = length (cores w) /\
    stored w' = stored w.
Proof.
  intros Hcore. unfold Core_set_stall_op.
  destruct (lookup_lt_is_Some_2 (cores w) core Hcore) as [self ->]. simpl.
  eexists. split; [reflexivity|]. simpl. by rewrite length_insert.
Qed.

Section Core_tick_total.
Context (height depth k core : nat) (w : World) (self : Core.t).
Hypothesis Hk : (height <= k + 1)%nat.
Hypothesis Hdepth : (height + k <= depth)%nat.
Hypothesis Hself : cores w !! core = Some self.
Hypothesis Hl1 : hierarchy_ok height w (MultiLevelCache.l1 (Core.cache self)).

Lemma Core_write_total (addr : Z) :
  exists w1,
    Core_write depth self addr w = Some w1 /\
    length (cores w1) = length (cores w) /\
    forall r, r ∈ stored w1 -> r ∈ stored w \/ request_ok k w1 r.
Proof.
  unfold Core_write.
  destruct (CacheLevel_write_total depth (MultiLevelCache.l1 (Core.cache self))
              addr w) as [w1 H1].
  { apply (hierarchy_ok_mono height); [lia|done]. }
  exists w1. split; [done|].
  pose proof (CacheLevel_write_step _ _ _ _ _ H1) as Hs.
  split; [by eapply cache_step_cores|].
  intros r Hr. destruct (stored_cache_step _ _ Hs r Hr) as [? | Hnone]; [by left|].
  right. unfold request_ok. by rewrite Hnone.
Qed.

Lemma Core_issue_read_total (addr : Z) :
  exists w1,
    Core_issue_read depth core addr w = Some w1 /\
    length (cores w1) = length (cores w) /\
    forall r, r ∈ stored w1 -> r ∈ stored w \/ request_ok k w1 r.
Proof.
  unfold Core_issue_read, Core_read. rewrite Hself. simpl.
  set (w0 := set_cores w (<[core := Core.enqueue_access self read addr]> (cores w))).
  destruct (CacheLevel_read_total height depth k
              (MultiLevelCache.l1 (Core.cache self)) addr (CbDequeue core addr) w0)
    as (w1 & H1 & Hs); [|done|done| |].
  - eapply hierarchy_ok_step; [|exact Hl1]. simpl. reflexivity.
  - simpl. apply lookup_lt_is_Some. rewrite length_insert.
    by eapply lookup_lt_Some.
  - exists w1. split; [done|].
    split; [rewrite (cache_step_cores _ _ Hs); simpl; by rewrite length_insert|].
    intros r Hr. by destruct (stored_cache_step _ _ Hs r Hr); [left|right].
Qed.

Lemma then_set_stall_op (w1 : World) (op : option (ReqType * Z)) :
  length (cores w1) = length (cores w) ->
  (forall r, r ∈ stored w1 -> r ∈ stored w \/ request_ok k w1 r) ->
  exists w',
    Core_set_stall_op core op w1 = Some w' /\
    forall r, r ∈ stored w' -> r ∈ stored w \/ request_ok k w' r.
Proof.
  intros Hlen Hsub.
  destruct (Core_set_stall_op_total core op w1) as (w' & H & Hca & Hco & Hst).
  { rewrite Hlen. by eapply lookup_lt_Some. }
  exists w'. split; [done|]. intros r Hr. rewrite Hst in Hr.
  destruct (Hsub r Hr) as [? | Hok]; [by left|right].
  eapply request_ok_step; [| |exact Hok]; [by rewrite Hca|done].
Qed.

Lemma Core_tick_total :
  exists w',
    Core_tick depth core w = Some w' /\
    forall r, r ∈ stored w' -> r ∈ stored w \/ request_ok k w' r.
Proof.
  unfold Core_tick. rewrite Hself. simpl.
  destruct (Core.stall_op self) as [[op addr]|].
  - destruct (Core.dependency self op addr); simpl; [by exists w; auto|].
    destruct op.
    + destruct (Core_issue_read_total addr) as (w1 & -> & Hlen & Hsub). simpl.
      by apply then_set_stall_op.
    + destruct (Core_write_total addr) as (w1 & -> & Hlen & Hsub). simpl.
      by apply then_set_stall_op.
  - destruct (Core.inst self !! global_cycle w) as [[[] addr]|];
      [| |by exists w; auto].
    + destruct (Core.dependency self read addr).
      * apply then_set_stall_op; auto.
      * destruct (Core_issue_read_total addr) as (w1 & -> & _ & Hsub). eauto.
    + destruct (Core.dependency self write addr).
      * apply then_set_stall_op; auto.
      * destruct (Core_write_total addr) as (w1 & -> & _ & Hsub). eauto.
Qed.
End Core_tick_total.

Lemma Core_tick_keeps_wf (height depth k core : nat) (w : World) :
  (height <= k + 1)%nat -> (height + k <= depth)%nat ->
  world_wf height k w -> (core < length (cores w))%nat ->
  exists w', Core_tick depth core w = Some w' /\ world_wf height k w'.
Proof.
  intros Hk Hdepth (Hcores & Hmem & Hreq) Hcore.
  destruct (lookup_lt_is_Some_2 (cores w) core Hcore) as [self Hself].
  destruct (Core_tick_total height depth k core w self) as (w' & Hrun & Hsub);
    [done..|by eapply Forall_lookup_1 in Hcores|].
  exists w'. split; [done|].
  pose proof (Core_tick_step _ _ _ _ Hrun) as (_ & Hl & Hc & _ & Hctrl & Hddr).
  split; [by eapply cores_ok_step|]. split.
  { unfold memory_ok. by rewrite Hctrl, Hddr. }
  eapply (stored_ok_step k w);
    [exact Hl|symmetry; by eapply Forall2_length| |exact Hreq].
  intros r Hr. destruct (Hsub r Hr); auto.
Qed.

Lemma Core_ticks_keep_wf (height depth k : nat) (ids : list nat) :
  (height <= k + 1)%nat -> (height + k <= depth)%nat ->
  forall w,
    world_wf height k w -> Forall (fun core => (core < length (cores w))%nat) ids ->
    exists w',
      foldl (fun w core => w ← w; Core_tick depth core w) (Some w) ids = Some w' /\
      world_wf height k w'.
Proof.
  intros Hk Hdepth. induction ids as [|core ids IH]; intros w Hwf Hids; simpl.
  - by exists w.
  - apply Forall_cons in Hids as [Hcore Hids].
    destruct (Core_tick_keeps_wf height depth k core w) as (w1 & H1 & Hwf1);
      [done..|].
    rewrite H1. apply IH; [done|].
    pose proof (tick_step_cores _ _ (Core_tick_step _ _ _ _ H1)) as Hlen.
    by rewrite Hlen.
Qed.

(** The interconnect hands requests over to the controller. *)
Lemma Interconnect_tick_keeps_wf (height k : nat) (w : World) :
  world_wf height k w -> world_wf height k (Interconnect_tick w).
Proof.
  intros (Hcores & (Hbanks & Hok & Hsync) & Hreq).
  destruct (Interconnect_tick_caches w) as [Hca Hco].
  assert (Hst : forall r, r ∈ stored (Interconnect_tick w) -> r ∈ stored w).
  { unfold Interconnect_tick, stored, Interconnect.select.
    destruct (select_loop_spec (Interconnect.cycle (interconnect w))
                (Interconnect.bandwidth (interconnect w))
                (length (Interconnect.queue (interconnect w)))
                (Interconnect.queue (interconnect w)) 0 [])
      as (new & queue' & -> & Hperm & _).
    simpl.
    destruct (controller_request_all (ddr_controller w) new.*2) as (Hq & -> & _).
    intros r. rewrite Hq, Hperm, !fmap_app, !elem_of_app.
    rewrite <- list_fmap_compose.
    intros [? | [[? | Hr] | ?]]; auto.
    left. left. apply list_elem_of_fmap in Hr as (r' & -> & Hr'). done. }
  assert (Hm : DDRMemoryController.bank_open_row (ddr_controller (Interconnect_tick w))
                 = DDRMemoryController.bank_open_row (ddr_controller w) /\
               DDRMemoryController.bank_precharge_complete_time
                 (ddr_controller (Interconnect_tick w))
                 = DDRMemoryController.bank_precharge_complete_time (ddr_controller w) /\
               ddr_memory_physical (Interconnect_tick w) = ddr_memory_physical w).
  { unfold Interconnect_tick.
    destruct (Interconnect.select (interconnect w)) as [popped queue]. simpl.
    by destruct (controller_requests_frame (ddr_controller w) popped.*2) as [-> ->]. }
  destruct Hm as (Ho & Hp & Hd).
  split; [|split].
  - rewrite Hco. eapply Forall_impl; [exact Hcores|]. simpl. intros c.
    apply hierarchy_ok_step. by rewrite Hca.
  - unfold memory_ok, banks_ok in *. by rewrite Ho, Hp, Hd.
  - eapply (stored_ok_step k w); [by rewrite Hca|by rewrite Hco| |exact Hreq].
    intros r Hr. left. by apply Hst.
Qed.

(** The callables of the reads that are due. *)
Lemma run_callbacks_total (depth : nat) (callbacks : list Callback) :
  forall w,
    Forall (callback_ok depth w) callbacks ->
    exists w',
      run_callbacks depth callbacks w = Some w' /\ cache_step no_callback w w'.
Proof.
  induction callbacks as [|cb callbacks IH]; intros w Hok; simpl.
  - exists w. split; [done|reflexivity].
  - apply Forall_cons in Hok as [Hcb Hok].
    destruct (run_callback_total depth cb w Hcb) as [w1 H1]. rewrite H1. simpl.
    pose proof (run_callback_step _ _ _ _ H1) as Hs1.
    destruct (IH w1) as (w' & H' & Hs').
    + eapply Forall_impl; [exact Hok|]. intros c. simpl.
      apply callback_ok_step; [by eapply cache_step_caches|by eapply cache_step_cores].
    + exists w'. split; [done|by etrans].
Qed.

Lemma due_reads_ok (depth : nat) (w : World) (cycle : Z) (infos : list ReqInfo) :
  Forall (fun info => request_ok depth w (info_request info)) infos ->
  Forall (callback_ok depth w) (due_reads cycle infos).
Proof.
  intros Hok. apply Forall_forall. intros cb Hcb.
  unfold due_reads in Hcb. apply list_elem_of_omap in Hcb as (info & Hin & Hcb).
  eapply Forall_forall in Hok; [|exact Hin]. unfold request_ok in Hok.
  destruct (_ <=? _); [|done].
  destruct (MemoryRequest.req_type (info_request info)); [|done].
  destruct (MemoryRequest.callback (info_request info)); [|done].
  by inversion Hcb; subst.
Qed.

Lemma schedule_next_total (self : DDRMemoryController.t) (ddr : DDRMemory.t) :
  banks_ok self ddr ->
  exists self' ddr',
    DDRMemoryController._schedule_next_request self ddr = Some (self', ddr') /\
    forall r,
      r ∈ (DDRMemoryController.queue self').*2
          ++ (info_request <$> DDRMemoryController.scheduled_ddr_requests self') ->
      r ∈ (DDRMemoryController.queue self).*2
          ++ (info_request <$> DDRMemoryController.scheduled_ddr_requests self) \/
      exists r0 t c,
        r0 ∈ (DDRMemoryController.queue self).*2 /\
        r = MemoryRequest.set_times r0 t c.
Proof.
  intros Hbanks.
  assert (Haux : exists self' ddr',
    (candidates ← DDRMemoryController.sorted_candidates self ddr;
     match candidates with
     | [] => Some (self, ddr)
     | best_req :: _ => DDRMemoryController.schedule self ddr best_req
     end) = Some (self', ddr') /\
    forall r,
      r ∈ (DDRMemoryController.queue self').*2
          ++ (info_request <$> DDRMemoryController.scheduled_ddr_requests self') ->
      r ∈ (DDRMemoryController.queue self).*2
          ++ (info_request <$> DDRMemoryController.scheduled_ddr_requests self) \/
      exists r0 t c,
        r0 ∈ (DDRMemoryController.queue self).*2 /\
        r = MemoryRequest.set_times r0 t c).
  { destruct (candidates_loop_spec self ddr Hbanks (DDRMemoryController.queue self) [])
      as (candidates & Hloop & _ & Hiff).
    simpl in Hloop.
    destruct (sorted_candidates_spec self ddr Hbanks candidates Hloop)
      as (sorted & Hsorted & Hperm & _).
    rewrite Hsorted. simpl.
    destruct sorted as [|best_req rest]; [exists self, ddr; auto|].
    assert (Hin : best_req ∈ (DDRMemoryController.queue self).*2).
    { apply Hiff. rewrite <- Hperm. by left. }
    destruct (schedule_spec self ddr best_req Hbanks Hin)
      as (bank & open & self' & ddr' & H).
    cbv zeta in H.
    destruct H as (_ & _ & _ & Hrun & _ & Hsched & (t & Hqueue) & _).
    exists self', ddr'. split; [done|].
    intros r. rewrite Hsched, fmap_app, !elem_of_app.
    intros [Hr | [Hr | Hr]].
    - left. left. rewrite Hqueue. simpl. by right.
    - left. by right.
    - right. simpl in Hr. apply list_elem_of_singleton in Hr.
      eexists best_req, _, _. split; [|exact Hr]. done. }
  unfold DDRMemoryController._schedule_next_request.
  destruct (DDRMemoryController.queue self) as [|e queue] eqn:Hq; [|exact Haux].
  exists self, ddr. split; [done|]. rewrite Hq. auto.
Qed.

Lemma DDRMemoryController_tick_keeps_wf (height depth k : nat) (w : World) :
  (k <= depth)%nat -> world_wf height k w ->
  exists w',
    DDRMemoryController_tick depth w = Some w' /\
    Forall (fun c => hierarchy_ok height w' (MultiLevelCache.l1 (Core.cache c)))
           (cores w') /\
    banks_ok (ddr_controller w') (ddr_memory_physical w') /\
    ddr_ok (ddr_memory_physical w') /\
    DDRMemoryController.bank_open_row (ddr_controller w')
      = DDRMemory.bank_open_row (ddr_memory_physical w') /\
    Forall (request_ok k w') (stored w') /\
    global_cycle w' = global_cycle w.
Proof.
  intros Hdepth (Hcores & (Hbanks & Hok & Hsync) & Hreq).
  unfold DDRMemoryController_tick, DDRMemoryController_complete_ddr_requests.
  rewrite complete_loop_runs.
  set (cycle := DDRMemoryController.cycle (ddr_controller w)).
  set (infos := DDRMemoryController.scheduled_ddr_requests (ddr_controller w)).
  destruct (run_callbacks_total depth (due_reads cycle infos) w)
    as (w1 & Hrun & Hs).
  { eapply Forall_impl; [apply (due_reads_ok k w)|].
    - unfold stored in Hreq. apply Forall_app in Hreq as [_ Hreq].
      apply Forall_app in Hreq as [_ Hreq]. rewrite Forall_fmap in Hreq.
      exact Hreq.
    - intros cb. by apply callback_ok_mono. }
  rewrite Hrun. simpl.
  pose proof Hs as (Hg & _ & _ & Hl & Hc & Hi & Hctrl & Hddr & _).
  rewrite Hctrl. fold infos.
  pose proof (remove_completed
                (fun info => MemoryRequest.completion_time (info_request info)
                             <= cycle) [] infos ltac:(constructor)) as Hrem.
  cbn [app] in Hrem. rewrite Hrem. clear Hrem.
  set (left := filter (fun info => ~ MemoryRequest.completion_time (info_request info)
                                     <= cycle) infos).
  set (self1 := DDRMemoryController.set_scheduled_ddr_requests (ddr_controller w) left).
  assert (Hbanks1 : banks_ok self1 (ddr_memory_physical w1))
    by (by rewrite Hddr).
  destruct (schedule_next_total self1 (ddr_memory_physical w1) Hbanks1)
    as (self' & ddr' & Hsched & Hsub).
  rewrite Hsched. simpl. eexists. split; [reflexivity|].
  match goal with |- Forall _ (cores ?x) /\ _ => set (w' := x) end.
  apply schedule_next_keeps_memory_ok in Hsched as (Hbanks' & Hok' & Hsync');
    [|done|by rewrite Hddr|by rewrite Hddr].
  split; [|split; [done|split; [done|split; [done|split; [|done]]]]].
  { apply (cores_ok_step height w w'); [exact Hl| |exact Hcores].
    eapply Forall2_impl; [exact Hc|]. apply core_rel_sim. }
  apply (stored_ok_step k w w'); [exact Hl|exact (cache_step_cores w w1 Hs)| |exact Hreq].
  intros r Hr. unfold stored in Hr. simpl in Hr.
  apply elem_of_app in Hr as [Hr | Hr].
  - destruct (stored_cache_step _ _ Hs r) as [? | Hnone]; [|by left|].
    { unfold stored. apply elem_of_app. by left. }
    right. left. unfold request_ok. by rewrite Hnone.
  - destruct (Hsub r Hr) as [Hr' | (r0 & t & c & Hr0 & ->)].
    + left. unfold stored. rewrite !elem_of_app.
      apply elem_of_app in Hr' as [Hr' | Hr']; [right; by left|].
      right. right. simpl in Hr'. subst left.
      apply list_elem_of_fmap in Hr' as (info & -> & Hinfo).
      apply list_elem_of_filter in Hinfo as [_ Hinfo].
      apply list_elem_of_fmap. by exists info.
    + right. right. exists r0, t, c. split; [|done].
      unfold stored. rewrite !elem_of_app. right. by left.
Qed.

Lemma simulate_cycle_keeps_wf (height depth k : nat) (w : World) :
  (height <= k + 1)%nat -> (height + k <= depth)%nat ->
  world_wf height k w ->
  exists w', simulate_cycle depth w = Some w' /\ world_wf height k w'.
Proof.
  intros Hk Hdepth Hwf. unfold simulate_cycle.
  destruct (Core_ticks_keep_wf height depth k (seq 0 (length (cores w))) Hk Hdepth
              w Hwf) as (w1 & -> & Hwf1).
  { apply Forall_forall. intros core Hcore. apply elem_of_seq in Hcore. lia. }
  simpl.
  pose proof (Interconnect_tick_keeps_wf height k w1 Hwf1) as Hwf2.
  destruct (DDRMemoryController_tick_keeps_wf height depth k (Interconnect_tick w1))
    as (w3 & -> & Hcores & Hbanks & Hok & Hsync & Hreq & _); [lia|done|].
  simpl.
  destruct (DDRMemory_tick_spec _ Hok) as (ddr' & -> & Hok' & _ & Ho' & _).
  simpl. eexists. split; [reflexivity|].
  split; [|split].
  - eapply Forall_impl; [exact Hcores|]. simpl. intros c.
    apply hierarchy_ok_step. simpl. reflexivity.
  - unfold memory_ok. simpl. split; [|split; [done|congruence]].
    destruct Hbanks as (_ & Hlo & Hlp & _).
    destruct Hok as (_ & _ & _ & Hor & _).
    destruct Hok' as (Hn' & Hs' & Ht' & Hor' & _).
    unfold banks_ok. rewrite Ho' in *. repeat split; try done; lia.
  - eapply Forall_impl; [exact Hreq|]. simpl. intros r.
    apply request_ok_step; simpl; [reflexivity|done].
Qed.

Lemma simulate_loop_keeps_wf (height depth k cycles : nat) :
  (height <= k + 1)%nat -> (height + k <= depth)%nat ->
  forall w,
    world_wf height k w ->
    exists w', simulate_loop depth cycles w = Some w' /\ world_wf height k w'.
Proof.
  intros Hk Hdepth. induction cycles as [|cycles IH]; intros w Hwf; simpl.
  - by exists w.
  - destruct (simulate_cycle_keeps_wf height depth k w Hk Hdepth Hwf)
      as (w1 & -> & Hwf1).
    simpl. by apply IH.
Qed.

(** The global cycle plays no part in what makes a world well formed. *)
Lemma world_wf_global_cycle (height depth : nat) (w : World) (c : Z) :
  world_wf height depth w -> world_wf height depth (set_global_cycle w c).
Proof.
  intros (Hcores & Hmem & Hreq). split; [|split; [exact Hmem|]].
  - eapply Forall_impl; [exact Hcores|]. simpl. intros core.
    apply hierarchy_ok_step. simpl. reflexivity.
  - eapply Forall_impl; [exact Hreq|]. simpl. intros r.
    apply request_ok_step; simpl; [reflexivity|done].
Qed.

Lemma simulate_keeps_wf (height depth k cycles : nat) :
  (height <= k + 1)%nat -> (height + k <= depth)%nat ->
  forall w,
    world_wf height k w ->
    exists w', simulate depth cycles w = Some w' /\ world_wf height k w'.
Proof.
  intros Hk Hdepth w Hwf. unfold simulate.
  apply simulate_loop_keeps_wf; [done..|]. by apply world_wf_global_cycle.
Qed.

(** ** Construction *)

Lemma CacheLevel_init_wf (level_name : string) (core_id : CoreId)
    (size line_size assoc : Z) (memory write_back write_allocate : bool) :
  0 < line_size -> 1 <= assoc -> line_size * assoc <= size ->
  exists self,
    CacheLevel.init level_name core_id size line_size assoc memory write_back
                    write_allocate = Some self /\
    level_wf self /\
    CacheLevel.num_sets self = size / line_size / assoc /\
    CacheLevel.lower self = None.
Proof.
  intros Hl Ha Hs. unfold CacheLevel.init, py_floordiv.
  rewrite (proj2 (Z.eqb_neq line_size 0)) by lia. simpl.
  rewrite (proj2 (Z.eqb_neq assoc 0)) by lia. simpl.
  eexists. split; [reflexivity|]. simpl.
  assert (Hn : 0 < size / line_size / assoc).
  { apply Z.div_str_pos. split; [lia|].
    apply Z.div_le_lower_bound; lia. }
  split; [|done]. unfold level_wf, level_shape, level_sound. simpl.
  unfold py_repeat. rewrite !length_replicate.
  split.
  - split; [done|]. split; [done|]. split; [done|]. split; [lia|].
    split; [|split; [lia|]].
    + apply Forall_replicate. rewrite length_replicate. lia.
    + apply Forall_replicate. unfold tree_ok, PLRU.init, py_repeat. simpl.
      rewrite length_replicate. split; [done|]. split; [lia|].
      apply Forall_replicate. by left.
  - apply Forall_replicate, Forall_replicate. unfold line_sound. simpl.
    split; [done|]. split; [done|done].
Qed.

Lemma memory_init_ok (num_banks tRCD tRP tCAS tRC tWR tRTP tCCD : Z) (w : World) :
  0 < num_banks ->
  ddr_controller w
    = DDRMemoryController.init num_banks tRCD tRP tCAS tRC tWR tRTP tCCD ->
  ddr_memory_physical w = DDRMemory.init num_banks ->
  memory_ok w.
Proof.
  intros Hn Hc Hd. unfold memory_ok, banks_ok, ddr_ok. rewrite Hc, Hd.
  simpl. unfold py_repeat. rewrite !length_replicate.
  repeat split; try lia. apply Forall_replicate. discriminate.
Qed.

Lemma Experiment_wf (random : nat -> Z) (inst0 inst1 : gmap Z (ReqType * Z)) :
  exists w,
    Experiment random inst0 inst1 = Some w /\ world_wf 2 1 w /\ global_cycle w = 0.
Proof.
  unfold Experiment.
  destruct (CacheLevel_init_wf "L2" (CoreStr "anycore") 1024 4 16 true true true)
    as (l2 & -> & Hwf2 & _ & Hlow2); [lia..|].
  destruct (CacheLevel_init_wf "L1" (CoreInt 0) 32 4 2 false true true)
    as (l10 & -> & Hwf10 & _ & _); [lia..|].
  destruct (CacheLevel_init_wf "L1" (CoreInt 1) 32 4 2 false true true)
    as (l11 & -> & Hwf11 & _ & _); [lia..|].
  simpl. eexists. split; [reflexivity|]. split; [|done].
  split; [|split].
  - simpl. constructor; [|constructor; [|constructor]].
    + exists (CacheLevel.set_lower l10 (Some 0%nat)).
      split; [done|]. split; [exact Hwf10|].
      cbn [CacheLevel.lower CacheLevel.set_lower].
      exists l2. split; [done|]. split; [done|]. by rewrite Hlow2.
    + exists (CacheLevel.set_lower l11 (Some 0%nat)).
      split; [done|]. split; [exact Hwf11|].
      cbn [CacheLevel.lower CacheLevel.set_lower].
      exists l2. split; [done|]. split; [done|]. by rewrite Hlow2.
  - by eapply (memory_init_ok 4).
  - unfold stored. simpl. constructor.
Qed.

(** ** Worlds of the examples *)

Lemma small_level_wf (self : CacheLevel.t) :
  self = small_l2 \/ self = small_l1 -> level_wf self.
Proof.
  assert (Hline : forall wb, line_sound wb CacheLine.init).
  { intros wb. unfold line_sound. simpl. done. }
  assert (Htree : tree_ok 2 (PLRU.mk [0] 2)).
  { unfold tree_ok. simpl. split; [done|]. split; [done|].
    constructor; [by left|constructor]. }
  intros [-> | ->]; (split; [unfold level_shape|unfold level_sound]); simpl.
  - split; [lia|]. split; [lia|]. split; [lia|]. split; [done|].
    split; [repeat constructor|]. split; [done|]. repeat constructor.
  - repeat first [apply Hline | apply Forall_nil_2 | apply Forall_cons_2].
  - split; [lia|]. split; [lia|]. split; [lia|]. split; [done|].
    split; [repeat constructor|]. split; [done|]. repeat constructor.
  - repeat first [apply Hline | apply Forall_nil_2 | apply Forall_cons_2].
Qed.

Lemma small_world_wf : world_wf 2 1 small_world.
Proof.
  split; [|split].
  - constructor; [|constructor]. exists small_l1. split; [done|].
    split; [apply small_level_wf; by right|].
    exists small_l2. split; [done|]. split; [apply small_level_wf; by left|done].
  - by eapply (memory_init_ok 4).
  - unfold stored. simpl. constructor.
Qed.

Lemma small_world_sound : Forall level_sound (caches small_world).
Proof.
  constructor; [apply small_level_wf; by left|].
  constructor; [apply small_level_wf; by right|constructor].
Qed.

(** ** Accesses and simulations that do not raise *)

(** X21: a read of such a level returns when its callable can be called and
    enough nested calls are allowed; the levels stay well formed, and the
    callable of every request it sends to the interconnect can be called
    later. *)
Theorem read_never_raises (height depth k l : nat) (addr : Z) (cb : Callback)
    (w : World) :
  hierarchy_ok height w l -> callback_ok k w cb ->
  (height <= k + 1)%nat -> (height + k <= depth)%nat ->
  exists w',
    CacheLevel_read depth l addr cb w = Some w' /\
    hierarchy_ok height w' l /\
    cache_step (request_ok k w') w w'.
Proof.
  intros Hok Hcb Hk Hdepth.
  destruct (CacheLevel_read_total height depth k l addr cb w Hok Hk Hdepth Hcb)
    as (w' & Hw' & Hstep).
  exists w'. split; [done|]. split; [|done].
  eapply hierarchy_ok_step; [|exact Hok]. by eapply cache_step_caches.
Qed.

Lemma read_never_raises_witness :
  exists w',
    CacheLevel_read 3 1 64 (CbDequeue 0 64) small_world = Some w' /\
    hierarchy_ok 2 w' 1 /\
    cache_step (request_ok 1 w') small_world w'.
Proof.
  apply (read_never_raises 2 3 1 1 64 (CbDequeue 0 64) small_world); [| |lia|lia].
  - destruct small_world_wf as (Hcores & _).
    exact (Forall_lookup_1 _ _ 0%nat small_core Hcores eq_refl).
  - simpl. by eexists.
Defined.

(** X22: in a world whose cores sit on well formed hierarchies of at most
    [height] levels, whose controller and DDR memory agree, and in which the
    callable of every request under way can be called, [simulate] runs any
    number of cycles: no tick raises, such a world is left, and the global
    cycle, which [simulate] sets to 0 first, ends at [cycles]. *)
Theorem simulate_never_raises (height depth k cycles : nat) (w : World) :
  (height <= k + 1)%nat -> (height + k <= depth)%nat ->
  world_wf height k w ->
  exists w',
    simulate depth cycles w = Some w' /\
    world_wf height k w' /\
    global_cycle w' = Z.of_nat cycles.
Proof.
  intros Hk Hdepth Hwf.
  destruct (simulate_keeps_wf height depth k cycles Hk Hdepth w Hwf)
    as (w' & Hrun & Hwf').
  exists w'. split; [done|]. split; [done|].
  apply simulate_rel in Hrun as (_ & _ & Hclocks).
  unfold clocks in Hclocks. by inversion Hclocks.
Qed.

Lemma simulate_never_raises_witness :
  exists w',
    simulate 3 80 (set_global_cycle small_world 30) = Some w' /\
    world_wf 2 1 w' /\
    global_cycle w' = Z.of_nat 80.
Proof.
  apply (simulate_never_raises 2 3 1 80 (set_global_cycle small_world 30));
    [lia|lia|].
  apply world_wf_global_cycle, small_world_wf.
Defined.

(** X23: for every random generator and every two traces of reads and writes,
    [Experiment] is constructed and [simulate(cycles)] runs all its cycles
    without raising, for every number of cycles, when three nested calls are
    allowed; the global cycle ends at [cycles]. *)
Theorem experiment_never_raises (random : nat -> Z)
    (inst0 inst1 : gmap Z (ReqType * Z)) (depth cycles : nat) :
  (3 <= depth)%nat ->
  exists w w',
    Experiment random inst0 inst1 = Some w /\
    simulate depth cycles w = Some w' /\
    world_wf 2 1 w' /\
    global_cycle w' = Z.of_nat cycles.
Proof.
  intros Hdepth.
  destruct (Experiment_wf random inst0 inst1) as (w & Hw & Hwf & Hzero).
  destruct (simulate_keeps_wf 2 depth 1 cycles ltac:(lia) ltac:(lia) w Hwf)
    as (w' & Hrun & Hwf').
  exists w, w'. split; [done|]. split; [done|]. split; [done|].
  apply simulate_rel in Hrun as (_ & _ & Hclocks).
  unfold clocks in Hclocks. inversion Hclocks as [[Hg Hi Hc Hd]].
  lia.
Qed.

Lemma experiment_never_raises_witness :
  exists w w',
    Experiment (fun _ => 1) {[0 := (read, 0); 10 := (write, 5); 60 := (read, 17)]}
               {[3 := (read, 2); 15 := (write, 6); 45 := (read, 23)]} = Some w /\
    simulate 3 100 w = Some w' /\
    world_wf 2 1 w' /\
    global_cycle w' = Z.of_nat 100.
Proof.
  apply (experiment_never_raises (fun _ => 1)
           {[0 := (read, 0); 10 := (write, 5); 60 := (read, 17)]}
           {[3 := (read, 2); 15 := (write, 6); 45 := (read, 23)]} 3 100).
  lia.
Defined.

Lemma victim_loop_zeros (n : nat) :
  forall (m : nat) (idx j : Z),
    0 <= j -> idx = 2 ^ j - 1 -> 2 ^ (j + Z.of_nat n) - 1 <= Z.of_nat m ->
    exists reads, PLRU.victim_loop n (replicate m 0) 0 idx = Some (0, reads).
Proof.
  induction n as [|n IH]; intros m idx j Hj Hidx Hlen; [by eexists|].
  assert (Hpj : 0 < 2 ^ j) by (apply Z.pow_pos_nonneg; lia).
  assert (Hpn : 2 ^ j <= 2 ^ (j + Z.of_nat n))
    by (apply Z.pow_le_mono_r; lia).
  rewrite pow2_succ_nat in Hlen by done.
  cbn [PLRU.victim_loop].
  rewrite py_getitem_nonneg by (rewrite length_replicate; lia).
  rewrite lookup_replicate_2 by lia. simpl.
  rewrite !Z.shiftl_mul_pow2 by lia. change (2 ^ 1) with 2.
  change (Z.lor (0 * 2) 0) with 0.
  destruct (IH m (idx * 2 + 1 + 0) (j + 1)) as [reads Hreads].
  - lia.
  - rewrite Z.pow_add_r by lia. change (2 ^ 1) with 2. lia.
  - replace (j + 1 + Z.of_nat n) with (j + Z.of_nat n + 1) by lia.
    rewrite Z.pow_add_r by lia. change (2 ^ 1) with 2. lia.
  - rewrite Hreads. simpl. by eexists.
Qed.

Lemma find_hit_init (n : nat) (tag i : Z) :
  CacheLevel.find_hit (replicate n CacheLine.init) tag i = None.
Proof. revert i. induction n as [|n IH]; intros i; simpl; [done|apply IH]. Qed.

(** X24: a level constructed with a positive line size, at least one way and a
    size of at least one set is well formed and has at least one set; its
    counters are 0, every lookup in it misses, the first victim of every set
    is way 0, and [_index] and [_tag] return for every address, the index
    within the sets. *)
Theorem constructed_level_is_well_formed (level_name : string) (core_id : CoreId)
    (size line_size assoc : Z) (memory write_back write_allocate : bool) :
  0 < line_size -> 1 <= assoc -> line_size * assoc <= size ->
  exists self,
    CacheLevel.init level_name core_id size line_size assoc memory write_back
                    write_allocate = Some self /\
    level_wf self /\
    CacheLevel.num_sets self = size / line_size / assoc /\
    1 <= CacheLevel.num_sets self /\
    CacheLevel.hits self = 0 /\ CacheLevel.misses self = 0 /\
    Forall (fun cache_set => forall tag, CacheLevel.find_hit cache_set tag 0 = None)
           (CacheLevel.sets self) /\
    Forall (fun p => PLRU.get_victim p = Some 0) (CacheLevel.plru_trees self) /\
    forall addr, exists index tag,
      CacheLevel._index self addr = Some index /\
      CacheLevel._tag self addr = Some tag /\
      0 <= index < CacheLevel.num_sets self.
Proof.
  intros Hl Ha Hs.
  destruct (CacheLevel_init_wf level_name core_id size line_size assoc memory
              write_back write_allocate Hl Ha Hs) as (self & Hinit & Hwf & Hn & _).
  exists self. split; [done|]. split; [done|]. split; [done|].
  pose proof Hwf as [(_ & Hpos & _) _].
  split; [lia|].
  split; [|split; [|split; [|split; [|by intros addr; apply index_tag_total, Hwf]]]].
  all: unfold CacheLevel.init, py_floordiv in Hinit.
  all: rewrite (proj2 (Z.eqb_neq line_size 0)) in Hinit by lia; simpl in Hinit.
  all: rewrite (proj2 (Z.eqb_neq assoc 0)) in Hinit by lia; simpl in Hinit.
  all: inversion Hinit as [Hself]; simpl; try done.
  - apply Forall_replicate. intros tag. apply find_hit_init.
  - apply Forall_replicate.
    destruct (pow2_bracket assoc Ha) as (k & Hk & Hbr).
    unfold PLRU.get_victim, PLRU.get_victim_reads, PLRU.init, py_repeat. simpl.
    rewrite (bit_length_between _ k) by done.
    replace (k + 1 - 1) with k by lia.
    destruct (victim_loop_zeros (Z.to_nat k) (Z.to_nat (assoc - 1)) 0 0)
      as [reads Hreads]; [lia|done| |].
    + rewrite !Z2Nat.id by lia. replace (0 + k) with k by lia. lia.
    + by rewrite Hreads.
Qed.

Lemma constructed_level_is_well_formed_witness :
  exists self,
    CacheLevel.init "L1" (CoreInt 0) 32 4 2 false true true = Some self /\
    level_wf self /\
    CacheLevel.num_sets self = 32 / 4 / 2 /\
    1 <= CacheLevel.num_sets self /\
    CacheLevel.hits self = 0 /\ CacheLevel.misses self = 0 /\
    Forall (fun cache_set => forall tag, CacheLevel.find_hit cache_set tag 0 = None)
           (CacheLevel.sets self) /\
    Forall (fun p => PLRU.get_victim p = Some 0) (CacheLevel.plru_trees self) /\
    forall addr, exists index tag,
      CacheLevel._index self addr = Some index /\
      CacheLevel._tag self addr = Some tag /\
      0 <= index < CacheLevel.num_sets self.
Proof.
  apply (constructed_level_is_well_formed "L1" (CoreInt 0) 32 4 2 false true true);
    lia.
Defined.

(** X25: a level constructed with a size below [line_size * assoc] has no set:
    construction succeeds, [_index] divides by zero for every address, and so
    every read and every write of the level raises, whatever the world and
    the level below it. *)
Theorem undersized_level_raises (level_name : string) (core_id : CoreId)
    (size line_size assoc : Z) (memory write_back write_allocate : bool) :
  0 < line_size -> 0 < assoc -> 0 <= size < line_size * assoc ->
  exists self,
    CacheLevel.init level_name core_id size line_size assoc memory write_back
                    write_allocate = Some self /\
    CacheLevel.num_sets self = 0 /\ CacheLevel.sets self = [] /\
    (forall addr, CacheLevel._index self addr = None) /\
    forall (w : World) (l depth : nat) (lower : option nat) (addr : Z)
           (callback : Callback),
      caches w !! l = Some (CacheLevel.set_lower self lower) ->
      CacheLevel_read (S depth) l addr callback w = None /\
      CacheLevel_write (S depth) l addr w = None.
Proof.
  intros Hl Ha Hs. unfold CacheLevel.init, py_floordiv.
  rewrite (proj2 (Z.eqb_neq line_size 0)) by lia. simpl.
  rewrite (proj2 (Z.eqb_neq assoc 0)) by lia. simpl.
  assert (Hn : size / line_size / assoc = 0).
  { apply Z.div_small. split; [apply Z.div_pos; lia|].
    apply Z.div_lt_upper_bound; lia. }
  eexists. split; [reflexivity|]. simpl. rewrite Hn.
  split; [done|]. split; [done|].
  split.
  - intros addr. unfold CacheLevel._index, py_floordiv, py_mod. simpl.
    rewrite (proj2 (Z.eqb_neq line_size 0)) by lia. done.
  - intros w l depth lower addr callback Hself.
    cbn [CacheLevel_read CacheLevel_write]. rewrite Hself. simpl.
    unfold CacheLevel._index, py_floordiv, py_mod. simpl.
    rewrite (proj2 (Z.eqb_neq line_size 0)) by lia. done.
Qed.

Lemma undersized_level_raises_witness :
  exists self,
    CacheLevel.init "L1" (CoreInt 0) 4 4 2 false true true = Some self /\
    CacheLevel.num_sets self = 0 /\ CacheLevel.sets self = [] /\
    (forall addr, CacheLevel._index self addr = None) /\
    forall (w : World) (l depth : nat) (lower : option nat) (addr : Z)
           (callback : Callback),
      caches w !! l = Some (CacheLevel.set_lower self lower) ->
      CacheLevel_read (S depth) l addr callback w = None /\
      CacheLevel_write (S depth) l addr w = None.
Proof.
  apply (undersized_level_raises "L1" (CoreInt 0) 4 4 2 false true true); lia.
Defined.

(** ** The properties of a simulation, on the small world *)

Lemma dequeue_creates_no_hazard_witness :
  Core.dependency
    (Core.set_pending_accesses small_core [(read, 0); (read, 4)]) write 4 = true.
Proof.
  apply (dequeue_creates_no_hazard
           (Core.set_pending_accesses small_core [(read, 0); (read, 4)])
           read write 0 4).
  reflexivity.
Defined.

Lemma simulate_keeps_lines_sound_witness :
  exists w',
    simulate 3 80 small_world = Some w' /\ Forall level_sound (caches w').
Proof.
  eexists. split; [vm_compute; reflexivity|].
  eapply (simulate_keeps_lines_sound 3 80 small_world).
  - apply small_world_sound.
  - vm_compute. reflexivity.
Defined.

Lemma simulate_keeps_configuration_witness :
  exists w',
    simulate 3 80 small_world = Some w' /\
    length (caches w') = length (caches small_world) /\
    forall l self,
      caches small_world !! l = Some self ->
      exists self',
        caches w' !! l = Some self' /\
        config self' = config self /\
        (level_shape self -> level_shape self') /\
        CacheLevel.hits self <= CacheLevel.hits self' /\
        CacheLevel.misses self <= CacheLevel.misses self'.
Proof.
  eexists. split; [vm_compute; reflexivity|].
  apply (simulate_keeps_configuration 3 80 small_world).
  vm_compute. reflexivity.
Defined.

Lemma simulate_clocks_in_lockstep_witness :
  exists w1 w2,
    simulate 3 100 small_world = Some w1 /\
    simulate 3 30 w1 = Some w2 /\
    global_cycle w2 = 30 /\
    Interconnect.cycle (interconnect w2) = 130 /\
    DDRMemoryController.cycle (ddr_controller w2) = 130 /\
    DDRMemory.cycle (ddr_memory_physical w2) = 130.
Proof.
  eexists _, _. split; [vm_compute; reflexivity|].
  match goal with
  | |- simulate 3 30 ?w1 = _ /\ _ =>
      pose proof (simulate_clocks_in_lockstep 3 30 w1) as Hclocks
  end.
  split; [vm_compute; reflexivity|].
  match goal with
  | |- global_cycle ?w2 = _ /\ _ =>
      destruct (Hclocks w2) as (Hg & Hi & Hc & Hd); [vm_compute; reflexivity|]
  end.
  split; [exact Hg|]. split; [exact Hi|]. split; [exact Hc|exact Hd].
Defined.

Lemma reads_never_stall_witness :
  exists w',
    simulate 3 80 small_world = Some w' /\
    Forall (fun c => reads_only c /\
                     forall addr, Core.dependency c read addr = false) (cores w').
Proof.
  eexists. split; [vm_compute; reflexivity|].
  eapply (reads_never_stall 3 80 small_world).
  - constructor; [|constructor]. split; [constructor|]. intros a. discriminate.
  - vm_compute. reflexivity.
Defined.

Lemma simulate_keeps_memory_ok_witness :
  exists w', simulate 3 80 small_world = Some w' /\ memory_ok w'.
Proof.
  eexists. split; [vm_compute; reflexivity|].
  eapply (simulate_keeps_memory_ok 3 80 small_world).
  - by apply (memory_init_ok 4 15 15 15 30 15 8 4).
  - vm_compute. reflexivity.
Defined.

(** ** The levels that an access reaches *)

Lemma chain_ok (n : nat) :
  forall (h : nat) (w : World) (l l' : nat),
    hierarchy_ok h w l -> l' ∈ chain n w l -> hierarchy_ok h w l'.
Proof.
  induction n as [|n IH]; intros h w l l' Hok Hin; simpl in Hin.
  { by apply elem_of_nil in Hin. }
  apply elem_of_cons in Hin as [-> | Hin]; [done|].
  destruct h as [|h]; [done|].
  destruct Hok as (self & Hself & _ & Hlower).
  rewrite Hself in Hin. simpl in Hin.
  destruct (CacheLevel.lower self) as [lower|]; [|by apply elem_of_nil in Hin].
  apply (hierarchy_ok_mono h); [lia|]. by eapply IH.
Qed.

(** A hierarchy of finite height has no cycle. *)
Lemma chain_acyclic (h : nat) :
  forall (n : nat) (w : World) (l lower : nat) (self : CacheLevel.t),
    hierarchy_ok h w l -> caches w !! l = Some self ->
    CacheLevel.lower self = Some lower -> l ∉ chain n w lower.
Proof.
  induction h as [|h IH]; intros n w l lower self Hok Hself Hlower Hin; [done|].
  pose proof Hok as (self0 & Hself0 & _ & Hok').
  rewrite Hself in Hself0. inversion Hself0; subst self0.
  rewrite Hlower in Hok'.
  by eapply (IH n w l lower self); [eapply chain_ok|..].
Qed.

Lemma chain_step (n : nat) :
  forall (w w' : World) (l : nat),
    Forall2 level_rel (caches w) (caches w') -> chain n w' l = chain n w l.
Proof.
  induction n as [|n IH]; intros w w' l Hrel; simpl; [done|]. f_equal.
  destruct (caches w !! l) as [self|] eqn:Hself.
  - destruct (Forall2_lookup_l _ _ _ _ _ Hrel Hself) as (self' & -> & Hlevel).
    destruct (level_rel_config _ _ Hlevel) as (_ & _ & _ & _ & Hlower & _).
    simpl. rewrite Hlower. destruct (CacheLevel.lower self); [by apply IH|done].
  - destruct (caches w' !! l) as [self'|] eqn:Hself'; [|done].
    destruct (Forall2_lookup_r _ _ _ _ _ Hrel Hself') as (self & Hs & _).
    by rewrite Hs in Hself.
Qed.

(** ** What an access changes in the sets *)

Lemma py_pos_to_nat (len : nat) (i : Z) (p : nat) :
  py_pos len i = Some p -> 0 <= i -> p = Z.to_nat i.
Proof.
  unfold py_pos. intros H Hi. repeat case_match; inversion H; lia.
Qed.

Lemma update_level_frame (w : World) (l : nat) (self : CacheLevel.t)
    (sets : list (list CacheLine.t)) (trees : list PLRU.t) (hits misses : Z) :
  caches w !! l = Some self ->
  let w' := set_caches w (<[l := CacheLevel.update self sets trees hits misses]>
                            (caches w)) in
  sets_at w' l = Some sets /\
  (forall l0, l0 <> l -> caches w' !! l0 = caches w !! l0) /\
  interconnect w' = interconnect w /\ beyond_caches w' = beyond_caches w /\
  random_drawn w' = random_drawn w.
Proof.
  intros Hself. cbv zeta. unfold sets_at. simpl.
  rewrite list_lookup_insert_eq by (by eapply lookup_lt_Some).
  split; [done|]. split; [|done].
  intros l0 Hl0. by rewrite list_lookup_insert_ne.
Qed.

Lemma update_same_sets_frame (w : World) (l : nat) (self : CacheLevel.t)
    (trees : list PLRU.t) (hits misses : Z) :
  caches w !! l = Some self ->
  let w' := set_caches w
              (<[l := CacheLevel.update self (CacheLevel.sets self) trees hits
                        misses]> (caches w)) in
  (forall l0, sets_at w' l0 = sets_at w l0) /\
  (forall l0, l0 <> l -> caches w' !! l0 = caches w !! l0) /\
  interconnect w' = interconnect w /\ beyond_caches w' = beyond_caches w /\
  random_drawn w' = random_drawn w.
Proof.
  intros Hself.
  destruct (update_level_frame w l self (CacheLevel.sets self) trees hits misses
              Hself) as (Hs & Hf & Hrest).
  cbv zeta in *. split; [|done].
  intros l0. destruct (decide (l0 = l)) as [-> | Hne].
  - rewrite Hs. unfold sets_at. by rewrite Hself.
  - unfold sets_at. by rewrite Hf.
Qed.

Lemma count_frame (l : nat) (w w' : World) :
  count_hit l w = Some w' \/ count_miss l w = Some w' ->
  (forall l0, sets_at w' l0 = sets_at w l0) /\
  (forall l0, l0 <> l -> caches w' !! l0 = caches w !! l0) /\
  interconnect w' = interconnect w /\ beyond_caches w' = beyond_caches w /\
  random_drawn w' = random_drawn w.
Proof.
  unfold count_hit, count_miss.
  intros [H | H]; bind_some H as self Hself; inversion H;
    by apply update_same_sets_frame.
Qed.

Lemma plru_access_frame (l : nat) (index way : Z) (w w' : World) :
  plru_access l index way w = Some w' ->
  (forall l0, sets_at w' l0 = sets_at w l0) /\
  (forall l0, l0 <> l -> caches w' !! l0 = caches w !! l0) /\
  interconnect w' = interconnect w /\ beyond_caches w' = beyond_caches w /\
  random_drawn w' = random_drawn w.
Proof.
  unfold plru_access. intros H.
  bind_some H as self Hself. bind_some H as plru Hplru.
  bind_some H as plru' Hplru'. bind_some H as trees Htrees.
  inversion H. by apply update_same_sets_frame.
Qed.

Lemma set_line_frame (l : nat) (index way : Z) (line : CacheLine.t) (w w' : World)
    (sets : list (list CacheLine.t)) (cache_set : list CacheLine.t) :
  set_line l index way line w = Some w' ->
  sets_at w l = Some sets -> py_getitem sets index = Some cache_set ->
  0 <= index -> 0 <= way ->
  sets_at w' l
    = Some (<[Z.to_nat index := <[Z.to_nat way := line]> cache_set]> sets) /\
  (Z.to_nat way < length cache_set)%nat /\
  (Z.to_nat index < length sets)%nat /\
  (forall l0, l0 <> l -> caches w' !! l0 = caches w !! l0) /\
  interconnect w' = interconnect w /\ beyond_caches w' = beyond_caches w /\
  random_drawn w' = random_drawn w.
Proof.
  unfold set_line, sets_at. intros H Hsets Hset Hi Hw.
  bind_some H as self Hself. simpl in Hsets. inversion Hsets; subst sets.
  rewrite Hset in H. simpl in H.
  bind_some H as cache_set' Hset'. bind_some H as sets' Hsets'.
  inversion H; subst w'.
  apply py_setitem_insert in Hset' as (p & Hp & ->).
  apply py_setitem_insert in Hsets' as (q & Hq & ->).
  pose proof (py_pos_lt _ _ _ Hp). pose proof (py_pos_lt _ _ _ Hq).
  apply py_pos_to_nat in Hp; [|done]. apply py_pos_to_nat in Hq; [|done].
  subst p q.
  destruct (update_level_frame w l self
              (<[Z.to_nat index := <[Z.to_nat way := line]> cache_set]>
                 (CacheLevel.sets self))
              (CacheLevel.plru_trees self) (CacheLevel.hits self)
              (CacheLevel.misses self) Hself) as (Hs & Hrest).
  unfold sets_at in Hs. done.
Qed.

Lemma Interconnect_request_caches (req : MemoryRequest.t) (w : World) :
  caches (Interconnect_request req w) = caches w.
Proof. reflexivity. Qed.

(** A write changes no level beyond those it reaches. *)
Lemma CacheLevel_write_frame (depth : nat) :
  forall (l : nat) (addr : Z) (w w' : World),
    CacheLevel_write depth l addr w = Some w' ->
    forall l0, l0 ∉ chain depth w l -> caches w' !! l0 = caches w !! l0.
Proof.
  induction depth as [|depth IH]; intros l addr w w' H l0 Hl0; [done|].
  cbn [CacheLevel_write] in H. bind_some H as self Hself.
  assert (Hprop : forall a w1 w2,
            cache_step no_callback w w1 ->
            propagate_write (CacheLevel_write depth) self a w1 = Some w2 ->
            caches w2 !! l0 = caches w1 !! l0).
  { intros a w1 w2 Hs Hp. unfold propagate_write in Hp.
    destruct (CacheLevel.lower self) as [lower|] eqn:Hlower.
    - eapply IH; [exact Hp|].
      rewrite (chain_step depth w w1) by (by eapply cache_step_caches).
      simpl in Hl0. rewrite Hself in Hl0. simpl in Hl0. rewrite Hlower in Hl0.
      by apply not_elem_of_cons in Hl0 as [_ ?].
    - destruct (CacheLevel.memory self); by inversion Hp. }
  assert (Hne : l0 <> l).
  { simpl in Hl0. by apply not_elem_of_cons in Hl0 as [? _]. }
  bind_some H as index Hindex.
  bind_some H as tag Htag. bind_some H as cache_set Hset.
  bind_some H as plru Hplru.
  destruct (CacheLevel.find_hit cache_set tag 0) as [i|] eqn:Hfind.
  - bind_some H as w1 H1. bind_some H as line Hline.
    bind_some H as w2 H2. bind_some H as w3 H3.
    assert (Hs1 : cache_step no_callback w w1) by (eapply count_step; eauto).
    assert (Hs2 : cache_step no_callback w1 w2).
    { eapply set_line_step; [exact H2|].
      apply (line_sound_at (P := no_callback) w w1 l self); [done..|].
      destruct (find_hit_line _ _ _ _ Hfind Hline) as (_ & Hv & Ht).
      unfold line_sound. simpl. rewrite Hv, Ht. split; [done|].
      split; [eauto|done]. }
    assert (Hs3 : cache_step no_callback w2 w3) by (by eapply plru_access_step).
    assert (Hs : cache_step no_callback w w3) by (etrans; [|done]; by etrans).
    destruct (count_frame l w w1 (or_introl H1)) as (_ & Hf1 & _).
    assert (Hf2 : caches w2 !! l0 = caches w1 !! l0).
    { unfold set_line in H2. bind_some H2 as s1 Hs1'. bind_some H2 as c1 Hc1.
      bind_some H2 as c2 Hc2. bind_some H2 as c3 Hc3. inversion H2. simpl.
      by rewrite list_lookup_insert_ne. }
    destruct (plru_access_frame _ _ _ _ _ H3) as (_ & Hf3 & _).
    assert (Hf : caches w3 !! l0 = caches w !! l0).
    { rewrite Hf3, Hf2, Hf1; done. }
    destruct (CacheLevel.write_back self).
    + by inversion H; subst w'.
    + by rewrite (Hprop _ _ _ Hs H).
  - bind_some H as w1 H1.
    assert (Hs1 : cache_step no_callback w w1) by (eapply count_step; eauto).
    destruct (count_frame l w w1 (or_intror H1)) as (_ & Hf1 & _).
    destruct (CacheLevel.write_allocate self).
    2:{ by rewrite (Hprop _ _ _ Hs1 H), Hf1. }
    bind_some H as victim_idx Hvictim. bind_some H as victim_line Hvline.
    bind_some H as w2 H2. bind_some H as w3 H3.
    assert (Hf2 : caches w2 !! l0 = caches w1 !! l0).
    { destruct (_ && _) in H2; [|by inversion H2].
      bind_some H2 as victim_addr Ha. by eapply Hprop. }
    assert (Hf3 : caches w3 !! l0 = caches w2 !! l0).
    { unfold set_line in H3. bind_some H3 as s1 Hs1'. bind_some H3 as c1 Hc1.
      bind_some H3 as c2 Hc2. bind_some H3 as c3 Hc3. inversion H3. simpl.
      by rewrite list_lookup_insert_ne. }
    destruct (plru_access_frame _ _ _ _ _ H) as (_ & Hf4 & _).
    rewrite Hf4, Hf3, Hf2, Hf1; done.
Qed.

(** ** A written line is resident *)

Lemma find_hit_insert_miss (cache_set : list CacheLine.t) (tag : Z) (way : nat)
    (line : CacheLine.t) :
  forall i0,
    CacheLevel.find_hit cache_set tag i0 = None ->
    (way < length cache_set)%nat ->
    CacheLine.valid line = true -> CacheLine.tag line = Some tag ->
    CacheLevel.find_hit (<[way := line]> cache_set) tag i0
      = Some (i0 + Z.of_nat way).
Proof.
  revert way. induction cache_set as [|x rest IH]; intros way i0 Hmiss Hway Hv Ht;
    simpl in *; [lia|].
  destruct (CacheLine.valid x && bool_decide (CacheLine.tag x = Some tag)) eqn:Hx;
    [done|].
  destruct way as [|way]; simpl.
  - rewrite Hv, Ht, bool_decide_eq_true_2 by done. simpl. f_equal. lia.
  - rewrite Hx, (IH way (i0 + 1)) by (done || lia). f_equal. lia.
Qed.

Lemma find_hit_insert_hit (cache_set : list CacheLine.t) (tag : Z)
    (line : CacheLine.t) :
  forall i0 i,
    CacheLevel.find_hit cache_set tag i0 = Some i ->
    CacheLine.valid line = true -> CacheLine.tag line = Some tag ->
    CacheLevel.find_hit (<[Z.to_nat (i - i0) := line]> cache_set) tag i0 = Some i.
Proof.
  induction cache_set as [|x rest IH]; intros i0 i Hhit Hv Ht; simpl in *; [done|].
  destruct (CacheLine.valid x && bool_decide (CacheLine.tag x = Some tag)) eqn:Hx.
  - inversion Hhit; subst i. replace (Z.to_nat (i0 - i0)) with 0%nat by lia.
    simpl. by rewrite Hv, Ht, bool_decide_eq_true_2.
  - pose proof (find_hit_spec _ _ _ _ Hhit) as [Hi _].
    replace (Z.to_nat (i - i0)) with (S (Z.to_nat (i - (i0 + 1)))) by lia.
    simpl. rewrite Hx. by apply IH.
Qed.

Lemma sets_at_lookup (w : World) (l : nat) (sets : list (list CacheLine.t)) :
  sets_at w l = Some sets ->
  exists self, caches w !! l = Some self /\ CacheLevel.sets self = sets.
Proof.
  unfold sets_at. intros H. destruct (caches w !! l) as [self|]; [|done].
  inversion H. by exists self.
Qed.

(** X26: a write to a write-allocate level of a well formed hierarchy returns and
    leaves the line resident: afterwards the set of the address holds, at the
    first way that the lookup of [read] and [write] finds, a valid line with
    the tag of the address, dirty exactly when the level is write-back.  The
    next access to the address at this level hits, also after the write has
    gone through the levels below. *)
Theorem written_line_is_resident (height depth l : nat) (addr : Z) (w : World)
    (self : CacheLevel.t) :
  hierarchy_ok height w l -> (height <= depth)%nat ->
  caches w !! l = Some self -> CacheLevel.write_allocate self = true ->
  exists w' self' index tag cache_set way,
    CacheLevel_write depth l addr w = Some w' /\
    caches w' !! l = Some self' /\
    CacheLevel._index self' addr = Some index /\
    CacheLevel._tag self' addr = Some tag /\
    py_getitem (CacheLevel.sets self') index = Some cache_set /\
    CacheLevel.find_hit cache_set tag 0 = Some way /\
    py_getitem cache_set way
      = Some {| CacheLine.valid := true; CacheLine.tag := Some tag;
                CacheLine.dirty := CacheLevel.write_back self |}.
Proof.
  intros Hok Hle Hself Hwa.
  destruct (CacheLevel_write_total depth l addr w) as [w' Hw'].
  { by eapply hierarchy_ok_mono. }
  pose proof (CacheLevel_write_step _ _ _ _ _ Hw') as Hstep.
  destruct (cache_step_lookup _ _ _ _ Hstep Hself) as (self' & Hself' & Hrel).
  destruct (level_rel_config _ _ Hrel) as (Hls & Has & Hns & _).
  destruct height as [|height]; [done|].
  pose proof Hok as (self0 & Hself0 & [Hshape Hsound] & Hlower).
  rewrite Hself in Hself0. inversion Hself0; subst self0. clear Hself0.
  destruct (index_tag_total self addr Hshape) as (index & tag & Hindex & Htag & Hi).
  destruct (level_set_lookup self index Hshape Hi)
    as (cache_set & plru & Hset & Hlen & _ & Hplru & Htree).
  assert (Hend : forall w3 way line,
            sets_at w3 l
              = Some (<[Z.to_nat index := <[Z.to_nat way := line]> cache_set]>
                        (CacheLevel.sets self)) ->
            caches w' !! l = caches w3 !! l ->
            0 <= way < Z.of_nat (length cache_set) ->
            CacheLevel.find_hit (<[Z.to_nat way := line]> cache_set) tag 0
              = Some way ->
            line = {| CacheLine.valid := true; CacheLine.tag := Some tag;
                      CacheLine.dirty := CacheLevel.write_back self |} ->
            exists cache_set' way',
              py_getitem (CacheLevel.sets self') index = Some cache_set' /\
              CacheLevel.find_hit cache_set' tag 0 = Some way' /\
              py_getitem cache_set' way'
                = Some {| CacheLine.valid := true; CacheLine.tag := Some tag;
                          CacheLine.dirty := CacheLevel.write_back self |}).
  { intros w3 way line Hsets Heq Hway Hfind ->.
    apply sets_at_lookup in Hsets as (self3 & Hself3 & Hsets3).
    rewrite Hself', Hself3 in Heq. inversion Heq; subst self3.
    assert (Hin : (Z.to_nat index < length (CacheLevel.sets self))%nat).
    { destruct Hshape as (_ & _ & _ & Hl & _). lia. }
    eexists _, way. rewrite Hsets3.
    rewrite py_getitem_nonneg by (rewrite length_insert; lia).
    rewrite list_lookup_insert_eq by done.
    split; [done|]. split; [done|].
    rewrite py_getitem_nonneg by (rewrite length_insert; lia).
    apply list_lookup_insert_eq. lia. }
  exists w', self'.
  enough (exists cache_set' way',
             py_getitem (CacheLevel.sets self') index = Some cache_set' /\
             CacheLevel.find_hit cache_set' tag 0 = Some way' /\
             py_getitem cache_set' way'
               = Some {| CacheLine.valid := true; CacheLine.tag := Some tag;
                         CacheLine.dirty := CacheLevel.write_back self |})
    as (cache_set' & way' & H1 & H2 & H3).
  { exists index, tag, cache_set', way'. split; [done|]. split; [done|].
    unfold CacheLevel._index, CacheLevel._tag in *. rewrite Hls, Hns.
    done. }
  assert (Hsets0 : sets_at w l = Some (CacheLevel.sets self))
    by (unfold sets_at; by rewrite Hself).
  destruct depth as [|depth]; [done|].
  pose proof Hw' as H. cbn [CacheLevel_write] in H.
  rewrite Hself in H. simpl in H. rewrite Hindex in H. simpl in H.
  rewrite Htag in H. simpl in H. rewrite Hset in H. simpl in H.
  rewrite Hplru in H. simpl in H.
  assert (Hprop : forall a w1 w2,
            cache_step no_callback w w1 ->
            propagate_write (CacheLevel_write depth) self a w1 = Some w2 ->
            caches w2 !! l = caches w1 !! l).
  { intros a w1 w2 Hs Hp. unfold propagate_write in Hp.
    destruct (CacheLevel.lower self) as [lower|] eqn:Hlow.
    - eapply CacheLevel_write_frame; [exact Hp|].
      rewrite (chain_step depth w w1) by (by eapply cache_step_caches).
      by eapply (chain_acyclic (S height)).
    - destruct (CacheLevel.memory self); by inversion Hp. }
  destruct (CacheLevel.find_hit cache_set tag 0) as [i|] eqn:Hfind.
  - bind_some H as w1 H1. bind_some H as line Hline.
    bind_some H as w2 H2. bind_some H as w3 H3.
    assert (Hs1 : cache_step no_callback w w1) by (eapply count_step; eauto).
    destruct (find_hit_line _ _ _ _ Hfind Hline) as (Hib & Hv & Ht).
    assert (Hs2 : cache_step no_callback w1 w2).
    { eapply set_line_step; [exact H2|].
      apply (line_sound_at (P := no_callback) w w1 l self); [done..|].
      unfold line_sound. simpl. rewrite Hv, Ht. split; [done|].
      split; [eauto|done]. }
    assert (Hs3 : cache_step no_callback w2 w3) by (by eapply plru_access_step).
    assert (Hs : cache_step no_callback w w3) by (etrans; [|done]; by etrans).
    destruct (count_frame l w w1 (or_introl H1)) as (Hc1 & _).
    destruct (set_line_frame _ _ _ _ _ _ (CacheLevel.sets self) cache_set H2)
      as (Hc2 & _);
      [by rewrite Hc1|done|lia|lia|].
    destruct (plru_access_frame _ _ _ _ _ H3) as (Hc3 & _).
    rewrite <- Hc3 in Hc2. rewrite Hv, Ht in Hc2.
    eapply (Hend w3 i); [exact Hc2| |lia| |done].
    + destruct (CacheLevel.write_back self); [by inversion H|].
      by eapply Hprop.
    + pose proof (find_hit_insert_hit cache_set tag
                    {| CacheLine.valid := true; CacheLine.tag := Some tag;
                       CacheLine.dirty := CacheLevel.write_back self |}
                    0 i Hfind eq_refl eq_refl) as Hhit.
      by replace (i - 0) with i in Hhit by lia.
  - bind_some H as w1 H1. rewrite Hwa in H.
    bind_some H as victim_idx Hvictim. bind_some H as victim_line Hvline.
    bind_some H as w2 H2. bind_some H as w3 H3.
    assert (Hs1 : cache_step no_callback w w1) by (eapply count_step; eauto).
    destruct (get_victim_total plru _ Htree) as (v & Hv & Hvb);
      [by destruct Hshape as (_ & _ & ? & _)|].
    rewrite Hvictim in Hv. inversion Hv; subst v.
    destruct (count_frame l w w1 (or_intror H1)) as (Hc1 & _).
    assert (Hc2 : sets_at w2 l = sets_at w1 l).
    { unfold sets_at. f_equal.
      destruct (_ && _) in H2; [|by inversion H2].
      bind_some H2 as victim_addr Ha. by eapply Hprop. }
    destruct (set_line_frame _ _ _ _ _ _ (CacheLevel.sets self) cache_set H3)
      as (Hc3 & _);
      [by rewrite Hc2, Hc1|done|lia|lia|].
    destruct (plru_access_frame _ _ _ _ _ H) as (Hc4 & _).
    rewrite <- Hc4 in Hc3.
    eapply (Hend w' victim_idx); [exact Hc3|done|lia| |done].
    pose proof (find_hit_insert_miss cache_set tag (Z.to_nat victim_idx)
                  {| CacheLine.valid := true; CacheLine.tag := Some tag;
                     CacheLine.dirty := CacheLevel.write_back self |}
                  0 Hfind ltac:(lia) eq_refl eq_refl) as Hhit.
    rewrite Hhit. f_equal. lia.
Qed.

Lemma written_line_is_resident_witness :
  exists w' self' index tag cache_set way,
    CacheLevel_write 2 1 4 small_world = Some w' /\
    caches w' !! 1%nat = Some self' /\
    CacheLevel._index self' 4 = Some index /\
    CacheLevel._tag self' 4 = Some tag /\
    py_getitem (CacheLevel.sets self') index = Some cache_set /\
    CacheLevel.find_hit cache_set tag 0 = Some way /\
    py_getitem cache_set way
      = Some {| CacheLine.valid := true; CacheLine.tag := Some tag;
                CacheLine.dirty := true |}.
Proof.
  apply (written_line_is_resident 2 2 1 4 small_world small_l1);
    [|lia|reflexivity|reflexivity].
  destruct small_world_wf as (Hcores & _).
  exact (Forall_lookup_1 _ _ 0%nat small_core Hcores eq_refl).
Defined.

(** X27: a write that misses in a write-through, write-allocate level allocates
    the line, clean, and goes no further: the interconnect, every other cache
    level, the cores, the controller and the DDR memory are unchanged, and no
    random value is drawn.  The written data reaches no lower level. *)
Theorem write_through_miss_is_not_propagated (depth l : nat) (addr : Z)
    (w w' : World) (self : CacheLevel.t) (index tag : Z)
    (cache_set : list CacheLine.t) :
  caches w !! l = Some self ->
  CacheLevel.write_back self = false -> CacheLevel.write_allocate self = true ->
  CacheLevel._index self addr = Some index ->
  CacheLevel._tag self addr = Some tag ->
  py_getitem (CacheLevel.sets self) index = Some cache_set ->
  CacheLevel.find_hit cache_set tag 0 = None ->
  CacheLevel_write depth l addr w = Some w' ->
  interconnect w' = interconnect w /\
  beyond_caches w' = beyond_caches w /\
  random_drawn w' = random_drawn w /\
  (forall l0, l0 <> l -> caches w' !! l0 = caches w !! l0) /\
  exists victim_idx,
    line_at w' l index victim_idx
      = Some {| CacheLine.valid := true; CacheLine.tag := Some tag;
                CacheLine.dirty := false |}.
Proof.
  intros Hself Hwb Hwa Hindex Htag Hset Hfind H.
  destruct depth as [|depth]; [done|].
  cbn [CacheLevel_write] in H.
  rewrite Hself in H. simpl in H. rewrite Hindex in H. simpl in H.
  rewrite Htag in H. simpl in H. rewrite Hset in H. simpl in H.
  bind_some H as plru Hplru. rewrite Hfind in H.
  bind_some H as w1 H1. rewrite Hwa, Hwb in H.
  bind_some H as victim_idx Hvictim. bind_some H as victim_line Hvline.
  rewrite andb_false_r in H. simpl in H.
  bind_some H as w2 H2.
  destruct (count_frame l w w1 (or_intror H1)) as (_ & Hf1 & Hi1 & Hb1 & Hr1).
  destruct (set_line_spec _ _ _ _ _ _ H2) as (Hline & _ & Hb2 & Hi2).
  assert (Hf2 : forall l0, l0 <> l -> caches w2 !! l0 = caches w1 !! l0).
  { intros l0 Hne. unfold set_line in H2.
    bind_some H2 as s1 Hs1'. bind_some H2 as c1 Hc1.
    bind_some H2 as c2 Hc2. bind_some H2 as c3 Hc3. inversion H2. simpl.
    by rewrite list_lookup_insert_ne. }
  assert (Hr2 : random_drawn w2 = random_drawn w1).
  { unfold set_line in H2.
    bind_some H2 as s1 Hs1'. bind_some H2 as c1 Hc1.
    bind_some H2 as c2 Hc2. bind_some H2 as c3 Hc3. by inversion H2. }
  destruct (plru_access_frame _ _ _ _ _ H) as (_ & Hf3 & Hi3 & Hb3 & Hr3).
  destruct (plru_access_spec _ _ _ _ _ H) as (Hline3 & _).
  split; [congruence|]. split; [congruence|]. split; [congruence|].
  split.
  - intros l0 Hne. rewrite Hf3, Hf2, Hf1; done.
  - exists victim_idx. by rewrite Hline3.
Qed.

Lemma write_through_miss_is_not_propagated_witness :
  exists w',
    CacheLevel_write 2 1 4 through_world = Some w' /\
    interconnect w' = interconnect through_world /\
    beyond_caches w' = beyond_caches through_world /\
    random_drawn w' = random_drawn through_world /\
    (forall l0, l0 <> 1%nat -> caches w' !! l0 = caches through_world !! l0) /\
    exists victim_idx,
      line_at w' 1 0 victim_idx
        = Some {| CacheLine.valid := true; CacheLine.tag := Some 1;
                  CacheLine.dirty := false |}.
Proof.
  eexists. split; [vm_compute; reflexivity|].
  apply (write_through_miss_is_not_propagated 2 1 4 through_world _ through_l1 0 1
           [CacheLine.init; CacheLine.init]); try reflexivity.
Defined.

(** ** The requests that a write sends *)

Lemma write_request_of_back (w w1 : World) (addr a : Z) (req : MemoryRequest.t) :
  same_dirty w w1 -> a = addr \/ victim_address w a ->
  write_request_of w1 a req -> write_request_of w addr req.
Proof.
  intros Hsame Ha (Htype & Hcb & Hct & Haddr & (l & self1 & Hself1 & Hmem & Hlow & Hid)).
  split; [done|]. split; [done|]. split; [done|]. split.
  - destruct Haddr as [Heq | Hvictim].
    + rewrite Heq. exact Ha.
    + right.
      destruct Hvictim as (l' & s1 & index & cache_set & line & tag & Hs1 & Hwb
                           & Hset & Hline & Hv & Hd & Ht & Heq).
      destruct (Hsame l' s1 Hs1) as (s & Hs & Hc & Hsets).
      unfold config in Hc. inversion Hc as [[Hlv Hcid Hls Has Hns Hm Hlo Hwb' Hwa]].
      exists l', s, index, cache_set, line, tag.
      rewrite <- Hwb', <- Hns, <- Hls. rewrite <- Hsets by congruence. done.
  - destruct (Hsame l self1 Hself1) as (self & Hself & Hc & _).
    unfold config in Hc. inversion Hc as [[Hlv Hcid Hls Has Hns Hm Hlo Hwb' Hwa]].
    exists l, self. rewrite <- Hm, <- Hlo, <- Hcid. done.
Qed.

Lemma same_dirty_sets {P} (w w1 : World) :
  cache_step P w w1 -> (forall l, sets_at w1 l = sets_at w l) -> same_dirty w w1.
Proof.
  intros Hstep Hsets l self1 Hself1.
  destruct (cache_step_lookup_r _ _ _ _ Hstep Hself1) as (self & Hself & Hrel).
  exists self. split; [done|]. split; [apply Hrel|]. intros _.
  specialize (Hsets l). unfold sets_at in Hsets.
  rewrite Hself, Hself1 in Hsets. by inversion Hsets.
Qed.

Lemma same_dirty_through {P} (w w1 : World) (l : nat) (self : CacheLevel.t) :
  cache_step P w w1 -> caches w !! l = Some self ->
  CacheLevel.write_back self = false ->
  (forall l0, l0 <> l -> caches w1 !! l0 = caches w !! l0) -> same_dirty w w1.
Proof.
  intros Hstep Hself Hwb Hframe l0 self1 Hself1.
  destruct (cache_step_lookup_r _ _ _ _ Hstep Hself1) as (self0 & Hself0 & Hrel).
  exists self0. split; [done|]. split; [apply Hrel|]. intros Hwb0.
  destruct (decide (l0 = l)) as [-> | Hne].
  - rewrite Hself in Hself0. inversion Hself0; subst self0. congruence.
  - rewrite Hframe, Hself0 in Hself1 by done. by inversion Hself1.
Qed.

(** Every request that a write sends to the interconnect is a write of its
    address or of a victim. *)
Lemma CacheLevel_write_requests (depth : nat) :
  forall (l : nat) (addr : Z) (w w' : World),
    CacheLevel_write depth l addr w = Some w' ->
    cache_step (write_request_of w addr) w w'.
Proof.
  induction depth as [|depth IH]; intros l addr w w' H; [done|].
  cbn [CacheLevel_write] in H. bind_some H as self Hself.
  assert (Hprop : forall a w1 w2,
            same_dirty w w1 -> a = addr \/ victim_address w a ->
            propagate_write (CacheLevel_write depth) self a w1 = Some w2 ->
            cache_step (write_request_of w addr) w1 w2).
  { intros a w1 w2 Hsame Ha Hp. unfold propagate_write in Hp.
    destruct (CacheLevel.lower self) as [lower|] eqn:Hlower.
    - eapply cache_step_weaken; [|by eapply IH].
      intros req. by apply write_request_of_back.
    - destruct (CacheLevel.memory self) eqn:Hmem; inversion Hp; [|reflexivity].
      apply Interconnect_request_step.
      split; [done|]. split; [done|]. split; [done|]. split; [exact Ha|].
      by exists l, self. }
  bind_some H as index Hindex.
  bind_some H as tag Htag. bind_some H as cache_set Hset.
  bind_some H as plru Hplru.
  destruct (CacheLevel.find_hit cache_set tag 0) as [i|] eqn:Hfind.
  - bind_some H as w1 H1. bind_some H as line Hline.
    bind_some H as w2 H2. bind_some H as w3 H3.
    assert (Hs1 : cache_step (write_request_of w addr) w w1)
      by (eapply count_step; eauto).
    assert (Hs2 : cache_step (write_request_of w addr) w1 w2).
    { eapply set_line_step; [exact H2|].
      apply (line_sound_at (P := write_request_of w addr) w w1 l self); [done..|].
      destruct (find_hit_line _ _ _ _ Hfind Hline) as (_ & Hv & Ht).
      unfold line_sound. simpl. rewrite Hv, Ht. split; [done|].
      split; [eauto|done]. }
    assert (Hs3 : cache_step (write_request_of w addr) w2 w3)
      by (by eapply plru_access_step).
    assert (Hs : cache_step (write_request_of w addr) w w3)
      by (etrans; [|done]; by etrans).
    destruct (CacheLevel.write_back self) eqn:Hwb.
    + by inversion H; subst w'.
    + etrans; [exact Hs|]. eapply Hprop; [|by left|exact H].
      eapply same_dirty_through; [exact Hs|exact Hself|exact Hwb|].
      intros l0 Hne.
      destruct (count_frame l w w1 (or_introl H1)) as (_ & Hf1 & _).
      destruct (plru_access_frame _ _ _ _ _ H3) as (_ & Hf3 & _).
      rewrite Hf3, <- Hf1 by done.
      unfold set_line in H2. bind_some H2 as s1 Hs1'. bind_some H2 as c1 Hc1.
      bind_some H2 as c2 Hc2. bind_some H2 as c3 Hc3. inversion H2. simpl.
      by rewrite list_lookup_insert_ne.
  - bind_some H as w1 H1.
    assert (Hs1 : cache_step (write_request_of w addr) w w1)
      by (eapply count_step; eauto).
    assert (Hsame : same_dirty w w1).
    { eapply same_dirty_sets; [exact Hs1|].
      by destruct (count_frame l w w1 (or_intror H1)) as (? & _). }
    destruct (CacheLevel.write_allocate self).
    2:{ etrans; [exact Hs1|]. eapply Hprop; [exact Hsame|by left|exact H]. }
    bind_some H as victim_idx Hvictim. bind_some H as victim_line Hvline.
    bind_some H as w2 H2. bind_some H as w3 H3.
    assert (Hs2 : cache_step (write_request_of w addr) w1 w2).
    { destruct (CacheLine.valid victim_line && CacheLine.dirty victim_line
                && CacheLevel.write_back self) eqn:Hdirty;
        [|inversion H2; reflexivity].
      bind_some H2 as victim_addr Ha.
      eapply Hprop; [exact Hsame| |exact H2]. right.
      apply andb_true_iff in Hdirty as [Hvd Hwb].
      apply andb_true_iff in Hvd as [Hv Hd].
      unfold reconstructed_addr in Ha. bind_some Ha as vtag Hvtag.
      inversion Ha.
      apply py_getitem_lookup in Hvline as (p & _ & Hp).
      exists l, self, index, cache_set, victim_line, vtag.
      split; [done|]. split; [done|]. split; [done|].
      split; [by eapply list_elem_of_lookup_2|]. done. }
    assert (Hs12 : cache_step (write_request_of w addr) w w2) by (by etrans).
    assert (Hs3 : cache_step (write_request_of w addr) w2 w3).
    { eapply set_line_step; [exact H3|].
      apply (line_sound_at (P := write_request_of w addr) w w2 l self); [done..|].
      unfold line_sound. simpl. split; [done|]. split; [eauto|done]. }
    etrans; [exact Hs12|]. etrans; [exact Hs3|]. by eapply plru_access_step.
Qed.

(** X20: a write to a cache level below which there are at most [height] well
    formed levels returns when [height] nested calls are allowed: no subscript
    is out of range and no divisor is zero.  The levels stay well formed, the
    clocks, the controller and the DDR memory are unchanged, and every request
    that it sends to the interconnect is a write, issued at the current cycle
    without a callable and without a completion time in the name of a level
    linked to the interconnect, of the written address or of a victim: the
    address rebuilt from the tag and the set of a valid dirty line of a
    write-back level. *)
Theorem write_never_raises (height depth l : nat) (addr : Z) (w : World) :
  hierarchy_ok height w l -> (height <= depth)%nat ->
  exists w',
    CacheLevel_write depth l addr w = Some w' /\
    hierarchy_ok height w' l /\
    cache_step (write_request_of w addr) w w'.
Proof.
  intros Hok Hle.
  destruct (CacheLevel_write_total depth l addr w) as [w' Hw'].
  { by eapply hierarchy_ok_mono. }
  exists w'. split; [done|].
  pose proof (CacheLevel_write_requests _ _ _ _ _ Hw') as Hstep.
  split; [|done].
  eapply hierarchy_ok_step; [|exact Hok]. by eapply cache_step_caches.
Qed.

Lemma write_never_raises_witness :
  exists w',
    CacheLevel_write 2 0 36 dirty_world = Some w' /\
    hierarchy_ok 1 w' 0 /\
    cache_step (write_request_of dirty_world 36) dirty_world w'.
Proof.
  apply (write_never_raises 1 2 0 36 dirty_world); [|lia].
  exists dirty_level. split; [reflexivity|]. split; [|done].
  split; [unfold level_shape|unfold level_sound]; simpl.
  - split; [lia|]. split; [lia|]. split; [lia|]. split; [done|].
    split; [repeat constructor|]. split; [done|]. repeat constructor.
  - repeat constructor; simpl; eauto; done.
Defined.
